(** * GpuPreAgg device kernels (opencl_gpupreagg.h): a shallow embedding

    The kernels of [src/opencl_gpupreagg.h] are embedded as functions on
    explicit states.  Device integers are [Z] with their wrap-around
    written out, arrays are lists indexed through [Z.to_nat], work-items
    are numbered by their [get_global_id(0)], and the atomic operations of
    concurrent work-items are interleaved by an explicit schedule. *)

From Stdlib Require Import ZArith List Lia Bool.
From stdpp Require Import base option list.
Import ListNotations.

Local Open Scope Z_scope.

(** ** Machine integers *)

Definition wrap_unsigned (w : Z) (x : Z) : Z := x mod 2 ^ w.

Definition wrap_signed (w : Z) (x : Z) : Z :=
  (x + 2 ^ (w - 1)) mod 2 ^ w - 2 ^ (w - 1).

(** [(cl_uint)(0xffffffff)] *)
Definition ALL_ONES : Z := 4294967295.

(** ** Status codes

    The header that gives the [StromError_*] codes their numbers is not
    part of this file's sources; only their identity matters here. *)

Inductive StromError : Type :=
| StromError_Success
| StromError_CpuReCheck
| StromError_DataStoreCorruption
| StromError_DataStoreNoSpace.

#[global] Instance StromError_eq_dec : EqDecision StromError.
Proof. solve_decision. Defined.

(** Modelled from the spec: [STROM_SET_ERROR] is defined in a header that
    is not among the sources.  The status is "first-error-wins, never
    overwritten once set". *)
Definition STROM_SET_ERROR (errcode : StromError) (code : StromError)
  : StromError :=
  match errcode with
  | StromError_Success => code
  | _ => errcode
  end.

(** ** Column batch ([kern_data_store], tuple-slot format)

    [KERN_DATA_STORE_VALUES(kds,i)] and [KERN_DATA_STORE_ISNULL(kds,i)]
    are the [Datum] array and the [cl_char] array of row [i]. *)

Record tupslot : Type := mk_tupslot {
  ts_values : list Z;      (* Datum values[ncols] *)
  ts_isnull : list Z       (* cl_char isnull[ncols] *)
}.

Record kern_data_store : Type := mk_kds {
  ncols  : Z;              (* cl_uint *)
  nitems : Z;              (* cl_uint, grown by atomic_add *)
  nrooms : Z;              (* cl_uint *)
  colmeta_attlen : list Z; (* colmeta[i].attlen *)
  slots  : list tupslot
}.

Definition KERN_DATA_STORE_VALUES (kds : kern_data_store) (rowidx : Z)
  : list Z :=
  default [] (ts_values <$> slots kds !! Z.to_nat rowidx).

Definition KERN_DATA_STORE_ISNULL (kds : kern_data_store) (rowidx : Z)
  : list Z :=
  default [] (ts_isnull <$> slots kds !! Z.to_nat rowidx).

(** C array read; a cell that does not exist reads as 0. *)
Definition cell (a : list Z) (i : Z) : Z := default 0 (a !! Z.to_nat i).

Definition set_datum (kds : kern_data_store) (rowidx colidx : Z)
    (isnull value : Z) : kern_data_store :=
  mk_kds (ncols kds) (nitems kds) (nrooms kds) (colmeta_attlen kds)
    (alter (fun t => mk_tupslot (<[Z.to_nat colidx := value]> (ts_values t))
                                (<[Z.to_nat colidx := isnull]> (ts_isnull t)))
           (Z.to_nat rowidx) (slots kds)).

Definition set_nitems (kds : kern_data_store) (n : Z) : kern_data_store :=
  mk_kds (ncols kds) n (nrooms kds) (colmeta_attlen kds) (slots kds).

(** Every row of the store has [ncols] value words and null flags. *)
Definition kds_wf (kds : kern_data_store) : Prop :=
  0 <= ncols kds /\
  Forall (fun t => length (ts_values t) = Z.to_nat (ncols kds) /\
                   length (ts_isnull t) = Z.to_nat (ncols kds)) (slots kds).

(** ** gpupreagg_data_move

    Returns the private error code and the destination store. *)
Definition gpupreagg_data_move (errcode : StromError)
    (kds_src kds_dst : kern_data_store)
    (colidx rowidx_src rowidx_dst : Z)
  : StromError * kern_data_store :=
  if (colidx >=? ncols kds_src) || (colidx >=? ncols kds_dst) then
    (STROM_SET_ERROR errcode StromError_DataStoreCorruption, kds_dst)
  else
    let src_values := KERN_DATA_STORE_VALUES kds_src rowidx_src in
    let src_isnull := KERN_DATA_STORE_ISNULL kds_src rowidx_src in
    if negb (cell src_isnull colidx =? 0) then
      (errcode, set_datum kds_dst rowidx_dst colidx 1 0)
    else
      (errcode, set_datum kds_dst rowidx_dst colidx 0 (cell src_values colidx)).

(** ** Accumulators ([pagg_datum]) and the merge templates

    The value is a union of [short_val], [int_val], [long_val] (and the
    float views); [pd_bits] holds its eight bytes as an unsigned 64-bit
    number, little-endian, and each view reads or writes the low bytes.

    The templates are embedded at the three integer fields, which is where
    the source instantiates them as [..._SHORT], [..._INT] and [..._LONG].
    The instantiations [..._FLOAT] and [..._DOUBLE] (with
    [CHECK_OVERFLOW_FLOAT]) and the numeric ones are not embedded: nothing
    below speaks of them, and what is proved of the order of integer merges
    does not carry over to floating-point addition, which is not
    associative. *)

Record pagg_datum : Type := mk_pagg_datum {
  pd_group_id : Z;         (* cl_uint group_id *)
  pd_isnull : bool;        (* cl_char isnull, assigned true / false *)
  pd_bits : Z
}.

Inductive int_field : Type := F_short | F_int | F_long.

#[global] Instance int_field_eq_dec : EqDecision int_field.
Proof. solve_decision. Defined.

(** width of [FIELD##_val] *)
Definition field_bits (f : int_field) : Z :=
  match f with F_short => 16 | F_int => 32 | F_long => 64 end.

(** width in which [x + y] is evaluated: operands narrower than [int] are
    promoted to [int] by the usual arithmetic conversions *)
Definition arith_bits (f : int_field) : Z :=
  match f with F_short => 32 | F_int => 32 | F_long => 64 end.

Definition get_val (f : int_field) (d : pagg_datum) : Z :=
  wrap_signed (field_bits f) (pd_bits d).

Definition set_val (f : int_field) (d : pagg_datum) (v : Z) : pagg_datum :=
  mk_pagg_datum (pd_group_id d) (pd_isnull d)
    (pd_bits d - pd_bits d mod 2 ^ field_bits f + v mod 2 ^ field_bits f).

Definition set_isnull (d : pagg_datum) (b : bool) : pagg_datum :=
  mk_pagg_datum (pd_group_id d) b (pd_bits d).

(** [x + y] on operands of field [f]; a signed sum that leaves the
    arithmetic type wraps around on the device. *)
Definition c_add (f : int_field) (x y : Z) : Z :=
  wrap_signed (arith_bits f) (x + y).

(** [CHECK_OVERFLOW_INT(x, y)] expanded at field [f] *)
Definition CHECK_OVERFLOW_INT (f : int_field) (x y : Z) : bool :=
  Bool.eqb (x <? 0) (y <? 0) && negb (Bool.eqb (c_add f x y <? 0) (x <? 0)).

(** [GPUPREAGG_AGGCALC_PSUM_TEMPLATE(FIELD, CHECK_OVERFLOW_INT, ...)] *)
Definition GPUPREAGG_AGGCALC_PSUM_TEMPLATE (f : int_field)
    (errcode : StromError) (accum newval : pagg_datum)
  : StromError * pagg_datum :=
  if negb (pd_isnull accum) then
    if negb (pd_isnull newval) then
      let errcode' :=
        if CHECK_OVERFLOW_INT f (get_val f accum) (get_val f newval)
        then STROM_SET_ERROR errcode StromError_CpuReCheck
        else errcode in
      (errcode', set_val f accum (c_add f (get_val f accum) (get_val f newval)))
    else (errcode, accum)
  else if negb (pd_isnull newval) then
    (errcode, set_val f (set_isnull accum (pd_isnull newval)) (get_val f newval))
  else (errcode, accum).

Definition GPUPREAGG_AGGCALC_PSUM_SHORT := GPUPREAGG_AGGCALC_PSUM_TEMPLATE F_short.
Definition GPUPREAGG_AGGCALC_PSUM_INT := GPUPREAGG_AGGCALC_PSUM_TEMPLATE F_int.
Definition GPUPREAGG_AGGCALC_PSUM_LONG := GPUPREAGG_AGGCALC_PSUM_TEMPLATE F_long.

(** [GPUPREAGG_AGGCALC_PMAX_TEMPLATE] and [GPUPREAGG_AGGCALC_PMIN_TEMPLATE] *)
Definition GPUPREAGG_AGGCALC_PMAX_TEMPLATE (f : int_field)
    (accum newval : pagg_datum) : pagg_datum :=
  if negb (pd_isnull newval) then
    set_isnull
      (if pd_isnull accum then set_val f accum (get_val f newval)
       else set_val f accum (Z.max (get_val f accum) (get_val f newval)))
      false
  else accum.

Definition GPUPREAGG_AGGCALC_PMIN_TEMPLATE (f : int_field)
    (accum newval : pagg_datum) : pagg_datum :=
  if negb (pd_isnull newval) then
    set_isnull
      (if pd_isnull accum then set_val f accum (get_val f newval)
       else set_val f accum (Z.min (get_val f accum) (get_val f newval)))
      false
  else accum.

(** The range of the scalar type of field [f]. *)
Definition in_range (f : int_field) (v : Z) : Prop :=
  - 2 ^ (field_bits f - 1) <= v < 2 ^ (field_bits f - 1).

(** An accumulator holding the non-null value [v] in an otherwise zero
    union. *)
Definition datum_of (f : int_field) (v : Z) : pagg_datum :=
  set_val f (mk_pagg_datum 0 false 0) v.

(** ** Hash slots ([pagg_hashslot]) *)

Record pagg_hashslot : Type := mk_slot {
  slot_hash : Z;           (* cl_uint hash *)
  slot_index : Z           (* cl_uint index *)
}.

#[global] Instance pagg_hashslot_eq_dec : EqDecision pagg_hashslot.
Proof. solve_decision. Defined.

(** The [value] view of the union: both 32-bit fields as one [cl_ulong]. *)
Definition slot_value (s : pagg_hashslot) : Z :=
  slot_hash s + 2 ^ 32 * slot_index s.

(** [old_slot]: the empty slot, [hash = 0] and [index = 0xffffffff]. *)
Definition old_slot : pagg_hashslot := mk_slot 0 ALL_ONES.

(** [atom_cmpxchg(&tbl[index].value, old.value, new.value)]: the previous
    content of the slot and the table afterwards; [None] when [index] is
    outside the array. *)
Definition atom_cmpxchg (tbl : list pagg_hashslot) (index : Z)
    (old new : pagg_hashslot) : option (pagg_hashslot * list pagg_hashslot) :=
  match tbl !! Z.to_nat index with
  | None => None
  | Some cur =>
      Some (cur, if slot_value cur =? slot_value old
                 then <[Z.to_nat index := new]> tbl else tbl)
  end.

(** ** Row map and control block *)

Record kern_row_map : Type := mk_krowmap {
  nvalids : Z;             (* cl_int *)
  rindex : list Z
}.

Record kern_gpupreagg : Type := mk_kgpreagg {
  status : StromError;
  hash_size : Z;           (* cl_uint, size of the global hash-slots *)
  gpagg_atts : list Z;     (* KPARAM_0: GPUPREAGG_FIELD_IS_* per column *)
  krowmap : kern_row_map   (* KERN_GPUPREAGG_KROWMAP(kgpreagg) *)
}.

Definition GPUPREAGG_FIELD_IS_NULL : Z := 0.
Definition GPUPREAGG_FIELD_IS_GROUPKEY : Z := 1.
Definition GPUPREAGG_FIELD_IS_AGGFUNC : Z := 2.

Definition set_status (kg : kern_gpupreagg) (e : StromError) : kern_gpupreagg :=
  mk_kgpreagg e (hash_size kg) (gpagg_atts kg) (krowmap kg).

Definition set_krowmap (kg : kern_gpupreagg) (m : kern_row_map) : kern_gpupreagg :=
  mk_kgpreagg (status kg) (hash_size kg) (gpagg_atts kg) m.

(** Modelled from the spec: [kern_writeback_error_status] is defined in a
    header that is not among the sources.  The work-group's error codes are
    folded into the shared status, which is written only while it still is
    [StromError_Success]. *)
Definition kern_writeback_error_status (st : StromError)
    (errcodes : list StromError) : StromError :=
  fold_left STROM_SET_ERROR errcodes st.

(** ** Functions generated per query

    Declared in the header, "to be generated by PG-Strom on the fly".  The
    hash and comparison functions are taken as pure: the error code they
    may set is not read by the kernels. *)
Class GpuPreAggFunctions : Type := {
  gpupreagg_hashvalue : kern_data_store -> Z -> Z;
  gpupreagg_keycomp : kern_data_store -> Z -> Z -> Z;
  gpupreagg_local_calc :
    StromError -> Z -> pagg_datum -> pagg_datum -> StromError * pagg_datum;
  gpupreagg_global_calc :
    StromError -> Z -> kern_data_store -> Z -> Z -> StromError * kern_data_store;
  gpupreagg_projection :
    StromError -> kern_data_store -> kern_data_store -> Z -> Z
    -> StromError * kern_data_store;
  gpupreagg_qual_eval : StromError -> kern_data_store -> Z -> StromError * bool
}.

(** ** Work-group helpers *)

Definition sumZ (l : list Z) : Z := foldr Z.add 0 l.

(** Modelled from the spec: [arithmetic_stairlike_add] is defined in a
    header that is not among the sources.  It is the work-group prefix sum
    that "counts surviving rows and computes each survivor's destination
    slot": the work-item [lid] gets the sum of the values of the work-items
    before it, and [*total_sum] the sum of all of them. *)
Definition arithmetic_stairlike_add (my_values : list Z) (lid : nat) : Z * Z :=
  (wrap_unsigned 32 (sumZ (take lid my_values)),
   wrap_unsigned 32 (sumZ my_values)).

(** The work-items of work-group [g], by their global id. *)
Definition group_members (L g : nat) : list nat := seq (g * L) L.

(** ** Private state of a work-item in the reduction kernels

    [hash_value], [index], [owner_index] and [errcode] are the kernel's
    private variables.  A work-item is in the [retry:] loop, waits at the
    barrier that follows it, or has left the kernel. *)

Inductive wi_label : Type := PC_retry | PC_barrier | PC_out.

#[global] Instance wi_label_eq_dec : EqDecision wi_label.
Proof. solve_decision. Defined.

Record workitem : Type := mk_wi {
  wi_hash_value : Z;       (* cl_uint *)
  wi_index : Z;            (* cl_uint *)
  wi_owner_index : Z;
  wi_errcode : StromError;
  wi_pc : wi_label
}.

Definition wi_found (w : workitem) (owner : Z) : workitem :=
  mk_wi (wi_hash_value w) (wi_index w) owner (wi_errcode w) PC_barrier.

Definition wi_advance (w : workitem) (index : Z) : workitem :=
  mk_wi (wi_hash_value w) index (wi_owner_index w) (wi_errcode w) PC_retry.

Definition wi_leave (w : workitem) (e : StromError) : workitem :=
  mk_wi (wi_hash_value w) (wi_index w) (wi_owner_index w) e PC_out.

Definition all_at (p : wi_label) (items : list workitem) (gids : list nat) : bool :=
  forallb (fun gid => match items !! gid with
                      | Some w => bool_decide (wi_pc w = p)
                      | None => false
                      end) gids.

Section Kernels.

Context `{F : GpuPreAggFunctions}.

(** ** gpupreagg_preparation *)

(** The row a work-item works on: [kds_index] after the row map and the
    qualifier; [kds_in->nitems] marks "not valid".  [kds_index] is a
    [size_t] and the entries of the row map are [cl_int]: the cast
    [(size_t) krowmap->rindex[...]] turns a negative entry into an index
    above every row. *)
Definition preparation_kds_index (kgpreagg : kern_gpupreagg)
    (kds_in : kern_data_store) (gid : Z) : StromError * Z :=
  let m := krowmap kgpreagg in
  let kds_index :=
    if nvalids m <? 0 then gid
    else if gid <? nvalids m then wrap_unsigned 64 (cell (rindex m) gid)
    else nitems kds_in in
  if kds_index <? nitems kds_in then
    let '(e, ok) := gpupreagg_qual_eval StromError_Success kds_in kds_index in
    (e, if ok then kds_index else nitems kds_in)
  else (StromError_Success, kds_index).

(** "Allocation of the result slot on the kds_src" and the range check that
    follows it: [base], the store after the [atomic_add], and whether the
    check [base + nitems > kds_src->nrooms] fired.  All three operands of
    the check are [cl_uint]. *)
Definition preparation_reserve (kds_src : kern_data_store) (nitems_grp : Z)
  : Z * kern_data_store * bool :=
  let '(base, kds1) :=
    if 0 <? nitems_grp
    then (nitems kds_src,
          set_nitems kds_src (wrap_unsigned 32 (nitems kds_src + nitems_grp)))
    else (0, kds_src) in
  (base, kds1, nrooms kds1 <? wrap_unsigned 32 (base + nitems_grp)).

(** One work-group of the kernel. *)
Definition gpupreagg_preparation_group (L g : nat)
    (kgpreagg : kern_gpupreagg) (kds_in kds_src : kern_data_store)
  : kern_gpupreagg * kern_data_store :=
  let pre := map (fun gid => preparation_kds_index kgpreagg kds_in (Z.of_nat gid))
                 (group_members L g) in
  let my_values := map (fun p => if snd p <? nitems kds_in then 1 else 0) pre in
  let nitems_grp := snd (arithmetic_stairlike_add my_values 0) in
  let '(base, kds1, nospace) := preparation_reserve kds_src nitems_grp in
  if nospace then
    (set_status kgpreagg
       (kern_writeback_error_status (status kgpreagg)
          (map (fun _ => StromError_DataStoreNoSpace) pre)), kds1)
  else
    let '(errs, kds2) :=
      fold_left
        (fun (acc : list StromError * kern_data_store) (lp : nat * (StromError * Z)) =>
           let '(errs, kds) := acc in
           let '(lid, (e, kds_index)) := lp in
           if kds_index <? nitems kds_in then
             let offset := fst (arithmetic_stairlike_add my_values lid) in
             let '(e', kds') :=
               gpupreagg_projection e kds_in kds kds_index
                 (wrap_unsigned 32 (base + offset)) in
             (errs ++ [e'], kds')
           else (errs ++ [e], kds))
        (imap pair pre) ([], kds1) in
    (set_status kgpreagg
       (kern_writeback_error_status (status kgpreagg) errs), kds2).

(** The kernel, its work-groups taken in the order [groups]. *)
Definition gpupreagg_preparation (L : nat) (groups : list nat)
    (kgpreagg : kern_gpupreagg) (kds_in kds_src : kern_data_store)
  : kern_gpupreagg * kern_data_store :=
  fold_left (fun acc g => gpupreagg_preparation_group L g (fst acc) kds_in (snd acc))
            groups (kgpreagg, kds_src).

(** ** gpupreagg_global_preparation

    All work-items together: [nvalids] is zeroed and the slots below
    [hash_size] are emptied. *)
Definition gpupreagg_global_preparation (kgpreagg : kern_gpupreagg)
    (g_hashslot : list pagg_hashslot) : kern_gpupreagg * list pagg_hashslot :=
  (set_krowmap kgpreagg (mk_krowmap 0 (rindex (krowmap kgpreagg))),
   imap (fun i s => if Z.of_nat i <? hash_size kgpreagg then old_slot else s)
        g_hashslot).

(** ** gpupreagg_global_reduction

    The shared state of a launch.  [gs_calls] logs the invocations of
    [gpupreagg_global_calc] as (attnum, accum_index, newval_index). *)
Record gstate : Type := mk_gstate {
  gs_hashslot : list pagg_hashslot;
  gs_krowmap : kern_row_map;
  gs_kds_dst : kern_data_store;
  gs_items : list workitem;
  gs_calls : list (Z * Z * Z)
}.

Definition gs_set_item (st : gstate) (gid : nat) (w : workitem) : gstate :=
  mk_gstate (gs_hashslot st) (gs_krowmap st) (gs_kds_dst st)
            (<[gid := w]> (gs_items st)) (gs_calls st).

Definition gs_set_hashslot (st : gstate) (tbl : list pagg_hashslot) : gstate :=
  mk_gstate tbl (gs_krowmap st) (gs_kds_dst st) (gs_items st) (gs_calls st).

(** The private variables of work-item [gid] when it reaches [retry:]. *)
Definition global_workitem (kgpreagg : kern_gpupreagg)
    (kds_dst : kern_data_store) (gid : nat) : workitem :=
  if Z.of_nat gid <? nitems kds_dst then
    let hash_value :=
      wrap_unsigned 32 (gpupreagg_hashvalue kds_dst (Z.of_nat gid)) in
    mk_wi hash_value (hash_value mod hash_size kgpreagg) 0
          StromError_Success PC_retry
  else
    mk_wi 0 0 ALL_ONES StromError_Success PC_barrier.

Definition global_reduction_init (L NG : nat) (kgpreagg : kern_gpupreagg)
    (kds_dst : kern_data_store) (g_hashslot : list pagg_hashslot) : gstate :=
  mk_gstate g_hashslot (krowmap kgpreagg) kds_dst
            (map (global_workitem kgpreagg kds_dst) (seq 0 (NG * L))) [].

(** One pass through [retry:] of work-item [gid]. *)
Definition global_retry (kgpreagg : kern_gpupreagg) (gid : nat)
    (w : workitem) (st : gstate) : gstate :=
  let new_slot := mk_slot (wi_hash_value w) (wrap_unsigned 32 (Z.of_nat gid)) in
  match atom_cmpxchg (gs_hashslot st) (wi_index w) old_slot new_slot with
  | None => st
  | Some (cur_slot, tbl) =>
      if slot_value cur_slot =? slot_value old_slot then
        gs_set_item (gs_set_hashslot st tbl) gid (wi_found w (slot_index new_slot))
      else if (slot_hash cur_slot =? slot_hash new_slot)
              && (gpupreagg_keycomp (gs_kds_dst st) (Z.of_nat gid)
                                    (slot_index cur_slot) =? 0) then
        gs_set_item st gid (wi_found w (slot_index cur_slot))
      else
        gs_set_item st gid (wi_advance w ((wi_index w + 1) mod hash_size kgpreagg))
  end.

(** The body of the loop "Global reduction for each column", for one
    work-item and one column. *)
Definition global_reduce_column (kgpreagg : kern_gpupreagg) (nitems0 : Z)
    (gid : nat) (owner_index dest_index : Z) (st : gstate) (attnum : Z)
  : gstate :=
  if negb (cell (gpagg_atts kgpreagg) attnum =? GPUPREAGG_FIELD_IS_AGGFUNC)
  then st
  else if Z.of_nat gid <? nitems0 then
    if Z.of_nat gid =? owner_index then
      mk_gstate (gs_hashslot st)
        (mk_krowmap (nvalids (gs_krowmap st))
           (<[Z.to_nat dest_index := Z.of_nat gid]> (rindex (gs_krowmap st))))
        (gs_kds_dst st) (gs_items st) (gs_calls st)
    else
      let e := default StromError_Success (wi_errcode <$> gs_items st !! gid) in
      let r := gpupreagg_global_calc e attnum (gs_kds_dst st) owner_index
                                     (Z.of_nat gid) in
      mk_gstate (gs_hashslot st) (gs_krowmap st) (snd r)
        (alter (fun w => mk_wi (wi_hash_value w) (wi_index w)
                               (wi_owner_index w) (fst r) (wi_pc w))
               gid (gs_items st))
        (gs_calls st ++ [(attnum, owner_index, Z.of_nat gid)])
  else st.

Definition global_reduce_item (kgpreagg : kern_gpupreagg) (nitems0 nattrs : Z)
    (gid : nat) (owner_index dest_index : Z) (st : gstate) : gstate :=
  fold_left (global_reduce_column kgpreagg nitems0 gid owner_index dest_index)
            (seqZ 0 nattrs) st.

(** The flag a work-item gives to the prefix sum:
    [get_global_id(0) == owner_index ? 1 : 0]. *)
Definition global_owner_flag (items : list workitem) (gid : nat) : Z :=
  match items !! gid with
  | Some w => if Z.of_nat gid =? wi_owner_index w then 1 else 0
  | None => 0
  end.

(** One work-item of a work-group that passed the range check. *)
Definition global_group_member (kgpreagg : kern_gpupreagg) (nitems0 nattrs : Z)
    (L g : nat) (my_values : list Z) (base_index : Z) (st : gstate) (gid : nat)
  : gstate :=
  match gs_items st !! gid with
  | None => st
  | Some w =>
      let index := fst (arithmetic_stairlike_add my_values (gid - g * L)) in
      let dest_index := wrap_unsigned 64 (base_index + index) in
      let st' := global_reduce_item kgpreagg nitems0 nattrs gid
                   (wi_owner_index w) dest_index st in
      mk_gstate (gs_hashslot st') (gs_krowmap st') (gs_kds_dst st')
        (alter (fun w => wi_leave w (wi_errcode w)) gid (gs_items st'))
        (gs_calls st')
  end.

(** A work-group past the barrier: the slots of the row map are reserved,
    the range is checked, and the columns are reduced. *)
Definition global_group_step (kgpreagg : kern_gpupreagg) (nitems0 nattrs : Z)
    (L g : nat) (st : gstate) : gstate :=
  let members := group_members L g in
  let my_values := map (global_owner_flag (gs_items st)) members in
  let ngroups := snd (arithmetic_stairlike_add my_values 0) in
  let base_index := wrap_unsigned 64 (nvalids (gs_krowmap st)) in
  let st1 :=
    mk_gstate (gs_hashslot st)
      (mk_krowmap (wrap_signed 32 (nvalids (gs_krowmap st) + ngroups))
                  (rindex (gs_krowmap st)))
      (gs_kds_dst st) (gs_items st) (gs_calls st) in
  if nrooms (gs_kds_dst st1) <? wrap_unsigned 64 (base_index + ngroups) then
    mk_gstate (gs_hashslot st1) (gs_krowmap st1) (gs_kds_dst st1)
      (fold_left (fun items gid =>
                    alter (fun w => wi_leave w StromError_DataStoreNoSpace) gid items)
                 members (gs_items st1))
      (gs_calls st1)
  else
    fold_left (global_group_member kgpreagg nitems0 nattrs L g my_values base_index)
              members st1.

(** One scheduling step: work-item [gid] runs up to its next atomic
    operation.  At the barrier it waits for its work-group; the work-item
    that finds the whole group there takes the group through. *)
Definition global_step (kgpreagg : kern_gpupreagg) (kds0 : kern_data_store)
    (L : nat) (st : gstate) (gid : nat) : gstate :=
  match gs_items st !! gid with
  | None => st
  | Some w =>
      match wi_pc w with
      | PC_retry => global_retry kgpreagg gid w st
      | PC_barrier =>
          if all_at PC_barrier (gs_items st) (group_members L (gid / L))
          then global_group_step kgpreagg (nitems kds0) (ncols kds0)
                                 L (gid / L)%nat st
          else st
      | PC_out => st
      end
  end.

(** The kernel under the schedule [sched], launched with [NG] work-groups
    of [L] work-items. *)
Definition gpupreagg_global_reduction (L NG : nat) (kgpreagg : kern_gpupreagg)
    (kds_dst : kern_data_store) (g_hashslot : list pagg_hashslot)
    (sched : list nat) : gstate :=
  fold_left (global_step kgpreagg kds_dst L) sched
            (global_reduction_init L NG kgpreagg kds_dst g_hashslot).

(** The global stage on its own: [gpupreagg_global_preparation], which
    "intends to be called prior to gpupreagg_global_reduction(), if
    gpupreagg_local_reduction() is not called", and then the kernel. *)
Definition gpupreagg_global_stage (L NG : nat) (kgpreagg : kern_gpupreagg)
    (kds_dst : kern_data_store) (g_hashslot : list pagg_hashslot)
    (sched : list nat) : gstate :=
  let '(kg, tbl) := gpupreagg_global_preparation kgpreagg g_hashslot in
  gpupreagg_global_reduction L NG kg kds_dst tbl sched.

Definition gs_finished (st : gstate) : bool :=
  forallb (fun w => bool_decide (wi_pc w = PC_out)) (gs_items st).

(** ** gpupreagg_data_load and gpupreagg_data_store

    Modelled from the spec: [kern_get_datum] and [pg_int2_vstore],
    [pg_int4_vstore], [pg_int8_vstore] are defined in headers that are not
    among the sources.  They are the "load(col,row)->accumulator" and
    "store(accumulator,col,row)" of a row in tuple-slot format: a null cell
    has no address, and a store writes the null flag and, for a non-null
    accumulator, the value word. *)
Definition kern_get_datum (kds : kern_data_store) (colidx rowidx : Z)
  : option Z :=
  if negb (cell (KERN_DATA_STORE_ISNULL kds rowidx) colidx =? 0) then None
  else Some (cell (KERN_DATA_STORE_VALUES kds rowidx) colidx).

Definition pg_vstore (kds : kern_data_store) (colidx rowidx : Z)
    (isnull : bool) (value : Z) : kern_data_store :=
  if isnull
  then set_datum kds rowidx colidx 1
         (cell (KERN_DATA_STORE_VALUES kds rowidx) colidx)
  else set_datum kds rowidx colidx 0 value.

Definition load_field (f : int_field) (pdatum : pagg_datum) (addr : option Z)
  : pagg_datum :=
  match addr with
  | None => set_isnull pdatum true
  | Some v => set_val f (set_isnull pdatum false) v
  end.

Definition gpupreagg_data_load (pdatum : pagg_datum) (errcode : StromError)
    (kds : kern_data_store) (colidx rowidx : Z) : StromError * pagg_datum :=
  if colidx >=? ncols kds then
    (STROM_SET_ERROR errcode StromError_DataStoreCorruption, pdatum)
  else
    let attlen := cell (colmeta_attlen kds) colidx in
    let addr := kern_get_datum kds colidx rowidx in
    if attlen =? 2 then (errcode, load_field F_short pdatum addr)
    else if attlen =? 4 then (errcode, load_field F_int pdatum addr)
    else if attlen =? 8 then (errcode, load_field F_long pdatum addr)
    else (STROM_SET_ERROR errcode StromError_DataStoreCorruption, pdatum).

Definition gpupreagg_data_store (pdatum : pagg_datum) (errcode : StromError)
    (kds : kern_data_store) (colidx rowidx : Z) : StromError * kern_data_store :=
  if colidx >=? ncols kds then
    (STROM_SET_ERROR errcode StromError_DataStoreCorruption, kds)
  else
    let attlen := cell (colmeta_attlen kds) colidx in
    let store f := pg_vstore kds colidx rowidx (pd_isnull pdatum)
                     (get_val f pdatum) in
    if attlen =? 2 then (errcode, store F_short)
    else if attlen =? 4 then (errcode, store F_int)
    else if attlen =? 8 then (errcode, store F_long)
    else (STROM_SET_ERROR errcode StromError_DataStoreCorruption, kds).

(** ** gpupreagg_local_reduction

    The shared state of a launch: the global hash slots, the local hash
    slots and the accumulators [l_datum] of each work-group, and the
    destination store.  ([l_datum] takes over the local memory of
    [l_hashslot] once the owners are known; the two are kept apart here.)
    The source store is only read. *)
Record lstate : Type := mk_lstate {
  ls_g_hashslot : list pagg_hashslot;
  ls_l_hashslot : list (list pagg_hashslot);
  ls_l_datum : list (list pagg_datum);
  ls_kds_dst : kern_data_store;
  ls_items : list workitem
}.

Definition ls_set_item (st : lstate) (gid : nat) (w : workitem) : lstate :=
  mk_lstate (ls_g_hashslot st) (ls_l_hashslot st) (ls_l_datum st)
            (ls_kds_dst st) (<[gid := w]> (ls_items st)).

Definition ls_set_errcode (st : lstate) (gid : nat) (e : StromError) : lstate :=
  mk_lstate (ls_g_hashslot st) (ls_l_hashslot st) (ls_l_datum st) (ls_kds_dst st)
    (alter (fun w => mk_wi (wi_hash_value w) (wi_index w) (wi_owner_index w)
                           e (wi_pc w)) gid (ls_items st)).

Definition ls_set_kds_dst (st : lstate) (kds : kern_data_store) : lstate :=
  mk_lstate (ls_g_hashslot st) (ls_l_hashslot st) (ls_l_datum st) kds
            (ls_items st).

Definition ls_set_datum (st : lstate) (g : nat) (i : Z) (d : pagg_datum)
  : lstate :=
  mk_lstate (ls_g_hashslot st) (ls_l_hashslot st)
    (alter (fun l_datum => <[Z.to_nat i := d]> l_datum) g (ls_l_datum st))
    (ls_kds_dst st) (ls_items st).

(** [l_datum[i]] of work-group [g]. *)
Definition ls_datum (st : lstate) (g : nat) (i : Z) : pagg_datum :=
  default (mk_pagg_datum 0 false 0)
          (ls_l_datum st !! g ≫= fun l_datum => l_datum !! Z.to_nat i).

(** The private variables of work-item [gid] when it reaches [retry:];
    [hash_size] is [2 * get_local_size(0)]. *)
Definition local_workitem (L : nat) (kds_src : kern_data_store) (gid : nat)
  : workitem :=
  if Z.of_nat gid <? nitems kds_src then
    let hash_value :=
      wrap_unsigned 32 (gpupreagg_hashvalue kds_src (Z.of_nat gid)) in
    mk_wi hash_value (hash_value mod (2 * Z.of_nat L)) 0
          StromError_Success PC_retry
  else
    mk_wi 0 0 ALL_ONES StromError_Success PC_barrier.

(** The state when all work-items have run [gpupreagg_global_preparation]
    and emptied the local hash slots of their work-group.  The kernel makes
    the call inline and there is no barrier across work-groups: the
    schedules below are those of the executions in which every work-item is
    through its part of the reset before the first compare-and-swap, which
    is what the kernel counts on ("next stage expect g_hashslot is correctly
    initialized").  An execution in which a work-group resets slots after
    another one has claimed them is not among them. *)
Definition local_reduction_init (L NG : nat) (kgpreagg : kern_gpupreagg)
    (kds_src kds_dst : kern_data_store) (g_hashslot : list pagg_hashslot)
  : kern_gpupreagg * lstate :=
  let '(kg, tbl) := gpupreagg_global_preparation kgpreagg g_hashslot in
  (kg, mk_lstate tbl
         (replicate NG (replicate (2 * L) old_slot))
         (replicate NG (replicate L (mk_pagg_datum 0 false 0)))
         kds_dst
         (map (local_workitem L kds_src) (seq 0 (NG * L)))).

(** One pass through [retry:] of work-item [gid]. *)
Definition local_retry (L : nat) (kds_src : kern_data_store) (gid : nat)
    (w : workitem) (st : lstate) : lstate :=
  let new_slot := mk_slot (wi_hash_value w) (wrap_unsigned 32 (Z.of_nat gid)) in
  match atom_cmpxchg (ls_g_hashslot st) (wi_index w) old_slot new_slot with
  | None => st
  | Some (cur_slot, tbl) =>
      if slot_value cur_slot =? slot_value old_slot then
        ls_set_item
          (mk_lstate tbl (ls_l_hashslot st) (ls_l_datum st) (ls_kds_dst st)
                     (ls_items st))
          gid (wi_found w (slot_index new_slot))
      else
        let buddy_index :=
          wrap_unsigned 64 (Z.of_nat gid - Z.of_nat (gid mod L)
                            + slot_index cur_slot) in
        if (slot_hash cur_slot =? slot_hash new_slot)
           && (gpupreagg_keycomp kds_src (Z.of_nat gid) buddy_index =? 0) then
          ls_set_item st gid (wi_found w (slot_index cur_slot))
        else
          ls_set_item st gid
            (wi_advance w ((wi_index w + 1) mod (2 * Z.of_nat L)))
  end.

(** The flag a work-item gives to the prefix sum:
    [get_local_id(0) == owner_index ? 1 : 0]. *)
Definition local_owner_flag (L : nat) (items : list workitem) (gid : nat) : Z :=
  match items !! gid with
  | Some w => if Z.of_nat (gid mod L) =? wi_owner_index w then 1 else 0
  | None => 0
  end.

(** "Make a reservation on the destination kern_data_store" and the range
    check that follows it: [base_index], the store after the [atomic_add],
    and whether [kds_dst->nrooms < base_index + ngroups] fired.
    [base_index] is a [size_t]. *)
Definition local_reserve (kds_dst : kern_data_store) (ngroups : Z)
  : Z * kern_data_store * bool :=
  let base_index := nitems kds_dst in
  let kds1 := set_nitems kds_dst (wrap_unsigned 32 (nitems kds_dst + ngroups)) in
  (base_index, kds1, nrooms kds1 <? wrap_unsigned 64 (base_index + ngroups)).

(** The four phases of the column loop, each for one work-item; barriers
    separate the phases. *)
Definition local_move (kds_src : kern_data_store) (L : nat)
    (dest_index : nat -> Z) (attnum : Z) (st : lstate) (gid : nat) : lstate :=
  match ls_items st !! gid with
  | None => st
  | Some w =>
      if wi_owner_index w =? Z.of_nat (gid mod L) then
        let r := gpupreagg_data_move (wi_errcode w) kds_src (ls_kds_dst st)
                   attnum (Z.of_nat gid) (dest_index gid) in
        ls_set_errcode (ls_set_kds_dst st (snd r)) gid (fst r)
      else st
  end.

Definition local_load (kds_src : kern_data_store) (L : nat)
    (attnum : Z) (st : lstate) (gid : nat) : lstate :=
  match ls_items st !! gid with
  | None => st
  | Some w =>
      if Z.of_nat gid <? nitems kds_src then
        let lid := Z.of_nat (gid mod L) in
        let r := gpupreagg_data_load (ls_datum st (gid / L) lid) (wi_errcode w)
                   kds_src attnum (Z.of_nat gid) in
        ls_set_errcode (ls_set_datum st (gid / L) lid (snd r)) gid (fst r)
      else st
  end.

Definition local_calc (kds_src : kern_data_store) (L : nat)
    (attnum : Z) (st : lstate) (gid : nat) : lstate :=
  match ls_items st !! gid with
  | None => st
  | Some w =>
      if (Z.of_nat gid <? nitems kds_src)
         && negb (Z.of_nat gid =? wi_owner_index w) then
        let r := gpupreagg_local_calc (wi_errcode w) attnum
                   (ls_datum st (gid / L) (wi_owner_index w))
                   (ls_datum st (gid / L) (Z.of_nat (gid mod L))) in
        ls_set_errcode (ls_set_datum st (gid / L) (wi_owner_index w) (snd r))
                       gid (fst r)
      else st
  end.

Definition local_store (L : nat) (dest_index : nat -> Z) (attnum : Z)
    (st : lstate) (gid : nat) : lstate :=
  match ls_items st !! gid with
  | None => st
  | Some w =>
      if wi_owner_index w =? Z.of_nat (gid mod L) then
        let r := gpupreagg_data_store
                   (ls_datum st (gid / L) (wi_owner_index w)) (wi_errcode w)
                   (ls_kds_dst st) attnum (dest_index gid) in
        ls_set_errcode (ls_set_kds_dst st (snd r)) gid (fst r)
      else st
  end.

(** "Local reduction for each column", one column for the work-group. *)
Definition local_reduce_column (kgpreagg : kern_gpupreagg)
    (kds_src : kern_data_store) (L : nat) (members : list nat)
    (dest_index : nat -> Z) (st : lstate) (attnum : Z) : lstate :=
  if negb (cell (gpagg_atts kgpreagg) attnum =? GPUPREAGG_FIELD_IS_AGGFUNC) then
    fold_left (local_move kds_src L dest_index attnum) members st
  else
    let st1 := fold_left (local_load kds_src L attnum) members st in
    let st2 := fold_left (local_calc kds_src L attnum) members st1 in
    fold_left (local_store L dest_index attnum) members st2.

(** A work-group past the barrier. *)
Definition local_group_step (kgpreagg : kern_gpupreagg)
    (kds_src : kern_data_store) (L g : nat) (st : lstate) : lstate :=
  let members := group_members L g in
  let my_values := map (local_owner_flag L (ls_items st)) members in
  let ngroups := snd (arithmetic_stairlike_add my_values 0) in
  let '(base_index, kds1, nospace) := local_reserve (ls_kds_dst st) ngroups in
  let st1 := ls_set_kds_dst st kds1 in
  let leave (st : lstate) (e : option StromError) :=
    mk_lstate (ls_g_hashslot st) (ls_l_hashslot st) (ls_l_datum st)
      (ls_kds_dst st)
      (fold_left (fun items gid =>
                    alter (fun w => wi_leave w (default (wi_errcode w) e))
                          gid items)
                 members (ls_items st)) in
  if nospace then leave st1 (Some StromError_DataStoreNoSpace)
  else
    let dest_index (gid : nat) :=
      wrap_unsigned 64
        (base_index + fst (arithmetic_stairlike_add my_values (gid mod L))) in
    leave (fold_left (local_reduce_column kgpreagg kds_src L members dest_index)
                     (seqZ 0 (ncols kds_src)) st1)
          None.

Definition local_step (kgpreagg : kern_gpupreagg) (kds_src : kern_data_store)
    (L : nat) (st : lstate) (gid : nat) : lstate :=
  match ls_items st !! gid with
  | None => st
  | Some w =>
      match wi_pc w with
      | PC_retry => local_retry L kds_src gid w st
      | PC_barrier =>
          if all_at PC_barrier (ls_items st) (group_members L (gid / L))
          then local_group_step kgpreagg kds_src L (gid / L)%nat st
          else st
      | PC_out => st
      end
  end.

(** The kernel under the schedule [sched]: the control block after
    [gpupreagg_global_preparation] and the final state. *)
Definition gpupreagg_local_reduction (L NG : nat) (kgpreagg : kern_gpupreagg)
    (kds_src kds_dst : kern_data_store) (g_hashslot : list pagg_hashslot)
    (sched : list nat) : kern_gpupreagg * lstate :=
  let '(kg, st) :=
    local_reduction_init L NG kgpreagg kds_src kds_dst g_hashslot in
  (kg, fold_left (local_step kg kds_src L) sched st).

Definition ls_finished (st : lstate) : bool :=
  forallb (fun w => bool_decide (wi_pc w = PC_out)) (ls_items st).

End Kernels.

(** ** Local reduction followed by global reduction

    The host runs the two kernels one after the other on the same control
    block and the same global hash slots; the destination store of the
    local stage is the store that the global stage reduces. *)
Definition local_then_global `{F : GpuPreAggFunctions} (L NG : nat)
    (kgpreagg : kern_gpupreagg) (kds_src kds_dst : kern_data_store)
    (g_hashslot : list pagg_hashslot) (sched_local sched_global : list nat)
  : lstate * gstate :=
  let '(kg, st) :=
    gpupreagg_local_reduction L NG kgpreagg kds_src kds_dst g_hashslot
                              sched_local in
  (st, gpupreagg_global_reduction L NG kg (ls_kds_dst st) (ls_g_hashslot st)
         sched_global).

(** The (group key, aggregate value) pairs the row map points at. *)
Definition reduced_rows (st : gstate) : list (Z * Z) :=
  map (fun r => (cell (KERN_DATA_STORE_VALUES (gs_kds_dst st) r) 0,
                 cell (KERN_DATA_STORE_VALUES (gs_kds_dst st) r) 1))
      (take (Z.to_nat (nvalids (gs_krowmap st))) (rindex (gs_krowmap st))).

(** The rows of a batch as (group key, value) pairs. *)
Definition batch_rows (kds : kern_data_store) : list (Z * Z) :=
  map (fun r => (cell (KERN_DATA_STORE_VALUES kds r) 0,
                 cell (KERN_DATA_STORE_VALUES kds r) 1))
      (seqZ 0 (nitems kds)).

(** Following the spec: "a straightforward serial group-by over the same
    rows", for Sum. *)
Fixpoint serial_add (key value : Z) (groups : list (Z * Z)) : list (Z * Z) :=
  match groups with
  | [] => [(key, value)]
  | (k, s) :: rest =>
      if k =? key then (k, s + value) :: rest
      else (k, s) :: serial_add key value rest
  end.

Definition serial_group_sum (rows : list (Z * Z)) : list (Z * Z) :=
  fold_left (fun groups r => serial_add (fst r) (snd r) groups) rows [].

(** ** A query: GROUP BY column 0, SUM(column 1) over [int]

    An instance of the generated functions, used for the examples: the
    hash of a row is its key modulo 4 (so that different keys can share a
    hash value), rows compare by their key, and both calc functions are
    [GPUPREAGG_AGGCALC_PSUM_INT]. *)

Definition key_of (kds : kern_data_store) (row : Z) : Z :=
  cell (KERN_DATA_STORE_VALUES kds row) 0.

Definition load_int (kds : kern_data_store) (col row : Z) : pagg_datum :=
  mk_pagg_datum 0
    (negb (cell (KERN_DATA_STORE_ISNULL kds row) col =? 0))
    (wrap_unsigned 32 (cell (KERN_DATA_STORE_VALUES kds row) col)).

Definition sum_query : GpuPreAggFunctions := {|
  gpupreagg_hashvalue := fun kds row => key_of kds row mod 4;
  gpupreagg_keycomp := fun kds x y =>
    match key_of kds x ?= key_of kds y with Lt => -1 | Eq => 0 | Gt => 1 end;
  gpupreagg_local_calc := fun e attnum accum newval =>
    GPUPREAGG_AGGCALC_PSUM_INT e accum newval;
  gpupreagg_global_calc := fun e attnum kds accum_index newval_index =>
    let '(e', d) := GPUPREAGG_AGGCALC_PSUM_INT e
                      (load_int kds attnum accum_index)
                      (load_int kds attnum newval_index) in
    (e', set_datum kds accum_index attnum
           (if pd_isnull d then 1 else 0) (get_val F_int d));
  gpupreagg_projection := fun e kds_in kds_src row_in row_out =>
    (e, mk_kds (ncols kds_src) (nitems kds_src) (nrooms kds_src)
          (colmeta_attlen kds_src)
          (<[Z.to_nat row_out :=
               default (mk_tupslot [] []) (slots kds_in !! Z.to_nat row_in)]>
             (slots kds_src)));
  gpupreagg_qual_eval := fun e kds row => (e, true)
|}.

(** A batch of (key, value) rows with room for [rooms] rows. *)
Definition batch_of (rooms : Z) (rows : list (Z * Z)) : kern_data_store :=
  mk_kds 2 (Z.of_nat (length rows)) rooms [4; 4]
    (map (fun r => mk_tupslot [fst r; snd r] [0; 0]) rows
     ++ replicate (Z.to_nat rooms - length rows) (mk_tupslot [0; 0] [1; 1])).

Definition control_block (hsize : Z) (rooms : Z) : kern_gpupreagg :=
  mk_kgpreagg StromError_Success hsize
    [GPUPREAGG_FIELD_IS_GROUPKEY; GPUPREAGG_FIELD_IS_AGGFUNC]
    (mk_krowmap (-1) (replicate (Z.to_nat rooms) 0)).

(** The work-items of [NG] groups of [L], each scheduled [k] times in
    turn. *)
Definition round_robin (L NG k : nat) : list nat :=
  concat (replicate k (seq 0 (NG * L))).

(** ** Group keys, owners and the contract of the generated functions *)

Section Groups.

Context `{F : GpuPreAggFunctions}.

(** Rows [x] and [y] carry the same group key. *)
Definition same_key (kds : kern_data_store) (x y : nat) : bool :=
  gpupreagg_keycomp kds (Z.of_nat x) (Z.of_nat y) =? 0.

(** The hash value a work-item keeps for row [x]. *)
Definition row_hash (kds : kern_data_store) (x : nat) : Z :=
  wrap_unsigned 32 (gpupreagg_hashvalue kds (Z.of_nat x)).

(** One row per distinct group key among [rows]. *)
Fixpoint distinct_keys (kds : kern_data_store) (rows : list nat) : list nat :=
  match rows with
  | [] => []
  | r :: rest =>
      if existsb (same_key kds r) rest then distinct_keys kds rest
      else r :: distinct_keys kds rest
  end.

(** What the kernels rely on: the comparison is an equivalence on the rows
    of the batch, rows with the same key have the same hash value, and
    merging an aggregate column leaves the comparison of rows alone. *)
Record key_contract (kds : kern_data_store) (atts : list Z) : Prop := {
  kc_refl : forall x, same_key kds x x = true;
  kc_sym : forall x y, same_key kds x y = true -> same_key kds y x = true;
  kc_trans : forall x y z,
      same_key kds x y = true -> same_key kds y z = true ->
      same_key kds x z = true;
  kc_hash : forall x y, same_key kds x y = true -> row_hash kds x = row_hash kds y;
  kc_stable : forall e attnum k a n,
      cell atts attnum = GPUPREAGG_FIELD_IS_AGGFUNC ->
      forall x y,
        gpupreagg_keycomp (snd (gpupreagg_global_calc e attnum k a n)) x y
        = gpupreagg_keycomp k x y
}.

(** Work-item [o] is an owner: it has left the retry loop with its own id
    as [owner_index]. *)
Definition is_owner (kds : kern_data_store) (st : gstate) (o : nat) : Prop :=
  Z.of_nat o < nitems kds /\
  exists w, gs_items st !! o = Some w /\ wi_pc w <> PC_retry /\
            wi_owner_index w = Z.of_nat o.

End Groups.

(** ** The invariant of the reservation protocol

    Probing from the slot [start_slot x], a work-item has passed [k] slots
    when each of them was occupied by a row that is not in its group
    ([blocked]).  The invariant ties the private variables of the
    work-items to the table: every occupied slot was claimed by the row it
    names, and that row passed only blocked slots on its way. *)

Section Invariant.

Context `{F : GpuPreAggFunctions}.
Variables (kg : kern_gpupreagg) (kds : kern_data_store).

Definition start_slot (x : nat) : Z := row_hash kds x mod hash_size kg.

Definition slot_of (o : nat) : pagg_hashslot :=
  mk_slot (row_hash kds o) (Z.of_nat o).

Definition slot_matches (x : nat) (e : pagg_hashslot) : Prop :=
  slot_hash e = row_hash kds x /\
  gpupreagg_keycomp kds (Z.of_nat x) (slot_index e) = 0.

Definition probe_slot (x k : nat) : nat :=
  Z.to_nat ((start_slot x + Z.of_nat k) mod hash_size kg).

Definition blocked (tbl : list pagg_hashslot) (x k : nat) : Prop :=
  forall j, (j < k)%nat ->
    exists e, tbl !! probe_slot x j = Some e /\ e <> old_slot /\
              ~ slot_matches x e.

Record global_inv (sched : list nat) (st : gstate) : Prop := {
  gi_table : (Z.to_nat (hash_size kg) <= length (gs_hashslot st))%nat;
  gi_key : forall x y,
      gpupreagg_keycomp (gs_kds_dst st) x y = gpupreagg_keycomp kds x y;
  gi_inside : forall gid w,
      gs_items st !! gid = Some w -> Z.of_nat gid < nitems kds ->
      wi_hash_value w = row_hash kds gid /\
      (wi_pc w = PC_retry ->
         wi_index w = Z.of_nat (probe_slot gid (count_occ Nat.eq_dec sched gid)) /\
         blocked (gs_hashslot st) gid (count_occ Nat.eq_dec sched gid)) /\
      (wi_pc w <> PC_retry ->
         exists o p, wi_owner_index w = Z.of_nat o /\ Z.of_nat o < nitems kds /\
                     same_key kds gid o = true /\
                     (p < Z.to_nat (hash_size kg))%nat /\
                     gs_hashslot st !! p = Some (slot_of o));
  gi_outside : forall gid w,
      gs_items st !! gid = Some w -> nitems kds <= Z.of_nat gid ->
      wi_pc w <> PC_retry /\ wi_owner_index w = ALL_ONES;
  gi_slots : forall p e,
      (p < Z.to_nat (hash_size kg))%nat ->
      gs_hashslot st !! p = Some e -> e <> old_slot ->
      exists o w k, e = slot_of o /\ Z.of_nat o < nitems kds /\
                    gs_items st !! o = Some w /\ wi_pc w <> PC_retry /\
                    wi_owner_index w = Z.of_nat o /\
                    p = probe_slot o k /\ blocked (gs_hashslot st) o k;
  gi_calls : forall a o g,
      In (a, o, g) (gs_calls st) ->
      exists gn w, g = Z.of_nat gn /\ Z.of_nat gn < nitems kds /\
                   gs_items st !! gn = Some w /\ wi_pc w <> PC_retry /\
                   wi_owner_index w = o /\ o <> g
}.

(** What a work-group's pass through the reduction may change of a
    work-item: the error code, and the label from the barrier to the end. *)
Definition wi_frame (w w' : workitem) : Prop :=
  wi_hash_value w' = wi_hash_value w /\ wi_index w' = wi_index w /\
  wi_owner_index w' = wi_owner_index w /\
  (wi_pc w' = wi_pc w \/ (wi_pc w <> PC_retry /\ wi_pc w' = PC_out)).

Record gs_frame (atts : list Z) (nitems0 : Z) (st0 st : gstate) : Prop := {
  gf_table : gs_hashslot st = gs_hashslot st0;
  gf_items : Forall2 wi_frame (gs_items st0) (gs_items st);
  gf_key : (forall e attnum k a n,
               cell atts attnum = GPUPREAGG_FIELD_IS_AGGFUNC ->
               forall x y,
                 gpupreagg_keycomp (snd (gpupreagg_global_calc e attnum k a n)) x y
                 = gpupreagg_keycomp k x y) ->
           forall x y, gpupreagg_keycomp (gs_kds_dst st) x y
                       = gpupreagg_keycomp (gs_kds_dst st0) x y;
  gf_calls : forall c, In c (gs_calls st) ->
      In c (gs_calls st0) \/
      exists gn w, snd c = Z.of_nat gn /\ Z.of_nat gn < nitems0 /\
                   gs_items st0 !! gn = Some w /\ wi_pc w <> PC_retry /\
                   wi_owner_index w = snd (fst c) /\ snd (fst c) <> snd c
}.

(** A work-item that is its own owner, and a pass through the reduction
    that merged nothing. *)
Definition self_owned (nitems0 : Z) (st0 : gstate) (gid : nat) : Prop :=
  forall w, gs_items st0 !! gid = Some w ->
    wi_pc w <> PC_retry /\
    (Z.of_nat gid < nitems0 -> wi_owner_index w = Z.of_nat gid).

Definition quiet (atts : list Z) (nitems0 : Z) (st0 st : gstate) : Prop :=
  gs_frame atts nitems0 st0 st /\
  gs_kds_dst st = gs_kds_dst st0 /\ gs_calls st = gs_calls st0.

(** Work-items of one work-group leave the kernel together. *)
Definition coherent (L : nat) (items : list workitem) : Prop :=
  forall gid gid' w w',
    (gid / L = gid' / L)%nat ->
    items !! gid = Some w -> items !! gid' = Some w' ->
    wi_pc w = PC_out -> wi_pc w' = PC_out.

Definition none_retry (items : list workitem) : Prop :=
  forall gid w, items !! gid = Some w -> wi_pc w <> PC_retry.

End Invariant.

(** Two keys, 1 and 5, that share the hash value 1 in a table of four
    slots; the table holds stale entries before the kernel resets it. *)
Definition collision_batch : kern_data_store :=
  batch_of 4 [(1, 1); (5, 2); (1, 3); (5, 4)].

Definition collision_control : kern_gpupreagg := control_block 4 4.

Definition stale_table : list pagg_hashslot := replicate 4 (mk_slot 7 7).

(** Four rows with four different keys, two of them on the same hash. *)
Definition distinct_batch : kern_data_store :=
  batch_of 4 [(1, 10); (5, 20); (2, 30); (7, 40)].

(** Four rows with four different keys, for two work-groups of two. *)
Definition four_keys_batch : kern_data_store :=
  batch_of 4 [(1, 10); (2, 20); (3, 30); (4, 40)].

(** A control block for a batch without aggregate columns; the row map is
    filled with 99. *)
Definition keys_only_control : kern_gpupreagg :=
  mk_kgpreagg StromError_Success 4
    [GPUPREAGG_FIELD_IS_GROUPKEY; GPUPREAGG_FIELD_IS_NULL]
    (mk_krowmap (-1) (replicate 4 99)).

(** ** Sort-based fallback: the bitonic kernels

    The entries of [rindex] and [localIdx] are row indices, compared
    through [gpupreagg_keycomp]; the kernels never look into an entry in
    another way.  They are embedded over an abstract entry type, with
    [pos] giving the entry for a row index and [gt pos0 pos1] standing for
    [0 < gpupreagg_keycomp(kds, ktoast, pos0, pos1)].  Sizes, positions and
    indices are [cl_int]: what the kernels add and multiply wraps around at
    32 bits.  The error code that the comparison may set is written back to
    the status of the control block and has no part in the order of the
    rows; it is left out. *)

Section Bitonic.

Context {A : Type}.
Variable pos : Z -> A.
Variable gt : A -> A -> bool.

(** [rv = keycomp(pos0, pos1); if (0 < rv) swap] on the cells [idx0] and
    [idx1]. *)
Definition compare_exchange (l : list A) (idx0 idx1 : Z) : list A :=
  match l !! Z.to_nat idx0, l !! Z.to_nat idx1 with
  | Some pos0, Some pos1 =>
      if gt pos0 pos1
      then <[Z.to_nat idx0 := pos1]> (<[Z.to_nat idx1 := pos0]> l)
      else l
  | _, _ => l
  end.

(** [idx0] and [idx1] of the work-item [id] for the unit size [unitSize]:
    [(id / halfUnitSize) * unitSize + id % halfUnitSize], and its mirror
    image in the unit when reversing, [halfUnitSize + idx0] otherwise. *)
Definition bitonic_idx0 (unitSize id : Z) : Z :=
  wrap_signed 32 ((id / (unitSize / 2)) * unitSize + id mod (unitSize / 2)).

Definition bitonic_idx1 (reversing : bool) (unitSize idx0 : Z) : Z :=
  let unitMask := wrap_signed 32 (unitSize - 1) in
  if reversing
  then Z.lor (Z.land idx0 (Z.lnot unitMask)) (Z.land (Z.lnot idx0) unitMask)
  else wrap_signed 32 (unitSize / 2 + idx0).

(** One work-item between two barriers: [if (idx1 < entries) ...]. *)
Definition bitonic_thread (entries : Z) (reversing : bool) (unitSize : Z)
    (l : list A) (id : Z) : list A :=
  let idx0 := bitonic_idx0 unitSize id in
  let idx1 := bitonic_idx1 reversing unitSize idx0 in
  if idx1 <? entries then compare_exchange l idx0 idx1 else l.

(** All work-items [0 .. nthreads) between two barriers. *)
Definition bitonic_stage (nthreads entries : Z) (reversing : bool)
    (unitSize : Z) (l : list A) : list A :=
  fold_left (bitonic_thread entries reversing unitSize) (seqZ 0 nthreads) l.

(** [for (unitSize = from; 2 <= unitSize; unitSize /= 2)] *)
Fixpoint unit_sizes (fuel : nat) (unitSize : Z) : list Z :=
  match fuel with
  | O => []
  | S fuel =>
      if 2 <=? unitSize then unitSize :: unit_sizes fuel (unitSize / 2) else []
  end.

(** [for (blockSize = from; blockSize <= bound; blockSize *= 2)] *)
Fixpoint block_sizes (fuel : nat) (blockSize bound : Z) : list Z :=
  match fuel with
  | O => []
  | S fuel =>
      if blockSize <=? bound
      then blockSize :: block_sizes fuel (wrap_signed 32 (blockSize * 2)) bound
      else []
  end.

(** [prtSize], [prtPos] and [localEntry] of the partition [prtID]. *)
Definition partition_size (localSize : Z) : Z := wrap_signed 32 (localSize * 2).

Definition partition_pos (localSize prtID : Z) : Z :=
  wrap_signed 32 (prtID * partition_size localSize).

Definition local_entry (localSize prtID nrows : Z) : Z :=
  let prtSize := partition_size localSize in
  let prtPos := partition_pos localSize prtID in
  if wrap_signed 32 (prtPos + prtSize) <? nrows
  then prtSize else wrap_signed 32 (nrows - prtPos).

(** The copy of [localIdx] back into [rindex + prtPos]. *)
Definition write_back (prtPos : Z) (localIdx rindex : list A) : list A :=
  list_inserts (Z.to_nat prtPos) localIdx rindex.

(** gpupreagg_bitonic_local, one work-group. *)
Definition bitonic_local_sort (localSize localEntry : Z) (localIdx : list A)
  : list A :=
  let prtSize := partition_size localSize in
  fold_left
    (fun localIdx blockSize =>
       fold_left
         (fun localIdx unitSize =>
            bitonic_stage localSize localEntry (unitSize =? blockSize)
                          unitSize localIdx)
         (unit_sizes (Z.to_nat blockSize) blockSize) localIdx)
    (block_sizes (Z.to_nat prtSize) 2 prtSize) localIdx.

Definition bitonic_local_group (localSize nrows : Z) (rindex : list A)
    (prtID : Z) : list A :=
  let prtPos := partition_pos localSize prtID in
  let localEntry := local_entry localSize prtID nrows in
  let localIdx :=
    map (fun i => pos (wrap_signed 32 (prtPos + i))) (seqZ 0 localEntry) in
  write_back prtPos (bitonic_local_sort localSize localEntry localIdx) rindex.

Definition gpupreagg_bitonic_local (localSize ngroups nrows : Z)
    (rindex : list A) : list A :=
  fold_left (bitonic_local_group localSize nrows) (seqZ 0 ngroups) rindex.

(** gpupreagg_bitonic_step, all [global_size] work-items. *)
Definition bitonic_step_thread (bitonic_unitsz nrows : Z) (rindex : list A)
    (globalID : Z) : list A :=
  let reversing := bitonic_unitsz <? 0 in
  let unitsz :=
    if bitonic_unitsz <? 0 then wrap_signed 32 (- bitonic_unitsz)
    else bitonic_unitsz in
  let idx0 := bitonic_idx0 unitsz globalID in
  let idx1 := bitonic_idx1 reversing unitsz idx0 in
  if nrows <=? idx1 then rindex else compare_exchange rindex idx0 idx1.

Definition gpupreagg_bitonic_step (global_size bitonic_unitsz nrows : Z)
    (rindex : list A) : list A :=
  fold_left (bitonic_step_thread bitonic_unitsz nrows) (seqZ 0 global_size)
            rindex.

(** gpupreagg_bitonic_merge, one work-group and all of them. *)
Definition bitonic_merge_sort (localSize localEntry : Z) (localIdx : list A)
  : list A :=
  let prtSize := partition_size localSize in
  fold_left
    (fun localIdx unitSize =>
       bitonic_stage localSize localEntry false unitSize localIdx)
    (unit_sizes (Z.to_nat prtSize) prtSize) localIdx.

Definition bitonic_merge_group (localSize nrows : Z) (rindex : list A)
    (prtID : Z) : list A :=
  let prtPos := partition_pos localSize prtID in
  let localEntry := local_entry localSize prtID nrows in
  let localIdx := take (Z.to_nat localEntry) (drop (Z.to_nat prtPos) rindex) in
  write_back prtPos (bitonic_merge_sort localSize localEntry localIdx) rindex.

Definition gpupreagg_bitonic_merge (localSize ngroups nrows : Z)
    (rindex : list A) : list A :=
  fold_left (bitonic_merge_group localSize nrows) (seqZ 0 ngroups) rindex.

(** Modelled from the spec: the host code that launches the three kernels
    is not among the sources.  "(a) local sort within one worker group up
    to group size, (b) independent long-range compare-exchange steps for
    unit sizes exceeding group size (each a separate pass,
    host-orchestrated), (c) a final merge pass bringing partially sorted
    runs back under group-size ordering": for every block size above the
    partition size, one reversing step, the steps of the unit sizes that
    still exceed the partition, and the merge kernel.  A step is launched
    with one work-item for every pair of the units that reach into
    [0, nrows), the other two kernels with one work-group for every
    partition. *)
Definition step_global_size (nrows unitsz : Z) : Z :=
  (nrows + unitsz - 1) / unitsz * (unitsz / 2).

Definition sort_level (localSize ngroups nrows : Z) (rindex : list A)
    (blockSize : Z) : list A :=
  let r1 := gpupreagg_bitonic_step (step_global_size nrows blockSize)
              (- blockSize) nrows rindex in
  let r2 :=
    fold_left
      (fun r unitsz =>
         if localSize * 2 <? unitsz
         then gpupreagg_bitonic_step (step_global_size nrows unitsz)
                unitsz nrows r
         else r)
      (unit_sizes (Z.to_nat blockSize) (blockSize / 2)) r1 in
  gpupreagg_bitonic_merge localSize ngroups nrows r2.

Definition sort_fallback (localSize nrows : Z) (rindex : list A) : list A :=
  let prtSize := localSize * 2 in
  let ngroups := (nrows + prtSize - 1) / prtSize in
  fold_left (sort_level localSize ngroups nrows)
    (block_sizes (Z.to_nat nrows) (prtSize * 2) (2 * nrows - 1))
    (gpupreagg_bitonic_local localSize ngroups nrows rindex).

End Bitonic.

(** *** The comparator network computed by the kernels

    [cells n l] is the view of an array of [n] entries as a function of the
    index, with nothing outside of [0, n): a missing entry behaves as an
    entry that is larger than every row, which is what the guards
    [idx1 < localEntry] and [nrows <= idx1] amount to.  [stage_fun] is one
    pass of compare-exchanges over units of [2 * h] cells, on such a
    function. *)

Definition cells {A : Type} (n : Z) (l : list A) (i : Z) : option A :=
  if (0 <=? i) && (i <? n) then l !! Z.to_nat i else None.

Definition omin {A : Type} (gt : A -> A -> bool) (x y : option A) : option A :=
  match x, y with
  | Some u, Some v => Some (if gt u v then v else u)
  | Some u, None => Some u
  | None, _ => y
  end.

Definition omax {A : Type} (gt : A -> A -> bool) (x y : option A) : option A :=
  match x, y with
  | Some u, Some v => Some (if gt u v then u else v)
  | _, _ => None
  end.

(** The offset in its unit of the upper cell that is compared with the
    lower cell of offset [s], and back. *)
Definition unit_partner (reversing : bool) (h s : Z) : Z :=
  if reversing then 2 * h - 1 - s else s + h.

Definition unit_source (reversing : bool) (h s : Z) : Z :=
  if reversing then 2 * h - 1 - s else s - h.

(** The unit sizes the kernels are meant for: the reversing pass finds the
    mirror image of a cell by bit operations, which needs a power of two. *)
Definition unit_size_ok (reversing : bool) (h : Z) : Prop :=
  0 < h /\ (reversing = true -> exists u, 0 <= u /\ 2 * h = 2 ^ u).

Section Network.

Context {X : Type}.
Variable mn mx : X -> X -> X.

Definition stage_fun (reversing : bool) (h : Z) (a : Z -> X) (i : Z) : X :=
  let s := i mod (2 * h) in
  let c := i - s in
  if s <? h
  then mn (a i) (a (c + unit_partner reversing h s))
  else mx (a (c + unit_source reversing h s)) (a i).

(** The passes of the unit sizes [2 ^ k], ..., [4], [2]. *)
Fixpoint merge_passes (k : nat) (a : Z -> X) : Z -> X :=
  match k with
  | O => a
  | S k => merge_passes k (stage_fun false (2 ^ Z.of_nat k) a)
  end.

(** The passes of the block size [2 ^ (k + 1)]: the reversing one first. *)
Definition block_passes (k : nat) (a : Z -> X) : Z -> X :=
  merge_passes k (stage_fun true (2 ^ Z.of_nat k) a).

(** The whole network: the blocks of [2], [4], ..., [2 ^ k] cells. *)
Fixpoint sort_passes (k : nat) (a : Z -> X) : Z -> X :=
  match k with
  | O => a
  | S k => block_passes k (sort_passes k a)
  end.

End Network.

(** An array of [n] entries that holds what the function [a] says. *)
Definition represents {A : Type} (n : Z) (l : list A) (a : Z -> option A)
  : Prop :=
  n <= Z.of_nat (length l) /\ forall i, 0 <= i -> cells n l i = a i.

(** The rows before any pass: [localIdx[i] = prtPos + i]. *)
Definition initial_cells {A : Type} (pos : Z -> A) (n : Z) (i : Z) : option A :=
  if (0 <=? i) && (i <? n) then Some (pos i) else None.

(** Networks on zeros and ones ([false] and [true]): runs, bitonic blocks,
    and the invariant of the passes of one block size, for blocks of [V]
    cells of which [K] make a block of the network. *)
Definition ones_run (b : Z -> bool) (c V p q : Z) : Prop :=
  forall r, 0 <= r < V -> b (c + r) = (p <=? r) && (r <? q).

Definition zeros_run (b : Z -> bool) (c V p q : Z) : Prop :=
  forall r, 0 <= r < V -> b (c + r) = negb ((p <=? r) && (r <? q)).

Definition bitonic01 (b : Z -> bool) (c V : Z) : Prop :=
  exists p q, ones_run b c V p q \/ zeros_run b c V p q.

Definition all_false (b : Z -> bool) (c V : Z) : Prop :=
  forall r, 0 <= r < V -> b (c + r) = false.

Definition all_true (b : Z -> bool) (c V : Z) : Prop :=
  forall r, 0 <= r < V -> b (c + r) = true.

Definition net_inv (K V : Z) (b : Z -> bool) : Prop :=
  (forall q, 0 <= q -> bitonic01 b (q * V) V) /\
  (forall q, 0 <= q -> ~ (K | q + 1) ->
     all_false b (q * V) V \/ all_true b ((q + 1) * V) V).

Definition sorted_blocks (V : Z) (b : Z -> bool) : Prop :=
  forall q, 0 <= q -> exists x, forall r, 0 <= r < V -> b (q * V + r) = (x <=? r).

(** The image of the cells under a test of the entries; a missing entry
    passes every test. *)
Definition test_cells {A : Type} (f : A -> bool) (x : option A) : bool :=
  match x with Some u => f u | None => true end.

(** Two states of an array with the same entries, and the same cells from
    the index [n] on. *)
Definition same_rows {A : Type} (n : Z) (r' r : list A) : Prop :=
  r' ≡ₚ r /\ drop (Z.to_nat n) r' = drop (Z.to_nat n) r.

(** The indices of the work-items [0 .. T) of a pass over units of
    [2 * h] cells fit a [cl_int]. *)
Definition stage_fits (T h : Z) : Prop :=
  forall t, 0 <= t < T -> (t / h + 1) * (2 * h) <= 2 ^ 31.

(** The array [l] holds what the function [a] says, with the entries of
    [l0]. *)
Definition tracks {A : Type} (n : Z) (l0 l : list A) (a : Z -> option A)
  : Prop :=
  represents n l a /\ same_rows n l l0.

(** The fallback on the rows of [kds]: [nrows = kds->nitems], the entries
    of [rindex] are row indices, and two of them are swapped when
    [0 < gpupreagg_keycomp(kds, ktoast, pos0, pos1)]. *)
Definition keycomp_gt `{F : GpuPreAggFunctions} (kds : kern_data_store)
    (pos0 pos1 : Z) : bool :=
  0 <? gpupreagg_keycomp kds pos0 pos1.

Definition gpupreagg_sort_fallback `{F : GpuPreAggFunctions}
    (kds : kern_data_store) (localSize : Z) (rindex : list Z) : list Z :=
  sort_fallback id (keycomp_gt kds) localSize (nitems kds) rindex.

(** Seven rows with the keys 3, 1, 4, 1, 5, 9, 2. *)
Definition seven_rows_batch : kern_data_store :=
  batch_of 7 [(3, 0); (1, 0); (4, 0); (1, 0); (5, 0); (9, 0); (2, 0)].

(** ** Stating the result of gpupreagg_preparation

    The rows a work-group projects are those of its work-items that the row
    map and the qualifier let through, each with the error code the
    qualifier left; [project_rows] projects them, in the order of the
    work-items, to the consecutive destination rows from [base] on. *)

Definition valid_row (kds_in : kern_data_store) (p : StromError * Z) : bool :=
  snd p <? nitems kds_in.

Definition preparation_rows `{F : GpuPreAggFunctions} (L g : nat)
    (kgpreagg : kern_gpupreagg) (kds_in : kern_data_store)
  : list (StromError * Z) :=
  List.filter (valid_row kds_in)
    (map (fun gid => preparation_kds_index kgpreagg kds_in (Z.of_nat gid))
         (group_members L g)).

Definition project_rows `{F : GpuPreAggFunctions} (kds_in : kern_data_store)
    (base : Z) (rows : list (StromError * Z)) (kds : kern_data_store)
  : kern_data_store :=
  fold_left
    (fun kds (ip : nat * (StromError * Z)) =>
       snd (gpupreagg_projection (fst (snd ip)) kds_in kds (snd (snd ip))
              (base + Z.of_nat (fst ip))))
    (imap pair rows) kds.

(** The row the row map gives to a work-item: its own id when there is no
    row map ([nvalids < 0]); below [nvalids] the entry of the row map, when
    that is a row of the batch; no row otherwise. *)
Definition row_of_workitem (kgpreagg : kern_gpupreagg)
    (kds_in : kern_data_store) (gid : nat) : option Z :=
  let m := krowmap kgpreagg in
  if nvalids m <? 0 then
    if Z.of_nat gid <? nitems kds_in then Some (Z.of_nat gid) else None
  else if Z.of_nat gid <? nvalids m then
    match rindex m !! gid with
    | Some r => if (0 <=? r) && (r <? nitems kds_in) then Some r else None
    | None => None
    end
  else None.

(** The rows of the work-group [g] that the qualifier accepts, in the
    order of the work-items, each with the error code the qualifier
    left. *)
Definition accepted_rows `{F : GpuPreAggFunctions} (L g : nat)
    (kgpreagg : kern_gpupreagg) (kds_in : kern_data_store)
  : list (StromError * Z) :=
  omap (fun gid =>
          match row_of_workitem kgpreagg kds_in gid with
          | Some r =>
              let '(e, ok) := gpupreagg_qual_eval StromError_Success kds_in r in
              if ok then Some (e, r) else None
          | None => None
          end)
       (group_members L g).

(** ** gpupreagg_global_preparation, work-item by work-item

    The loop of one work-item in a launch of [gsize] work-items:
    [curr_index] starts at [get_global_id(0)] and advances by
    [get_global_size(0)]; it is a [size_t].  [None] when the fuel does not
    reach the end of the loop. *)
Fixpoint hashslot_reset_loop (fuel : nat) (hsize gsize curr_index : Z)
    (g_hashslot : list pagg_hashslot) : option (list pagg_hashslot) :=
  match fuel with
  | O => None
  | S fuel =>
      if curr_index <? hsize then
        hashslot_reset_loop fuel hsize gsize
          (wrap_unsigned 64 (curr_index + gsize))
          (<[Z.to_nat curr_index := mk_slot 0 ALL_ONES]> g_hashslot)
      else Some g_hashslot
  end.

(** The kernel body for the work-item [gid]. *)
Definition global_preparation_workitem (gsize : Z)
    (st : kern_gpupreagg * list pagg_hashslot) (gid : Z)
  : option (kern_gpupreagg * list pagg_hashslot) :=
  let kgpreagg := fst st in
  let kg1 :=
    if gid =? 0
    then set_krowmap kgpreagg (mk_krowmap 0 (rindex (krowmap kgpreagg)))
    else kgpreagg in
  tbl ← hashslot_reset_loop (S (Z.to_nat (hash_size kgpreagg)))
          (hash_size kgpreagg) gsize gid (snd st);
  Some (kg1, tbl).

(** A launch: the work-items run one after the other in the order
    [order]. *)
Definition global_preparation_launch (gsize : Z) (order : list Z)
    (kgpreagg : kern_gpupreagg) (g_hashslot : list pagg_hashslot)
  : option (kern_gpupreagg * list pagg_hashslot) :=
  fold_left (fun acc gid => st ← acc; global_preparation_workitem gsize st gid)
            order (Some (kgpreagg, g_hashslot)).

(** ** Counting the groups of gpupreagg_global_reduction

    [left_flag] is the flag that a work-item has given to the prefix sum of
    its work-group, once the work-group is through; [group_owners] are the
    work-items of the launch that are the owner of their group. *)
Definition left_flag (st : gstate) (gid : nat) : Z :=
  match gs_items st !! gid with
  | Some w =>
      if bool_decide (wi_pc w = PC_out)
      then global_owner_flag (gs_items st) gid else 0
  | None => 0
  end.

Definition group_owners (st : gstate) : list nat :=
  List.filter (fun gid => global_owner_flag (gs_items st) gid =? 1)
              (seq 0 (length (gs_items st))).

(** ** gpupreagg_set_rindex

    One work-item, and the work-items of a launch in the order [order];
    [nrows] and [globalID] are [cl_int]. *)
Definition set_rindex_thread (nrows : Z) (rindex : list Z) (gid : Z) : list Z :=
  let globalID := wrap_signed 32 gid in
  if globalID <? nrows then <[Z.to_nat globalID := globalID]> rindex
  else rindex.

Definition gpupreagg_set_rindex (order : list Z) (kds : kern_data_store)
    (rindex : list Z) : list Z :=
  fold_left (set_rindex_thread (wrap_signed 32 (nitems kds))) order rindex.

(** ** Stating the results of gpupreagg_global_reduction

    The aggregate columns of the batch, and the work-items with a row that
    are not the owner of their group. *)
Definition aggfunc_columns (kgpreagg : kern_gpupreagg) (nattrs : Z) : list Z :=
  List.filter
    (fun attnum => cell (gpagg_atts kgpreagg) attnum =? GPUPREAGG_FIELD_IS_AGGFUNC)
    (seqZ 0 nattrs).

Definition merged_row (nitems0 : Z) (items : list workitem) (gid : nat) : bool :=
  match items !! gid with
  | Some w => (Z.of_nat gid <? nitems0) && negb (Z.of_nat gid =? wi_owner_index w)
  | None => false
  end.

(** The calls of [gpupreagg_global_calc] that merge the row of the
    work-item [gid] into the row of its owner, one for every aggregate
    column. *)
Definition merge_calls (kgpreagg : kern_gpupreagg) (nattrs : Z)
    (items : list workitem) (gid : nat) : list (Z * Z * Z) :=
  match items !! gid with
  | Some w =>
      map (fun attnum => (attnum, wi_owner_index w, Z.of_nat gid))
          (aggfunc_columns kgpreagg nattrs)
  | None => []
  end.

(** The work-items whose work-group is through the reduction: the owners
    among them, and those that were merged into their owner. *)
Definition has_left (st : gstate) (gid : nat) : bool :=
  match gs_items st !! gid with
  | Some w => bool_decide (wi_pc w = PC_out)
  | None => false
  end.

Definition left_owners (st : gstate) : list nat :=
  List.filter
    (fun gid => has_left st gid && (global_owner_flag (gs_items st) gid =? 1))
    (seq 0 (length (gs_items st))).

Definition left_merged (nitems0 : Z) (st : gstate) : list nat :=
  List.filter
    (fun gid => has_left st gid && merged_row nitems0 (gs_items st) gid)
    (seq 0 (length (gs_items st))).

(** ** The contract of gpupreagg_global_calc

    A cell of a batch is its null flag and its value word.  What the
    kernel relies on for an aggregate column: the generated function
    replaces the cell of the accumulated row by the merge of this cell and
    the cell of the new row, and leaves every other cell and the layout of
    the batch alone; and a merge of several cells into one does not depend
    on their order. *)
Definition datum_cell (kds : kern_data_store) (row col : Z) : Z * Z :=
  (cell (KERN_DATA_STORE_ISNULL kds row) col,
   cell (KERN_DATA_STORE_VALUES kds row) col).

Definition batch_shape (kds k : kern_data_store) : Prop :=
  kds_wf k /\ ncols k = ncols kds /\ nrooms k = nrooms kds /\
  (Z.to_nat (nitems kds) <= length (slots k))%nat.

Record calc_contract `{F : GpuPreAggFunctions} (kds : kern_data_store)
    (atts : list Z) (merge : Z * Z -> Z * Z -> Z * Z) : Prop := {
  cc_comm : forall x y z, merge (merge x y) z = merge (merge x z) y;
  cc_merge : forall e attnum k a n,
      cell atts attnum = GPUPREAGG_FIELD_IS_AGGFUNC ->
      0 <= attnum < ncols kds ->
      0 <= a < nitems kds -> 0 <= n < nitems kds -> a <> n ->
      batch_shape kds k ->
      let k' := snd (gpupreagg_global_calc e attnum k a n) in
      batch_shape kds k' /\
      datum_cell k' a attnum
      = merge (datum_cell k a attnum) (datum_cell k n attnum) /\
      forall r c, 0 <= r -> 0 <= c -> r <> a \/ c <> attnum ->
                  datum_cell k' r c = datum_cell k r c
}.

(** The rows that were merged into the row [r], and the other rows of the
    group of the row [o]. *)
Definition owner_is (items : list workitem) (gid r : nat) : bool :=
  match items !! gid with
  | Some w => wi_owner_index w =? Z.of_nat r
  | None => false
  end.

Definition merged_into (nitems0 : Z) (st : gstate) (r : nat) : list nat :=
  List.filter
    (fun gid => has_left st gid && merged_row nitems0 (gs_items st) gid
                && owner_is (gs_items st) gid r)
    (seq 0 (length (gs_items st))).

Definition group_rows `{F : GpuPreAggFunctions} (kds : kern_data_store) (o : nat)
  : list nat :=
  List.filter (fun gid => negb (Nat.eqb gid o) && same_key kds gid o)
              (seq 0 (Z.to_nat (nitems kds))).

(** The merge of two cells that [sum_query] makes in
    [gpupreagg_global_calc]: both cells are loaded as in [load_int],
    merged by [GPUPREAGG_AGGCALC_PSUM_INT], and the result is written back
    as a null flag and a value. *)
Definition sum_merge (x y : Z * Z) : Z * Z :=
  let load := fun p : Z * Z =>
    mk_pagg_datum 0 (negb (fst p =? 0)) (wrap_unsigned 32 (snd p)) in
  let d := snd (GPUPREAGG_AGGCALC_PSUM_INT StromError_Success (load x) (load y)) in
  (if pd_isnull d then 1 else 0, get_val F_int d).

(** ** A chain of merges

    The reduction loops call the calc function once for every row that is
    merged, with the private error code of the work-item and the same
    accumulator: the values are merged one after the other. *)
Definition psum_chain (f : int_field) (errcode : StromError)
    (accum : pagg_datum) (values : list pagg_datum)
  : StromError * pagg_datum :=
  fold_left (fun r newval =>
               GPUPREAGG_AGGCALC_PSUM_TEMPLATE f (fst r) (snd r) newval)
            values (errcode, accum).

(** The sum, in the integers, of the values that are not null. *)
Definition exact_sum (f : int_field) (values : list pagg_datum) : Z :=
  sumZ (map (get_val f) (List.filter (fun d => negb (pd_isnull d)) values)).

(** ** Two launches of gpupreagg_local_reduction

    Four rows in two work-groups of two: the keys 1 and 5 of the rows 0
    and 2 differ and share the hash value 1. *)
Definition strangers_batch : kern_data_store :=
  batch_of 4 [(1, 10); (2, 20); (5, 30); (3, 40)].

(** Five rows with the four keys 1, 2, 3, 4, whose hash values differ; the
    rows 0 and 3 carry the same key.  They are reduced by three work-groups
    of two; [five_rows_round] is one round of the round-robin scheduler
    over the six work-items, from the state [five_rows_start] on. *)
Definition five_rows_batch : kern_data_store :=
  batch_of 5 [(1, 10); (2, 20); (3, 30); (1, 40); (4, 50)].

Definition five_rows_step : lstate -> nat -> lstate :=
  @local_step sum_query
    (fst (gpupreagg_global_preparation (control_block 4 5) stale_table))
    five_rows_batch 2.

Definition five_rows_round (st : lstate) : lstate :=
  fold_left five_rows_step (seq 0 6) st.

Definition five_rows_start : lstate :=
  snd (@local_reduction_init sum_query 2 3 (control_block 4 5) five_rows_batch
         (batch_of 5 []) stale_table).

(** The states of the launch under the round-robin scheduler: the state
    after two rounds comes back after six. *)
Definition five_rows_reached (st : lstate) : Prop :=
  st = five_rows_start \/ st = five_rows_round five_rows_start \/
  st = five_rows_round (five_rows_round five_rows_start) \/
  st = five_rows_round (five_rows_round (five_rows_round five_rows_start)) \/
  st = five_rows_round
         (five_rows_round (five_rows_round (five_rows_round five_rows_start))) \/
  st = five_rows_round
         (five_rows_round
            (five_rows_round (five_rows_round (five_rows_round five_rows_start)))).


(** * Properties *)

Section DataMove.

Lemma set_datum_values kds r c n v :
  0 <= r -> 0 <= c ->
  (Z.to_nat r < length (slots kds))%nat ->
  (Z.to_nat c < length (KERN_DATA_STORE_VALUES kds r))%nat ->
  cell (KERN_DATA_STORE_VALUES (set_datum kds r c n v) r) c = v.
Proof.
  intros Hr Hc Hlen Hcol.
  unfold cell, KERN_DATA_STORE_VALUES in *. simpl.
  destruct (slots kds !! Z.to_nat r) as [t|] eqn:Hrow.
  - rewrite list_lookup_alter_eq, Hrow. simpl in *.
    now rewrite list_lookup_insert_eq.
  - apply lookup_ge_None in Hrow. lia.
Qed.

Lemma set_datum_isnull kds r c n v :
  0 <= r -> 0 <= c ->
  (Z.to_nat r < length (slots kds))%nat ->
  (Z.to_nat c < length (KERN_DATA_STORE_ISNULL kds r))%nat ->
  cell (KERN_DATA_STORE_ISNULL (set_datum kds r c n v) r) c = n.
Proof.
  intros Hr Hc Hlen Hcol.
  unfold cell, KERN_DATA_STORE_ISNULL in *. simpl.
  destruct (slots kds !! Z.to_nat r) as [t|] eqn:Hrow.
  - rewrite list_lookup_alter_eq, Hrow. simpl in *.
    now rewrite list_lookup_insert_eq.
  - apply lookup_ge_None in Hrow. lia.
Qed.

Lemma kds_wf_row kds r :
  kds_wf kds -> 0 <= r -> (Z.to_nat r < length (slots kds))%nat ->
  length (KERN_DATA_STORE_VALUES kds r) = Z.to_nat (ncols kds) /\
  length (KERN_DATA_STORE_ISNULL kds r) = Z.to_nat (ncols kds).
Proof.
  intros [_ Hwf] Hr Hlen.
  unfold KERN_DATA_STORE_VALUES, KERN_DATA_STORE_ISNULL.
  destruct (lookup_lt_is_Some_2 _ _ Hlen) as [t Ht]. rewrite Ht. simpl.
  rewrite Forall_lookup in Hwf. exact (Hwf _ _ Ht).
Qed.

(** C10. For a column index in range of both batches, the move copies a
    non-null source cell (value word and null flag 0) to the destination
    row, and for a null source cell it sets the destination null flag to 1
    and the destination value word to 0. The error code is untouched. *)
Theorem gpupreagg_data_move_spec :
  forall errcode kds_src kds_dst colidx rowidx_src rowidx_dst,
    kds_wf kds_dst ->
    0 <= colidx < ncols kds_src -> colidx < ncols kds_dst ->
    0 <= rowidx_dst -> (Z.to_nat rowidx_dst < length (slots kds_dst))%nat ->
    let src_value := cell (KERN_DATA_STORE_VALUES kds_src rowidx_src) colidx in
    let src_null := cell (KERN_DATA_STORE_ISNULL kds_src rowidx_src) colidx in
    let '(err', dst') := gpupreagg_data_move errcode kds_src kds_dst
                           colidx rowidx_src rowidx_dst in
    let dst_value := cell (KERN_DATA_STORE_VALUES dst' rowidx_dst) colidx in
    let dst_null := cell (KERN_DATA_STORE_ISNULL dst' rowidx_dst) colidx in
    err' = errcode /\
    (src_null = 0 -> dst_null = src_null /\ dst_value = src_value) /\
    (src_null <> 0 -> dst_null = 1 /\ dst_value = 0).
Proof.
  intros errcode kds_src kds_dst colidx rowidx_src rowidx_dst
    Hwf Hsrc Hdst Hrow Hlen.
  destruct (kds_wf_row _ _ Hwf Hrow Hlen) as [Hv Hn].
  unfold gpupreagg_data_move.
  replace (colidx >=? ncols kds_src) with false by (symmetry; lia).
  replace (colidx >=? ncols kds_dst) with false by (symmetry; lia).
  simpl orb. cbv iota.
  destruct (Z.eqb_spec (cell (KERN_DATA_STORE_ISNULL kds_src rowidx_src) colidx) 0)
    as [Hz|Hnz]; simpl negb; cbv iota.
  - split; [reflexivity|]. split; [|congruence].
    intros _. rewrite set_datum_isnull, set_datum_values by lia. auto.
  - split; [reflexivity|]. split; [congruence|].
    intros _. rewrite set_datum_isnull, set_datum_values by lia. auto.
Qed.

End DataMove.

(** ** Sum merge and overflow signalling *)

Section SumMerge.

Lemma get_val_in_range f d : in_range f (get_val f d).
Proof.
  unfold in_range, get_val, wrap_signed.
  destruct f; simpl field_bits;
    match goal with |- context [?a mod ?b] =>
      pose proof (Z.mod_pos_bound a b ltac:(lia)) end; simpl in *; lia.
Qed.

Lemma wrap_signed_small f v : in_range f v -> wrap_signed (field_bits f) v = v.
Proof.
  unfold in_range, wrap_signed. intros H.
  destruct f; simpl field_bits in *; simpl in *;
    rewrite Z.mod_small by lia; lia.
Qed.

Lemma get_set_val f d v : get_val f (set_val f d v) = wrap_signed (field_bits f) v.
Proof.
  unfold get_val, set_val, wrap_signed. simpl pd_bits.
  destruct f; simpl field_bits; simpl Z.sub; simpl Z.pow;
    Z.to_euclidean_division_equations; lia.
Qed.

Lemma get_val_datum_of f v : in_range f v -> get_val f (datum_of f v) = v.
Proof.
  intros H. unfold datum_of. rewrite get_set_val. now apply wrap_signed_small.
Qed.

(** For [int_val] and [long_val] the macro sees the wrapped sum: it fires
    exactly when the mathematical sum leaves the range of the field. *)
Lemma CHECK_OVERFLOW_INT_wide f x y :
  f <> F_short -> in_range f x -> in_range f y ->
  CHECK_OVERFLOW_INT f x y = negb (bool_decide (in_range f (x + y))).
Proof.
  intros Hf Hx Hy. unfold CHECK_OVERFLOW_INT, c_add, wrap_signed, in_range in *.
  case_bool_decide as Hr; simpl negb;
    destruct f; try congruence; simpl field_bits in *; simpl arith_bits;
    simpl Z.sub in *; simpl Z.pow in *.
  all: destruct (Z.ltb_spec x 0), (Z.ltb_spec y 0); simpl; try lia.
  all: try reflexivity.
  all: match goal with |- context [?a mod ?b <? 0 + _] => idtac | _ => idtac end.
  all: match goal with |- context [Z.ltb ?e 0] =>
         destruct (Z.ltb_spec e 0) as [Hs|Hs]; simpl; try reflexivity;
         exfalso; revert Hs; Z.to_euclidean_division_equations; lia
       end.
Qed.

(** For [short_val] the operands are promoted to [int] before the sum is
    taken, the sum of two 16-bit values never changes sign in 32 bits, and
    the macro never fires. *)
Lemma CHECK_OVERFLOW_INT_short x y :
  in_range F_short x -> in_range F_short y ->
  CHECK_OVERFLOW_INT F_short x y = false.
Proof.
  unfold CHECK_OVERFLOW_INT, c_add, wrap_signed, in_range.
  simpl field_bits; simpl arith_bits; simpl Z.sub; simpl Z.pow. intros Hx Hy.
  rewrite Z.mod_small by lia.
  destruct (Z.ltb_spec x 0), (Z.ltb_spec y 0); simpl; try reflexivity;
    match goal with |- context [Z.ltb ?e 0] =>
      destruct (Z.ltb_spec e 0); simpl; try reflexivity; lia end.
Qed.

(** A sum of two non-null [int_val] or [long_val] accumulators that leaves
    the range of the field records [StromError_CpuReCheck]. *)
Lemma psum_wide_overflow_flagged f errcode accum newval :
  f <> F_short ->
  pd_isnull accum = false -> pd_isnull newval = false ->
  ~ in_range f (get_val f accum + get_val f newval) ->
  fst (GPUPREAGG_AGGCALC_PSUM_TEMPLATE f errcode accum newval)
  = STROM_SET_ERROR errcode StromError_CpuReCheck.
Proof.
  intros Hf Ha Hn Hov. unfold GPUPREAGG_AGGCALC_PSUM_TEMPLATE.
  rewrite Ha, Hn. simpl negb. cbv iota.
  rewrite CHECK_OVERFLOW_INT_wide by auto using get_val_in_range.
  rewrite bool_decide_eq_false_2 by assumption. reflexivity.
Qed.

(** Without overflow the sum is exact and the error code is untouched. *)
Lemma psum_exact f errcode accum newval :
  pd_isnull accum = false -> pd_isnull newval = false ->
  in_range f (get_val f accum + get_val f newval) ->
  let r := GPUPREAGG_AGGCALC_PSUM_TEMPLATE f errcode accum newval in
  fst r = errcode /\ pd_isnull (snd r) = false /\
  get_val f (snd r) = get_val f accum + get_val f newval.
Proof.
  intros Ha Hn Hr. unfold GPUPREAGG_AGGCALC_PSUM_TEMPLATE.
  rewrite Ha, Hn. simpl negb. cbv iota. cbv zeta. simpl fst. simpl snd.
  assert (Hc : CHECK_OVERFLOW_INT f (get_val f accum) (get_val f newval) = false).
  { destruct (decide (f = F_short)) as [->|Hf].
    - apply CHECK_OVERFLOW_INT_short; apply get_val_in_range.
    - rewrite CHECK_OVERFLOW_INT_wide by auto using get_val_in_range.
      now rewrite bool_decide_eq_true_2. }
  rewrite Hc. split; [reflexivity|]. split; [exact Ha|].
  rewrite get_set_val.
  assert (Hadd : c_add f (get_val f accum) (get_val f newval)
                 = get_val f accum + get_val f newval).
  { unfold c_add, wrap_signed. unfold in_range in Hr.
    destruct f; simpl field_bits in *; simpl arith_bits; simpl Z.sub in *;
      simpl Z.pow in *; rewrite Z.mod_small by lia; lia. }
  rewrite Hadd. now apply wrap_signed_small.
Qed.

(** C3. At [short_val] the sum of 32767 and 1 leaves the 16-bit range, yet
    the merge returns the error code [StromError_Success] it was given and
    the accumulator wrapped around to -32768. *)
Theorem psum_short_overflow_not_flagged :
  let accum := datum_of F_short 32767 in
  let newval := datum_of F_short 1 in
  pd_isnull accum = false /\ pd_isnull newval = false /\
  get_val F_short accum = 32767 /\ get_val F_short newval = 1 /\
  ~ in_range F_short (32767 + 1) /\
  GPUPREAGG_AGGCALC_PSUM_SHORT StromError_Success accum newval
  = (StromError_Success, datum_of F_short (-32768)).
Proof.
  cbv zeta. repeat split; try reflexivity.
  unfold in_range. simpl. lia.
Qed.

End SumMerge.

(** ** The reservation protocol of gpupreagg_global_stage *)

Section ProtocolBasics.

Context `{F : GpuPreAggFunctions}.
Variables (kg : kern_gpupreagg) (kds : kern_data_store).
Hypothesis Hsize : 0 < hash_size kg.
Hypothesis Hnitems : nitems kds <= ALL_ONES.

Lemma count_occ_snoc (l : list nat) (a x : nat) :
  count_occ Nat.eq_dec (l ++ [a]) x
  = (count_occ Nat.eq_dec l x + (if Nat.eq_dec a x then 1 else 0))%nat.
Proof.
  rewrite count_occ_app. simpl. destruct (Nat.eq_dec a x); lia.
Qed.

Lemma row_hash_range x : 0 <= row_hash kds x < 2 ^ 32.
Proof. unfold row_hash, wrap_unsigned. apply Z.mod_pos_bound. lia. Qed.

Lemma slot_of_not_old o : Z.of_nat o < nitems kds -> slot_of kds o <> old_slot.
Proof.
  intros Ho Heq. unfold slot_of, old_slot in Heq.
  injection Heq as _ Hi. unfold ALL_ONES in *. lia.
Qed.

Lemma slot_value_old_inv e :
  (e = old_slot \/ exists o, e = slot_of kds o /\ Z.of_nat o < nitems kds) ->
  slot_value e = slot_value old_slot -> e = old_slot.
Proof.
  intros [He|[o [He Ho]]] Hv; [assumption|]. subst e. exfalso.
  unfold slot_value, slot_of, old_slot in Hv. simpl in Hv.
  pose proof (row_hash_range o). unfold ALL_ONES in *. lia.
Qed.

Lemma probe_slot_lt x k : (probe_slot kg kds x k < Z.to_nat (hash_size kg))%nat.
Proof.
  unfold probe_slot.
  pose proof (Z.mod_pos_bound (start_slot kg kds x + Z.of_nat k) (hash_size kg) Hsize).
  lia.
Qed.

Lemma probe_slot_0 x : Z.of_nat (probe_slot kg kds x 0) = start_slot kg kds x.
Proof.
  unfold probe_slot, start_slot. rewrite Z.add_0_r, Z.mod_mod by lia.
  pose proof (Z.mod_pos_bound (row_hash kds x) (hash_size kg) Hsize). lia.
Qed.

Lemma probe_slot_succ x k :
  (Z.of_nat (probe_slot kg kds x k) + 1) mod hash_size kg
  = Z.of_nat (probe_slot kg kds x (S k)).
Proof.
  unfold probe_slot.
  pose proof (Z.mod_pos_bound (start_slot kg kds x + Z.of_nat k) (hash_size kg) Hsize).
  pose proof (Z.mod_pos_bound (start_slot kg kds x + Z.of_nat (S k)) (hash_size kg) Hsize).
  rewrite !Z2Nat.id by lia.
  rewrite Z.add_mod_idemp_l by lia. f_equal. lia.
Qed.

(** Every slot of the table is reached within [hash_size] probes. *)
Lemma probe_slot_surjective x p :
  (p < Z.to_nat (hash_size kg))%nat ->
  exists k, (k < Z.to_nat (hash_size kg))%nat /\ probe_slot kg kds x k = p.
Proof.
  intros Hp.
  exists (Z.to_nat ((Z.of_nat p - start_slot kg kds x) mod hash_size kg)).
  pose proof (Z.mod_pos_bound (Z.of_nat p - start_slot kg kds x) (hash_size kg) Hsize).
  split; [lia|]. unfold probe_slot. rewrite Z2Nat.id by lia.
  rewrite Z.add_mod_idemp_r by lia.
  replace (start_slot kg kds x + (Z.of_nat p - start_slot kg kds x))
    with (Z.of_nat p) by lia.
  rewrite Z.mod_small by lia. lia.
Qed.

Lemma blocked_mono tbl tbl' x k :
  (forall p e, tbl !! p = Some e -> e <> old_slot -> tbl' !! p = Some e) ->
  blocked kg kds tbl x k -> blocked kg kds tbl' x k.
Proof.
  intros Hmono Hb j Hj. destruct (Hb j Hj) as (e & He & Hne & Hm).
  exists e. auto.
Qed.

Lemma blocked_le tbl x k k' :
  (k' <= k)%nat -> blocked kg kds tbl x k -> blocked kg kds tbl x k'.
Proof. intros Hle Hb j Hj. apply Hb. lia. Qed.

Lemma insert_keeps_occupied (tbl : list pagg_hashslot) i new :
  tbl !! i = Some old_slot ->
  forall p e, tbl !! p = Some e -> e <> old_slot -> <[i := new]> tbl !! p = Some e.
Proof.
  intros Hi p e Hp Hne. destruct (decide (i = p)) as [->|Hip].
  - congruence.
  - now rewrite list_lookup_insert_ne.
Qed.

End ProtocolBasics.

Section GlobalRetry.

Context `{F : GpuPreAggFunctions}.
Variables (kg : kern_gpupreagg) (kds : kern_data_store).
Hypothesis Hsize : 0 < hash_size kg.
Hypothesis Hnitems : nitems kds <= ALL_ONES.
Hypothesis HK : key_contract kds (gpagg_atts kg).

Lemma new_slot_is_slot_of gid w :
  Z.of_nat gid < nitems kds -> wi_hash_value w = row_hash kds gid ->
  mk_slot (wi_hash_value w) (wrap_unsigned 32 (Z.of_nat gid)) = slot_of kds gid.
Proof.
  intros Hlt Hh. unfold slot_of, wrap_unsigned.
  rewrite Hh, Z.mod_small; [reflexivity | unfold ALL_ONES in *; lia].
Qed.

(** The work-item that wins the compare-and-swap. *)
Lemma global_inv_claim sched st gid w i :
  global_inv kg kds sched st ->
  gs_items st !! gid = Some w -> wi_pc w = PC_retry ->
  Z.of_nat gid < nitems kds ->
  i = probe_slot kg kds gid (count_occ Nat.eq_dec sched gid) ->
  gs_hashslot st !! i = Some old_slot ->
  global_inv kg kds (sched ++ [gid])
    (gs_set_item (gs_set_hashslot st (<[i := slot_of kds gid]> (gs_hashslot st)))
                 gid (wi_found w (Z.of_nat gid))).
Proof.
  intros [Htab Hkey Hin Hout Hslots Hcalls] Hw Hpc Hlt Hi Hcur.
  destruct (Hin _ _ Hw Hlt) as (Hh & Hr & _).
  destruct (Hr Hpc) as [Hidx Hb].
  assert (Hilen : (i < length (gs_hashslot st))%nat)
    by (eapply lookup_lt_Some; eassumption).
  assert (Hglen : (gid < length (gs_items st))%nat)
    by (eapply lookup_lt_Some; eassumption).
  constructor; simpl.
  - rewrite length_insert. exact Htab.
  - exact Hkey.
  - intros gid' w' Hl Hlt'. destruct (decide (gid = gid')) as [<-|Hne].
    + rewrite list_lookup_insert_eq in Hl by assumption. injection Hl as <-.
      simpl. split; [exact Hh|]. split; [intros; discriminate|]. intros _.
      exists gid, i. split; [reflexivity|]. split; [assumption|].
      split; [apply (kc_refl _ _ HK)|]. split; [subst i; now apply probe_slot_lt|].
      now rewrite list_lookup_insert_eq.
    + rewrite list_lookup_insert_ne in Hl by assumption.
      destruct (Hin _ _ Hl Hlt') as (Hh' & Hr' & Hn'). split; [exact Hh'|]. split.
      * intros Hpc'. destruct (Hr' Hpc') as [Hidx' Hb'].
        rewrite count_occ_snoc. destruct (Nat.eq_dec gid gid'); [contradiction|].
        rewrite Nat.add_0_r. split; [exact Hidx'|].
        eapply blocked_mono; [|exact Hb']. now apply insert_keeps_occupied.
      * intros Hpc'. destruct (Hn' Hpc') as (o & p & Ho & Hlo & Hsk & Hp & Hlk).
        exists o, p. repeat split; auto.
        apply insert_keeps_occupied; auto. now apply slot_of_not_old.
  - intros gid' w' Hl Hge. destruct (decide (gid = gid')) as [<-|Hne]; [lia|].
    rewrite list_lookup_insert_ne in Hl by assumption. eauto.
  - intros p e Hp Hl Hne. destruct (decide (i = p)) as [<-|Hip].
    + rewrite list_lookup_insert_eq in Hl by assumption. injection Hl as <-.
      exists gid, (wi_found w (Z.of_nat gid)), (count_occ Nat.eq_dec sched gid).
      split; [reflexivity|]. split; [assumption|].
      split; [now rewrite list_lookup_insert_eq|].
      split; [simpl; discriminate|]. split; [reflexivity|]. split; [assumption|].
      eapply blocked_mono; [|exact Hb]. now apply insert_keeps_occupied.
    + rewrite list_lookup_insert_ne in Hl by assumption.
      destruct (Hslots _ _ Hp Hl Hne) as (o & wo & ko & He & Hlo & Hwo & Hpo & Hoo & Hpk & Hbo).
      exists o, wo, ko. repeat split; auto.
      * rewrite list_lookup_insert_ne; [assumption|]. intros <-. congruence.
      * eapply blocked_mono; [|exact Hbo]. now apply insert_keeps_occupied.
  - intros a o g Hc.
    destruct (Hcalls _ _ _ Hc) as (gn & wn & Hg & Hgn & Hwn & Hpn & Hon & Hne).
    exists gn, wn. repeat split; auto.
    rewrite list_lookup_insert_ne; [assumption|]. intros <-. congruence.
Qed.

(** A private update of a work-item that stays in the retry loop or leaves
    it for an occupied slot of its group. *)
Lemma global_inv_private sched st gid w w' :
  global_inv kg kds sched st ->
  gs_items st !! gid = Some w -> wi_pc w = PC_retry ->
  Z.of_nat gid < nitems kds ->
  wi_hash_value w' = wi_hash_value w ->
  (wi_pc w' = PC_retry ->
     wi_index w' = Z.of_nat (probe_slot kg kds gid
                               (S (count_occ Nat.eq_dec sched gid))) /\
     blocked kg kds (gs_hashslot st) gid (S (count_occ Nat.eq_dec sched gid))) ->
  (wi_pc w' <> PC_retry ->
     exists o p, wi_owner_index w' = Z.of_nat o /\ Z.of_nat o < nitems kds /\
                 same_key kds gid o = true /\
                 (p < Z.to_nat (hash_size kg))%nat /\
                 gs_hashslot st !! p = Some (slot_of kds o)) ->
  global_inv kg kds (sched ++ [gid]) (gs_set_item st gid w').
Proof.
  intros [Htab Hkey Hin Hout Hslots Hcalls] Hw Hpc Hlt Hh' Hr' Hn'.
  destruct (Hin _ _ Hw Hlt) as (Hh & _ & _).
  assert (Hglen : (gid < length (gs_items st))%nat)
    by (eapply lookup_lt_Some; eassumption).
  constructor; simpl; auto.
  - intros gid' w'' Hl Hlt'. destruct (decide (gid = gid')) as [<-|Hne].
    + rewrite list_lookup_insert_eq in Hl by assumption. injection Hl as <-.
      split; [congruence|]. split; [|assumption].
      intros Hpc'. rewrite count_occ_snoc.
      destruct (Nat.eq_dec gid gid); [|contradiction].
      rewrite Nat.add_1_r. auto.
    + rewrite list_lookup_insert_ne in Hl by assumption.
      destruct (Hin _ _ Hl Hlt') as (Hh'' & Hr'' & Hn''). split; [exact Hh''|].
      split; [|assumption].
      intros Hpc'. rewrite count_occ_snoc.
      destruct (Nat.eq_dec gid gid'); [contradiction|].
      rewrite Nat.add_0_r. auto.
  - intros gid' w'' Hl Hge. destruct (decide (gid = gid')) as [<-|Hne]; [lia|].
    rewrite list_lookup_insert_ne in Hl by assumption. eauto.
  - intros p e Hp Hl Hne.
    destruct (Hslots _ _ Hp Hl Hne) as (o & wo & ko & He & Hlo & Hwo & Hpo & Hoo & Hpk & Hbo).
    exists o, wo, ko. repeat split; auto.
    rewrite list_lookup_insert_ne; [assumption|]. intros <-. congruence.
  - intros a o g Hc.
    destruct (Hcalls _ _ _ Hc) as (gn & wn & Hg & Hgn & Hwn & Hpn & Hon & Hne).
    exists gn, wn. repeat split; auto.
    rewrite list_lookup_insert_ne; [assumption|]. intros <-. congruence.
Qed.

Lemma global_retry_inv sched st gid w :
  global_inv kg kds sched st ->
  gs_items st !! gid = Some w -> wi_pc w = PC_retry ->
  global_inv kg kds (sched ++ [gid]) (global_retry kg gid w st).
Proof.
  intros Hinv Hw Hpc.
  destruct (Z.lt_ge_cases (Z.of_nat gid) (nitems kds)) as [Hlt|Hge];
    [|destruct (gi_outside _ _ _ _ Hinv _ _ Hw Hge); contradiction].
  destruct (gi_inside _ _ _ _ Hinv _ _ Hw Hlt) as (Hh & Hr & _).
  destruct (Hr Hpc) as [Hidx Hb].
  set (k := count_occ Nat.eq_dec sched gid) in *.
  set (i := probe_slot kg kds gid k) in *.
  assert (Hi : (i < Z.to_nat (hash_size kg))%nat) by now apply probe_slot_lt.
  pose proof (gi_table _ _ _ _ Hinv) as Htab.
  destruct (lookup_lt_is_Some_2 (gs_hashslot st) i ltac:(lia)) as [cur Hcur].
  unfold global_retry, atom_cmpxchg.
  rewrite Hidx, Nat2Z.id, Hcur.
  rewrite (new_slot_is_slot_of _ _ Hlt Hh).
  assert (Hshape : cur = old_slot \/
                   exists o, cur = slot_of kds o /\ Z.of_nat o < nitems kds).
  { destruct (decide (cur = old_slot)) as [|Hne]; [now left|right].
    destruct (gi_slots _ _ _ _ Hinv _ _ Hi Hcur Hne) as (o & _ & _ & He & Hlo & _).
    eauto. }
  destruct (Z.eqb_spec (slot_value cur) (slot_value old_slot)) as [Hv|Hv].
  - apply (slot_value_old_inv kds Hnitems) in Hv; [|assumption]. subst cur.
    simpl slot_index. eapply global_inv_claim; eauto.
  - assert (Hne : cur <> old_slot) by (intros ->; congruence).
    simpl slot_hash.
    destruct (Z.eqb_spec (slot_hash cur) (row_hash kds gid)) as [Hhash|Hhash];
      simpl andb.
    + destruct (Z.eqb_spec (gpupreagg_keycomp (gs_kds_dst st) (Z.of_nat gid)
                              (slot_index cur)) 0) as [Hcmp|Hcmp].
      * rewrite (gi_key _ _ _ _ Hinv) in Hcmp.
        destruct (gi_slots _ _ _ _ Hinv _ _ Hi Hcur Hne)
          as (o & wo & ko & He & Hlo & Hwo & Hpo & Hoo & Hpk & Hbo).
        eapply global_inv_private; eauto; simpl.
        -- intros; discriminate.
        -- intros _. exists o, i. subst cur. simpl in *.
           repeat split; auto. unfold same_key. now apply Z.eqb_eq.
      * rewrite (gi_key _ _ _ _ Hinv) in Hcmp.
        eapply global_inv_private; eauto; simpl.
        -- intros _. fold k. fold i. split.
           ++ rewrite <- (probe_slot_succ kg kds Hsize). reflexivity.
           ++ intros j Hj. destruct (decide (j = k)) as [->|Hjk].
              ** exists cur. fold i. split; [assumption|]. split; [assumption|].
                 intros [_ Hm]. contradiction.
              ** apply Hb. lia.
        -- intros Hc; contradiction.
    + eapply global_inv_private; eauto; simpl.
      * intros _. fold k. fold i. split.
        -- rewrite <- (probe_slot_succ kg kds Hsize). reflexivity.
        -- intros j Hj. destruct (decide (j = k)) as [->|Hjk].
           ++ exists cur. fold i. split; [assumption|]. split; [assumption|].
              intros [Hm _]. contradiction.
           ++ apply Hb. lia.
      * intros Hc; contradiction.
Qed.

End GlobalRetry.

(** ** The reduction of a work-group leaves the protocol state alone *)

Section GroupFrame.

Context `{F : GpuPreAggFunctions}.
Variables (kg : kern_gpupreagg) (nitems0 nattrs : Z).

Lemma wi_frame_refl w : wi_frame w w.
Proof. unfold wi_frame. auto. Qed.

Lemma wi_frame_retry w w' :
  wi_frame w w' -> (wi_pc w' = PC_retry <-> wi_pc w = PC_retry).
Proof.
  intros (_ & _ & _ & [Hpc|[Hne Hout]]).
  - now rewrite Hpc.
  - rewrite Hout. split; [discriminate|contradiction].
Qed.

Lemma gs_frame_refl st : gs_frame (gpagg_atts kg) nitems0 st st.
Proof.
  constructor; auto.
  apply Forall_Forall2_diag, Forall_forall. intros; apply wi_frame_refl.
Qed.

Lemma gs_frame_krowmap st0 st m :
  gs_frame (gpagg_atts kg) nitems0 st0 st ->
  gs_frame (gpagg_atts kg) nitems0 st0
    (mk_gstate (gs_hashslot st) m (gs_kds_dst st) (gs_items st) (gs_calls st)).
Proof. intros [Ht Hi Hk Hc]. constructor; simpl; auto. Qed.

Lemma gs_frame_alter st0 st gid w0 (f : workitem -> workitem) :
  gs_frame (gpagg_atts kg) nitems0 st0 st ->
  gs_items st0 !! gid = Some w0 -> wi_pc w0 <> PC_retry ->
  (forall w, wi_hash_value (f w) = wi_hash_value w /\
             wi_index (f w) = wi_index w /\
             wi_owner_index (f w) = wi_owner_index w /\
             (wi_pc (f w) = wi_pc w \/ wi_pc (f w) = PC_out)) ->
  gs_frame (gpagg_atts kg) nitems0 st0
    (mk_gstate (gs_hashslot st) (gs_krowmap st) (gs_kds_dst st)
               (alter f gid (gs_items st)) (gs_calls st)).
Proof.
  intros [Ht Hi Hk Hc] Hw0 Hpc0 Hf. constructor; simpl; auto.
  apply Forall2_alter_r; [assumption|].
  intros x y Hx Hy (Hh & Hidx & Ho & Hpc).
  destruct (Hf y) as (Hh' & Hidx' & Ho' & Hpc').
  assert (x = w0) by congruence. subst x.
  unfold wi_frame. rewrite Hh', Hidx', Ho'. repeat split; auto.
  destruct Hpc' as [Hs|Hout]; [rewrite Hs; exact Hpc|]. right. auto.
Qed.

Lemma global_reduce_column_frame st0 gid w0 dest st attnum :
  gs_items st0 !! gid = Some w0 -> wi_pc w0 <> PC_retry ->
  gs_frame (gpagg_atts kg) nitems0 st0 st ->
  gs_frame (gpagg_atts kg) nitems0 st0
    (global_reduce_column kg nitems0 gid (wi_owner_index w0) dest st attnum).
Proof.
  intros Hw0 Hpc0 Hfr. unfold global_reduce_column.
  destruct (Z.eqb_spec (cell (gpagg_atts kg) attnum) GPUPREAGG_FIELD_IS_AGGFUNC)
    as [Hatt|Hatt]; simpl negb; cbv iota; [|assumption].
  destruct (Z.ltb_spec (Z.of_nat gid) nitems0) as [Hlt|Hge]; [|assumption].
  destruct (Z.eqb_spec (Z.of_nat gid) (wi_owner_index w0)) as [Hown|Hown].
  - now apply gs_frame_krowmap.
  - cbv zeta.
    set (r := gpupreagg_global_calc _ attnum (gs_kds_dst st) (wi_owner_index w0)
                (Z.of_nat gid)).
    pose proof (gs_frame_alter st0 st gid w0
                  (fun w => mk_wi (wi_hash_value w) (wi_index w)
                                  (wi_owner_index w) (fst r) (wi_pc w))
                  Hfr Hw0 Hpc0) as Hal.
    destruct Hal as [Ht Hi Hk Hc]; [intros w; simpl; auto|].
    simpl in *. constructor; simpl; auto.
    + intros Hst x y. unfold r. rewrite Hst by assumption. now apply Hk.
    + intros c Hin. apply in_app_or in Hin. destruct Hin as [Hin|[<-|[]]].
      * now apply Hc.
      * right. exists gid, w0. simpl. repeat split; auto.
Qed.

Lemma global_reduce_item_frame st0 gid w0 dest st :
  gs_items st0 !! gid = Some w0 -> wi_pc w0 <> PC_retry ->
  gs_frame (gpagg_atts kg) nitems0 st0 st ->
  gs_frame (gpagg_atts kg) nitems0 st0
    (global_reduce_item kg nitems0 nattrs gid (wi_owner_index w0) dest st).
Proof.
  intros Hw0 Hpc0. unfold global_reduce_item.
  generalize (seqZ 0 nattrs) as cols. intros cols. revert st.
  induction cols as [|c cols IH]; intros st Hfr; simpl; [assumption|].
  apply IH. now apply global_reduce_column_frame.
Qed.

Lemma global_group_member_frame L g my_values base st0 st gid :
  (forall w0, gs_items st0 !! gid = Some w0 -> wi_pc w0 <> PC_retry) ->
  gs_frame (gpagg_atts kg) nitems0 st0 st ->
  gs_frame (gpagg_atts kg) nitems0 st0
    (global_group_member kg nitems0 nattrs L g my_values base st gid).
Proof.
  intros Hmem Hfr. unfold global_group_member.
  destruct (gs_items st !! gid) as [w|] eqn:Hw; [|assumption].
  destruct (Forall2_lookup_r _ _ _ _ _ (gf_items _ _ _ _ Hfr) Hw)
    as (w0 & Hw0 & Hww).
  destruct Hww as (_ & _ & Ho & _). rewrite Ho. cbv zeta.
  pose proof (Hmem _ Hw0) as Hpc0.
  eapply (gs_frame_alter st0 _ gid w0);
    [apply global_reduce_item_frame; eassumption|assumption|assumption|].
  intros w'. simpl. auto.
Qed.

Lemma global_group_step_frame L g st :
  (forall gid w, In gid (group_members L g) ->
                 gs_items st !! gid = Some w -> wi_pc w <> PC_retry) ->
  gs_frame (gpagg_atts kg) nitems0 st (global_group_step kg nitems0 nattrs L g st).
Proof.
  intros Hmem. unfold global_group_step. cbv zeta.
  set (my_values := map (global_owner_flag (gs_items st)) (group_members L g)).
  set (st1 := mk_gstate (gs_hashslot st) _ (gs_kds_dst st) (gs_items st) (gs_calls st)).
  assert (Hst1 : gs_frame (gpagg_atts kg) nitems0 st st1)
    by (apply gs_frame_krowmap, gs_frame_refl).
  destruct (nrooms (gs_kds_dst st1) <? _).
  - assert (Hgen : forall members items,
               (forall gid, In gid members -> In gid (group_members L g)) ->
               Forall2 wi_frame (gs_items st) items ->
               Forall2 wi_frame (gs_items st)
                 (fold_left (fun items gid =>
                    alter (fun w => wi_leave w StromError_DataStoreNoSpace) gid items)
                    members items)).
    { induction members as [|m members IH]; intros items Hsub Hfr; simpl;
        [assumption|].
      apply IH; [intros; apply Hsub; now right|].
      apply Forall2_alter_r; [assumption|].
      intros x y Hx Hy (Hh & Hidx & Ho & Hpc). unfold wi_frame. simpl.
      repeat split; auto. right. split; [|reflexivity].
      eapply Hmem; [apply Hsub; now left|eassumption]. }
    destruct Hst1 as [Ht Hi Hk Hc]. constructor; simpl; auto.
  - assert (Hgen : forall members st',
               (forall gid, In gid members -> In gid (group_members L g)) ->
               gs_frame (gpagg_atts kg) nitems0 st st' ->
               gs_frame (gpagg_atts kg) nitems0 st
                 (fold_left (global_group_member kg nitems0 nattrs L g my_values
                               (wrap_unsigned 64 (nvalids (gs_krowmap st))))
                            members st')).
    { induction members as [|m members IH]; intros st' Hsub Hfr; simpl;
        [assumption|].
      apply IH; [intros; apply Hsub; now right|].
      apply global_group_member_frame; [|assumption].
      intros w0 Hw0. eapply Hmem; [apply Hsub; now left|eassumption]. }
    apply Hgen; auto.
Qed.

End GroupFrame.

(** ** The invariant holds along every schedule *)

Section GlobalInvariant.

Context `{F : GpuPreAggFunctions}.
Variables (kg : kern_gpupreagg) (kds : kern_data_store) (L NG : nat).
Hypothesis Hsize : 0 < hash_size kg.
Hypothesis Hnitems : nitems kds <= ALL_ONES.
Hypothesis HK : key_contract kds (gpagg_atts kg).

Lemma global_inv_frame sched st st' g :
  global_inv kg kds sched st ->
  gs_frame (gpagg_atts kg) (nitems kds) st st' ->
  (forall w, gs_items st !! g = Some w -> wi_pc w <> PC_retry) ->
  global_inv kg kds (sched ++ [g]) st'.
Proof.
  intros [Htab Hkey Hin Hout Hslots Hcalls] [Ht Hi Hk Hc] Hg.
  constructor.
  - rewrite Ht. exact Htab.
  - intros x y. rewrite Hk; [apply Hkey|]. apply (kc_stable _ _ HK).
  - intros gid w' Hw' Hlt.
    destruct (Forall2_lookup_r _ _ _ _ _ Hi Hw') as (w & Hw & Hfr).
    pose proof (wi_frame_retry _ _ Hfr) as Hretry.
    destruct Hfr as (Hh & Hidx & Ho & _).
    destruct (Hin _ _ Hw Hlt) as (Hh0 & Hr0 & Hn0).
    rewrite Hh, Hidx, Ho, Ht. split; [exact Hh0|]. split.
    + intros Hpc. apply Hretry in Hpc. rewrite count_occ_snoc.
      destruct (Nat.eq_dec g gid) as [->|_].
      * exfalso. now apply (Hg _ Hw).
      * rewrite Nat.add_0_r. auto.
    + intros Hpc. apply Hn0. intros Hpc0. apply Hpc. now apply Hretry.
  - intros gid w' Hw' Hge.
    destruct (Forall2_lookup_r _ _ _ _ _ Hi Hw') as (w & Hw & Hfr).
    pose proof (wi_frame_retry _ _ Hfr) as Hretry.
    destruct Hfr as (_ & _ & Ho & _).
    destruct (Hout _ _ Hw Hge) as [Hpc0 Ho0]. rewrite Ho. split; [|exact Ho0].
    intros Hpc. apply Hpc0. now apply Hretry.
  - intros p e Hp He Hne. rewrite Ht in He.
    destruct (Hslots _ _ Hp He Hne)
      as (o & wo & ko & Heq & Hlo & Hwo & Hpo & Hoo & Hpk & Hbo).
    destruct (Forall2_lookup_l _ _ _ _ _ Hi Hwo) as (wo' & Hwo' & Hfr).
    pose proof (wi_frame_retry _ _ Hfr) as Hretry.
    destruct Hfr as (_ & _ & Ho & _).
    exists o, wo', ko. rewrite Ht, Ho. repeat split; auto.
    intros Hpc. apply Hpo. now apply Hretry.
  - intros a o g0 Hin0.
    assert (Hold : exists gn w, g0 = Z.of_nat gn /\ Z.of_nat gn < nitems kds /\
                     gs_items st !! gn = Some w /\ wi_pc w <> PC_retry /\
                     wi_owner_index w = o /\ o <> g0).
    { destruct (Hc _ Hin0) as [Hin1|(gn & w & Hg0 & Hlt & Hw & Hpc & Ho & Hne)].
      + now apply (Hcalls a).
      + simpl in *. exists gn, w. repeat split; assumption. }
    destruct Hold as (gn & w & Hg0 & Hlt & Hw & Hpc & Ho & Hne).
    destruct (Forall2_lookup_l _ _ _ _ _ Hi Hw) as (w' & Hw' & Hfr).
    pose proof (wi_frame_retry _ _ Hfr) as Hretry.
    destruct Hfr as (_ & _ & Ho' & _).
    exists gn, w'. rewrite Ho'. repeat split; auto.
    intros Hpc'. apply Hpc. now apply Hretry.
Qed.

Lemma all_at_spec p items gids :
  all_at p items gids = true ->
  forall gid w, In gid gids -> items !! gid = Some w -> wi_pc w = p.
Proof.
  unfold all_at. rewrite forallb_forall. intros Hall gid w Hin Hw.
  specialize (Hall _ Hin). rewrite Hw in Hall. now apply bool_decide_eq_true in Hall.
Qed.

Lemma global_step_inv sched st gid :
  global_inv kg kds sched st ->
  global_inv kg kds (sched ++ [gid]) (global_step kg kds L st gid).
Proof.
  intros Hinv. unfold global_step.
  destruct (gs_items st !! gid) as [w|] eqn:Hw.
  - destruct (wi_pc w) eqn:Hpc.
    + now apply global_retry_inv.
    + destruct (all_at PC_barrier (gs_items st) (group_members L (gid / L))) eqn:Hall.
      * eapply global_inv_frame; [eassumption| |intros; congruence].
        apply global_group_step_frame. intros m wm Hm Hwm.
        rewrite (all_at_spec _ _ _ Hall _ _ Hm Hwm). discriminate.
      * eapply global_inv_frame; [eassumption|apply gs_frame_refl|intros; congruence].
    + eapply global_inv_frame; [eassumption|apply gs_frame_refl|intros; congruence].
  - eapply global_inv_frame; [eassumption|apply gs_frame_refl|intros; congruence].
Qed.

Lemma global_init_inv tbl :
  (Z.to_nat (hash_size kg) <= length tbl)%nat ->
  (forall p, (p < Z.to_nat (hash_size kg))%nat -> tbl !! p = Some old_slot) ->
  global_inv kg kds [] (global_reduction_init L NG kg kds tbl).
Proof.
  intros Hlen Hempty. unfold global_reduction_init. constructor; simpl; auto.
  - intros gid w Hw Hlt. apply list_lookup_fmap_Some in Hw.
    destruct Hw as (x & -> & Hx). apply lookup_seq in Hx. destruct Hx as [-> _].
    simpl. unfold global_workitem.
    destruct (Z.ltb_spec (Z.of_nat gid) (nitems kds)) as [_|]; [|lia]. simpl.
    split; [reflexivity|]. split; [|intros Hc; contradiction]. intros _. split.
    + rewrite (probe_slot_0 kg kds Hsize). reflexivity.
    + intros j Hj. lia.
  - intros gid w Hw Hge. apply list_lookup_fmap_Some in Hw.
    destruct Hw as (x & -> & Hx). apply lookup_seq in Hx. destruct Hx as [-> _].
    simpl. unfold global_workitem.
    destruct (Z.ltb_spec (Z.of_nat gid) (nitems kds)) as [|_]; [lia|]. simpl.
    split; [discriminate|reflexivity].
  - intros p e Hp He Hne. rewrite (Hempty _ Hp) in He. congruence.
  - intros a o g [].
Qed.

Lemma global_run_inv tbl sched :
  (Z.to_nat (hash_size kg) <= length tbl)%nat ->
  (forall p, (p < Z.to_nat (hash_size kg))%nat -> tbl !! p = Some old_slot) ->
  global_inv kg kds sched
    (fold_left (global_step kg kds L) sched (global_reduction_init L NG kg kds tbl)).
Proof.
  intros Hlen Hempty. induction sched as [|gid sched IH] using rev_ind.
  - now apply global_init_inv.
  - rewrite fold_left_app. simpl. now apply global_step_inv.
Qed.

End GlobalInvariant.

(** ** Counting group keys *)

Section DistinctKeys.

Context `{F : GpuPreAggFunctions}.
Variables (kds : kern_data_store) (atts : list Z).
Hypothesis HK : key_contract kds atts.

Lemma distinct_keys_cover rows : forall x,
  In x rows -> exists d, In d (distinct_keys kds rows) /\ same_key kds x d = true.
Proof.
  induction rows as [|r rest IH]; intros x Hin; [destruct Hin|].
  simpl. destruct (existsb (same_key kds r) rest) eqn:Hex.
  - destruct Hin as [<-|Hin]; [|auto].
    apply existsb_exists in Hex. destruct Hex as (y & Hy & Hry).
    destruct (IH _ Hy) as (d & Hd & Hyd). exists d. split; [assumption|].
    eapply (kc_trans _ _ HK); eassumption.
  - destruct Hin as [<-|Hin].
    + exists r. split; [now left|apply (kc_refl _ _ HK)].
    + destruct (IH _ Hin) as (d & Hd & Hxd). exists d. split; [now right|assumption].
Qed.

(** Rows with pairwise different keys are no more than the distinct keys
    of any list that has a row for each of their keys. *)
Lemma distinct_bound (l : list nat) : forall D : list nat,
  (forall x, In x l -> exists d, In d D /\ same_key kds x d = true) ->
  (forall i j x y, (i < j)%nat -> l !! i = Some x -> l !! j = Some y ->
                   same_key kds x y = false) ->
  (length l <= length D)%nat.
Proof.
  induction l as [|x l IH]; intros D Hcov Hpair; simpl; [lia|].
  destruct (Hcov x (or_introl eq_refl)) as (d & Hd & Hxd).
  destruct (in_split _ _ Hd) as (D1 & D2 & ->).
  assert (Hlen : (length l <= length (D1 ++ D2))%nat).
  { apply IH.
    - intros y Hy. destruct (Hcov y (or_intror Hy)) as (d' & Hd' & Hyd').
      exists d'. split; [|assumption].
      apply in_app_or in Hd'. apply in_or_app.
      destruct Hd' as [H1|[<-|H2]]; [now left| |now right].
      exfalso. apply list_elem_of_In, list_elem_of_lookup in Hy.
      destruct Hy as (j & Hj).
      assert (Hf : same_key kds x y = false)
        by (apply (Hpair 0%nat (S j)); [lia|reflexivity|exact Hj]).
      assert (Ht : same_key kds x y = true).
      { eapply (kc_trans _ _ HK); [exact Hxd|]. now apply (kc_sym _ _ HK). }
      congruence.
    - intros i j a b Hij Ha Hb. apply (Hpair (S i) (S j)); [lia|exact Ha|exact Hb]. }
  rewrite length_app in *. simpl. lia.
Qed.

End DistinctKeys.

(** ** Owners *)

Section Owners.

Context `{F : GpuPreAggFunctions}.
Variables (kg : kern_gpupreagg) (kds : kern_data_store).
Hypothesis Hsize : 0 < hash_size kg.
Hypothesis Hnitems : nitems kds <= ALL_ONES.
Hypothesis HK : key_contract kds (gpagg_atts kg).
Variables (sched : list nat) (st : gstate).
Hypothesis Hinv : global_inv kg kds sched st.

Lemma slot_of_inj o1 o2 : slot_of kds o1 = slot_of kds o2 -> o1 = o2.
Proof. unfold slot_of. intros H. injection H as _ H. lia. Qed.

Lemma probe_slot_same_key x y k :
  same_key kds x y = true -> probe_slot kg kds x k = probe_slot kg kds y k.
Proof.
  intros Hxy. unfold probe_slot, start_slot.
  now rewrite (kc_hash _ _ HK _ _ Hxy).
Qed.

Lemma slot_matches_same_key x o :
  same_key kds x o = true -> slot_matches kds x (slot_of kds o).
Proof.
  intros Hxo. split; simpl.
  - symmetry. now apply (kc_hash _ _ HK).
  - unfold same_key in Hxo. now apply Z.eqb_eq.
Qed.

Lemma slot_facts p o :
  (p < Z.to_nat (hash_size kg))%nat -> Z.of_nat o < nitems kds ->
  gs_hashslot st !! p = Some (slot_of kds o) ->
  is_owner kds st o /\
  exists k, p = probe_slot kg kds o k /\ blocked kg kds (gs_hashslot st) o k.
Proof.
  intros Hp Ho Hl.
  destruct (gi_slots _ _ _ _ Hinv _ _ Hp Hl (slot_of_not_old kds Hnitems o Ho))
    as (o' & w & k & He & Hlo & Hw & Hpc & Hoo & Hpk & Hb).
  apply slot_of_inj in He. subst o'. split; [|eauto].
  split; [assumption|]. eauto.
Qed.

(** Two occupied slots never hold rows of the same group. *)
Lemma occupied_slots_distinct_keys p1 p2 o1 o2 :
  (p1 < Z.to_nat (hash_size kg))%nat -> (p2 < Z.to_nat (hash_size kg))%nat ->
  Z.of_nat o1 < nitems kds -> Z.of_nat o2 < nitems kds ->
  gs_hashslot st !! p1 = Some (slot_of kds o1) ->
  gs_hashslot st !! p2 = Some (slot_of kds o2) ->
  same_key kds o1 o2 = true -> p1 = p2.
Proof.
  intros Hp1 Hp2 Ho1 Ho2 Hl1 Hl2 Hsame.
  destruct (slot_facts _ _ Hp1 Ho1 Hl1) as (_ & k1 & Hk1 & Hb1).
  destruct (slot_facts _ _ Hp2 Ho2 Hl2) as (_ & k2 & Hk2 & Hb2).
  pose proof (kc_sym _ _ HK _ _ Hsame) as Hsame'.
  destruct (Nat.lt_trichotomy k1 k2) as [Hlt|[->|Hlt]].
  - exfalso. destruct (Hb2 _ Hlt) as (e & He & _ & Hm).
    rewrite <- (probe_slot_same_key _ _ _ Hsame), <- Hk1, Hl1 in He.
    injection He as <-. apply Hm. now apply slot_matches_same_key.
  - rewrite Hk1, Hk2. now apply probe_slot_same_key.
  - exfalso. destruct (Hb1 _ Hlt) as (e & He & _ & Hm).
    rewrite (probe_slot_same_key _ _ _ Hsame), <- Hk2, Hl2 in He.
    injection He as <-. apply Hm. now apply slot_matches_same_key.
Qed.

Lemma owner_has_slot o :
  is_owner kds st o ->
  exists p, (p < Z.to_nat (hash_size kg))%nat /\
            gs_hashslot st !! p = Some (slot_of kds o).
Proof.
  intros (Ho & w & Hw & Hpc & Hoo).
  destruct (gi_inside _ _ _ _ Hinv _ _ Hw Ho) as (_ & _ & Hn).
  destruct (Hn Hpc) as (o' & p & Ho' & _ & _ & Hp & Hl).
  assert (o' = o) by lia. subst o'. eauto.
Qed.

Lemma unique_owner o1 o2 :
  is_owner kds st o1 -> is_owner kds st o2 ->
  same_key kds o1 o2 = true -> o1 = o2.
Proof.
  intros H1 H2 Hsame.
  destruct (owner_has_slot _ H1) as (p1 & Hp1 & Hl1).
  destruct (owner_has_slot _ H2) as (p2 & Hp2 & Hl2).
  assert (p1 = p2)
    by (eapply occupied_slots_distinct_keys; eauto; [apply H1|apply H2]).
  subst p2. rewrite Hl1 in Hl2. injection Hl2 as Hl2. lia.
Qed.

(** A work-item that left the retry loop knows the owner of its group. *)
Lemma found_owner gid w :
  gs_items st !! gid = Some w -> Z.of_nat gid < nitems kds ->
  wi_pc w <> PC_retry ->
  exists o, wi_owner_index w = Z.of_nat o /\ is_owner kds st o /\
            same_key kds gid o = true.
Proof.
  intros Hw Hlt Hpc.
  destruct (gi_inside _ _ _ _ Hinv _ _ Hw Hlt) as (_ & _ & Hn).
  destruct (Hn Hpc) as (o & p & Ho & Hlo & Hsame & Hp & Hl).
  exists o. split; [assumption|]. split; [|assumption].
  now destruct (slot_facts _ _ Hp Hlo Hl).
Qed.

(** A work-item cannot pass [hash_size] slots when the batch has no more
    distinct keys than the table has slots. *)
Lemma blocked_bound gid k :
  (length (distinct_keys kds (seq 0 (Z.to_nat (nitems kds))))
   <= Z.to_nat (hash_size kg))%nat ->
  (Z.to_nat (hash_size kg) <= length (gs_hashslot st))%nat ->
  Z.of_nat gid < nitems kds ->
  blocked kg kds (gs_hashslot st) gid k ->
  (k < Z.to_nat (hash_size kg))%nat.
Proof.
  intros Hkeys Htab Hlt Hb.
  destruct (Nat.lt_ge_cases k (Z.to_nat (hash_size kg))) as [|Hge]; [assumption|].
  exfalso.
  set (Sn := Z.to_nat (hash_size kg)) in *.
  assert (Hocc : forall p, (p < Sn)%nat ->
            exists o, gs_hashslot st !! p = Some (slot_of kds o) /\
                      Z.of_nat o < nitems kds /\ same_key kds gid o = false).
  { intros p Hp.
    destruct (probe_slot_surjective kg kds Hsize gid p Hp) as (j & Hj & Hjp).
    destruct (Hb j ltac:(unfold Sn in *; lia)) as (e & He & Hne & Hm).
    rewrite Hjp in He.
    destruct (gi_slots _ _ _ _ Hinv _ _ Hp He Hne)
      as (o & _ & _ & Heq & Hlo & _). subst e.
    exists o. repeat split; auto.
    destruct (same_key kds gid o) eqn:Hs; [|reflexivity].
    exfalso. apply Hm. now apply slot_matches_same_key. }
  set (owners := (fun e => Z.to_nat (slot_index e)) <$> take Sn (gs_hashslot st)).
  assert (Hlook : forall p y, owners !! p = Some y ->
            (p < Sn)%nat /\ gs_hashslot st !! p = Some (slot_of kds y) /\
            Z.of_nat y < nitems kds /\ same_key kds gid y = false).
  { intros p y Hy. unfold owners in Hy. apply list_lookup_fmap_Some in Hy.
    destruct Hy as (e & -> & He). apply lookup_take_Some in He.
    destruct He as [He Hp]. destruct (Hocc p Hp) as (o & Ho & Hlo & Hs).
    rewrite He in Ho. injection Ho as ->. simpl. rewrite Nat2Z.id. auto. }
  assert (Hlen : length owners = Sn).
  { unfold owners. rewrite length_fmap, length_take_le; auto. }
  pose proof (distinct_bound kds _ HK (gid :: owners)
                (distinct_keys kds (seq 0 (Z.to_nat (nitems kds))))) as Hbound.
  simpl in Hbound. rewrite Hlen in Hbound.
  enough (S Sn <= length (distinct_keys kds (seq 0 (Z.to_nat (nitems kds)))))%nat
    by lia.
  apply Hbound.
  - intros x Hx. apply (distinct_keys_cover kds _ HK). apply in_seq.
    destruct Hx as [<-|Hx]; [lia|].
    apply list_elem_of_In, list_elem_of_lookup in Hx. destruct Hx as (p & Hpx).
    destruct (Hlook _ _ Hpx) as (_ & _ & Hlx & _). lia.
  - intros i j x y Hij Hx Hy. destruct j as [|j]; [lia|]. simpl in Hy.
    destruct (Hlook _ _ Hy) as (Hj & Hly & Hny & Hgy).
    destruct i as [|i]; simpl in Hx.
    + injection Hx as <-. assumption.
    + destruct (Hlook _ _ Hx) as (Hi & Hlx & Hnx & _).
      destruct (same_key kds x y) eqn:Hs; [|reflexivity].
      pose proof (occupied_slots_distinct_keys i j x y Hi Hj Hnx Hny Hlx Hly Hs).
      lia.
Qed.

End Owners.

(** ** gpupreagg_global_stage: the protocol along every schedule *)

Section GlobalProtocol.

Context `{F : GpuPreAggFunctions}.
Variables (L NG : nat) (kgpreagg : kern_gpupreagg) (kds : kern_data_store)
          (tbl0 : list pagg_hashslot).
Hypothesis Hsize : 0 < hash_size kgpreagg.
Hypothesis Htbl : (Z.to_nat (hash_size kgpreagg) <= length tbl0)%nat.
Hypothesis Hnitems : nitems kds <= ALL_ONES.
Hypothesis HK : key_contract kds (gpagg_atts kgpreagg).

Lemma global_reduction_unfold sched :
  gpupreagg_global_stage L NG kgpreagg kds tbl0 sched
  = fold_left (global_step (fst (gpupreagg_global_preparation kgpreagg tbl0)) kds L)
      sched
      (global_reduction_init L NG (fst (gpupreagg_global_preparation kgpreagg tbl0))
         kds (snd (gpupreagg_global_preparation kgpreagg tbl0))).
Proof. reflexivity. Qed.

Lemma global_reduction_snoc sched gid :
  gpupreagg_global_stage L NG kgpreagg kds tbl0 (sched ++ [gid])
  = global_step (fst (gpupreagg_global_preparation kgpreagg tbl0)) kds L
      (gpupreagg_global_stage L NG kgpreagg kds tbl0 sched) gid.
Proof. rewrite !global_reduction_unfold, fold_left_app. reflexivity. Qed.

Lemma global_preparation_empty p :
  (p < Z.to_nat (hash_size kgpreagg))%nat ->
  snd (gpupreagg_global_preparation kgpreagg tbl0) !! p = Some old_slot.
Proof.
  intros Hp. simpl. rewrite list_lookup_imap.
  destruct (lookup_lt_is_Some_2 tbl0 p ltac:(lia)) as [s ->]. simpl.
  destruct (Z.ltb_spec (Z.of_nat p) (hash_size kgpreagg)); [reflexivity|lia].
Qed.

Lemma global_reduction_inv sched :
  global_inv (fst (gpupreagg_global_preparation kgpreagg tbl0)) kds sched
    (gpupreagg_global_stage L NG kgpreagg kds tbl0 sched).
Proof.
  rewrite global_reduction_unfold. apply global_run_inv; auto.
  - simpl. rewrite length_imap. exact Htbl.
  - apply global_preparation_empty.
Qed.

(** Along every schedule of the kernel: a work-item in the retry loop
    is at the slot reached from [hash_value mod hash_size] by one step per
    failed pass, and its next pass claims an empty slot for itself, adopts
    the occupant of a slot with its hash and key, or moves to the next slot
    modulo [hash_size]; no two owners have the same group key; a work-item
    that left the loop holds the id of the owner of its group; and every
    merge that was started goes from a row to the owner of its group. *)
Lemma global_protocol_steps (sched : list nat) :
  let st := gpupreagg_global_stage L NG kgpreagg kds tbl0 sched in
  (forall gid w,
      gs_items st !! gid = Some w -> wi_pc w = PC_retry ->
      exists cur,
        wi_index w
        = (row_hash kds gid mod hash_size kgpreagg
           + Z.of_nat (count_occ Nat.eq_dec sched gid)) mod hash_size kgpreagg /\
        gs_hashslot st !! Z.to_nat (wi_index w) = Some cur /\
        let st' := gpupreagg_global_stage L NG kgpreagg kds tbl0
                     (sched ++ [gid]) in
        let same_group :=
          slot_hash cur = row_hash kds gid /\
          gpupreagg_keycomp kds (Z.of_nat gid) (slot_index cur) = 0 in
        (cur = old_slot ->
           gs_hashslot st'
           = <[Z.to_nat (wi_index w) := mk_slot (row_hash kds gid) (Z.of_nat gid)]>
               (gs_hashslot st) /\
           gs_items st' !! gid = Some (wi_found w (Z.of_nat gid))) /\
        (cur <> old_slot -> same_group ->
           gs_hashslot st' = gs_hashslot st /\
           gs_items st' !! gid = Some (wi_found w (slot_index cur))) /\
        (cur <> old_slot -> ~ same_group ->
           gs_hashslot st' = gs_hashslot st /\
           gs_items st' !! gid
           = Some (wi_advance w ((wi_index w + 1) mod hash_size kgpreagg)))) /\
  (forall o1 o2,
      is_owner kds st o1 -> is_owner kds st o2 ->
      same_key kds o1 o2 = true -> o1 = o2) /\
  (forall gid w,
      gs_items st !! gid = Some w -> Z.of_nat gid < nitems kds ->
      wi_pc w <> PC_retry ->
      exists o, wi_owner_index w = Z.of_nat o /\ is_owner kds st o /\
                same_key kds gid o = true) /\
  (forall attnum accum_index newval_index,
      In (attnum, accum_index, newval_index) (gs_calls st) ->
      exists o gid, accum_index = Z.of_nat o /\ newval_index = Z.of_nat gid /\
                    is_owner kds st o /\ same_key kds gid o = true /\ o <> gid).
Proof.
  intros st. pose proof (global_reduction_inv sched) as Hinv. fold st in Hinv.
  set (kg := fst (gpupreagg_global_preparation kgpreagg tbl0)) in *.
  assert (Hsize' : 0 < hash_size kg) by exact Hsize.
  assert (HK' : key_contract kds (gpagg_atts kg)) by exact HK.
  split; [|split; [|split]].
  - intros gid w Hw Hpc.
    destruct (Z.lt_ge_cases (Z.of_nat gid) (nitems kds)) as [Hlt|Hge];
      [|destruct (gi_outside _ _ _ _ Hinv _ _ Hw Hge); contradiction].
    destruct (gi_inside _ _ _ _ Hinv _ _ Hw Hlt) as (Hh & Hr & _).
    destruct (Hr Hpc) as [Hidx Hb].
    set (i := probe_slot kg kds gid (count_occ Nat.eq_dec sched gid)) in *.
    assert (Hi : (i < Z.to_nat (hash_size kg))%nat) by now apply probe_slot_lt.
    pose proof (gi_table _ _ _ _ Hinv) as Htab.
    destruct (lookup_lt_is_Some_2 (gs_hashslot st) i ltac:(lia)) as [cur Hcur].
    assert (Hglen : (gid < length (gs_items st))%nat)
      by (eapply lookup_lt_Some; eassumption).
    exists cur. rewrite Hidx, Nat2Z.id. split; [|split; [exact Hcur|]].
    { unfold i, probe_slot, start_slot.
      pose proof (Z.mod_pos_bound
                    (row_hash kds gid mod hash_size kg
                     + Z.of_nat (count_occ Nat.eq_dec sched gid))
                    (hash_size kg) Hsize').
      rewrite Z2Nat.id by lia. reflexivity. }
    cbv zeta. rewrite global_reduction_snoc. fold kg. fold st.
    unfold global_step. rewrite Hw, Hpc.
    unfold global_retry, atom_cmpxchg. rewrite Hidx, Nat2Z.id, Hcur.
    rewrite (new_slot_is_slot_of kds Hnitems _ _ Hlt Hh).
    assert (Hshape : cur = old_slot \/
                     exists o, cur = slot_of kds o /\ Z.of_nat o < nitems kds).
    { destruct (decide (cur = old_slot)) as [|Hne]; [now left|right].
      destruct (gi_slots _ _ _ _ Hinv _ _ Hi Hcur Hne) as (o & _ & _ & He & Hlo & _).
      eauto. }
    destruct (Z.eqb_spec (slot_value cur) (slot_value old_slot)) as [Hv|Hv].
    + apply (slot_value_old_inv kds Hnitems) in Hv; [|assumption].
      split; [|split]; try (intros Hc; contradiction).
      intros _. simpl. split; [reflexivity|].
      now rewrite list_lookup_insert_eq.
    + assert (Hne : cur <> old_slot) by (intros ->; congruence).
      split; [intros Hc; contradiction|]. simpl slot_hash.
      rewrite (gi_key _ _ _ _ Hinv).
      destruct (Z.eqb_spec (slot_hash cur) (row_hash kds gid)) as [Hhash|Hhash];
        [destruct (Z.eqb_spec (gpupreagg_keycomp kds (Z.of_nat gid) (slot_index cur)) 0)
           as [Hcmp|Hcmp]|]; simpl andb; cbv iota.
      * split; [|intros _ Hn; exfalso; apply Hn; auto].
        intros _ _. simpl. split; [reflexivity|].
        now rewrite list_lookup_insert_eq.
      * split; [intros _ [_ Hc]; contradiction|].
        intros _ _. simpl. split; [reflexivity|].
        now rewrite list_lookup_insert_eq.
      * split; [intros _ [Hc _]; contradiction|].
        intros _ _. simpl. split; [reflexivity|].
        now rewrite list_lookup_insert_eq.
  - intros o1 o2. eapply unique_owner; eauto.
  - intros gid w. eapply found_owner; eauto.
  - intros a o g Hin.
    destruct (gi_calls _ _ _ _ Hinv _ _ _ Hin)
      as (gn & w & Hg & Hlt & Hw & Hpc & Ho & Hne).
    destruct (found_owner kg kds Hnitems _ _ Hinv gn w Hw Hlt Hpc)
      as (on & Hon & Hown & Hsame).
    exists on, gn. repeat split; try assumption; try apply Hown; congruence.
Qed.

(** When the batch has no more distinct group keys than the table has
    slots, a work-item is out of the retry loop once it has been scheduled
    [hash_size] times, whatever the other work-items do in between. *)
Lemma global_retry_bound (sched : list nat) :
  (length (distinct_keys kds (seq 0 (Z.to_nat (nitems kds))))
   <= Z.to_nat (hash_size kgpreagg))%nat ->
  forall gid w,
    gs_items (gpupreagg_global_stage L NG kgpreagg kds tbl0 sched) !! gid
    = Some w ->
    (Z.to_nat (hash_size kgpreagg) <= count_occ Nat.eq_dec sched gid)%nat ->
    wi_pc w <> PC_retry.
Proof.
  intros Hkeys gid w Hw Hcount Hpc.
  pose proof (global_reduction_inv sched) as Hinv.
  set (kg := fst (gpupreagg_global_preparation kgpreagg tbl0)) in *.
  destruct (Z.lt_ge_cases (Z.of_nat gid) (nitems kds)) as [Hlt|Hge];
    [|destruct (gi_outside _ _ _ _ Hinv _ _ Hw Hge); contradiction].
  destruct (gi_inside _ _ _ _ Hinv _ _ Hw Hlt) as (_ & Hr & _).
  destruct (Hr Hpc) as [_ Hb].
  pose proof (blocked_bound kg kds Hsize Hnitems HK sched _ Hinv gid _ Hkeys
                (gi_table _ _ _ _ Hinv) Hlt Hb) as Hbound.
  change (hash_size kg) with (hash_size kgpreagg) in Hbound. lia.
Qed.

End GlobalProtocol.

(** ** A work-group whose rows are all owners merges nothing *)

Section NoMerge.

Context `{F : GpuPreAggFunctions}.
Variables (kg : kern_gpupreagg) (nitems0 nattrs : Z).

Lemma global_reduce_column_quiet st0 gid w0 dest st attnum :
  gs_items st0 !! gid = Some w0 -> self_owned nitems0 st0 gid ->
  quiet (gpagg_atts kg) nitems0 st0 st ->
  quiet (gpagg_atts kg) nitems0 st0 (global_reduce_column kg nitems0 gid (wi_owner_index w0) dest st attnum).
Proof.
  intros Hw0 Hself (Hfr & Hk & Hc). destruct (Hself _ Hw0) as [Hpc0 Hown].
  split; [now apply global_reduce_column_frame|].
  unfold global_reduce_column.
  destruct (negb _); [auto|].
  destruct (Z.ltb_spec (Z.of_nat gid) nitems0) as [Hlt|]; [|auto].
  rewrite (Hown Hlt), Z.eqb_refl. simpl. auto.
Qed.

Lemma global_reduce_item_quiet st0 gid w0 dest st :
  gs_items st0 !! gid = Some w0 -> self_owned nitems0 st0 gid ->
  quiet (gpagg_atts kg) nitems0 st0 st ->
  quiet (gpagg_atts kg) nitems0 st0 (global_reduce_item kg nitems0 nattrs gid (wi_owner_index w0) dest st).
Proof.
  intros Hw0 Hself. unfold global_reduce_item.
  generalize (seqZ 0 nattrs) as cols. intros cols. revert st.
  induction cols as [|c cols IH]; intros st Hq; simpl; [assumption|].
  apply IH. now apply global_reduce_column_quiet.
Qed.

Lemma global_group_member_quiet L g my_values base st0 st gid :
  self_owned nitems0 st0 gid -> quiet (gpagg_atts kg) nitems0 st0 st ->
  quiet (gpagg_atts kg) nitems0 st0 (global_group_member kg nitems0 nattrs L g my_values base st gid).
Proof.
  intros Hself Hq.
  assert (Hfr' : gs_frame (gpagg_atts kg) nitems0 st0
                   (global_group_member kg nitems0 nattrs L g my_values base st gid)).
  { apply global_group_member_frame; [|apply Hq].
    intros w0 Hw0. now destruct (Hself _ Hw0). }
  split; [exact Hfr'|]. unfold global_group_member.
  destruct (gs_items st !! gid) as [w|] eqn:Hw; [|apply Hq].
  destruct Hq as (Hfr & Hk & Hc).
  destruct (Forall2_lookup_r _ _ _ _ _ (gf_items _ _ _ _ Hfr) Hw)
    as (w0 & Hw0 & Hww).
  destruct Hww as (_ & _ & Ho & _). rewrite Ho. simpl.
  apply (global_reduce_item_quiet st0 gid w0 _ st Hw0 Hself).
  split; auto.
Qed.

Lemma global_group_step_quiet L g st :
  (forall gid, In gid (group_members L g) -> self_owned nitems0 st gid) ->
  gs_kds_dst (global_group_step kg nitems0 nattrs L g st) = gs_kds_dst st /\
  gs_calls (global_group_step kg nitems0 nattrs L g st) = gs_calls st.
Proof.
  intros Hmem. unfold global_group_step. cbv zeta.
  set (my_values := map (global_owner_flag (gs_items st)) (group_members L g)).
  set (st1 := mk_gstate (gs_hashslot st) _ (gs_kds_dst st) (gs_items st) (gs_calls st)).
  destruct (nrooms (gs_kds_dst st1) <? _); [simpl; auto|].
  assert (Hst1 : quiet (gpagg_atts kg) nitems0 st st1).
  { split; [apply gs_frame_krowmap, gs_frame_refl|simpl; auto]. }
  assert (Hgen : forall members st',
             (forall gid, In gid members -> In gid (group_members L g)) ->
             quiet (gpagg_atts kg) nitems0 st st' ->
             quiet (gpagg_atts kg) nitems0 st
               (fold_left (global_group_member kg nitems0 nattrs L g my_values
                             (wrap_unsigned 64 (nvalids (gs_krowmap st))))
                          members st')).
  { induction members as [|m members IH]; intros st' Hsub Hq; simpl;
      [assumption|].
    apply IH; [intros; apply Hsub; now right|].
    apply global_group_member_quiet; [|assumption].
    apply Hmem, Hsub. now left. }
  apply (Hgen (group_members L g) st1); auto.
Qed.

End NoMerge.

(** ** A work-group leaves the kernel as a whole *)

Section GroupLeaves.

Context `{F : GpuPreAggFunctions}.
Variables (kg : kern_gpupreagg) (nitems0 nattrs : Z).

Lemma alter_missing (f : workitem -> workitem) (items : list workitem) i :
  items !! i = None -> alter f i items = items.
Proof.
  intros Hn. rewrite <- (list_alter_id id items i) at 2 by reflexivity.
  apply list_alter_ext; [|reflexivity]. intros x Hx. congruence.
Qed.

Lemma global_reduce_column_items gid owner dest st attnum :
  exists f, gs_items (global_reduce_column kg nitems0 gid owner dest st attnum)
            = alter f gid (gs_items st) /\
            forall w, wi_pc (f w) = wi_pc w.
Proof.
  unfold global_reduce_column.
  destruct (negb _);
    [exists id; split; [now rewrite list_alter_id|reflexivity]|].
  destruct (Z.of_nat gid <? nitems0);
    [|exists id; split; [now rewrite list_alter_id|reflexivity]].
  destruct (Z.of_nat gid =? owner);
    [exists id; split; [now rewrite list_alter_id|reflexivity]|].
  simpl. eexists. split; [reflexivity|]. reflexivity.
Qed.

Lemma global_reduce_item_items gid owner dest st :
  exists f, gs_items (global_reduce_item kg nitems0 nattrs gid owner dest st)
            = alter f gid (gs_items st) /\
            forall w, wi_pc (f w) = wi_pc w.
Proof.
  unfold global_reduce_item. generalize (seqZ 0 nattrs) as cols.
  intros cols. revert st. induction cols as [|c cols IH]; intros st; simpl.
  - exists id. split; [now rewrite list_alter_id|reflexivity].
  - destruct (global_reduce_column_items gid owner dest st c) as (f & Hf & Hpc).
    destruct (IH (global_reduce_column kg nitems0 gid owner dest st c))
      as (f' & Hf' & Hpc').
    exists (f' ∘ f). rewrite Hf', Hf, list_alter_alter_eq. split; [reflexivity|].
    intros w. simpl. now rewrite Hpc', Hpc.
Qed.

Lemma global_group_member_items L g my_values base st gid :
  exists f, gs_items (global_group_member kg nitems0 nattrs L g my_values base st gid)
            = alter f gid (gs_items st) /\
            forall w, wi_pc (f w) = PC_out.
Proof.
  unfold global_group_member. destruct (gs_items st !! gid) as [w|] eqn:Hw.
  - cbv zeta. cbn [gs_items].
    match goal with
    | |- context [global_reduce_item kg nitems0 nattrs gid ?o ?d st] =>
        destruct (global_reduce_item_items gid o d st) as (f & Hf & Hpc)
    end.
    rewrite Hf, list_alter_alter_eq. eexists. split; [reflexivity|].
    intros w'. reflexivity.
  - exists (fun w => wi_leave w StromError_Success).
    split; [now rewrite alter_missing|reflexivity].
Qed.

(** The effect of a chain of such updates on the labels. *)
Lemma leave_chain {A} (step : A -> nat -> A) (items_of : A -> list workitem) :
  (forall a m, exists f, items_of (step a m) = alter f m (items_of a) /\
                         forall w, wi_pc (f w) = PC_out) ->
  forall members a,
    (forall gid, ~ In gid members ->
                 items_of (fold_left step members a) !! gid = items_of a !! gid) /\
    (forall gid w', In gid members ->
                    items_of (fold_left step members a) !! gid = Some w' ->
                    wi_pc w' = PC_out).
Proof.
  intros Hstep. induction members as [|m members IH]; intros a; simpl.
  - split; [reflexivity|]. intros gid w' [].
  - destruct (IH (step a m)) as [Hout Hin].
    destruct (Hstep a m) as (f & Hf & Hpc). split.
    + intros gid Hn. rewrite Hout by tauto. rewrite Hf.
      apply list_lookup_alter_ne. intros ->. tauto.
    + intros gid w' Hgid Hw'.
      destruct (in_dec Nat.eq_dec gid members) as [Hmem|Hmem]; [eauto|].
      destruct Hgid as [->|]; [|contradiction].
      rewrite Hout, Hf, list_lookup_alter_eq in Hw' by assumption.
      destruct (items_of a !! gid) as [w|]; [|discriminate].
      injection Hw' as <-. apply Hpc.
Qed.

Lemma global_group_step_items L g st :
  (forall gid, ~ In gid (group_members L g) ->
     gs_items (global_group_step kg nitems0 nattrs L g st) !! gid
     = gs_items st !! gid) /\
  (forall gid w', In gid (group_members L g) ->
     gs_items (global_group_step kg nitems0 nattrs L g st) !! gid = Some w' ->
     wi_pc w' = PC_out).
Proof.
  unfold global_group_step. cbv zeta.
  set (my_values := map (global_owner_flag (gs_items st)) (group_members L g)).
  set (st1 := mk_gstate (gs_hashslot st) _ (gs_kds_dst st) (gs_items st) (gs_calls st)).
  destruct (nrooms (gs_kds_dst st1) <? _).
  - simpl gs_items.
    apply (leave_chain
             (fun items gid =>
                alter (fun w => wi_leave w StromError_DataStoreNoSpace) gid items)
             id).
    intros a m. eexists. split; [reflexivity|]. reflexivity.
  - change (gs_items st) with (gs_items st1).
    apply (leave_chain
             (global_group_member kg nitems0 nattrs L g my_values
                (wrap_unsigned 64 (nvalids (gs_krowmap st))))
             gs_items).
    intros a m. apply global_group_member_items.
Qed.

End GroupLeaves.

(** ** The kernel runs to its end *)

Section Completion.

Context `{F : GpuPreAggFunctions}.
Variables (kg : kern_gpupreagg) (kds : kern_data_store) (L NG : nat).
Hypothesis HL : (0 < L)%nat.

Lemma group_members_spec g gid :
  In gid (group_members L g) <-> (gid / L = g)%nat.
Proof.
  unfold group_members. rewrite in_seq. split.
  - intros [Hlo Hhi]. symmetry. apply (Nat.div_unique gid L g (gid - g * L)); lia.
  - intros <-. pose proof (Nat.div_mod_eq gid L) as Hdm.
    pose proof (Nat.mod_upper_bound gid L ltac:(lia)). lia.
Qed.

Lemma global_retry_items gid w st :
  gs_items st !! gid = Some w -> wi_pc w = PC_retry ->
  exists w', gs_items (global_retry kg gid w st) = <[gid := w']> (gs_items st) /\
             wi_pc w' <> PC_out.
Proof.
  intros Hw Hpc. unfold global_retry.
  destruct (atom_cmpxchg _ _ _ _) as [[cur tbl]|].
  - destruct (_ =? _); [|destruct (_ && _)]; simpl;
      eexists; (split; [reflexivity|]); simpl; discriminate.
  - exists w. split; [now rewrite list_insert_id|congruence].
Qed.

(** What one scheduling step does to the labels. *)
Lemma global_step_labels st gid :
  coherent L (gs_items st) ->
  coherent L (gs_items (global_step kg kds L st gid)) /\
  length (gs_items (global_step kg kds L st gid)) = length (gs_items st) /\
  forall x w', gs_items (global_step kg kds L st gid) !! x = Some w' ->
    exists w, gs_items st !! x = Some w /\
              (wi_pc w = PC_out -> wi_pc w' = PC_out) /\
              (wi_pc w <> PC_retry -> wi_pc w' <> PC_retry).
Proof.
  intros Hco.
  assert (Hsame : coherent L (gs_items st) /\
            length (gs_items st) = length (gs_items st) /\
            forall x w', gs_items st !! x = Some w' ->
              exists w, gs_items st !! x = Some w /\
                        (wi_pc w = PC_out -> wi_pc w' = PC_out) /\
                        (wi_pc w <> PC_retry -> wi_pc w' <> PC_retry))
    by (split; [assumption|split; [reflexivity|eauto]]).
  unfold global_step.
  destruct (gs_items st !! gid) as [w|] eqn:Hw; [|exact Hsame].
  destruct (wi_pc w) eqn:Hpc; [| |exact Hsame].
  - destruct (global_retry_items gid w st Hw Hpc) as (w1 & -> & Hw1).
    assert (Hlt : (gid < length (gs_items st))%nat)
      by (eapply lookup_lt_Some; eassumption).
    split; [|split; [apply length_insert|]].
    + intros x y wx wy Hxy Hx Hy Hout.
      destruct (decide (gid = x)) as [<-|Hnx].
      * rewrite list_lookup_insert_eq in Hx by assumption. congruence.
      * rewrite list_lookup_insert_ne in Hx by assumption.
        destruct (decide (gid = y)) as [<-|Hny].
        -- pose proof (Hco _ _ _ _ Hxy Hx Hw Hout). congruence.
        -- rewrite list_lookup_insert_ne in Hy by assumption. eauto.
    + intros x w' Hx. destruct (decide (gid = x)) as [<-|Hnx].
      * exists w. split; [assumption|]. split; intros; congruence.
      * rewrite list_lookup_insert_ne in Hx by assumption. eauto.
  - destruct (all_at PC_barrier (gs_items st) (group_members L (gid / L)))
      eqn:Hall; [|exact Hsame].
    pose proof (all_at_spec _ _ _ Hall) as Hbar.
    destruct (global_group_step_items kg (nitems kds) (ncols kds) L (gid / L)%nat st)
      as [Hothers Hmembers].
    pose proof (global_group_step_frame kg (nitems kds) (ncols kds) L (gid / L)%nat st)
      as Hfr.
    destruct Hfr as [_ Hitems _ _].
    { intros m wm Hm Hwm. rewrite (Hbar _ _ Hm Hwm). discriminate. }
    split; [|split; [symmetry; eapply Forall2_length; eassumption|]].
    + intros x y wx wy Hxy Hx Hy Hout.
      destruct (in_dec Nat.eq_dec y (group_members L (gid / L))) as [Hin|Hnin].
      * eauto.
      * assert (Hninx : ~ In x (group_members L (gid / L)))
          by (rewrite group_members_spec in *; lia).
        rewrite Hothers in Hx, Hy by assumption. eauto.
    + intros x w' Hx.
      destruct (Forall2_lookup_r _ _ _ _ _ Hitems Hx) as (w0 & Hw0 & Hfr).
      exists w0. split; [assumption|].
      pose proof (wi_frame_retry _ _ Hfr) as Hretry.
      destruct Hfr as (_ & _ & _ & [Hp|[_ Hp]]); split; intros; try congruence;
        tauto.
Qed.

Lemma global_run_labels sched tbl :
  let st := fold_left (global_step kg kds L) sched
              (global_reduction_init L NG kg kds tbl) in
  coherent L (gs_items st) /\ length (gs_items st) = (NG * L)%nat.
Proof.
  induction sched as [|gid sched IH] using rev_ind; simpl.
  - split; [|now rewrite length_map, length_seq].
    intros x y wx wy _ Hx _ Hout. exfalso.
    apply list_lookup_fmap_Some in Hx. destruct Hx as (n & -> & _).
    unfold global_workitem in Hout. destruct (_ <? _); discriminate.
  - rewrite fold_left_app. simpl. destruct IH as [Hco Hlen].
    destruct (global_step_labels _ gid Hco) as (Hco' & Hlen' & _).
    split; [assumption|congruence].
Qed.

(** From a state in which no work-item is in the retry loop, one round of
    the scheduler takes every work-group through the reduction. *)
Lemma round_finishes n : forall st,
  (n <= NG * L)%nat ->
  coherent L (gs_items st) -> none_retry (gs_items st) ->
  length (gs_items st) = (NG * L)%nat ->
  let st' := fold_left (global_step kg kds L) (seq 0 n) st in
  coherent L (gs_items st') /\ none_retry (gs_items st') /\
  length (gs_items st') = (NG * L)%nat /\
  forall x w, (x < n)%nat -> gs_items st' !! x = Some w -> wi_pc w = PC_out.
Proof.
  induction n as [|n IH]; intros st Hn Hco Hnr Hlen; cbv zeta.
  - simpl. repeat split; auto. intros; lia.
  - rewrite seq_S, fold_left_app. simpl.
    destruct (IH st ltac:(lia) Hco Hnr Hlen) as (Hco1 & Hnr1 & Hlen1 & Hout1).
    set (st1 := fold_left (global_step kg kds L) (seq 0 n) st) in *.
    destruct (global_step_labels st1 n Hco1) as (Hco2 & Hlen2 & Hlab).
    split; [assumption|]. split; [|split; [congruence|]].
    + intros x w' Hx. destruct (Hlab _ _ Hx) as (w & Hw & _ & Hr).
      apply Hr. eapply Hnr1; eassumption.
    + intros x w' Hx Hw'. destruct (Hlab _ _ Hw') as (w & Hw & Ho & _).
      destruct (decide (x = n)) as [->|Hne]; [|apply Ho; eapply Hout1; eauto; lia].
      destruct (wi_pc w) eqn:Hpc; [exfalso; eapply Hnr1; eassumption| |now apply Ho].
      assert (Hall : all_at PC_barrier (gs_items st1) (group_members L (n / L)) = true).
      { unfold all_at. apply forallb_forall. intros m Hm.
        assert (Hmg : (m / L = n / L)%nat) by now apply group_members_spec.
        assert (Hmlt : (m < NG * L)%nat).
        { unfold group_members in Hm. apply in_seq in Hm.
          assert ((n / L < NG)%nat) by (apply Nat.Div0.div_lt_upper_bound; lia).
          nia. }
        destruct (lookup_lt_is_Some_2 (gs_items st1) m ltac:(lia)) as [wm Hwm].
        rewrite Hwm. apply bool_decide_eq_true.
        destruct (wi_pc wm) eqn:Hpm; [exfalso; eapply Hnr1; eassumption|reflexivity|].
        pose proof (Hco1 _ _ _ _ Hmg Hwm Hw Hpm). congruence. }
      unfold global_step in Hw'. rewrite Hw, Hpc, Hall in Hw'.
      destruct (global_group_step_items kg (nitems kds) (ncols kds) L (n / L)%nat st1)
        as [_ Hmembers].
      eapply Hmembers; [|eassumption]. now apply group_members_spec.
Qed.

End Completion.

(** ** gpupreagg_global_stage: results *)

Section GlobalResults.

Context `{F : GpuPreAggFunctions}.
Variables (L NG : nat) (kgpreagg : kern_gpupreagg) (kds : kern_data_store)
          (tbl0 : list pagg_hashslot).
Hypothesis HL : (0 < L)%nat.
Hypothesis Hsize : 0 < hash_size kgpreagg.
Hypothesis Htbl : (Z.to_nat (hash_size kgpreagg) <= length tbl0)%nat.
Hypothesis Hnitems : nitems kds <= ALL_ONES.
Hypothesis HK : key_contract kds (gpagg_atts kgpreagg).

Lemma count_occ_round_robin k gid :
  (gid < NG * L)%nat -> count_occ Nat.eq_dec (round_robin L NG k) gid = k.
Proof.
  intros Hgid. unfold round_robin. induction k as [|k IH]; simpl; [reflexivity|].
  rewrite count_occ_app, IH.
  assert (Hone : count_occ Nat.eq_dec (seq 0 (NG * L)) gid = 1%nat).
  { apply NoDup_count_occ'; [apply List.seq_NoDup|]. apply in_seq. lia. }
  lia.
Qed.

Lemma distinct_keys_length rows :
  (length (distinct_keys kds rows) <= length rows)%nat.
Proof.
  induction rows as [|r rows IH]; simpl; [lia|].
  destruct (existsb _ _); simpl; lia.
Qed.

Lemma global_items_length sched :
  length (gs_items (gpupreagg_global_stage L NG kgpreagg kds tbl0 sched))
  = (NG * L)%nat.
Proof. rewrite global_reduction_unfold. apply global_run_labels. exact HL. Qed.

(** With no more distinct keys than slots, the kernel has run to its end
    after every work-item was scheduled [hash_size] times and once more. *)
Lemma global_reduction_finishes sched :
  (length (distinct_keys kds (seq 0 (Z.to_nat (nitems kds))))
   <= Z.to_nat (hash_size kgpreagg))%nat ->
  gs_finished
    (gpupreagg_global_stage L NG kgpreagg kds tbl0
       (sched ++ round_robin L NG (Z.to_nat (hash_size kgpreagg))
              ++ round_robin L NG 1)) = true.
Proof.
  intros Hkeys. rewrite app_assoc.
  set (sched1 := sched ++ round_robin L NG (Z.to_nat (hash_size kgpreagg))).
  assert (Hnr : none_retry
            (gs_items (gpupreagg_global_stage L NG kgpreagg kds tbl0 sched1))).
  { intros gid w Hw.
    eapply (global_retry_bound L NG kgpreagg kds tbl0 Hsize Htbl Hnitems HK
              sched1 Hkeys gid w Hw).
    unfold sched1. rewrite count_occ_app, count_occ_round_robin; [lia|].
    apply lookup_lt_Some in Hw. now rewrite global_items_length in Hw. }
  rewrite global_reduction_unfold, fold_left_app, <- global_reduction_unfold.
  unfold round_robin at 1. simpl concat. rewrite app_nil_r.
  set (kg := fst (gpupreagg_global_preparation kgpreagg tbl0)).
  set (st1 := gpupreagg_global_stage L NG kgpreagg kds tbl0 sched1) in *.
  assert (Hco : coherent L (gs_items st1)).
  { unfold st1. rewrite global_reduction_unfold. apply global_run_labels. exact HL. }
  destruct (round_finishes kg kds L NG HL (NG * L) st1 (le_n _) Hco Hnr
              (global_items_length sched1)) as (_ & _ & Hlen & Hout).
  unfold gs_finished. apply forallb_forall. intros w Hin.
  apply list_elem_of_In, list_elem_of_lookup in Hin. destruct Hin as (x & Hx).
  apply bool_decide_eq_true. eapply Hout; [|eassumption].
  apply lookup_lt_Some in Hx. lia.
Qed.

Lemma global_retry_data gid w st kg :
  gs_kds_dst (global_retry kg gid w st) = gs_kds_dst st /\
  gs_calls (global_retry kg gid w st) = gs_calls st.
Proof.
  unfold global_retry. destruct (atom_cmpxchg _ _ _ _) as [[cur tbl]|]; [|auto].
  destruct (_ =? _); [|destruct (_ && _)]; simpl; auto.
Qed.

(** C9. When the rows of the batch carry pairwise distinct group keys, then
    along every schedule [gpupreagg_global_calc] is never invoked and the
    batch is the one the kernel was launched on; and with a table of at
    least [nitems] slots the kernel runs to its end. *)
Theorem global_reduction_distinct_keys (sched : list nat) :
  (forall x y, Z.of_nat x < nitems kds -> Z.of_nat y < nitems kds ->
               x <> y -> same_key kds x y = false) ->
  gs_calls (gpupreagg_global_stage L NG kgpreagg kds tbl0 sched) = [] /\
  gs_kds_dst (gpupreagg_global_stage L NG kgpreagg kds tbl0 sched) = kds /\
  (nitems kds <= hash_size kgpreagg ->
   gs_finished
     (gpupreagg_global_stage L NG kgpreagg kds tbl0
        (sched ++ round_robin L NG (Z.to_nat (hash_size kgpreagg))
               ++ round_robin L NG 1)) = true).
Proof.
  intros Hdistinct.
  assert (Hsafe : forall s,
            gs_calls (gpupreagg_global_stage L NG kgpreagg kds tbl0 s) = [] /\
            gs_kds_dst (gpupreagg_global_stage L NG kgpreagg kds tbl0 s) = kds).
  { induction s as [|gid s IH] using rev_ind; [split; reflexivity|].
    rewrite global_reduction_snoc. destruct IH as [Hc Hk].
    pose proof (global_reduction_inv L NG kgpreagg kds tbl0 Hsize Htbl Hnitems HK s)
      as Hinv.
    set (kg := fst (gpupreagg_global_preparation kgpreagg tbl0)) in *.
    set (st := gpupreagg_global_stage L NG kgpreagg kds tbl0 s) in *.
    unfold global_step.
    destruct (gs_items st !! gid) as [w|] eqn:Hw; [|auto].
    destruct (wi_pc w) eqn:Hpc; [| |auto].
    - destruct (global_retry_data gid w st kg) as [-> ->]. auto.
    - destruct (all_at PC_barrier (gs_items st) (group_members L (gid / L)))
        eqn:Hall; [|auto].
      destruct (global_group_step_quiet kg (nitems kds) (ncols kds) L (gid / L)%nat st)
        as [-> ->]; [|auto].
      intros m Hm wm Hwm.
      assert (Hpm : wi_pc wm <> PC_retry)
        by (rewrite (all_at_spec _ _ _ Hall _ _ Hm Hwm); discriminate).
      split; [assumption|]. intros Hlt.
      destruct (found_owner kg kds Hnitems _ _ Hinv m wm Hwm Hlt Hpm)
        as (o & -> & Hown & Hsame).
      destruct (decide (m = o)) as [->|Hne]; [reflexivity|].
      rewrite (Hdistinct m o Hlt (proj1 Hown) Hne) in Hsame. discriminate. }
  destruct (Hsafe sched) as [Hc Hk]. split; [assumption|]. split; [assumption|].
  intros Hfit. apply global_reduction_finishes.
  etransitivity; [apply distinct_keys_length|]. rewrite length_seq. lia.
Qed.

End GlobalResults.

(** ** The example query meets the contract *)

Section SumQuery.
Lemma key_of_set_datum k a c n v x :
  Z.to_nat c <> 0%nat -> key_of (set_datum k a c n v) x = key_of k x.
Proof.
  intros Hc. unfold key_of, cell, KERN_DATA_STORE_VALUES, set_datum. simpl.
  destruct (decide (Z.to_nat a = Z.to_nat x)) as [->|Hne].
  - rewrite list_lookup_alter_eq. destruct (slots k !! Z.to_nat x); simpl; [|reflexivity].
    now rewrite list_lookup_insert_ne.
  - now rewrite list_lookup_alter_ne.
Qed.

Lemma sum_query_contract kds :
  @key_contract sum_query kds [GPUPREAGG_FIELD_IS_GROUPKEY; GPUPREAGG_FIELD_IS_AGGFUNC].
Proof.
  assert (Heq : forall k x y, @same_key sum_query k x y = true <->
                              key_of k (Z.of_nat x) = key_of k (Z.of_nat y)).
  { intros k x y. unfold same_key. simpl.
    destruct (Z.compare_spec (key_of k (Z.of_nat x)) (key_of k (Z.of_nat y)));
      split; intros; try discriminate; try lia; reflexivity. }
  constructor.
  - intros x. now apply Heq.
  - intros x y H. apply Heq. apply Heq in H. congruence.
  - intros x y z H1 H2. apply Heq. apply Heq in H1, H2. congruence.
  - intros x y H. apply Heq in H. unfold row_hash. simpl. now rewrite H.
  - intros e attnum k a n Hatt x y. simpl.
    assert (Hc : Z.to_nat attnum = 1%nat).
    { unfold cell in Hatt. destruct (Z.to_nat attnum) as [|[|c]]; simpl in Hatt;
        try reflexivity; discriminate. }
    destruct (GPUPREAGG_AGGCALC_PSUM_INT e (load_int k attnum a) (load_int k attnum n))
      as [e' d]. simpl.
    rewrite !key_of_set_datum by lia. reflexivity.
Qed.
End SumQuery.

(** ** Distinct keys on a batch of four rows *)

Lemma global_reduction_distinct_keys_witness :
  (0 < 2)%nat /\
  0 < hash_size collision_control /\
  (Z.to_nat (hash_size collision_control) <= length stale_table)%nat /\
  nitems distinct_batch <= ALL_ONES /\
  @key_contract sum_query distinct_batch (gpagg_atts collision_control) /\
  (forall x y, Z.of_nat x < nitems distinct_batch ->
               Z.of_nat y < nitems distinct_batch ->
               x <> y -> @same_key sum_query distinct_batch x y = false) /\
  gs_calls (@gpupreagg_global_stage sum_query 2 2 collision_control
              distinct_batch stale_table [3; 1; 0; 2; 1; 3; 0]%nat) = [] /\
  gs_kds_dst (@gpupreagg_global_stage sum_query 2 2 collision_control
                distinct_batch stale_table [3; 1; 0; 2; 1; 3; 0]%nat)
  = distinct_batch.
Proof.
  assert (H0 : (0 < 2)%nat) by lia.
  assert (H1 : 0 < hash_size collision_control) by (vm_compute; reflexivity).
  assert (H2 : (Z.to_nat (hash_size collision_control) <= length stale_table)%nat)
    by (vm_compute; lia).
  assert (H3 : nitems distinct_batch <= ALL_ONES) by (vm_compute; discriminate).
  pose proof (sum_query_contract distinct_batch) as H4.
  assert (H5 : forall x y, Z.of_nat x < nitems distinct_batch ->
                 Z.of_nat y < nitems distinct_batch ->
                 x <> y -> @same_key sum_query distinct_batch x y = false).
  { intros x y Hx Hy Hne. change (nitems distinct_batch) with 4 in *.
    destruct x as [|[|[|[|x]]]]; try lia;
      destruct y as [|[|[|[|y]]]]; try lia; try reflexivity. }
  repeat (split; [assumption|]).
  pose proof (@global_reduction_distinct_keys sum_query 2 2 collision_control
                distinct_batch stale_table H0 H1 H2 H3 H4
                [3; 1; 0; 2; 1; 3; 0]%nat H5) as H.
  split; [exact (proj1 H)|exact (proj1 (proj2 H))].
Defined.

(** ** gpupreagg_data_move on a concrete pair of batches *)

Lemma gpupreagg_data_move_spec_witness :
  kds_wf distinct_batch /\
  0 <= 1 < ncols collision_batch /\ 1 < ncols distinct_batch /\
  0 <= 3 /\ (Z.to_nat 3 < length (slots distinct_batch))%nat /\
  let '(err', dst') := gpupreagg_data_move StromError_Success collision_batch
                         distinct_batch 1 2 3 in
  err' = StromError_Success /\
  cell (KERN_DATA_STORE_ISNULL dst' 3) 1 = 0 /\
  cell (KERN_DATA_STORE_VALUES dst' 3) 1 = 3.
Proof.
  assert (H1 : kds_wf distinct_batch).
  { split; [vm_compute; discriminate|]. repeat constructor. }
  assert (H2 : 0 <= 1 < ncols collision_batch) by (simpl; lia).
  assert (H3 : 1 < ncols distinct_batch) by (vm_compute; reflexivity).
  assert (H4 : 0 <= 3) by lia.
  assert (H5 : (Z.to_nat 3 < length (slots distinct_batch))%nat) by (vm_compute; lia).
  repeat (split; [assumption|]).
  pose proof (gpupreagg_data_move_spec StromError_Success collision_batch
                distinct_batch 1 2 3 H1 H2 H3 H4 H5) as H.
  cbv zeta in H.
  destruct (gpupreagg_data_move StromError_Success collision_batch
              distinct_batch 1 2 3) as [err' dst'].
  destruct H as (He & Hnn & _). split; [exact He|].
  assert (Hsrc : cell (KERN_DATA_STORE_ISNULL collision_batch 2) 1 = 0)
    by (vm_compute; reflexivity).
  destruct (Hnn Hsrc) as [Hn Hv]. split; [rewrite Hn; exact Hsrc|].
  rewrite Hv. vm_compute. reflexivity.
Defined.

(** ** Reservation of destination rows *)

Section Reservation.

(** C2, as stated, fails: a work-group of [gpupreagg_preparation] with three
    surviving rows and a destination of two rooms leaves [nitems] at 3,
    above [nrooms], and reports [StromError_DataStoreNoSpace]. *)
Lemma preparation_exceeds_nrooms :
  let '(kg, kds_src) :=
    @gpupreagg_preparation sum_query 4 [0%nat] (control_block 4 2)
      (batch_of 4 [(1, 10); (2, 20); (3, 30)]) (batch_of 2 []) in
  status kg = StromError_DataStoreNoSpace /\
  nitems kds_src = 3 /\ nrooms kds_src = 2 /\
  ~ (nitems kds_src <= nrooms kds_src).
Proof. vm_compute. repeat split; try reflexivity. intros H. now apply H. Qed.

End Reservation.

(** ** gpupreagg_local_reduction probes the global hash slots *)

Section LocalProbe.

Context `{F : GpuPreAggFunctions}.

Lemma fold_left_preserves {A B C} (f : A -> B -> A) (proj : A -> C) :
  (forall a b, proj (f a b) = proj a) ->
  forall l a, proj (fold_left f l a) = proj a.
Proof.
  intros Hf. induction l as [|b l IH]; intros a; simpl; [reflexivity|].
  now rewrite IH, Hf.
Qed.

Lemma local_reduce_column_l_hashslot kg kds_src L members dest st attnum :
  ls_l_hashslot (local_reduce_column kg kds_src L members dest st attnum)
  = ls_l_hashslot st.
Proof.
  unfold local_reduce_column. destruct (negb _); cbv zeta;
    rewrite ?fold_left_preserves; try reflexivity; intros a b.
  - unfold local_move. destruct (ls_items a !! b); [|reflexivity].
    destruct (_ =? _); reflexivity.
  - unfold local_load. destruct (ls_items a !! b); [|reflexivity].
    destruct (_ <? _); reflexivity.
  - unfold local_calc. destruct (ls_items a !! b); [|reflexivity].
    destruct (_ && _); reflexivity.
  - unfold local_store. destruct (ls_items a !! b); [|reflexivity].
    destruct (_ =? _); reflexivity.
Qed.

Lemma local_step_l_hashslot kg kds_src L st gid :
  ls_l_hashslot (local_step kg kds_src L st gid) = ls_l_hashslot st.
Proof.
  unfold local_step. destruct (ls_items st !! gid) as [w|]; [|reflexivity].
  destruct (wi_pc w); [| |reflexivity].
  - unfold local_retry. destruct (atom_cmpxchg _ _ _ _) as [[cur tbl]|];
      [|reflexivity].
    destruct (_ =? _); [reflexivity|]. destruct (_ && _); reflexivity.
  - destruct (all_at _ _ _); [|reflexivity].
    unfold local_group_step. cbv zeta.
    destruct (local_reserve _ _) as [[base kds1] nospace].
    destruct nospace; simpl; [reflexivity|].
    rewrite fold_left_preserves; [reflexivity|].
    intros a b. apply local_reduce_column_l_hashslot.
Qed.

(** Under every schedule the local hash slots stay as the reset loop left
    them: no compare-and-swap of the kernel reaches them. *)
Lemma local_hashslot_never_written L NG kgpreagg kds_src kds_dst g_hashslot sched :
  ls_l_hashslot
    (snd (gpupreagg_local_reduction L NG kgpreagg kds_src kds_dst g_hashslot sched))
  = replicate NG (replicate (2 * L) old_slot).
Proof.
  unfold gpupreagg_local_reduction, local_reduction_init. simpl.
  rewrite fold_left_preserves; [reflexivity|].
  intros a b. apply local_step_l_hashslot.
Qed.

End LocalProbe.

(** C6. Two work-groups of two work-items on four rows: the local table of
    each work-group has [2 * 2] slots and is still empty when the kernel
    has finished, and the four claims are in the global hash slots. *)
Theorem local_reduction_claims_global_slots :
  let st := snd (@gpupreagg_local_reduction sum_query 2 2 (control_block 4 4)
                   four_keys_batch (batch_of 4 []) stale_table
                   (round_robin 2 2 6)) in
  ls_finished st = true /\
  ls_l_hashslot st = [replicate 4 old_slot; replicate 4 old_slot] /\
  ls_g_hashslot st = [mk_slot 0 3; mk_slot 1 0; mk_slot 2 1; mk_slot 3 2].
Proof. vm_compute. repeat split; reflexivity. Qed.

(** C1. The same launch followed by the global stage: the work-items of the
    second work-group claim their slots under their global ids 2 and 3,
    which never equal their local ids 0 and 1, so that work-group reserves
    no destination row; the row map ends with two of the four groups. *)
Theorem local_then_global_loses_groups :
  let '(l, g) := @local_then_global sum_query 2 2 (control_block 4 4)
                   four_keys_batch (batch_of 4 []) stale_table
                   (round_robin 2 2 6) (round_robin 2 2 6) in
  ls_finished l = true /\ gs_finished g = true /\
  map wi_owner_index (ls_items l) = [0; 1; 2; 3] /\
  map wi_errcode (ls_items l ++ gs_items g) = replicate 8 StromError_Success /\
  nitems (ls_kds_dst l) = 2 /\
  reduced_rows g = [(1, 10); (2, 20)] /\
  serial_group_sum (batch_rows four_keys_batch)
  = [(1, 10); (2, 20); (3, 30); (4, 40)] /\
  ~ Permutation (reduced_rows g) (serial_group_sum (batch_rows four_keys_batch)).
Proof.
  vm_compute. repeat split; try reflexivity.
  intros H. apply Permutation_length in H. discriminate.
Qed.

(** C8. A batch whose columns are all group keys: the kernel finishes, two
    slots of the row map are reserved for the two owners, rows 0 and 1,
    and neither slot has been written. *)
Theorem global_reduction_rowmap_not_written :
  let st := @gpupreagg_global_stage sum_query 2 2 keys_only_control
              collision_batch stale_table (round_robin 2 2 6) in
  gs_finished st = true /\
  map (fun w => Z.of_nat (fst w) =? wi_owner_index (snd w))
      (imap pair (gs_items st)) = [true; true; false; false] /\
  nvalids (gs_krowmap st) = 2 /\
  rindex (gs_krowmap st) = [99; 99; 99; 99].
Proof. vm_compute. repeat split; reflexivity. Qed.

Section CompareExchange.

Context {A : Type}.
Variable gt : A -> A -> bool.

Lemma cells_inside (n : Z) (l : list A) (i : Z) :
  0 <= i < n -> cells n l i = l !! Z.to_nat i.
Proof.
  intros Hi. unfold cells.
  replace (0 <=? i) with true by (symmetry; apply Z.leb_le; lia).
  replace (i <? n) with true by (symmetry; apply Z.ltb_lt; lia).
  reflexivity.
Qed.

Lemma cells_outside (n : Z) (l : list A) (i : Z) :
  n <= i -> cells n l i = None.
Proof.
  intros Hi. unfold cells.
  replace (i <? n) with false by (symmetry; apply Z.ltb_ge; lia).
  rewrite andb_false_r. reflexivity.
Qed.

Lemma cells_agree (n : Z) (l l' : list A) (i : Z) :
  l' !! Z.to_nat i = l !! Z.to_nat i -> cells n l' i = cells n l i.
Proof. intros H. unfold cells. rewrite H. reflexivity. Qed.

Lemma compare_exchange_length (l : list A) (idx0 idx1 : Z) :
  length (compare_exchange gt l idx0 idx1) = length l.
Proof.
  unfold compare_exchange.
  destruct (l !! Z.to_nat idx0); [|reflexivity].
  destruct (l !! Z.to_nat idx1); [|reflexivity].
  destruct (gt a a0); [|reflexivity].
  rewrite !length_insert. reflexivity.
Qed.

Lemma compare_exchange_other (l : list A) (idx0 idx1 i : Z) :
  0 <= idx0 -> 0 <= idx1 -> 0 <= i -> i <> idx0 -> i <> idx1 ->
  compare_exchange gt l idx0 idx1 !! Z.to_nat i = l !! Z.to_nat i.
Proof.
  intros H0 H1 Hi Hn0 Hn1. unfold compare_exchange.
  destruct (l !! Z.to_nat idx0); [|reflexivity].
  destruct (l !! Z.to_nat idx1); [|reflexivity].
  destruct (gt a a0); [|reflexivity].
  rewrite !list_lookup_insert_ne by lia. reflexivity.
Qed.

Lemma compare_exchange_cells (n : Z) (l : list A) (idx0 idx1 : Z) :
  0 <= idx0 < idx1 -> idx1 < n -> n <= Z.of_nat (length l) ->
  cells n (compare_exchange gt l idx0 idx1) idx0
    = omin gt (cells n l idx0) (cells n l idx1) /\
  cells n (compare_exchange gt l idx0 idx1) idx1
    = omax gt (cells n l idx0) (cells n l idx1).
Proof.
  intros H0 H1 Hn.
  rewrite !cells_inside by lia.
  destruct (lookup_lt_is_Some_2 l (Z.to_nat idx0)) as [p0 Hp0]; [lia|].
  destruct (lookup_lt_is_Some_2 l (Z.to_nat idx1)) as [p1 Hp1]; [lia|].
  unfold compare_exchange. rewrite Hp0, Hp1. simpl.
  destruct (gt p0 p1).
  - split.
    + rewrite list_lookup_insert_eq; [reflexivity|].
      rewrite length_insert. lia.
    + rewrite list_lookup_insert_ne by lia.
      rewrite list_lookup_insert_eq by lia. reflexivity.
  - rewrite Hp0, Hp1. split; reflexivity.
Qed.

Lemma same_rows_refl (n : Z) (r : list A) : same_rows n r r.
Proof. split; reflexivity. Qed.

Lemma same_rows_trans (n : Z) (r1 r2 r3 : list A) :
  same_rows n r1 r2 -> same_rows n r2 r3 -> same_rows n r1 r3.
Proof.
  intros [Hp1 Hd1] [Hp2 Hd2]. split; [etransitivity; eassumption|congruence].
Qed.

Lemma same_rows_length (n : Z) (r' r : list A) :
  same_rows n r' r -> length r' = length r.
Proof. intros [Hp _]. apply Permutation_length. exact Hp. Qed.

Lemma compare_exchange_same_rows (n : Z) (l : list A) (idx0 idx1 : Z) :
  0 <= idx0 < n -> 0 <= idx1 < n ->
  same_rows n (compare_exchange gt l idx0 idx1) l.
Proof.
  intros H0 H1. unfold compare_exchange.
  destruct (l !! Z.to_nat idx0) as [p0|] eqn:Hp0; [|apply same_rows_refl].
  destruct (l !! Z.to_nat idx1) as [p1|] eqn:Hp1; [|apply same_rows_refl].
  destruct (gt p0 p1); [|apply same_rows_refl].
  split.
  - apply Permutation_insert_swap; assumption.
  - rewrite !drop_insert_lt by lia. reflexivity.
Qed.

(** A pass of compare-exchanges on pairwise disjoint pairs of cells:
    every pair holds its minimum and its maximum afterwards, and the other
    cells are unchanged. *)
Lemma fold_compare_exchange (I0 I1 : Z -> Z) (n : Z) (threads : list Z) :
  NoDup threads ->
  (forall t, t ∈ threads -> 0 <= I0 t < I1 t) ->
  (forall t t', t ∈ threads -> t' ∈ threads -> t <> t' ->
     I0 t <> I0 t' /\ I0 t <> I1 t' /\ I1 t <> I1 t') ->
  forall l : list A,
  n <= Z.of_nat (length l) ->
  let R := fold_left
             (fun l t => if I1 t <? n
                         then compare_exchange gt l (I0 t) (I1 t) else l)
             threads l in
  same_rows n R l /\
  (forall t, t ∈ threads ->
     cells n R (I0 t) = omin gt (cells n l (I0 t)) (cells n l (I1 t)) /\
     cells n R (I1 t) = omax gt (cells n l (I0 t)) (cells n l (I1 t))) /\
  (forall i, 0 <= i -> (forall t, t ∈ threads -> i <> I0 t /\ i <> I1 t) ->
     R !! Z.to_nat i = l !! Z.to_nat i).
Proof.
  intros Hnd. induction Hnd as [|t0 threads Hnotin Hnd IH];
    intros Hord Hdisj l Hn; cbv zeta.
  - simpl. split; [apply same_rows_refl|]. split; [|reflexivity].
    intros t Ht. inversion Ht.
  - simpl fold_left.
    set (l1 := if I1 t0 <? n then compare_exchange gt l (I0 t0) (I1 t0) else l).
    assert (Hord0 : 0 <= I0 t0 < I1 t0) by (apply Hord; left).
    assert (Hsame1 : same_rows n l1 l).
    { unfold l1. destruct (Z.ltb_spec (I1 t0) n); [|apply same_rows_refl].
      apply compare_exchange_same_rows; lia. }
    assert (Hlen1 : length l1 = length l) by (apply (same_rows_length n), Hsame1).
    assert (Hother : forall i, 0 <= i -> i <> I0 t0 -> i <> I1 t0 ->
              l1 !! Z.to_nat i = l !! Z.to_nat i).
    { intros i Hi Hi0 Hi1. unfold l1. destruct (I1 t0 <? n); [|reflexivity].
      apply compare_exchange_other; lia. }
    assert (Hown : cells n l1 (I0 t0)
                     = omin gt (cells n l (I0 t0)) (cells n l (I1 t0)) /\
                   cells n l1 (I1 t0)
                     = omax gt (cells n l (I0 t0)) (cells n l (I1 t0))).
    { unfold l1. destruct (I1 t0 <? n) eqn:Hg.
      - apply Z.ltb_lt in Hg. apply compare_exchange_cells; lia.
      - apply Z.ltb_ge in Hg. rewrite (cells_outside n l (I1 t0)) by lia.
        split.
        + destruct (cells n l (I0 t0)); reflexivity.
        + destruct (cells n l (I0 t0)); reflexivity. }
    destruct (IH (fun t Ht => Hord t (list_elem_of_further _ _ _ Ht))
                 (fun t t' Ht Ht' => Hdisj t t' (list_elem_of_further _ _ _ Ht)
                                           (list_elem_of_further _ _ _ Ht'))
                 l1 ltac:(lia)) as (HlenR & Hpairs & Hrest).
    cbv zeta in HlenR, Hpairs, Hrest.
    set (R := fold_left _ threads l1) in *.
    split; [apply (same_rows_trans n _ l1); assumption|]. split.
    + intros t Ht. apply elem_of_cons in Ht. destruct Ht as [->|Ht].
      * assert (Hfree : forall t, t ∈ threads -> I0 t0 <> I0 t /\ I0 t0 <> I1 t).
        { intros t Ht.
          destruct (Hdisj t0 t) as (? & ? & ?);
            [left|right; exact Ht|intros ->; contradiction|]. split; assumption. }
        assert (Hfree' : forall t, t ∈ threads -> I1 t0 <> I0 t /\ I1 t0 <> I1 t).
        { intros t Ht.
          destruct (Hdisj t0 t) as (? & ? & ?);
            [left|right; exact Ht|intros ->; contradiction|].
          destruct (Hdisj t t0) as (? & ? & ?);
            [right; exact Ht|left|intros ->; contradiction|].
          split; congruence. }
        rewrite (cells_agree n l1 R (I0 t0)) by (apply Hrest; [lia|exact Hfree]).
        rewrite (cells_agree n l1 R (I1 t0)) by (apply Hrest; [lia|exact Hfree']).
        exact Hown.
      * destruct (Hpairs t Ht) as [Hp0 Hp1].
        assert (Hne : t <> t0) by (intros ->; contradiction).
        destruct (Hdisj t t0) as (Ha & Hb & Hc);
          [right; exact Ht|left|exact Hne|].
        destruct (Hdisj t0 t) as (Ha' & Hb' & Hc');
          [left|right; exact Ht|congruence|].
        pose proof (Hord t (list_elem_of_further _ _ _ Ht)) as Hordt.
        rewrite Hp0, Hp1.
        rewrite (cells_agree n l l1 (I0 t)) by (apply Hother; [lia|congruence|congruence]).
        rewrite (cells_agree n l l1 (I1 t)) by (apply Hother; [lia|congruence|congruence]).
        split; reflexivity.
    + intros i Hi Hfree.
      rewrite Hrest; [|exact Hi|intros t Ht; apply Hfree; right; exact Ht].
      destruct (Hfree t0) as [? ?]; [left|].
      apply Hother; assumption.
Qed.

End CompareExchange.

Section IndexArithmetic.

Lemma unit_decompose_unique (U q s q' s' : Z) :
  0 <= s < U -> 0 <= s' < U -> q * U + s = q' * U + s' -> q = q' /\ s = s'.
Proof. intros Hs Hs' Heq. assert (q = q') by nia. subst q'. split; lia. Qed.

Lemma unit_div_mod (U q s : Z) :
  0 <= s < U -> (q * U + s) / U = q /\ (q * U + s) mod U = s.
Proof.
  intros Hs.
  pose proof (Z.div_mod (q * U + s) U ltac:(lia)) as Hdm.
  pose proof (Z.mod_pos_bound (q * U + s) U ltac:(lia)) as Hb.
  apply (unit_decompose_unique U); [exact Hb|exact Hs|lia].
Qed.

Lemma half_unit (h : Z) : 2 * h / 2 = h.
Proof. rewrite Z.mul_comm. apply Z.div_mul. discriminate. Qed.

(** A [cl_int] computation that stays in range does not wrap around. *)
Lemma wrap_signed_fit (x : Z) :
  - 2 ^ 31 <= x < 2 ^ 31 -> wrap_signed 32 x = x.
Proof.
  intros Hx. unfold wrap_signed.
  change (32 - 1) with 31. change (2 ^ 32) with (2 * 2 ^ 31).
  rewrite Z.mod_small by lia. lia.
Qed.

Lemma bitonic_idx0_eq (h t : Z) :
  0 < h -> 0 <= t -> (t / h + 1) * (2 * h) <= 2 ^ 31 ->
  bitonic_idx0 (2 * h) t = t / h * (2 * h) + t mod h.
Proof.
  intros Hh Ht Hfit. unfold bitonic_idx0. rewrite half_unit.
  pose proof (Z.mod_pos_bound t h Hh) as Hr.
  pose proof (Z.div_pos t h Ht Hh) as Hq.
  apply wrap_signed_fit. nia.
Qed.

(** [(idx0 & ~unitMask) | (~idx0 & unitMask)] is the mirror image of [idx0]
    in its unit, for a unit size that is a power of two. *)
Lemma reversing_bits (u x : Z) :
  0 <= u ->
  Z.lor (Z.land x (Z.lnot (2 ^ u - 1))) (Z.land (Z.lnot x) (2 ^ u - 1))
  = x - x mod 2 ^ u + (2 ^ u - 1 - x mod 2 ^ u).
Proof.
  intros Hu.
  assert (Hpos : 0 < 2 ^ u) by (apply Z.pow_pos_nonneg; lia).
  replace (2 ^ u - 1) with (Z.ones u) by (rewrite Z.ones_equiv; lia).
  rewrite <- Z.ldiff_land.
  assert (Hdisj : Z.land (Z.ldiff x (Z.ones u)) (Z.land (Z.lnot x) (Z.ones u)) = 0).
  { apply Z.bits_inj'. intros k Hk.
    rewrite !Z.land_spec, Z.ldiff_spec, Z.bits_0.
    destruct (Z.testbit x k), (Z.testbit (Z.ones u) k),
             (Z.testbit (Z.lnot x) k); reflexivity. }
  rewrite <- (Z.lxor_lor _ _ Hdisj), <- (Z.add_nocarry_lxor _ _ Hdisj).
  rewrite Z.ldiff_ones_r by exact Hu.
  rewrite Z.shiftr_div_pow2, Z.shiftl_mul_pow2 by exact Hu.
  rewrite Z.land_ones by exact Hu.
  replace (Z.lnot x) with ((- (x / 2 ^ u) - 1) * 2 ^ u + (2 ^ u - 1 - x mod 2 ^ u)).
  - pose proof (Z.mod_pos_bound x (2 ^ u) Hpos) as Hb.
    destruct (unit_div_mod (2 ^ u) (- (x / 2 ^ u) - 1) (2 ^ u - 1 - x mod 2 ^ u))
      as [_ ->]; [lia|].
    pose proof (Z.div_mod x (2 ^ u) ltac:(lia)) as Hdm.
    rewrite (Z.mul_comm (2 ^ u)) in Hdm. rewrite Z.ones_equiv. lia.
  - unfold Z.lnot. pose proof (Z.div_mod x (2 ^ u) ltac:(lia)) as Hdm.
    rewrite (Z.mul_comm (2 ^ u)) in Hdm. lia.
Qed.

Lemma bitonic_idx1_eq (reversing : bool) (h q r : Z) :
  unit_size_ok reversing h -> 0 <= q -> 0 <= r < h ->
  (q + 1) * (2 * h) <= 2 ^ 31 ->
  bitonic_idx1 reversing (2 * h) (q * (2 * h) + r)
  = q * (2 * h) + unit_partner reversing h r.
Proof.
  intros [Hh Hpow] Hq Hr Hfit. unfold bitonic_idx1, unit_partner. cbv zeta.
  destruct reversing.
  - rewrite wrap_signed_fit by nia.
    destruct (Hpow eq_refl) as (u & Hu & HU). rewrite HU.
    rewrite reversing_bits by exact Hu. rewrite <- HU.
    destruct (unit_div_mod (2 * h) q r) as [_ ->]; lia.
  - rewrite half_unit. rewrite wrap_signed_fit by nia. lia.
Qed.

Lemma unit_partner_range (reversing : bool) (h r : Z) :
  0 <= r < h -> h <= unit_partner reversing h r < 2 * h.
Proof. unfold unit_partner. destruct reversing; lia. Qed.

Lemma unit_source_range (reversing : bool) (h s : Z) :
  h <= s < 2 * h -> 0 <= unit_source reversing h s < h.
Proof. unfold unit_source. destruct reversing; lia. Qed.

Lemma unit_partner_source (reversing : bool) (h s : Z) :
  unit_partner reversing h (unit_source reversing h s) = s.
Proof. unfold unit_partner, unit_source. destruct reversing; lia. Qed.

Lemma unit_source_partner (reversing : bool) (h s : Z) :
  unit_source reversing h (unit_partner reversing h s) = s.
Proof. unfold unit_partner, unit_source. destruct reversing; lia. Qed.

Lemma unit_partner_inj (reversing : bool) (h r r' : Z) :
  unit_partner reversing h r = unit_partner reversing h r' -> r = r'.
Proof. unfold unit_partner. destruct reversing; lia. Qed.

(** The two cells of the work-item [t]. *)
Lemma thread_cells (reversing : bool) (h t : Z) :
  unit_size_ok reversing h -> 0 <= t ->
  (t / h + 1) * (2 * h) <= 2 ^ 31 ->
  0 <= t / h /\ 0 <= t mod h < h /\
  bitonic_idx0 (2 * h) t = t / h * (2 * h) + t mod h /\
  bitonic_idx1 reversing (2 * h) (bitonic_idx0 (2 * h) t)
  = t / h * (2 * h) + unit_partner reversing h (t mod h).
Proof.
  intros Hok Ht Hfit. pose proof Hok as [Hh _].
  assert (Hr : 0 <= t mod h < h) by (apply Z.mod_pos_bound; lia).
  assert (Hq : 0 <= t / h) by (apply Z.div_pos; lia).
  split; [exact Hq|]. split; [exact Hr|].
  split; [apply bitonic_idx0_eq; assumption|].
  rewrite bitonic_idx0_eq by assumption. apply bitonic_idx1_eq; assumption.
Qed.

End IndexArithmetic.

Section Stage.

Context {A : Type}.
Variable gt : A -> A -> bool.

(** One pass of the kernels is one pass of the network, provided there are
    work-items for all the units that reach into the [n] cells. *)
Lemma bitonic_stage_cells (T n : Z) (reversing : bool) (h : Z) (l : list A) :
  unit_size_ok reversing h ->
  stage_fits T h ->
  n <= Z.of_nat (length l) ->
  n <= T / h * (2 * h) ->
  same_rows n (bitonic_stage gt T n reversing (2 * h) l) l /\
  forall i, 0 <= i ->
    cells n (bitonic_stage gt T n reversing (2 * h) l) i
    = stage_fun (omin gt) (omax gt) reversing h (cells n l) i.
Proof.
  intros Hok Hfits Hlen Hcover. pose proof Hok as [Hh _].
  set (I0 := bitonic_idx0 (2 * h)).
  set (I1 := fun t => bitonic_idx1 reversing (2 * h) (bitonic_idx0 (2 * h) t)).
  set (J0 := fun t => t / h * (2 * h) + t mod h).
  set (J1 := fun t => t / h * (2 * h) + unit_partner reversing h (t mod h)).
  assert (Hcode : forall t, 0 <= t < T -> I0 t = J0 t /\ I1 t = J1 t).
  { intros t Ht.
    destruct (thread_cells reversing h t Hok) as (_ & _ & H0 & H1);
      [lia|apply Hfits; exact Ht|]. split; assumption. }
  assert (Hpure : forall t, 0 <= t -> 0 <= t / h /\ 0 <= t mod h < h).
  { intros t Ht. split; [apply Z.div_pos; lia|apply Z.mod_pos_bound; lia]. }
  destruct (fold_compare_exchange gt I0 I1 n (seqZ 0 T)) with (l := l)
    as (Hsame & Hpairs & _).
  - apply NoDup_seqZ.
  - intros t Ht. apply elem_of_seqZ in Ht.
    destruct (Hcode t) as [-> ->]; [lia|]. unfold J0, J1.
    destruct (Hpure t) as (Hq & Hr); [lia|].
    pose proof (unit_partner_range reversing h _ Hr). nia.
  - intros t t' Ht Ht' Hne. apply elem_of_seqZ in Ht, Ht'.
    destruct (Hcode t) as [-> ->]; [lia|].
    destruct (Hcode t') as [-> ->]; [lia|]. unfold J0, J1.
    destruct (Hpure t) as (Hq & Hr); [lia|].
    destruct (Hpure t') as (Hq' & Hr'); [lia|].
    pose proof (unit_partner_range reversing h _ Hr) as Hp.
    pose proof (unit_partner_range reversing h _ Hr') as Hp'.
    assert (Hsame' : t / h = t' / h -> t mod h = t' mod h -> False).
    { intros Hq1 Hr1. apply Hne.
      rewrite (Z.div_mod t h), (Z.div_mod t' h) by lia. congruence. }
    repeat split; intros Heq;
      apply unit_decompose_unique in Heq; try lia;
      destruct Heq as [Hq1 Hr1]; try apply unit_partner_inj in Hr1; auto.
  - exact Hlen.
  - change (fold_left _ (seqZ 0 T) l)
      with (bitonic_stage gt T n reversing (2 * h) l) in Hsame, Hpairs.
    split; [exact Hsame|].
    intros i Hi. unfold stage_fun. cbv zeta.
    assert (Hs : 0 <= i mod (2 * h) < 2 * h) by (apply Z.mod_pos_bound; lia).
    pose proof (Z.div_mod i (2 * h) ltac:(lia)) as Hdm.
    rewrite (Z.mul_comm (2 * h)) in Hdm.
    assert (Hc : i - i mod (2 * h) = i / (2 * h) * (2 * h)) by lia.
    assert (Hqi : 0 <= i / (2 * h)) by (apply Z.div_pos; lia).
    set (s := i mod (2 * h)) in *. set (q := i / (2 * h)) in *.
    rewrite Hc.
    (* the work-item that owns the cell [i] *)
    set (r := if s <? h then s else unit_source reversing h s).
    assert (Hr : 0 <= r < h).
    { unfold r. destruct (s <? h) eqn:Hlt.
      - apply Z.ltb_lt in Hlt. lia.
      - apply Z.ltb_ge in Hlt. apply unit_source_range. lia. }
    set (t := q * h + r).
    assert (Ht : 0 <= t) by (unfold t; nia).
    destruct (unit_div_mod h q r Hr) as [Htq Htr]. fold t in Htq, Htr.
    assert (HJ0 : J0 t = q * (2 * h) + r) by (unfold J0; rewrite Htq, Htr; reflexivity).
    assert (HJ1 : J1 t = q * (2 * h) + unit_partner reversing h r)
      by (unfold J1; rewrite Htq, Htr; reflexivity).
    assert (Hi_eq : i = if s <? h then J0 t else J1 t).
    { rewrite HJ0, HJ1. unfold r. destruct (s <? h).
      - lia.
      - rewrite unit_partner_source. lia. }
    destruct (Z.lt_ge_cases t T) as [HtT|HtT].
    + destruct (Hpairs t) as [Hp0 Hp1]; [apply elem_of_seqZ; lia|].
      destruct (Hcode t) as [HI0 HI1]; [lia|].
      rewrite HI0, HI1, HJ0, HJ1 in Hp0, Hp1. rewrite HJ0, HJ1 in Hi_eq.
      unfold r in Hp0, Hp1, Hi_eq. destruct (s <? h).
      * rewrite Hi_eq, Hp0. reflexivity.
      * rewrite unit_partner_source in Hp0, Hp1, Hi_eq.
        rewrite Hi_eq, Hp1. reflexivity.
    + assert (Hout : n <= J0 t).
      { assert (T / h <= q).
        { rewrite <- Htq. apply Z.div_le_mono; lia. }
        rewrite HJ0. nia. }
      assert (Hout1 : n <= J1 t).
      { rewrite HJ1. rewrite HJ0 in Hout.
        pose proof (unit_partner_range reversing h _ Hr). lia. }
      rewrite HJ0 in Hout. rewrite HJ1 in Hout1. rewrite HJ0, HJ1 in Hi_eq.
      unfold r in Hi_eq, Hout, Hout1. destruct (s <? h).
      * rewrite cells_outside by lia.
        rewrite (cells_outside n l i) by lia.
        rewrite (cells_outside n l) by lia. reflexivity.
      * rewrite unit_partner_source in Hi_eq, Hout1.
        rewrite cells_outside by lia.
        rewrite (cells_outside n l i) by lia.
        destruct (cells n l _); reflexivity.
Qed.

End Stage.

Section NetworkFacts.

Context {X : Type}.
Variable mn mx : X -> X -> X.

Lemma stage_fun_lower (reversing : bool) (h : Z) (a : Z -> X) (q r : Z) :
  0 <= r < h ->
  stage_fun mn mx reversing h a (q * (2 * h) + r)
  = mn (a (q * (2 * h) + r)) (a (q * (2 * h) + unit_partner reversing h r)).
Proof.
  intros Hr. unfold stage_fun. cbv zeta.
  destruct (unit_div_mod (2 * h) q r) as [_ ->]; [lia|].
  replace (r <? h) with true by (symmetry; apply Z.ltb_lt; lia).
  f_equal. f_equal. lia.
Qed.

Lemma stage_fun_upper (reversing : bool) (h : Z) (a : Z -> X) (q s : Z) :
  h <= s < 2 * h ->
  stage_fun mn mx reversing h a (q * (2 * h) + s)
  = mx (a (q * (2 * h) + unit_source reversing h s)) (a (q * (2 * h) + s)).
Proof.
  intros Hs. unfold stage_fun. cbv zeta.
  destruct (unit_div_mod (2 * h) q s) as [_ ->]; [lia|].
  replace (s <? h) with false by (symmetry; apply Z.ltb_ge; lia).
  f_equal. f_equal. lia.
Qed.

End NetworkFacts.

Ltac bool_cases :=
  repeat match goal with
         | |- context [?x <=? ?y] => destruct (Z.leb_spec x y)
         | |- context [?x <? ?y] => destruct (Z.ltb_spec x y)
         end;
  simpl; try reflexivity; try lia.

Section ZeroOne.

Implicit Types b : Z -> bool.

Lemma ones_run_normal b c V p q :
  0 <= V -> ones_run b c V p q ->
  exists p' q', 0 <= p' <= q' /\ q' <= V /\ ones_run b c V p' q'.
Proof.
  intros HV Hrun.
  exists (Z.max 0 (Z.min p V)), (Z.max (Z.max 0 (Z.min p V)) (Z.min q V)).
  split; [lia|]. split; [lia|].
  intros r Hr. rewrite (Hrun r Hr). bool_cases.
Qed.

Lemma zeros_run_normal b c V p q :
  0 <= V -> zeros_run b c V p q ->
  exists p' q', 0 <= p' <= q' /\ q' <= V /\ zeros_run b c V p' q'.
Proof.
  intros HV Hrun.
  exists (Z.max 0 (Z.min p V)), (Z.max (Z.max 0 (Z.min p V)) (Z.min q V)).
  split; [lia|]. split; [lia|].
  intros r Hr. rewrite (Hrun r Hr). bool_cases.
Qed.

(** The half-cleaner on a bitonic unit of zeros and ones: both halves are
    bitonic, and the lower half is all zeros or the upper half all ones. *)
Lemma half_cleaner_unit b b' c h :
  0 < h ->
  bitonic01 b c (2 * h) ->
  (forall r, 0 <= r < h -> b' (c + r) = b (c + r) && b (c + (r + h))) ->
  (forall r, 0 <= r < h -> b' (c + h + r) = b (c + r) || b (c + (r + h))) ->
  bitonic01 b' c h /\ bitonic01 b' (c + h) h /\
  (all_false b' c h \/ all_true b' (c + h) h).
Proof.
  intros Hh (p0 & q0 & Hrun) Hlo Hhi.
  assert (Hval : forall (P : Z -> bool) r, 0 <= r < h ->
            (forall r, 0 <= r < 2 * h -> b (c + r) = P r) ->
            b' (c + r) = P r && P (r + h) /\ b' (c + h + r) = P r || P (r + h)).
  { intros P r Hr HP. rewrite Hlo, Hhi by exact Hr.
    rewrite !HP by lia. split; reflexivity. }
  destruct Hrun as [Hrun|Hrun].
  - apply ones_run_normal in Hrun; [|lia].
    destruct Hrun as (p & q & Hpq & Hq & Hrun).
    pose proof (fun r Hr => Hval _ r Hr Hrun) as Hv. cbv beta in Hv.
    destruct (Z.le_gt_cases q h) as [Hc1|Hc1];
      [|destruct (Z.le_gt_cases h p) as [Hc2|Hc2];
        [|destruct (Z.le_gt_cases (q - h) p) as [Hc3|Hc3]]].
    + split; [exists 0, 0; left|split; [exists p, q; left|left]];
        intros r Hr; destruct (Hv r Hr) as [Hv1 Hv2]; rewrite ?Hv1, ?Hv2; bool_cases.
    + split; [exists 0, 0; left|split; [exists (p - h), (q - h); left|left]];
        intros r Hr; destruct (Hv r Hr) as [Hv1 Hv2]; rewrite ?Hv1, ?Hv2; bool_cases.
    + split; [exists 0, 0; left|split; [exists (q - h), p; right|left]];
        intros r Hr; destruct (Hv r Hr) as [Hv1 Hv2]; rewrite ?Hv1, ?Hv2; bool_cases.
    + split; [exists p, (q - h); left|split; [exists 0, 0; right|right]];
        intros r Hr; destruct (Hv r Hr) as [Hv1 Hv2]; rewrite ?Hv1, ?Hv2; bool_cases.
  - apply zeros_run_normal in Hrun; [|lia].
    destruct Hrun as (p & q & Hpq & Hq & Hrun).
    pose proof (fun r Hr => Hval _ r Hr Hrun) as Hv. cbv beta in Hv.
    destruct (Z.le_gt_cases q h) as [Hc1|Hc1];
      [|destruct (Z.le_gt_cases h p) as [Hc2|Hc2];
        [|destruct (Z.le_gt_cases (q - h) p) as [Hc3|Hc3]]].
    + split; [exists p, q; right|split; [exists 0, 0; right|right]];
        intros r Hr; destruct (Hv r Hr) as [Hv1 Hv2]; rewrite ?Hv1, ?Hv2; bool_cases.
    + split; [exists (p - h), (q - h); right|split; [exists 0, 0; right|right]];
        intros r Hr; destruct (Hv r Hr) as [Hv1 Hv2]; rewrite ?Hv1, ?Hv2; bool_cases.
    + split; [exists (q - h), p; left|split; [exists 0, 0; right|right]];
        intros r Hr; destruct (Hv r Hr) as [Hv1 Hv2]; rewrite ?Hv1, ?Hv2; bool_cases.
    + split; [exists 0, 0; left|split; [exists p, (q - h); right|left]];
        intros r Hr; destruct (Hv r Hr) as [Hv1 Hv2]; rewrite ?Hv1, ?Hv2; bool_cases.
Qed.

(** The reversing pass on two sorted halves. *)
Lemma reversing_unit b b' c h x y :
  0 < h ->
  (forall r, 0 <= r < h -> b (c + r) = (x <=? r)) ->
  (forall r, 0 <= r < h -> b (c + (h + r)) = (y <=? r)) ->
  (forall r, 0 <= r < h ->
     b' (c + r) = b (c + r) && b (c + (h + (h - 1 - r)))) ->
  (forall r, 0 <= r < h ->
     b' (c + h + r) = b (c + (h - 1 - r)) || b (c + (h + r))) ->
  bitonic01 b' c h /\ bitonic01 b' (c + h) h /\
  (all_false b' c h \/ all_true b' (c + h) h).
Proof.
  intros Hh Hx Hy Hlo Hhi.
  assert (Hv : forall r, 0 <= r < h ->
            b' (c + r) = (x <=? r) && (y <=? h - 1 - r) /\
            b' (c + h + r) = (x <=? h - 1 - r) || (y <=? r)).
  { intros r Hr. rewrite Hlo, Hhi by exact Hr.
    rewrite (Hx r), (Hy r), (Hx (h - 1 - r)), (Hy (h - 1 - r)) by lia.
    split; reflexivity. }
  split; [exists x, (h - y); left|split; [exists (h - x), y; right|]].
  - intros r Hr; destruct (Hv r Hr) as [Hv1 Hv2]; rewrite ?Hv1, ?Hv2; bool_cases.
  - intros r Hr; destruct (Hv r Hr) as [Hv1 Hv2]; rewrite ?Hv1, ?Hv2; bool_cases.
  - destruct (Z.le_gt_cases h (x + y)); [left|right];
      intros r Hr; destruct (Hv r Hr) as [Hv1 Hv2]; rewrite ?Hv1, ?Hv2; bool_cases.
Qed.

End ZeroOne.

Section ZeroOneNetwork.

Implicit Types b : Z -> bool.

Lemma block_parity (q : Z) :
  0 <= q -> exists m, 0 <= m /\ (q = 2 * m \/ q = 2 * m + 1).
Proof.
  intros Hq. destruct (Z.Even_or_Odd q) as [[m ->]|[m ->]];
    exists m; split; lia.
Qed.

(** What the two passes do to the unit [m]. *)
Lemma half_cleaner_values b h m :
  0 < h ->
  let b' := stage_fun andb orb false h b in
  let c := m * (2 * h) in
  (forall r, 0 <= r < h -> b' (c + r) = b (c + r) && b (c + (r + h))) /\
  (forall r, 0 <= r < h -> b' (c + h + r) = b (c + r) || b (c + (r + h))).
Proof.
  intros Hh b' c. split; intros r Hr; unfold b', c.
  - rewrite stage_fun_lower by lia. unfold unit_partner. reflexivity.
  - replace (m * (2 * h) + h + r) with (m * (2 * h) + (r + h)) by lia.
    rewrite stage_fun_upper by lia. unfold unit_source.
    replace (r + h - h) with r by lia. reflexivity.
Qed.

Lemma reversing_values b h m :
  0 < h ->
  let b' := stage_fun andb orb true h b in
  let c := m * (2 * h) in
  (forall r, 0 <= r < h ->
     b' (c + r) = b (c + r) && b (c + (h + (h - 1 - r)))) /\
  (forall r, 0 <= r < h ->
     b' (c + h + r) = b (c + (h - 1 - r)) || b (c + (h + r))).
Proof.
  intros Hh b' c. split; intros r Hr; unfold b', c.
  - rewrite stage_fun_lower by lia. unfold unit_partner.
    replace (2 * h - 1 - r) with (h + (h - 1 - r)) by lia. reflexivity.
  - replace (m * (2 * h) + h + r) with (m * (2 * h) + (h + r)) by lia.
    rewrite stage_fun_upper by lia. unfold unit_source.
    replace (2 * h - 1 - (h + r)) with (h - 1 - r) by lia. reflexivity.
Qed.

Lemma reversing_pass_inv b h :
  0 < h -> sorted_blocks h b -> net_inv 2 h (stage_fun andb orb true h b).
Proof.
  intros Hh Hsorted.
  assert (Hunit : forall m, 0 <= m ->
            let b' := stage_fun andb orb true h b in
            let c := m * (2 * h) in
            bitonic01 b' c h /\ bitonic01 b' (c + h) h /\
            (all_false b' c h \/ all_true b' (c + h) h)).
  { intros m Hm b' c.
    destruct (Hsorted (2 * m)) as [x Hx]; [lia|].
    destruct (Hsorted (2 * m + 1)) as [y Hy]; [lia|].
    destruct (reversing_values b h m Hh) as [Hlo Hhi].
    apply (reversing_unit b b' c h x y Hh).
    - intros r Hr. rewrite <- (Hx r Hr). f_equal. unfold c. lia.
    - intros r Hr. rewrite <- (Hy r Hr). f_equal. unfold c. lia.
    - exact Hlo.
    - exact Hhi. }
  split.
  - intros q Hq. destruct (block_parity q Hq) as (m & Hm & [->| ->]).
    + destruct (Hunit m Hm) as (H1 & _ & _).
      replace (2 * m * h) with (m * (2 * h)) by lia. exact H1.
    + destruct (Hunit m Hm) as (_ & H2 & _).
      replace ((2 * m + 1) * h) with (m * (2 * h) + h) by lia. exact H2.
  - intros q Hq Hndiv. destruct (block_parity q Hq) as (m & Hm & [->| ->]).
    + destruct (Hunit m Hm) as (_ & _ & H3).
      replace (2 * m * h) with (m * (2 * h)) by lia.
      replace ((2 * m + 1) * h) with (m * (2 * h) + h) by lia. exact H3.
    + exfalso. apply Hndiv. exists (m + 1). lia.
Qed.

Lemma half_cleaner_pass_inv b K h :
  0 < h -> net_inv K (2 * h) b ->
  net_inv (2 * K) h (stage_fun andb orb false h b).
Proof.
  intros Hh [Hbit Hchain].
  assert (Hunit : forall m, 0 <= m ->
            let b' := stage_fun andb orb false h b in
            let c := m * (2 * h) in
            bitonic01 b' c h /\ bitonic01 b' (c + h) h /\
            (all_false b' c h \/ all_true b' (c + h) h)).
  { intros m Hm b' c.
    destruct (half_cleaner_values b h m Hh) as [Hlo Hhi].
    apply (half_cleaner_unit b b' c h Hh); [|exact Hlo|exact Hhi].
    apply Hbit. exact Hm. }
  split.
  - intros q Hq. destruct (block_parity q Hq) as (m & Hm & [->| ->]).
    + destruct (Hunit m Hm) as (H1 & _ & _).
      replace (2 * m * h) with (m * (2 * h)) by lia. exact H1.
    + destruct (Hunit m Hm) as (_ & H2 & _).
      replace ((2 * m + 1) * h) with (m * (2 * h) + h) by lia. exact H2.
  - intros q Hq Hndiv. destruct (block_parity q Hq) as (m & Hm & [->| ->]).
    + destruct (Hunit m Hm) as (_ & _ & H3).
      replace (2 * m * h) with (m * (2 * h)) by lia.
      replace ((2 * m + 1) * h) with (m * (2 * h) + h) by lia. exact H3.
    + assert (Hm1 : ~ (K | m + 1)).
      { intros [k Hk]. apply Hndiv. exists k. lia. }
      destruct (half_cleaner_values b h m Hh) as [_ Hhi].
      destruct (half_cleaner_values b h (m + 1) Hh) as [Hlo _].
      destruct (Hchain m Hm Hm1) as [Hf|Ht]; [left|right]; intros r Hr.
      * replace ((2 * m + 1) * h + r) with (m * (2 * h) + h + r) by lia.
        rewrite Hhi by exact Hr.
        rewrite (Hf r), (Hf (r + h)) by lia. reflexivity.
      * replace ((2 * m + 1 + 1) * h + r) with ((m + 1) * (2 * h) + r) by lia.
        rewrite Hlo by exact Hr.
        rewrite (Ht r), (Ht (r + h)) by lia. reflexivity.
Qed.

Lemma monotone_threshold b c (V : nat) :
  (forall r, 0 <= r -> r + 1 < Z.of_nat V ->
     b (c + r) = false \/ b (c + (r + 1)) = true) ->
  exists x, forall r, 0 <= r < Z.of_nat V -> b (c + r) = (x <=? r).
Proof.
  induction V as [|V IH]; intros Hmono.
  - exists 0. intros r Hr. lia.
  - destruct IH as [x Hx]; [intros r Hr0 Hr1; apply Hmono; lia|].
    exists (if b (c + Z.of_nat V) then Z.min x (Z.of_nat V) else Z.of_nat V + 1).
    intros r Hr. destruct (Z.eq_dec r (Z.of_nat V)) as [->|Hne].
    + destruct (b (c + Z.of_nat V)); bool_cases.
    + rewrite Hx by lia.
      destruct (b (c + Z.of_nat V)) eqn:HbV; [bool_cases|].
      destruct (Hmono (Z.of_nat V - 1)) as [Hf|Ht]; [lia|lia| |].
      * rewrite Hx in Hf by lia. apply Z.leb_gt in Hf. bool_cases.
      * replace (Z.of_nat V - 1 + 1) with (Z.of_nat V) in Ht by lia.
        congruence.
Qed.

Lemma unit_blocks_sorted b K :
  0 < K -> net_inv K 1 b -> sorted_blocks K b.
Proof.
  intros HK [_ Hchain] q Hq.
  destruct (monotone_threshold b (q * K) (Z.to_nat K)) as [x Hx].
  - intros r Hr0 Hr1. rewrite Z2Nat.id in Hr1 by lia.
    destruct (Hchain (q * K + r)) as [Hf|Ht].
    + nia.
    + intros [k Hk].
      assert (r + 1 = (k - q) * K) by lia.
      assert (0 < k - q) by nia. assert (k - q < 1) by nia. lia.
    + left. specialize (Hf 0 ltac:(lia)).
      rewrite Z.mul_1_r, Z.add_0_r in Hf. exact Hf.
    + right. specialize (Ht 0 ltac:(lia)).
      replace ((q * K + r + 1) * 1 + 0) with (q * K + (r + 1)) in Ht by lia.
      exact Ht.
  - exists x. intros r Hr. apply Hx. rewrite Z2Nat.id by lia. exact Hr.
Qed.

Lemma merge_passes_inv (k : nat) : forall b K,
  0 < K -> net_inv K (2 ^ Z.of_nat k) b ->
  net_inv (K * 2 ^ Z.of_nat k) 1 (merge_passes andb orb k b).
Proof.
  induction k as [|k IH]; intros b K HK Hinv.
  - simpl. rewrite Z.mul_1_r. exact Hinv.
  - cbn [merge_passes].
    assert (Hpow : 2 ^ Z.of_nat (S k) = 2 * 2 ^ Z.of_nat k).
    { rewrite Nat2Z.inj_succ, Z.pow_succ_r by lia. reflexivity. }
    rewrite Hpow in *.
    replace (K * (2 * 2 ^ Z.of_nat k)) with (2 * K * 2 ^ Z.of_nat k) by lia.
    apply IH; [lia|].
    apply half_cleaner_pass_inv; [|exact Hinv].
    apply Z.pow_pos_nonneg; lia.
Qed.

Lemma block_passes_sorted (k : nat) b :
  sorted_blocks (2 ^ Z.of_nat k) b ->
  sorted_blocks (2 ^ Z.of_nat (S k)) (block_passes andb orb k b).
Proof.
  intros Hsorted.
  assert (Hpos : 0 < 2 ^ Z.of_nat k) by (apply Z.pow_pos_nonneg; lia).
  assert (Hpow : 2 ^ Z.of_nat (S k) = 2 * 2 ^ Z.of_nat k).
  { rewrite Nat2Z.inj_succ, Z.pow_succ_r by lia. reflexivity. }
  rewrite Hpow. apply unit_blocks_sorted; [lia|].
  unfold block_passes. apply merge_passes_inv; [lia|].
  apply reversing_pass_inv; assumption.
Qed.

(** The network sorts every block of [2 ^ k] zeros and ones. *)
Lemma sort_passes_sorted (k : nat) b :
  sorted_blocks (2 ^ Z.of_nat k) (sort_passes andb orb k b).
Proof.
  induction k as [|k IH].
  - cbn [sort_passes]. change (2 ^ Z.of_nat 0) with 1.
    intros q Hq. exists (if b (q * 1) then 0 else 1).
    intros r Hr. replace r with 0 by lia. rewrite Z.add_0_r.
    destruct (b (q * 1)); reflexivity.
  - cbn [sort_passes]. apply block_passes_sorted. exact IH.
Qed.

End ZeroOneNetwork.

Section NetworkShift.

Context {X : Type}.
Variable mn mx : X -> X -> X.

Lemma pow2_pos (k : nat) : 0 < 2 ^ Z.of_nat k.
Proof. apply Z.pow_pos_nonneg; lia. Qed.

Lemma pow2_succ (k : nat) : 2 ^ Z.of_nat (S k) = 2 * 2 ^ Z.of_nat k.
Proof. rewrite Nat2Z.inj_succ, Z.pow_succ_r by lia. reflexivity. Qed.

(** A pass works unit by unit: on a window of whole units it only depends
    on the window, wherever the window is. *)
Lemma stage_fun_shift (reversing : bool) (h c P : Z) (a a' : Z -> X) :
  0 < h -> (2 * h | c) -> (2 * h | P) ->
  (forall o, 0 <= o < P -> a' o = a (c + o)) ->
  forall o, 0 <= o < P ->
    stage_fun mn mx reversing h a' o = stage_fun mn mx reversing h a (c + o).
Proof.
  intros Hh [M HM] [N HN] Hwin o Ho.
  pose proof (Z.div_mod o (2 * h) ltac:(lia)) as Hdm.
  pose proof (Z.mod_pos_bound o (2 * h) ltac:(lia)) as Hs.
  rewrite (Z.mul_comm (2 * h)) in Hdm.
  set (q := o / (2 * h)) in *. set (s := o mod (2 * h)) in *.
  assert (Hq : 0 <= q < N) by nia.
  replace (c + o) with ((M + q) * (2 * h) + s) by lia.
  rewrite Hdm.
  destruct (Z.lt_ge_cases s h) as [Hlt|Hge].
  - rewrite !stage_fun_lower by lia.
    pose proof (unit_partner_range reversing h s ltac:(lia)) as Hp.
    rewrite (Hwin (q * (2 * h) + s)) by nia.
    rewrite (Hwin (q * (2 * h) + unit_partner reversing h s)) by nia.
    f_equal; f_equal; lia.
  - rewrite !stage_fun_upper by lia.
    pose proof (unit_source_range reversing h s ltac:(lia)) as Hp.
    rewrite (Hwin (q * (2 * h) + s)) by nia.
    rewrite (Hwin (q * (2 * h) + unit_source reversing h s)) by nia.
    f_equal; f_equal; lia.
Qed.

Lemma merge_passes_shift (k : nat) : forall (c P : Z) (a a' : Z -> X),
  (2 ^ Z.of_nat k | c) -> (2 ^ Z.of_nat k | P) ->
  (forall o, 0 <= o < P -> a' o = a (c + o)) ->
  forall o, 0 <= o < P ->
    merge_passes mn mx k a' o = merge_passes mn mx k a (c + o).
Proof.
  induction k as [|k IH]; intros c P a a' Hc HP Hwin o Ho.
  - simpl. apply Hwin. exact Ho.
  - cbn [merge_passes]. rewrite pow2_succ in Hc, HP.
    apply (IH c P);
      [| |intros o' Ho';
          apply (stage_fun_shift false _ c P);
          [apply pow2_pos|exact Hc|exact HP|exact Hwin|exact Ho']|exact Ho].
    + destruct Hc as [M ->]. exists (M * 2). lia.
    + destruct HP as [M ->]. exists (M * 2). lia.
Qed.

Lemma block_passes_shift (k : nat) (c P : Z) (a a' : Z -> X) :
  (2 ^ Z.of_nat (S k) | c) -> (2 ^ Z.of_nat (S k) | P) ->
  (forall o, 0 <= o < P -> a' o = a (c + o)) ->
  forall o, 0 <= o < P ->
    block_passes mn mx k a' o = block_passes mn mx k a (c + o).
Proof.
  intros Hc HP Hwin o Ho. unfold block_passes. rewrite pow2_succ in Hc, HP.
  apply (merge_passes_shift k c P);
    [| |intros o' Ho';
        apply (stage_fun_shift true _ c P);
        [apply pow2_pos|exact Hc|exact HP|exact Hwin|exact Ho']|exact Ho].
  - destruct Hc as [M ->]. exists (M * 2). lia.
  - destruct HP as [M ->]. exists (M * 2). lia.
Qed.

Lemma sort_passes_shift (k : nat) : forall (c P : Z) (a a' : Z -> X),
  (2 ^ Z.of_nat k | c) -> (2 ^ Z.of_nat k | P) ->
  (forall o, 0 <= o < P -> a' o = a (c + o)) ->
  forall o, 0 <= o < P ->
    sort_passes mn mx k a' o = sort_passes mn mx k a (c + o).
Proof.
  induction k as [|k IH]; intros c P a a' Hc HP Hwin o Ho.
  - simpl. apply Hwin. exact Ho.
  - cbn [sort_passes].
    apply (block_passes_shift k c P); [exact Hc|exact HP| |exact Ho].
    intros o' Ho'. apply (IH c P); [| |exact Hwin|exact Ho'].
    + rewrite pow2_succ in Hc. destruct Hc as [M ->]. exists (M * 2). lia.
    + rewrite pow2_succ in HP. destruct HP as [M ->]. exists (M * 2). lia.
Qed.

(** In particular the passes respect equality on the indices from zero. *)
Lemma stage_fun_ext (reversing : bool) (h : Z) (a a' : Z -> X) :
  0 < h ->
  (forall i, 0 <= i -> a' i = a i) ->
  forall i, 0 <= i ->
    stage_fun mn mx reversing h a' i = stage_fun mn mx reversing h a i.
Proof.
  intros Hh Hext i Hi.
  assert (HP : 0 <= i < (i / (2 * h) + 1) * (2 * h)).
  { pose proof (Z.div_mod i (2 * h) ltac:(lia)).
    pose proof (Z.mod_pos_bound i (2 * h) ltac:(lia)). lia. }
  rewrite (stage_fun_shift reversing h 0 ((i / (2 * h) + 1) * (2 * h)) a a' Hh)
    with (o := i);
    [reflexivity|exists 0; lia|eexists; reflexivity| |exact HP].
  intros o Ho. apply Hext. lia.
Qed.

Lemma merge_passes_ext (k : nat) : forall (a a' : Z -> X),
  (forall i, 0 <= i -> a' i = a i) ->
  forall i, 0 <= i -> merge_passes mn mx k a' i = merge_passes mn mx k a i.
Proof.
  induction k as [|k IH]; intros a a' Hext i Hi.
  - simpl. apply Hext. exact Hi.
  - cbn [merge_passes]. apply IH; [|exact Hi].
    apply stage_fun_ext; auto using pow2_pos.
Qed.

Lemma block_passes_ext (k : nat) (a a' : Z -> X) :
  (forall i, 0 <= i -> a' i = a i) ->
  forall i, 0 <= i -> block_passes mn mx k a' i = block_passes mn mx k a i.
Proof.
  intros Hext. unfold block_passes. apply merge_passes_ext.
  apply stage_fun_ext; auto using pow2_pos.
Qed.

Lemma sort_passes_ext (k : nat) : forall (a a' : Z -> X),
  (forall i, 0 <= i -> a' i = a i) ->
  forall i, 0 <= i -> sort_passes mn mx k a' i = sort_passes mn mx k a i.
Proof.
  induction k as [|k IH]; intros a a' Hext.
  - simpl. exact Hext.
  - cbn [sort_passes]. apply block_passes_ext. apply IH. exact Hext.
Qed.

End NetworkShift.

Section NetworkMap.

Context {X Y : Type}.
Variable mn mx : X -> X -> X.
Variable mn' mx' : Y -> Y -> Y.
Variable phi : X -> Y.
Hypothesis phi_mn : forall x y, phi (mn x y) = mn' (phi x) (phi y).
Hypothesis phi_mx : forall x y, phi (mx x y) = mx' (phi x) (phi y).

Lemma stage_fun_map (reversing : bool) (h : Z) (a : Z -> X) (i : Z) :
  phi (stage_fun mn mx reversing h a i)
  = stage_fun mn' mx' reversing h (fun j => phi (a j)) i.
Proof.
  unfold stage_fun. cbv zeta.
  destruct (i mod (2 * h) <? h); [apply phi_mn|apply phi_mx].
Qed.

Lemma merge_passes_map (k : nat) : forall (a : Z -> X) (i : Z),
  0 <= i ->
  phi (merge_passes mn mx k a i)
  = merge_passes mn' mx' k (fun j => phi (a j)) i.
Proof.
  induction k as [|k IH]; intros a i Hi.
  - reflexivity.
  - cbn [merge_passes]. rewrite IH by exact Hi.
    apply merge_passes_ext; [|exact Hi].
    intros j Hj. apply stage_fun_map.
Qed.

Lemma sort_passes_map (k : nat) : forall (a : Z -> X) (i : Z),
  0 <= i ->
  phi (sort_passes mn mx k a i)
  = sort_passes mn' mx' k (fun j => phi (a j)) i.
Proof.
  induction k as [|k IH]; intros a i Hi.
  - reflexivity.
  - cbn [sort_passes]. unfold block_passes.
    rewrite merge_passes_map by exact Hi.
    apply merge_passes_ext; [|exact Hi].
    intros j Hj. rewrite stage_fun_map.
    apply stage_fun_ext; [apply pow2_pos| |exact Hj].
    intros j' Hj'. apply IH. exact Hj'.
Qed.

End NetworkMap.

Section ZeroOnePrinciple.

Context {A : Type}.
Variable gt : A -> A -> bool.
Hypothesis gt_asym : forall x y, gt x y = true -> gt y x = false.
Hypothesis gt_trans :
  forall x y z, gt x y = false -> gt y z = false -> gt x z = false.

Lemma test_cells_omin (f : A -> bool) (x y : option A) :
  (forall u v, gt u v = false -> f u = true -> f v = true) ->
  test_cells f (omin gt x y) = test_cells f x && test_cells f y.
Proof.
  intros Hmono. destruct x as [u|], y as [v|]; simpl;
    rewrite ?andb_true_r; try reflexivity.
  destruct (gt u v) eqn:Hgt.
  - apply gt_asym in Hgt. pose proof (Hmono v u Hgt) as H.
    destruct (f u), (f v); simpl; try reflexivity;
      specialize (H eq_refl); congruence.
  - pose proof (Hmono u v Hgt) as H.
    destruct (f u), (f v); simpl; try reflexivity;
      specialize (H eq_refl); congruence.
Qed.

Lemma test_cells_omax (f : A -> bool) (x y : option A) :
  (forall u v, gt u v = false -> f u = true -> f v = true) ->
  test_cells f (omax gt x y) = test_cells f x || test_cells f y.
Proof.
  intros Hmono. destruct x as [u|], y as [v|]; simpl;
    rewrite ?orb_true_r; try reflexivity.
  destruct (gt u v) eqn:Hgt.
  - apply gt_asym in Hgt. pose proof (Hmono v u Hgt) as H.
    destruct (f u), (f v); simpl; try reflexivity;
      specialize (H eq_refl); congruence.
  - pose proof (Hmono u v Hgt) as H.
    destruct (f u), (f v); simpl; try reflexivity;
      specialize (H eq_refl); congruence.
Qed.

(** The zero-one principle, for the network of the kernels: it sorts every
    block of [2 ^ k] cells by [gt]. *)
Lemma sort_passes_ordered (k : nat) (a : Z -> option A) (i j : Z) (x y : A) :
  0 <= i <= j -> j < 2 ^ Z.of_nat k ->
  sort_passes (omin gt) (omax gt) k a i = Some x ->
  sort_passes (omin gt) (omax gt) k a j = Some y ->
  gt x y = false.
Proof.
  intros Hij Hj Hx Hy.
  destruct (gt x y) eqn:Hgt; [exfalso|reflexivity].
  set (f := fun z => gt z y).
  assert (Hmono : forall u v, gt u v = false -> f u = true -> f v = true).
  { unfold f. intros u v Huv Hu.
    destruct (gt v y) eqn:Hv; [reflexivity|].
    rewrite (gt_trans u v y Huv Hv) in Hu. discriminate. }
  pose proof (sort_passes_map (omin gt) (omax gt) andb orb (test_cells f)
                (fun x y => test_cells_omin f x y Hmono)
                (fun x y => test_cells_omax f x y Hmono) k a) as Hmap.
  destruct (sort_passes_sorted k (fun j => test_cells f (a j)) 0) as [t Ht];
    [lia|].
  pose proof (Ht i ltac:(lia)) as Hti. pose proof (Ht j ltac:(lia)) as Htj.
  rewrite Z.mul_0_l, Z.add_0_l, <- Hmap in Hti, Htj by lia.
  rewrite Hx in Hti. rewrite Hy in Htj. simpl in Hti, Htj. unfold f in Hti, Htj.
  rewrite Hgt in Hti.
  assert (Hyy : gt y y = false).
  { destruct (gt y y) eqn:E; [|reflexivity]. pose proof (gt_asym y y E). congruence. }
  rewrite Hyy in Htj.
  symmetry in Hti, Htj. apply Z.leb_le in Hti. apply Z.leb_gt in Htj. lia.
Qed.

End ZeroOnePrinciple.

Section KernelPasses.

Context {A : Type}.
Variable gt : A -> A -> bool.

Lemma represents_ext (n : Z) (l : list A) (a a' : Z -> option A) :
  represents n l a -> (forall i, 0 <= i -> a i = a' i) -> represents n l a'.
Proof.
  intros [Hlen Hrep] Hext. split; [exact Hlen|].
  intros i Hi. rewrite Hrep by exact Hi. apply Hext. exact Hi.
Qed.

Lemma tracks_ext (n : Z) (l0 l : list A) (a a' : Z -> option A) :
  tracks n l0 l a -> (forall i, 0 <= i -> a i = a' i) -> tracks n l0 l a'.
Proof.
  intros [Hrep Hsame] Hext. split; [|exact Hsame].
  apply (represents_ext n l a); assumption.
Qed.

Lemma tracks_start (n : Z) (l : list A) :
  n <= Z.of_nat (length l) -> tracks n l l (cells n l).
Proof.
  intros Hlen. split; [split; [exact Hlen|reflexivity]|apply same_rows_refl].
Qed.

Lemma bitonic_stage_tracks (T n : Z) (reversing : bool) (h : Z)
    (l0 l : list A) (a : Z -> option A) :
  unit_size_ok reversing h ->
  stage_fits T h ->
  n <= T / h * (2 * h) ->
  tracks n l0 l a ->
  tracks n l0 (bitonic_stage gt T n reversing (2 * h) l)
         (stage_fun (omin gt) (omax gt) reversing h a).
Proof.
  intros Hok Hfits Hcover [[Hlen Hrep] Hsame].
  destruct (bitonic_stage_cells gt T n reversing h l Hok Hfits Hlen Hcover)
    as [Hs Hcells].
  split; [split|].
  - rewrite (same_rows_length _ _ _ Hs). exact Hlen.
  - intros i Hi. rewrite Hcells by exact Hi.
    apply stage_fun_ext; [apply Hok|exact Hrep|exact Hi].
  - apply (same_rows_trans n _ l); assumption.
Qed.

Lemma pow2_unit_ok (reversing : bool) (k : nat) :
  unit_size_ok reversing (2 ^ Z.of_nat k).
Proof.
  split; [apply pow2_pos|]. intros _. exists (Z.of_nat (S k)).
  split; [lia|]. symmetry. apply pow2_succ.
Qed.

Lemma pow2_split (m i : nat) :
  (i <= m)%nat -> 2 ^ Z.of_nat m = 2 ^ Z.of_nat (m - i) * 2 ^ Z.of_nat i.
Proof. intros Hle. rewrite <- Z.pow_add_r by lia. f_equal. lia. Qed.

Lemma pow2_cover (m i : nat) :
  (i <= m)%nat ->
  2 ^ Z.of_nat m / 2 ^ Z.of_nat i * (2 * 2 ^ Z.of_nat i) = 2 ^ Z.of_nat (S m).
Proof.
  intros Hle. rewrite pow2_succ, (pow2_split m i Hle).
  rewrite Z.div_mul by (pose proof (pow2_pos i); lia). lia.
Qed.

Lemma pow2_fuel (k : nat) : (k <= Z.to_nat (2 ^ Z.of_nat k))%nat.
Proof. pose proof (Z.pow_gt_lin_r 2 (Z.of_nat k) ltac:(lia) ltac:(lia)). lia. Qed.

Lemma pow2_mono (i j : nat) : (i < j)%nat -> 2 ^ Z.of_nat i < 2 ^ Z.of_nat j.
Proof. intros Hlt. apply Z.pow_lt_mono_r; lia. Qed.

Lemma pow2_mono_le (i j : nat) : (i <= j)%nat -> 2 ^ Z.of_nat i <= 2 ^ Z.of_nat j.
Proof. intros Hle. apply Z.pow_le_mono_r; lia. Qed.

Lemma pow2_int (k : nat) : (k <= 31)%nat -> 2 ^ Z.of_nat k <= 2 ^ 31.
Proof. intros Hk. apply (pow2_mono_le k 31 Hk). Qed.

Lemma pow2_int_lt (k : nat) : (k < 31)%nat -> 2 ^ Z.of_nat k < 2 ^ 31.
Proof. intros Hk. apply (pow2_mono k 31 Hk). Qed.

(** The work-items of a work-group of [2 ^ m] and the unit sizes up to the
    partition size. *)
Lemma stage_fits_pow2 (m i : nat) :
  (i <= m)%nat -> (m < 31)%nat ->
  stage_fits (2 ^ Z.of_nat m) (2 ^ Z.of_nat i).
Proof.
  intros Hle Hm t Ht.
  pose proof (pow2_pos i) as Hpos. pose proof (pow2_pos (m - i)) as Hpos'.
  pose proof (pow2_int (S m) ltac:(lia)) as Hint.
  rewrite pow2_succ, (pow2_split m i Hle) in Hint.
  rewrite (pow2_split m i Hle) in Ht.
  assert (t / 2 ^ Z.of_nat i < 2 ^ Z.of_nat (m - i)).
  { apply Z.div_lt_upper_bound; lia. }
  nia.
Qed.

Lemma partition_size_pow2 (m : nat) :
  (m < 30)%nat -> partition_size (2 ^ Z.of_nat m) = 2 ^ Z.of_nat (S m).
Proof.
  intros Hm. unfold partition_size.
  replace (2 ^ Z.of_nat m * 2) with (2 ^ Z.of_nat (S m))
    by (rewrite pow2_succ; lia).
  apply wrap_signed_fit.
  pose proof (pow2_pos (S m)). pose proof (pow2_int_lt (S m) ltac:(lia)). lia.
Qed.

Lemma unit_sizes_one (fuel : nat) : unit_sizes fuel 1 = [].
Proof. destruct fuel; reflexivity. Qed.

Lemma unit_sizes_succ (fuel k : nat) :
  unit_sizes (S fuel) (2 ^ Z.of_nat (S k))
  = 2 ^ Z.of_nat (S k) :: unit_sizes fuel (2 ^ Z.of_nat k).
Proof.
  cbn [unit_sizes]. pose proof (pow2_pos k) as Hpos.
  rewrite pow2_succ.
  replace (2 <=? 2 * 2 ^ Z.of_nat k) with true by (symmetry; apply Z.leb_le; lia).
  rewrite half_unit. reflexivity.
Qed.

(** The passes of the unit sizes [2 ^ k], ..., [2] in a work-group of
    [2 ^ m] work-items, none of them reversing. *)
Lemma unit_passes_tracks (rv : Z -> bool) (n : Z) (m : nat) (k : nat)
    (l0 : list A) :
  (m < 30)%nat ->
  n <= 2 ^ Z.of_nat (S m) ->
  (k <= S m)%nat ->
  (forall i, (i < k)%nat -> rv (2 ^ Z.of_nat (S i)) = false) ->
  forall (fuel : nat) (l : list A) (a : Z -> option A),
    (k <= fuel)%nat ->
    tracks n l0 l a ->
    tracks n l0
      (fold_left (fun l unitSize =>
                    bitonic_stage gt (2 ^ Z.of_nat m) n (rv unitSize) unitSize l)
                 (unit_sizes fuel (2 ^ Z.of_nat k)) l)
      (merge_passes (omin gt) (omax gt) k a).
Proof.
  intros Hm Hn. induction k as [|k IH]; intros Hk Hrv fuel l a Hfuel Hrep.
  - change (2 ^ Z.of_nat 0) with 1. rewrite unit_sizes_one. exact Hrep.
  - destruct fuel as [|fuel]; [lia|].
    rewrite unit_sizes_succ. cbn [fold_left merge_passes].
    apply IH; [lia|intros i Hi; apply Hrv; lia|lia|].
    rewrite (Hrv k) by lia. rewrite pow2_succ.
    apply bitonic_stage_tracks;
      [apply pow2_unit_ok|apply stage_fits_pow2; lia| |exact Hrep].
    rewrite pow2_cover by lia. exact Hn.
Qed.

(** The passes of the block size [2 ^ (j + 1)]. *)
Lemma block_passes_tracks (n : Z) (m j : nat) (l0 l : list A)
    (a : Z -> option A) :
  (m < 30)%nat ->
  n <= 2 ^ Z.of_nat (S m) ->
  (j <= m)%nat ->
  tracks n l0 l a ->
  tracks n l0
    (fold_left (fun l unitSize =>
                  bitonic_stage gt (2 ^ Z.of_nat m) n
                    (unitSize =? 2 ^ Z.of_nat (S j)) unitSize l)
               (unit_sizes (Z.to_nat (2 ^ Z.of_nat (S j))) (2 ^ Z.of_nat (S j)))
               l)
    (block_passes (omin gt) (omax gt) j a).
Proof.
  intros Hm Hn Hj Hrep.
  pose proof (pow2_fuel (S j)) as Hfuel.
  destruct (Z.to_nat (2 ^ Z.of_nat (S j))) as [|fuel]; [lia|].
  rewrite unit_sizes_succ. cbn [fold_left]. unfold block_passes.
  apply (unit_passes_tracks (fun U => U =? 2 ^ Z.of_nat (S j)) n m j);
    [exact Hm|exact Hn|lia| |lia|].
  - intros i Hi. apply Z.eqb_neq.
    pose proof (pow2_mono (S i) (S j) ltac:(lia)). lia.
  - rewrite Z.eqb_refl. rewrite pow2_succ.
    apply bitonic_stage_tracks;
      [apply pow2_unit_ok|apply stage_fits_pow2; lia| |exact Hrep].
    rewrite pow2_cover by lia. exact Hn.
Qed.

Lemma block_sizes_done (fuel : nat) (blockSize bound : Z) :
  bound < blockSize -> block_sizes fuel blockSize bound = [].
Proof.
  intros Hlt. destruct fuel; [reflexivity|]. cbn [block_sizes].
  replace (blockSize <=? bound) with false by (symmetry; apply Z.leb_gt; lia).
  reflexivity.
Qed.

Lemma block_sizes_next (fuel j : nat) (bound : Z) :
  (j < 29)%nat ->
  2 ^ Z.of_nat (S j) <= bound ->
  block_sizes (S fuel) (2 ^ Z.of_nat (S j)) bound
  = 2 ^ Z.of_nat (S j) :: block_sizes fuel (2 ^ Z.of_nat (S (S j))) bound.
Proof.
  intros Hj Hle. cbn [block_sizes].
  replace (2 ^ Z.of_nat (S j) <=? bound) with true
    by (symmetry; apply Z.leb_le; lia).
  replace (2 ^ Z.of_nat (S j) * 2) with (2 ^ Z.of_nat (S (S j)))
    by (rewrite (pow2_succ (S j)); lia).
  rewrite wrap_signed_fit; [reflexivity|].
  pose proof (pow2_pos (S (S j))).
  pose proof (pow2_int_lt (S (S j)) ltac:(lia)). lia.
Qed.

Lemma local_blocks_tracks (n : Z) (m : nat) (l0 : list A) (d : nat) :
  (m < 29)%nat ->
  n <= 2 ^ Z.of_nat (S m) ->
  forall (j fuel : nat) (l : list A) (a : Z -> option A),
    (j + d = S m)%nat -> (d <= fuel)%nat ->
    tracks n l0 l a ->
    tracks n l0
      (fold_left
         (fun localIdx blockSize =>
            fold_left
              (fun localIdx unitSize =>
                 bitonic_stage gt (2 ^ Z.of_nat m) n (unitSize =? blockSize)
                               unitSize localIdx)
              (unit_sizes (Z.to_nat blockSize) blockSize) localIdx)
         (block_sizes fuel (2 ^ Z.of_nat (S j)) (2 ^ Z.of_nat (S m))) l)
      (fold_right (fun i a => block_passes (omin gt) (omax gt) i a) a
                  (rev (seq j d))).
Proof.
  intros Hm Hn. induction d as [|d IH]; intros j fuel l a Hjd Hfuel Hrep.
  - rewrite block_sizes_done; [exact Hrep|].
    apply pow2_mono. lia.
  - destruct fuel as [|fuel]; [lia|].
    rewrite block_sizes_next by (try apply pow2_mono_le; lia).
    cbn [fold_left].
    cbn [seq]. simpl rev. rewrite fold_right_app. cbn [fold_right].
    apply IH; [lia|lia|].
    apply block_passes_tracks; [lia|exact Hn|lia|exact Hrep].
Qed.

Lemma sort_passes_fold {X : Type} (mn mx : X -> X -> X) (k : nat) (a : Z -> X) :
  fold_right (fun i a => block_passes mn mx i a) a (rev (seq 0 k))
  = sort_passes mn mx k a.
Proof.
  induction k as [|k IH]; [reflexivity|].
  rewrite seq_S, rev_app_distr. simpl. rewrite IH. reflexivity.
Qed.

(** The loops of gpupreagg_bitonic_local and of gpupreagg_bitonic_merge on
    the local array of a work-group of [2 ^ m] work-items. *)
Lemma bitonic_local_sort_tracks (n : Z) (m : nat) (l0 l : list A)
    (a : Z -> option A) :
  (m < 29)%nat ->
  n <= 2 ^ Z.of_nat (S m) ->
  tracks n l0 l a ->
  tracks n l0 (bitonic_local_sort gt (2 ^ Z.of_nat m) n l)
         (sort_passes (omin gt) (omax gt) (S m) a).
Proof.
  intros Hm Hn Hrep. unfold bitonic_local_sort. cbv zeta.
  rewrite partition_size_pow2 by lia.
  rewrite <- sort_passes_fold.
  apply (local_blocks_tracks n m l0 (S m) Hm Hn 0%nat);
    [reflexivity|apply pow2_fuel|exact Hrep].
Qed.

Lemma bitonic_merge_sort_tracks (n : Z) (m : nat) (l0 l : list A)
    (a : Z -> option A) :
  (m < 29)%nat ->
  n <= 2 ^ Z.of_nat (S m) ->
  tracks n l0 l a ->
  tracks n l0 (bitonic_merge_sort gt (2 ^ Z.of_nat m) n l)
         (merge_passes (omin gt) (omax gt) (S m) a).
Proof.
  intros Hm Hn Hrep. unfold bitonic_merge_sort. cbv zeta.
  rewrite partition_size_pow2 by lia.
  apply (unit_passes_tracks (fun _ => false) n m (S m));
    [lia|exact Hn|lia|reflexivity|apply pow2_fuel|exact Hrep].
Qed.

End KernelPasses.

Section KernelGroups.

Context {A : Type}.
Variable gt : A -> A -> bool.

Lemma fold_left_ext_in {B C : Type} (f g : B -> C -> B) (xs : list C) :
  (forall x, x ∈ xs -> forall b, f b x = g b x) ->
  forall b, fold_left f xs b = fold_left g xs b.
Proof.
  induction xs as [|x xs IH]; intros Hfg b; [reflexivity|].
  simpl. rewrite Hfg by left. apply IH.
  intros y Hy. apply Hfg. right. exact Hy.
Qed.

(** Entries that are missing stay missing. *)
Lemma stage_fun_padded (reversing : bool) (h n : Z) (a : Z -> option A) :
  0 < h ->
  (forall i, 0 <= i -> n <= i -> a i = None) ->
  forall i, 0 <= i -> n <= i ->
    stage_fun (omin gt) (omax gt) reversing h a i = None.
Proof.
  intros Hh Hpad i Hi Hn. unfold stage_fun. cbv zeta.
  pose proof (Z.mod_pos_bound i (2 * h) ltac:(lia)) as Hs.
  pose proof (Z.mod_le i (2 * h) Hi ltac:(lia)) as Hle.
  rewrite (Hpad i Hi Hn).
  destruct (Z.ltb_spec (i mod (2 * h)) h) as [Hlt|Hge].
  - pose proof (unit_partner_range reversing h (i mod (2 * h)) ltac:(lia)).
    rewrite Hpad by lia. reflexivity.
  - destruct (a _); reflexivity.
Qed.

Lemma merge_passes_padded (k : nat) (n : Z) : forall a : Z -> option A,
  (forall i, 0 <= i -> n <= i -> a i = None) ->
  forall i, 0 <= i -> n <= i ->
    merge_passes (omin gt) (omax gt) k a i = None.
Proof.
  induction k as [|k IH]; intros a Hpad; [exact Hpad|].
  cbn [merge_passes]. apply IH. apply stage_fun_padded; [apply pow2_pos|exact Hpad].
Qed.

Lemma sort_passes_padded (k : nat) (n : Z) : forall a : Z -> option A,
  (forall i, 0 <= i -> n <= i -> a i = None) ->
  forall i, 0 <= i -> n <= i ->
    sort_passes (omin gt) (omax gt) k a i = None.
Proof.
  induction k as [|k IH]; intros a Hpad; [exact Hpad|].
  cbn [sort_passes]. unfold block_passes. apply merge_passes_padded.
  apply stage_fun_padded; [apply pow2_pos|]. apply IH. exact Hpad.
Qed.

(** [prtPos] and [localEntry] of a partition that lies below [2 ^ 31]. *)
Lemma partition_pure (m : nat) (g nrows : Z) :
  (m < 30)%nat -> 0 <= g -> 0 <= nrows < 2 ^ 31 ->
  (g + 1) * 2 ^ Z.of_nat (S m) < 2 ^ 31 ->
  partition_pos (2 ^ Z.of_nat m) g = g * 2 ^ Z.of_nat (S m) /\
  local_entry (2 ^ Z.of_nat m) g nrows
  = Z.min (2 ^ Z.of_nat (S m)) (nrows - g * 2 ^ Z.of_nat (S m)).
Proof.
  intros Hm Hg Hrows Hfit. pose proof (pow2_pos (S m)) as Hpos.
  assert (Hpp : partition_pos (2 ^ Z.of_nat m) g = g * 2 ^ Z.of_nat (S m)).
  { unfold partition_pos. rewrite partition_size_pow2 by exact Hm.
    apply wrap_signed_fit. nia. }
  split; [exact Hpp|].
  unfold local_entry. cbv zeta. rewrite Hpp, partition_size_pow2 by exact Hm.
  rewrite !wrap_signed_fit by nia.
  destruct (Z.ltb_spec (g * 2 ^ Z.of_nat (S m) + 2 ^ Z.of_nat (S m)) nrows); lia.
Qed.

(** The work-groups one after the other: each of them replaces its own
    partition of [rindex], [E g] cells from the position [g * P] on. *)
Lemma group_fold_represents (L : list A -> Z -> list A) (E : Z -> Z)
    (P nrows : Z) (r0 : list A) (tgt : Z -> option A) (G : nat) :
  0 < P ->
  nrows <= Z.of_nat (length r0) ->
  (forall g r, 0 <= g < Z.of_nat G -> length r = length r0 ->
     (forall i, g * P <= i -> r !! Z.to_nat i = r0 !! Z.to_nat i) ->
     E g = Z.min P (nrows - g * P) /\
     Z.of_nat (length (L r g)) = Z.max 0 (E g) /\
     forall o, 0 <= o < P -> cells (E g) (L r g) o = tgt (g * P + o)) ->
  let res := fold_left (fun r g => write_back (g * P) (L r g) r)
                       (seqZ 0 (Z.of_nat G)) r0 in
  length res = length r0 /\
  (forall i, 0 <= i < Z.of_nat G * P -> cells nrows res i = tgt i) /\
  (forall i, Z.of_nat G * P <= i -> res !! Z.to_nat i = r0 !! Z.to_nat i).
Proof.
  intros HP Hlen0. induction G as [|G IH]; intros Hgroup; cbv zeta.
  - simpl. split; [reflexivity|]. split; [intros i Hi; lia|reflexivity].
  - rewrite seqZ_S, fold_left_app. cbn [fold_left].
    cbv zeta in IH. destruct IH as (Hlen & Hdone & Hrest).
    { intros g r Hg. apply Hgroup. lia. }
    set (res := fold_left _ (seqZ 0 (Z.of_nat G)) r0) in *.
    rewrite Z.add_0_l.
    destruct (Hgroup (Z.of_nat G) res ltac:(lia) Hlen Hrest) as (HE & HlenL & HL).
    set (n_loc := E (Z.of_nat G)) in *.
    assert (HGP : 0 <= Z.of_nat G * P) by nia.
    unfold write_back. split; [|split].
    + rewrite length_inserts. exact Hlen.
    + intros i Hi.
      destruct (Z.lt_ge_cases i (Z.of_nat G * P)) as [Hlow|Hhigh].
      * rewrite <- (Hdone i) by lia. apply cells_agree.
        apply list_lookup_inserts_lt. lia.
      * set (o := i - Z.of_nat G * P).
        assert (Ho : 0 <= o < P) by (unfold o; lia).
        replace i with (Z.of_nat G * P + o) at 2 by (unfold o; lia).
        rewrite <- (HL o Ho).
        destruct (Z.lt_ge_cases o n_loc) as [Hin|Hout].
        -- rewrite !cells_inside by (unfold o in *; lia).
           rewrite list_lookup_inserts by lia.
           f_equal. unfold o. lia.
        -- rewrite (cells_outside n_loc) by lia.
           apply cells_outside. unfold o in *. lia.
    + intros i Hi. rewrite list_lookup_inserts_ge by lia.
      apply Hrest. lia.
Qed.

Lemma list_inserts_middle (p : nat) (l1 r : list A) :
  (p + length l1 <= length r)%nat ->
  list_inserts p l1 r = take p r ++ l1 ++ drop (p + length l1) r.
Proof.
  intros Hlen.
  rewrite <- (take_drop p r) at 1.
  rewrite <- (take_drop (length l1) (drop p r)) at 1.
  replace p with (length (take p r) + 0)%nat at 1
    by (rewrite length_take; lia).
  rewrite list_inserts_app_r.
  rewrite list_inserts_0_r by (rewrite length_take, length_drop; lia).
  rewrite drop_drop. reflexivity.
Qed.

(** The copy of a local array that holds the same entries as the partition
    it was loaded from. *)
Lemma write_back_same_rows (n prtPos localEntry : Z) (l1 rindex : list A) :
  0 <= prtPos -> prtPos + localEntry <= n -> n <= Z.of_nat (length rindex) ->
  l1 ≡ₚ take (Z.to_nat localEntry) (drop (Z.to_nat prtPos) rindex) ->
  same_rows n (write_back prtPos l1 rindex) rindex.
Proof.
  intros Hpos Hin Hn Hperm. unfold write_back.
  destruct (Z.le_gt_cases localEntry 0) as [Hempty|Hsome].
  - replace (Z.to_nat localEntry) with 0%nat in Hperm by lia.
    rewrite take_0 in Hperm. apply Permutation_nil_r in Hperm. subst l1.
    apply same_rows_refl.
  - assert (Hlen1 : length l1 = Z.to_nat localEntry).
    { rewrite (Permutation_length Hperm), length_take, length_drop. lia. }
    rewrite list_inserts_middle by lia. rewrite Hlen1. split.
    + rewrite Hperm.
      rewrite <- (take_drop (Z.to_nat prtPos) rindex) at 4.
      rewrite <- (take_drop (Z.to_nat localEntry)
                            (drop (Z.to_nat prtPos) rindex)) at 2.
      rewrite drop_drop. reflexivity.
    + rewrite <- (take_drop (Z.to_nat prtPos + Z.to_nat localEntry) rindex) at 3.
      rewrite !app_assoc.
      rewrite !drop_app_ge;
        rewrite ?length_app, ?length_take, ?Hlen1; try lia.
      f_equal. lia.
Qed.

Lemma fold_same_rows {B : Type} (n : Z) (f : list A -> B -> list A)
    (xs : list B) (len : nat) :
  (forall x, x ∈ xs -> forall l, length l = len -> same_rows n (f l x) l) ->
  forall l, length l = len -> same_rows n (fold_left f xs l) l.
Proof.
  induction xs as [|x xs IH]; intros Hf l Hl; [apply same_rows_refl|].
  simpl. assert (Hstep : same_rows n (f l x) l) by (apply Hf; [left|exact Hl]).
  apply (same_rows_trans n _ (f l x)); [|exact Hstep].
  apply IH.
  - intros y Hy. apply Hf. right. exact Hy.
  - rewrite (same_rows_length _ _ _ Hstep). exact Hl.
Qed.

End KernelGroups.

Section KernelsRepresent.

Context {A : Type}.
Variable pos : Z -> A.
Variable gt : A -> A -> bool.

(** gpupreagg_bitonic_local, with the positions and sizes it computes when
    the partitions lie below [2 ^ 31]. *)
Lemma gpupreagg_bitonic_local_pure (m : nat) (ngroups nrows : Z)
    (rindex : list A) :
  (m < 29)%nat -> 0 <= nrows < 2 ^ 31 ->
  ngroups * 2 ^ Z.of_nat (S m) < 2 ^ 31 ->
  gpupreagg_bitonic_local pos gt (2 ^ Z.of_nat m) ngroups nrows rindex
  = fold_left
      (fun r g =>
         write_back (g * 2 ^ Z.of_nat (S m))
           (bitonic_local_sort gt (2 ^ Z.of_nat m)
              (Z.min (2 ^ Z.of_nat (S m)) (nrows - g * 2 ^ Z.of_nat (S m)))
              (map (fun i => pos (g * 2 ^ Z.of_nat (S m) + i))
                 (seqZ 0 (Z.min (2 ^ Z.of_nat (S m))
                                (nrows - g * 2 ^ Z.of_nat (S m)))))) r)
      (seqZ 0 ngroups) rindex.
Proof.
  intros Hm Hrows Hfit. unfold gpupreagg_bitonic_local.
  apply fold_left_ext_in. intros g Hg r. apply elem_of_seqZ in Hg.
  pose proof (pow2_pos (S m)) as Hpos.
  destruct (partition_pure m g nrows) as [Hpp Hle]; [lia|lia|lia|nia|].
  unfold bitonic_local_group. cbv zeta. rewrite Hpp, Hle.
  do 2 f_equal. apply map_ext_in. intros i Hi.
  apply list_elem_of_In, elem_of_seqZ in Hi.
  rewrite wrap_signed_fit by nia. reflexivity.
Qed.

Lemma gpupreagg_bitonic_merge_pure (m : nat) (ngroups nrows : Z)
    (rindex : list A) :
  (m < 29)%nat -> 0 <= nrows < 2 ^ 31 ->
  ngroups * 2 ^ Z.of_nat (S m) < 2 ^ 31 ->
  gpupreagg_bitonic_merge gt (2 ^ Z.of_nat m) ngroups nrows rindex
  = fold_left
      (fun r g =>
         write_back (g * 2 ^ Z.of_nat (S m))
           (bitonic_merge_sort gt (2 ^ Z.of_nat m)
              (Z.min (2 ^ Z.of_nat (S m)) (nrows - g * 2 ^ Z.of_nat (S m)))
              (take (Z.to_nat (Z.min (2 ^ Z.of_nat (S m))
                                     (nrows - g * 2 ^ Z.of_nat (S m))))
                    (drop (Z.to_nat (g * 2 ^ Z.of_nat (S m))) r))) r)
      (seqZ 0 ngroups) rindex.
Proof.
  intros Hm Hrows Hfit. unfold gpupreagg_bitonic_merge.
  apply fold_left_ext_in. intros g Hg r. apply elem_of_seqZ in Hg.
  pose proof (pow2_pos (S m)) as Hpos.
  destruct (partition_pure m g nrows) as [Hpp Hle]; [lia|lia|lia|nia|].
  unfold bitonic_merge_group. cbv zeta. rewrite Hpp, Hle. reflexivity.
Qed.

(** The rows [0 .. nrows) are in [rindex] after the local sorts. *)
Lemma local_fold_rows (Lloc E : Z -> _) (P nrows : Z) (r0 : list A) (G : nat) :
  0 < P -> 0 <= nrows <= Z.of_nat (length r0) ->
  (forall g, 0 <= g < Z.of_nat G ->
     E g = Z.min P (nrows - g * P) /\
     Lloc g ≡ₚ map (fun i => pos (g * P + i)) (seqZ 0 (E g))) ->
  let res := fold_left (fun r g => write_back (g * P) (Lloc g) r)
                       (seqZ 0 (Z.of_nat G)) r0 in
  let c := Z.to_nat (Z.min (Z.of_nat G * P) nrows) in
  length res = length r0 /\
  take c res ≡ₚ map pos (seqZ 0 (Z.of_nat c)) /\
  drop c res = drop c r0.
Proof.
  intros HP Hrows. induction G as [|G IH]; intros Hgroup; cbv zeta.
  - change (Z.of_nat 0) with 0. rewrite Z.mul_0_l.
    replace (Z.to_nat (Z.min 0 nrows)) with 0%nat by lia.
    split; [reflexivity|]. split; reflexivity.
  - rewrite seqZ_S, fold_left_app. cbn [fold_left]. rewrite Z.add_0_l.
    cbv zeta in IH. destruct IH as (Hlen & Hperm & Hdrop).
    { intros g Hg. apply Hgroup. lia. }
    set (res := fold_left _ (seqZ 0 (Z.of_nat G)) r0) in *.
    destruct (Hgroup (Z.of_nat G) ltac:(lia)) as [HE Hl1].
    set (n_loc := E (Z.of_nat G)) in *.
    set (l1 := Lloc (Z.of_nat G)) in *.
    assert (Hlen1 : length l1 = Z.to_nat n_loc).
    { rewrite (Permutation_length Hl1), length_map, length_seqZ. reflexivity. }
    assert (HGP : 0 <= Z.of_nat G * P) by nia.
    unfold write_back.
    destruct (Z.le_gt_cases n_loc 0) as [Hempty|Hsome].
    + destruct l1; [|simpl in Hlen1; lia]. simpl.
      replace (Z.to_nat (Z.min (Z.of_nat (S G) * P) nrows))
        with (Z.to_nat (Z.min (Z.of_nat G * P) nrows)) by nia.
      split; [exact Hlen|]. split; assumption.
    + replace (Z.to_nat (Z.min (Z.of_nat G * P) nrows))
        with (Z.to_nat (Z.of_nat G * P)) in Hperm, Hdrop by lia.
      replace (Z.to_nat (Z.min (Z.of_nat (S G) * P) nrows))
        with (Z.to_nat (Z.of_nat G * P) + Z.to_nat n_loc)%nat by nia.
      set (p := Z.to_nat (Z.of_nat G * P)) in *.
      rewrite list_inserts_middle by lia. rewrite Hlen1.
      split; [|split].
      * rewrite !length_app, length_take, length_drop. lia.
      * rewrite app_assoc.
        rewrite take_app_length'
          by (rewrite length_app, length_take; lia).
        rewrite Hperm, Hl1.
        replace (Z.of_nat (p + Z.to_nat n_loc))
          with (Z.of_nat p + n_loc) by lia.
        rewrite seqZ_app, map_app by lia.
        apply Permutation_app_head.
        rewrite (Z.add_comm 0 (Z.of_nat p)).
        rewrite <- (fmap_add_seqZ (Z.of_nat p) 0 n_loc).
        change (Z.add (Z.of_nat p) <$> seqZ 0 n_loc)
          with (map (Z.add (Z.of_nat p)) (seqZ 0 n_loc)).
        rewrite map_map. unfold p. rewrite Z2Nat.id by lia. reflexivity.
      * rewrite app_assoc.
        rewrite drop_app_length'
          by (rewrite length_app, length_take; lia).
        rewrite <- !drop_drop. rewrite Hdrop. reflexivity.
Qed.

(** gpupreagg_bitonic_local sorts every partition of [2 * localSize] rows. *)
Lemma gpupreagg_bitonic_local_sorted (m : nat) (ngroups nrows : Z)
    (rindex : list A) :
  (m < 29)%nat ->
  0 <= nrows <= Z.of_nat (length rindex) ->
  nrows <= ngroups * 2 ^ Z.of_nat (S m) ->
  ngroups * 2 ^ Z.of_nat (S m) < 2 ^ 31 ->
  let res := gpupreagg_bitonic_local pos gt (2 ^ Z.of_nat m) ngroups nrows
               rindex in
  represents nrows res
    (sort_passes (omin gt) (omax gt) (S m) (initial_cells pos nrows)) /\
  take (Z.to_nat nrows) res ≡ₚ map pos (seqZ 0 nrows) /\
  drop (Z.to_nat nrows) res = drop (Z.to_nat nrows) rindex.
Proof.
  intros Hm Hrows Hgroups Hfit. cbv zeta.
  rewrite gpupreagg_bitonic_local_pure by lia.
  pose proof (pow2_pos (S m)) as Hpos.
  set (P := 2 ^ Z.of_nat (S m)) in *.
  set (E := fun g => Z.min P (nrows - g * P)).
  set (l0 := fun g => map (fun i => pos (g * P + i)) (seqZ 0 (E g))).
  set (Lloc := fun g => bitonic_local_sort gt (2 ^ Z.of_nat m) (E g) (l0 g)).
  set (tgt := sort_passes (omin gt) (omax gt) (S m) (initial_cells pos nrows)).
  change (fold_left _ (seqZ 0 ngroups) rindex)
    with (fold_left (fun r g => write_back (g * P) (Lloc g) r)
                    (seqZ 0 ngroups) rindex).
  assert (Hng : 0 <= ngroups) by nia.
  assert (Hpad : forall i, 0 <= i -> nrows <= i -> tgt i = None).
  { apply sort_passes_padded. intros i Hi Hn. unfold initial_cells.
    replace (i <? nrows) with false by (symmetry; apply Z.ltb_ge; lia).
    rewrite andb_false_r. reflexivity. }
  assert (Hloc : forall g, 0 <= g ->
            tracks (E g) (l0 g) (Lloc g)
                   (sort_passes (omin gt) (omax gt) (S m) (cells (E g) (l0 g)))).
  { intros g Hg. apply bitonic_local_sort_tracks; [exact Hm|unfold E; fold P; lia|].
    apply tracks_start. unfold l0. rewrite length_map, length_seqZ. lia. }
  destruct (group_fold_represents (fun _ g => Lloc g) E P nrows rindex tgt
              (Z.to_nat ngroups) Hpos ltac:(lia)) as (Hlen & Hdone & _).
  { intros g r Hg _ _. split; [reflexivity|].
    destruct (Hloc g ltac:(lia)) as [[_ Hrep] Hsame].
    split.
    { rewrite (same_rows_length _ _ _ Hsame). unfold l0.
      rewrite length_map, length_seqZ. lia. }
    intros o Ho. rewrite Hrep by lia. unfold tgt.
    apply (sort_passes_shift _ _ (S m) (g * P) P);
      [exists g; reflexivity|exists 1; lia| |exact Ho].
    intros o' Ho'. unfold initial_cells.
    assert (HE : E g <= nrows - g * P /\ (E g < P -> E g = nrows - g * P))
      by (unfold E; lia).
    destruct (Z.lt_ge_cases o' (E g)) as [Hin|Hout].
    - rewrite cells_inside by lia. unfold l0.
      rewrite list_lookup_fmap, lookup_seqZ_lt by lia. simpl.
      replace (0 <=? g * P + o') with true by (symmetry; apply Z.leb_le; nia).
      replace (g * P + o' <? nrows) with true
        by (symmetry; apply Z.ltb_lt; lia).
      simpl. do 2 f_equal. lia.
    - rewrite cells_outside by lia.
      replace (g * P + o' <? nrows) with false
        by (symmetry; apply Z.ltb_ge; lia).
      rewrite andb_false_r. reflexivity. }
  destruct (local_fold_rows Lloc E P nrows rindex (Z.to_nat ngroups) Hpos Hrows)
    as (_ & Hperm & Hdrop).
  { intros g Hg. split; [reflexivity|].
    destruct (Hloc g ltac:(lia)) as [_ [Hp _]]. exact Hp. }
  cbv zeta in Hlen, Hdone, Hperm, Hdrop.
  rewrite Z2Nat.id in Hlen, Hdone, Hperm, Hdrop by lia.
  replace (Z.min (ngroups * P) nrows) with nrows in Hperm, Hdrop by lia.
  rewrite Z2Nat.id in Hperm by lia.
  split; [|split; assumption].
  split; [rewrite Hlen; lia|].
  intros i Hi.
  destruct (Z.lt_ge_cases i nrows) as [Hin|Hout].
  - apply Hdone. lia.
  - rewrite cells_outside by lia. symmetry. apply Hpad; lia.
Qed.

(** gpupreagg_bitonic_merge runs the passes of the unit sizes up to the
    partition size. *)
Lemma gpupreagg_bitonic_merge_tracks (m : nat) (ngroups nrows : Z)
    (r0 rindex : list A) (a : Z -> option A) :
  (m < 29)%nat ->
  0 <= nrows ->
  nrows <= ngroups * 2 ^ Z.of_nat (S m) ->
  ngroups * 2 ^ Z.of_nat (S m) < 2 ^ 31 ->
  tracks nrows r0 rindex a ->
  tracks nrows r0
    (gpupreagg_bitonic_merge gt (2 ^ Z.of_nat m) ngroups nrows rindex)
    (merge_passes (omin gt) (omax gt) (S m) a).
Proof.
  intros Hm Hrows Hgroups Hfit [[Hlen0 Hrep0] Hsame0].
  rewrite gpupreagg_bitonic_merge_pure by lia.
  pose proof (pow2_pos (S m)) as Hpos.
  set (P := 2 ^ Z.of_nat (S m)) in *.
  set (E := fun g => Z.min P (nrows - g * P)).
  set (l0 := fun (r : list A) g =>
               take (Z.to_nat (E g)) (drop (Z.to_nat (g * P)) r)).
  set (L := fun r g => bitonic_merge_sort gt (2 ^ Z.of_nat m) (E g) (l0 r g)).
  set (tgt := merge_passes (omin gt) (omax gt) (S m) a).
  change (fold_left _ (seqZ 0 ngroups) rindex)
    with (fold_left (fun r g => write_back (g * P) (L r g) r)
                    (seqZ 0 ngroups) rindex).
  assert (Hng : 0 <= ngroups) by nia.
  assert (Hpad : forall i, 0 <= i -> nrows <= i -> tgt i = None).
  { apply merge_passes_padded. intros i Hi Hn.
    rewrite <- Hrep0 by exact Hi. apply cells_outside. exact Hn. }
  assert (Hloc : forall r g, 0 <= g -> length r = length rindex ->
            tracks (E g) (l0 r g) (L r g)
                   (merge_passes (omin gt) (omax gt) (S m)
                      (cells (E g) (l0 r g)))).
  { intros r g Hg Hr.
    apply bitonic_merge_sort_tracks; [exact Hm|unfold E; fold P; lia|].
    apply tracks_start. unfold l0. rewrite length_take, length_drop.
    assert (0 <= g * P) by nia. unfold E. lia. }
  split; [|apply (same_rows_trans nrows _ rindex); [|exact Hsame0]].
  - destruct (group_fold_represents L E P nrows rindex tgt
                (Z.to_nat ngroups) Hpos Hlen0) as (Hlen & Hdone & _).
    { intros g r Hg Hlenr Hrest. split; [reflexivity|].
      destruct (Hloc r g ltac:(lia) Hlenr) as [[_ Hrep] Hsame].
      assert (HgP : 0 <= g * P) by nia.
      split.
      { rewrite (same_rows_length _ _ _ Hsame). unfold l0.
        rewrite length_take, length_drop. unfold E. lia. }
      intros o Ho. rewrite Hrep by lia. unfold tgt.
      apply (merge_passes_shift _ _ (S m) (g * P) P);
        [exists g; reflexivity|exists 1; lia| |exact Ho].
      intros o' Ho'. rewrite <- Hrep0 by lia.
      assert (HE : E g <= nrows - g * P /\ (E g < P -> E g = nrows - g * P))
        by (unfold E; lia).
      destruct (Z.lt_ge_cases o' (E g)) as [Hin|Hout].
      - rewrite !cells_inside by lia. unfold l0.
        rewrite lookup_take_lt by lia. rewrite lookup_drop.
        rewrite <- (Hrest (g * P + o')) by lia.
        f_equal. lia.
      - rewrite !cells_outside by lia. reflexivity. }
    cbv zeta in Hlen, Hdone. rewrite Z2Nat.id in Hlen, Hdone by lia.
    split; [rewrite Hlen; lia|].
    intros i Hi.
    destruct (Z.lt_ge_cases i nrows) as [Hin|Hout].
    + apply Hdone. lia.
    + rewrite cells_outside by lia. symmetry. apply Hpad; lia.
  - apply (fold_same_rows nrows _ _ (length rindex)); [|reflexivity].
    intros g Hg r Hr. apply elem_of_seqZ in Hg.
    destruct (Hloc r g ltac:(lia) Hr) as [_ [Hp _]].
    assert (HgP : 0 <= g * P) by nia.
    apply (write_back_same_rows nrows (g * P) (E g));
      [lia|unfold E; lia|lia|exact Hp].
Qed.

End KernelsRepresent.

Section HostPasses.

Context {A : Type}.
Variable pos : Z -> A.
Variable gt : A -> A -> bool.

Lemma fold_left_ext_all {B C : Type} (f g : B -> C -> B) (xs : list C) :
  (forall b x, f b x = g b x) ->
  forall b, fold_left f xs b = fold_left g xs b.
Proof.
  intros Hfg. induction xs as [|x xs IH]; intros b; [reflexivity|].
  simpl. rewrite Hfg. apply IH.
Qed.

(** gpupreagg_bitonic_step is one pass, reversing when the unit size is
    passed with a minus sign. *)
Lemma gpupreagg_bitonic_step_stage (T nrows : Z) (reversing : bool) (h : Z)
    (rindex : list A) :
  0 < h -> 2 * h < 2 ^ 31 ->
  gpupreagg_bitonic_step gt T (if reversing then - (2 * h) else 2 * h)
                         nrows rindex
  = bitonic_stage gt T nrows reversing (2 * h) rindex.
Proof.
  intros Hh Hfit. unfold gpupreagg_bitonic_step, bitonic_stage.
  apply fold_left_ext_all. intros l t.
  unfold bitonic_step_thread, bitonic_thread. cbv zeta.
  assert (Hrev : ((if reversing then - (2 * h) else 2 * h) <? 0) = reversing).
  { destruct reversing; [apply Z.ltb_lt|apply Z.ltb_ge]; lia. }
  rewrite Hrev.
  replace (if reversing
           then wrap_signed 32 (- (if reversing then - (2 * h) else 2 * h))
           else if reversing then - (2 * h) else 2 * h)
    with (2 * h).
  2:{ destruct reversing; [|reflexivity].
      rewrite Z.opp_involutive. symmetry. apply wrap_signed_fit. lia. }
  destruct (Z.leb_spec nrows
              (bitonic_idx1 reversing (2 * h) (bitonic_idx0 (2 * h) t)));
    destruct (Z.ltb_spec
                (bitonic_idx1 reversing (2 * h) (bitonic_idx0 (2 * h) t)) nrows);
    try reflexivity; lia.
Qed.

Lemma step_global_size_cover (nrows h : Z) :
  0 < h -> nrows <= step_global_size nrows (2 * h) / h * (2 * h).
Proof.
  intros Hh. unfold step_global_size. rewrite half_unit.
  rewrite Z.div_mul by lia.
  pose proof (Z.div_mod (nrows + 2 * h - 1) (2 * h) ltac:(lia)) as Hdm.
  pose proof (Z.mod_pos_bound (nrows + 2 * h - 1) (2 * h) ltac:(lia)) as Hb.
  lia.
Qed.

Lemma step_global_size_fits (nrows h : Z) :
  0 < h -> 0 <= nrows -> nrows + 2 * h <= 2 ^ 31 ->
  stage_fits (step_global_size nrows (2 * h)) h.
Proof.
  intros Hh Hrows Hfit t Ht. unfold step_global_size in Ht.
  rewrite half_unit in Ht.
  pose proof (Z.div_mod (nrows + 2 * h - 1) (2 * h) ltac:(lia)) as Hdm.
  pose proof (Z.mod_pos_bound (nrows + 2 * h - 1) (2 * h) ltac:(lia)) as Hb.
  set (Q := (nrows + 2 * h - 1) / (2 * h)) in *.
  assert (t / h < Q) by (apply Z.div_lt_upper_bound; lia).
  nia.
Qed.

Lemma gpupreagg_bitonic_step_tracks (nrows : Z) (reversing : bool)
    (k : nat) (r0 rindex : list A) (a : Z -> option A) :
  0 <= nrows -> nrows + 2 ^ Z.of_nat (S k) < 2 ^ 31 ->
  tracks nrows r0 rindex a ->
  tracks nrows r0
    (gpupreagg_bitonic_step gt
       (step_global_size nrows (2 ^ Z.of_nat (S k)))
       (if reversing then - 2 ^ Z.of_nat (S k) else 2 ^ Z.of_nat (S k))
       nrows rindex)
    (stage_fun (omin gt) (omax gt) reversing (2 ^ Z.of_nat k) a).
Proof.
  intros Hrows Hfit Hrep. rewrite pow2_succ in *.
  pose proof (pow2_pos k) as Hpos.
  assert (Hpos31 : 0 < 2 ^ 31) by reflexivity.
  rewrite gpupreagg_bitonic_step_stage by lia.
  apply bitonic_stage_tracks; [apply pow2_unit_ok| | |exact Hrep].
  - apply step_global_size_fits; lia.
  - apply step_global_size_cover. exact Hpos.
Qed.

(** The steps of the unit sizes that exceed the partition; the other unit
    sizes are left to the merge kernel. *)
Lemma small_steps_skipped (m : nat) (nrows : Z) (k : nat) :
  (k <= S m)%nat ->
  forall (fuel : nat) (l : list A),
    fold_left
      (fun r unitsz =>
         if 2 ^ Z.of_nat m * 2 <? unitsz
         then gpupreagg_bitonic_step gt (step_global_size nrows unitsz)
                unitsz nrows r
         else r)
      (unit_sizes fuel (2 ^ Z.of_nat k)) l = l.
Proof.
  induction k as [|k IH]; intros Hk fuel l.
  - change (2 ^ Z.of_nat 0) with 1. rewrite unit_sizes_one. reflexivity.
  - destruct fuel as [|fuel]; [reflexivity|].
    rewrite unit_sizes_succ. cbn [fold_left].
    replace (2 ^ Z.of_nat m * 2) with (2 ^ Z.of_nat (S m))
      by (rewrite pow2_succ; lia).
    replace (2 ^ Z.of_nat (S m) <? 2 ^ Z.of_nat (S k)) with false
      by (symmetry; apply Z.ltb_ge; apply pow2_mono_le; lia).
    replace (2 ^ Z.of_nat (S m)) with (2 ^ Z.of_nat m * 2)
      by (rewrite pow2_succ; lia).
    apply IH. lia.
Qed.

Lemma steps_tracks (m : nat) (nrows : Z) (r0 : list A) (d : nat) :
  0 <= nrows -> nrows + 2 ^ Z.of_nat (S m + d) < 2 ^ 31 ->
  forall (fuel : nat) (l : list A) (a : Z -> option A),
    (S m + d <= fuel)%nat ->
    tracks nrows r0 l a ->
    exists a',
      tracks nrows r0
        (fold_left
           (fun r unitsz =>
              if 2 ^ Z.of_nat m * 2 <? unitsz
              then gpupreagg_bitonic_step gt (step_global_size nrows unitsz)
                     unitsz nrows r
              else r)
           (unit_sizes fuel (2 ^ Z.of_nat (S m + d))) l) a' /\
      forall i, 0 <= i ->
        merge_passes (omin gt) (omax gt) (S m) a' i
        = merge_passes (omin gt) (omax gt) (S m + d) a i.
Proof.
  intros Hrows. induction d as [|d IH]; intros Hfit fuel l a Hfuel Hrep.
  - exists a. rewrite Nat.add_0_r.
    rewrite small_steps_skipped by lia. split; [exact Hrep|reflexivity].
  - destruct fuel as [|fuel]; [lia|].
    replace (S m + S d)%nat with (S (S m + d)) in * by lia.
    rewrite unit_sizes_succ. cbn [fold_left merge_passes].
    replace (2 ^ Z.of_nat m * 2 <? 2 ^ Z.of_nat (S (S m + d))) with true.
    2:{ symmetry. apply Z.ltb_lt.
        replace (2 ^ Z.of_nat m * 2) with (2 ^ Z.of_nat (S m))
          by (rewrite pow2_succ; lia).
        apply pow2_mono. lia. }
    apply IH; [|lia|].
    + pose proof (pow2_mono_le (S m + d) (S (S m + d)) ltac:(lia)). lia.
    + apply (gpupreagg_bitonic_step_tracks nrows false); assumption.
Qed.

(** One block size of the host loop: the passes of the block size
    [2 ^ (j + 1)]. *)
Lemma sort_level_tracks (m : nat) (ngroups nrows : Z) (d : nat)
    (r0 rindex : list A) (a : Z -> option A) :
  (m < 29)%nat ->
  0 <= nrows ->
  nrows <= ngroups * 2 ^ Z.of_nat (S m) ->
  ngroups * 2 ^ Z.of_nat (S m) < 2 ^ 31 ->
  nrows + 2 ^ Z.of_nat (S (S m + d)) < 2 ^ 31 ->
  tracks nrows r0 rindex a ->
  tracks nrows r0
    (sort_level gt (2 ^ Z.of_nat m) ngroups nrows rindex
                (2 ^ Z.of_nat (S (S m + d))))
    (block_passes (omin gt) (omax gt) (S m + d) a).
Proof.
  intros Hm Hrows Hgroups Hgfit Hfit Hrep. unfold sort_level. cbv zeta.
  pose proof (gpupreagg_bitonic_step_tracks nrows true (S m + d) r0 rindex a
                Hrows Hfit Hrep) as Hrep1.
  cbv iota in Hrep1.
  set (r1 := gpupreagg_bitonic_step gt _ (- 2 ^ Z.of_nat (S (S m + d))) nrows
               rindex) in *.
  replace (2 ^ Z.of_nat (S (S m + d)) / 2) with (2 ^ Z.of_nat (S m + d))
    by (rewrite (pow2_succ (S m + d)), half_unit; reflexivity).
  destruct (steps_tracks m nrows r0 d Hrows
              ltac:(pose proof (pow2_mono_le (S m + d) (S (S m + d))
                                  ltac:(lia)); lia)
              (Z.to_nat (2 ^ Z.of_nat (S (S m + d)))) r1 _
              ltac:(pose proof (pow2_fuel (S (S m + d))); lia) Hrep1)
    as (a' & Hrep2 & Heq).
  apply (tracks_ext _ _ _ (merge_passes (omin gt) (omax gt) (S m) a')).
  - apply gpupreagg_bitonic_merge_tracks; assumption.
  - intros i Hi. unfold block_passes. apply Heq. exact Hi.
Qed.

Lemma pow2_small (j : nat) (x : Z) :
  2 ^ Z.of_nat j <= x -> x < 2 ^ 30 -> (j < 30)%nat.
Proof.
  intros Hle Hlt. destruct (Nat.lt_ge_cases j 30) as [|Hge]; [assumption|].
  pose proof (pow2_mono_le 30 j Hge) as H.
  change (2 ^ Z.of_nat 30) with (2 ^ 30) in H. lia.
Qed.

Lemma sort_levels_tracks (m : nat) (ngroups nrows : Z) (r0 : list A)
    (a0 : Z -> option A) :
  (m < 29)%nat ->
  0 <= nrows <= 2 ^ 29 ->
  nrows <= ngroups * 2 ^ Z.of_nat (S m) ->
  ngroups * 2 ^ Z.of_nat (S m) < 2 ^ 31 ->
  forall (fuel d : nat) (l : list A),
    tracks nrows r0 l (sort_passes (omin gt) (omax gt) (S m + d) a0) ->
    nrows <= 2 ^ Z.of_nat (S m + d + fuel) ->
    exists k,
      nrows <= 2 ^ Z.of_nat k /\
      tracks nrows r0
        (fold_left (sort_level gt (2 ^ Z.of_nat m) ngroups nrows)
           (block_sizes fuel (2 ^ Z.of_nat (S (S m + d))) (2 * nrows - 1)) l)
        (sort_passes (omin gt) (omax gt) k a0).
Proof.
  intros Hm Hrows Hgroups Hgfit.
  induction fuel as [|fuel IH]; intros d l Hrep Hbound.
  - exists (S m + d)%nat. rewrite Nat.add_0_r in Hbound.
    split; [exact Hbound|exact Hrep].
  - destruct (Z.le_gt_cases (2 ^ Z.of_nat (S (S m + d))) (2 * nrows - 1))
      as [Hle|Hgt].
    + assert (H29 : (S (S m + d) < 30)%nat).
      { apply (pow2_small _ (2 * nrows - 1) Hle).
        change (2 ^ 30) with (2 * 2 ^ 29). lia. }
      rewrite block_sizes_next by (try exact Hle; lia). cbn [fold_left].
      replace (S (S (S m + d))) with (S (S m + S d)) by lia.
      apply (IH (S d)).
      * replace (S m + S d)%nat with (S (S m + d)) by lia.
        cbn [sort_passes]. apply sort_level_tracks; try assumption; lia.
      * replace (S m + S d + fuel)%nat with (S m + d + S fuel)%nat by lia.
        exact Hbound.
    + rewrite block_sizes_done by lia.
      exists (S m + d)%nat. split; [|exact Hrep].
      rewrite (pow2_succ (S m + d)) in Hgt. lia.
Qed.

End HostPasses.

Section SortFallback.

Context {A : Type}.
Variable pos : Z -> A.
Variable gt : A -> A -> bool.
Hypothesis gt_asym : forall x y, gt x y = true -> gt y x = false.
Hypothesis gt_trans :
  forall x y z, gt x y = false -> gt y z = false -> gt x z = false.

(** The three phases, for a work-group size that is a power of two and any
    number of rows, as long as the indices fit a [cl_int]. *)
Lemma sort_fallback_correct (m : nat) (nrows : Z) (rindex : list A) :
  (m < 29)%nat ->
  nrows <= 2 ^ 29 ->
  0 <= nrows <= Z.of_nat (length rindex) ->
  let sorted := sort_fallback pos gt (2 ^ Z.of_nat m) nrows rindex in
  length sorted = length rindex /\
  take (Z.to_nat nrows) sorted ≡ₚ map pos (seqZ 0 nrows) /\
  drop (Z.to_nat nrows) sorted = drop (Z.to_nat nrows) rindex /\
  forall i j pos0 pos1,
    0 <= i <= j -> j < nrows ->
    sorted !! Z.to_nat i = Some pos0 -> sorted !! Z.to_nat j = Some pos1 ->
    gt pos0 pos1 = false.
Proof.
  intros Hm Hsmall Hrows. cbv zeta. unfold sort_fallback. cbv zeta.
  replace (2 ^ Z.of_nat m * 2) with (2 ^ Z.of_nat (S m))
    by (rewrite pow2_succ; lia).
  pose proof (pow2_pos (S m)) as Hpos.
  pose proof (pow2_int (S m) ltac:(lia)) as Hint.
  assert (HP : 2 ^ Z.of_nat (S m) <= 2 ^ 29).
  { apply (pow2_mono_le (S m) 29). lia. }
  set (ngroups := (nrows + 2 ^ Z.of_nat (S m) - 1) / 2 ^ Z.of_nat (S m)).
  assert (Hgroups : nrows <= ngroups * 2 ^ Z.of_nat (S m) /\
                    ngroups * 2 ^ Z.of_nat (S m) < 2 ^ 31).
  { pose proof (Z.div_mod (nrows + 2 ^ Z.of_nat (S m) - 1) (2 ^ Z.of_nat (S m))
                  ltac:(lia)) as Hdm.
    pose proof (Z.mod_pos_bound (nrows + 2 ^ Z.of_nat (S m) - 1)
                  (2 ^ Z.of_nat (S m)) Hpos) as Hb.
    fold ngroups in Hdm. change (2 ^ 31) with (4 * 2 ^ 29). lia. }
  destruct Hgroups as [Hcover Hgfit].
  destruct (gpupreagg_bitonic_local_sorted pos gt m ngroups nrows rindex
              Hm Hrows Hcover Hgfit) as (Hrep0 & Hperm0 & Hdrop0).
  set (r0 := gpupreagg_bitonic_local pos gt (2 ^ Z.of_nat m) ngroups nrows
               rindex) in *.
  replace (2 ^ Z.of_nat (S m) * 2) with (2 ^ Z.of_nat (S (S m + 0))).
  2:{ rewrite Nat.add_0_r, (pow2_succ (S m)). lia. }
  destruct (sort_levels_tracks gt m ngroups nrows r0 (initial_cells pos nrows)
              Hm ltac:(lia) Hcover Hgfit (Z.to_nat nrows) 0%nat r0)
    as (k & Hk & [_ Hrep] & Hp & Hd).
  { rewrite Nat.add_0_r. split; [exact Hrep0|apply same_rows_refl]. }
  { pose proof (pow2_fuel (Z.to_nat nrows)) as Hf.
    pose proof (pow2_mono_le (Z.to_nat nrows) (S m + 0 + Z.to_nat nrows)
                  ltac:(lia)).
    lia. }
  set (r := fold_left _ _ r0) in *.
  assert (Hlen0 : length r0 = length rindex).
  { rewrite <- (take_drop (Z.to_nat nrows) r0).
    rewrite <- (take_drop (Z.to_nat nrows) rindex) at 1.
    rewrite !length_app, Hdrop0. f_equal.
    rewrite (Permutation_length Hperm0), length_map, length_seqZ, length_take.
    lia. }
  split; [rewrite (Permutation_length Hp); exact Hlen0|].
  split.
  { rewrite <- Hperm0. apply (Permutation_app_inv_r (drop (Z.to_nat nrows) r)).
    rewrite take_drop. rewrite Hd, take_drop. exact Hp. }
  split; [congruence|].
  intros i j pos0 pos1 Hij Hj Hi0 Hj1.
  apply (sort_passes_ordered gt gt_asym gt_trans k (initial_cells pos nrows) i j);
    [exact Hij|lia| |].
  - rewrite <- Hrep by lia. rewrite cells_inside by lia. exact Hi0.
  - rewrite <- Hrep by lia. rewrite cells_inside by lia. exact Hj1.
Qed.

End SortFallback.

(** ** The sort-based fallback *)

(** Seven rows, work-groups of two work-items: two partitions of four rows
    for the local sort, one reversing step of the unit size 8, and the
    merge.  The keys of the rows of [rindex] come out as 1, 1, 2, 3, 4, 5,
    9, and the eighth cell of [rindex] is not touched. *)
Example sort_fallback_seven_rows :
  @gpupreagg_sort_fallback sum_query seven_rows_batch 2 (replicate 8 (-1))
  = [1; 3; 6; 0; 2; 4; 5; -1] /\
  map (key_of seven_rows_batch)
      (take 7 (@gpupreagg_sort_fallback sum_query seven_rows_batch 2
                 (replicate 8 (-1))))
  = [1; 1; 2; 3; 4; 5; 9].
Proof. split; vm_compute; reflexivity. Qed.

(** C7, within the range of [cl_int].  For every number of rows
    [nitems kds] up to [2 ^ 29], a power of two or not, the local bitonic
    sort, then the host-orchestrated steps of the unit sizes
    above the partition size, then the bitonic merge, leave [rindex] in the
    order of gpupreagg_keycomp: the first [nitems kds] cells hold the rows
    [0 .. nitems kds), each of them once, and a row never compares greater
    than a row that comes after it; the cells from [nitems kds] on are the
    ones the guards skip, and they keep their contents.  The work-group size
    is a power of two, as the kernels expect, and the comparison is a total
    preorder: a positive result one way is not positive the other way, and
    "not greater" is transitive.  The indices are [cl_int]: there are at
    most [2 ^ 29] rows and [2 ^ 28] work-items in a work-group, so that
    none of them wraps around. *)
Theorem sort_fallback_sorted `{F : GpuPreAggFunctions} (kds : kern_data_store)
    (m : nat) (rindex : list Z) :
  (m < 29)%nat ->
  nitems kds <= 2 ^ 29 ->
  (forall x y,
     0 < gpupreagg_keycomp kds x y -> gpupreagg_keycomp kds y x <= 0) ->
  (forall x y z,
     gpupreagg_keycomp kds x y <= 0 -> gpupreagg_keycomp kds y z <= 0 ->
     gpupreagg_keycomp kds x z <= 0) ->
  0 <= nitems kds <= Z.of_nat (length rindex) ->
  let nrows := nitems kds in
  let sorted := gpupreagg_sort_fallback kds (2 ^ Z.of_nat m) rindex in
  length sorted = length rindex /\
  take (Z.to_nat nrows) sorted ≡ₚ seqZ 0 nrows /\
  drop (Z.to_nat nrows) sorted = drop (Z.to_nat nrows) rindex /\
  forall i j pos0 pos1,
    0 <= i <= j -> j < nrows ->
    sorted !! Z.to_nat i = Some pos0 -> sorted !! Z.to_nat j = Some pos1 ->
    gpupreagg_keycomp kds pos0 pos1 <= 0.
Proof.
  intros Hm Hsmall Hasym Htrans Hrows. cbv zeta.
  unfold gpupreagg_sort_fallback.
  destruct (sort_fallback_correct id (keycomp_gt kds)) with
    (m := m) (nrows := nitems kds) (rindex := rindex)
    as (Hlen & Hperm & Hdrop & Hsorted).
  - intros x y Hxy. unfold keycomp_gt in *.
    apply Z.ltb_lt in Hxy. apply Z.ltb_ge. apply Hasym. exact Hxy.
  - intros x y z Hxy Hyz. unfold keycomp_gt in *.
    apply Z.ltb_ge in Hxy, Hyz. apply Z.ltb_ge. apply (Htrans x y z); assumption.
  - exact Hm.
  - exact Hsmall.
  - exact Hrows.
  - rewrite map_id in Hperm. repeat split; try assumption.
    intros i j pos0 pos1 Hij Hj H0 H1.
    apply Z.ltb_ge. apply (Hsorted i j pos0 pos1); assumption.
Qed.

Lemma sort_fallback_sorted_witness :
  let kds := seven_rows_batch in
  let rindex := replicate 8 (-1) in
  let sorted := @gpupreagg_sort_fallback sum_query kds (2 ^ Z.of_nat 1) rindex in
  (1 < 29)%nat /\
  nitems kds <= 2 ^ 29 /\
  0 <= nitems kds <= Z.of_nat (length rindex) /\
  length sorted = length rindex /\
  take (Z.to_nat (nitems kds)) sorted ≡ₚ seqZ 0 (nitems kds) /\
  drop (Z.to_nat (nitems kds)) sorted = drop (Z.to_nat (nitems kds)) rindex /\
  forall i j pos0 pos1,
    0 <= i <= j -> j < nitems kds ->
    sorted !! Z.to_nat i = Some pos0 -> sorted !! Z.to_nat j = Some pos1 ->
    @gpupreagg_keycomp sum_query kds pos0 pos1 <= 0.
Proof.
  cbv zeta.
  assert (Hrows : 0 <= nitems seven_rows_batch
                  <= Z.of_nat (length (replicate 8 (-1))))
    by (simpl; lia).
  assert (Hm : (1 < 29)%nat) by lia.
  assert (Hsmall : nitems seven_rows_batch <= 2 ^ 29) by (simpl; lia).
  split; [exact Hm|]. split; [exact Hsmall|]. split; [exact Hrows|].
  apply (@sort_fallback_sorted sum_query seven_rows_batch 1 (replicate 8 (-1)));
    [exact Hm|exact Hsmall| | |exact Hrows].
  - intros x y. simpl.
    destruct (Z.compare_spec (key_of seven_rows_batch x)
                             (key_of seven_rows_batch y));
      destruct (Z.compare_spec (key_of seven_rows_batch y)
                               (key_of seven_rows_batch x)); lia.
  - intros x y z. simpl.
    destruct (Z.compare_spec (key_of seven_rows_batch x)
                             (key_of seven_rows_batch y));
      destruct (Z.compare_spec (key_of seven_rows_batch y)
                               (key_of seven_rows_batch z));
      destruct (Z.compare_spec (key_of seven_rows_batch x)
                               (key_of seven_rows_batch z)); lia.
Defined.

(** ** The merge templates: values, nulls and the order of merges *)

Section MergeTemplates.

Lemma pow2_field_pos f : 0 < 2 ^ field_bits f.
Proof. destruct f; reflexivity. Qed.

Lemma get_val_mod f d :
  get_val f d mod 2 ^ field_bits f = pd_bits d mod 2 ^ field_bits f.
Proof.
  unfold get_val, wrap_signed.
  destruct f; simpl field_bits; simpl Z.sub; simpl Z.pow;
    Z.to_euclidean_division_equations; lia.
Qed.

Lemma wrap_signed_mod f v :
  wrap_signed (field_bits f) v mod 2 ^ field_bits f = v mod 2 ^ field_bits f.
Proof.
  unfold wrap_signed.
  destruct f; simpl field_bits; simpl Z.sub; simpl Z.pow;
    Z.to_euclidean_division_equations; lia.
Qed.

Lemma c_add_mod f x y :
  c_add f x y mod 2 ^ field_bits f = (x + y) mod 2 ^ field_bits f.
Proof.
  unfold c_add, wrap_signed.
  destruct f; simpl field_bits; simpl arith_bits; simpl Z.sub; simpl Z.pow;
    Z.to_euclidean_division_equations; lia.
Qed.

(** Writing a field twice keeps the second value, and only the value
    modulo the width of the field matters. *)
Lemma set_val_set_val f d v v' : set_val f (set_val f d v) v' = set_val f d v'.
Proof.
  unfold set_val. simpl. f_equal.
  pose proof (pow2_field_pos f) as Hp.
  set (m := 2 ^ field_bits f) in *.
  replace ((pd_bits d - pd_bits d mod m + v mod m) mod m) with (v mod m); [lia|].
  rewrite (Z.div_mod (pd_bits d) m) at 1 by lia.
  replace (m * (pd_bits d / m) + pd_bits d mod m - pd_bits d mod m + v mod m)
    with (v mod m + (pd_bits d / m) * m) by lia.
  rewrite Z.mod_add by lia. now rewrite Z.mod_mod by lia.
Qed.

Lemma set_val_mod f d v v' :
  v mod 2 ^ field_bits f = v' mod 2 ^ field_bits f ->
  set_val f d v = set_val f d v'.
Proof. intros H. unfold set_val. now rewrite H. Qed.

Lemma set_val_get_val f d : set_val f d (get_val f d) = d.
Proof.
  unfold set_val. rewrite get_val_mod. destruct d as [g n b]. simpl. f_equal. lia.
Qed.

Lemma add_mod_swap m x y z :
  0 < m -> ((x + y) mod m + z) mod m = ((x + z) mod m + y) mod m.
Proof.
  intros Hm. rewrite !Z.add_mod_idemp_l by lia. f_equal. lia.
Qed.

(** X1. [int_val] and [long_val]: the merged value is the sum wrapped to the
    field; when the sum fits the field it is exact and the error code is
    the one passed in, and when it does not the error code records
    [StromError_CpuReCheck] and the stored value differs from the sum. *)
Theorem psum_wide_sum_or_flag f errcode accum newval :
  f <> F_short ->
  pd_isnull accum = false -> pd_isnull newval = false ->
  let s := get_val f accum + get_val f newval in
  let r := GPUPREAGG_AGGCALC_PSUM_TEMPLATE f errcode accum newval in
  pd_isnull (snd r) = false /\
  (in_range f s -> fst r = errcode /\ get_val f (snd r) = s) /\
  (~ in_range f s ->
     fst r = STROM_SET_ERROR errcode StromError_CpuReCheck /\
     get_val f (snd r) <> s /\
     get_val f (snd r) mod 2 ^ field_bits f = s mod 2 ^ field_bits f).
Proof.
  intros Hf Ha Hn s r.
  assert (Hnull : pd_isnull (snd r) = false).
  { subst r. unfold GPUPREAGG_AGGCALC_PSUM_TEMPLATE. rewrite Ha, Hn. simpl.
    exact Ha. }
  split; [exact Hnull|]. split.
  - intros Hs. destruct (psum_exact f errcode accum newval Ha Hn Hs) as (H1 & _ & H3).
    split; assumption.
  - intros Hs. split; [|split].
    + now apply psum_wide_overflow_flagged.
    + intros Heq. apply Hs. fold s. rewrite <- Heq. apply get_val_in_range.
    + subst r. unfold GPUPREAGG_AGGCALC_PSUM_TEMPLATE. rewrite Ha, Hn. simpl.
      rewrite get_set_val, wrap_signed_mod. apply c_add_mod.
Qed.

Lemma psum_wide_sum_or_flag_witness :
  let accum := datum_of F_int 2147483647 in
  let newval := datum_of F_int 1 in
  let r := GPUPREAGG_AGGCALC_PSUM_TEMPLATE F_int StromError_Success accum newval in
  F_int <> F_short /\ pd_isnull accum = false /\ pd_isnull newval = false /\
  ~ in_range F_int (get_val F_int accum + get_val F_int newval) /\
  fst r = StromError_CpuReCheck /\
  get_val F_int (snd r) <> 2147483647 + 1.
Proof.
  cbv zeta.
  assert (H1 : F_int <> F_short) by discriminate.
  assert (H2 : ~ in_range F_int (get_val F_int (datum_of F_int 2147483647)
                                 + get_val F_int (datum_of F_int 1)))
    by (unfold in_range; vm_compute; intros [_ H]; discriminate H).
  split; [exact H1|]. split; [reflexivity|]. split; [reflexivity|].
  split; [exact H2|].
  destruct (psum_wide_sum_or_flag F_int StromError_Success
              (datum_of F_int 2147483647) (datum_of F_int 1)
              H1 eq_refl eq_refl) as (_ & _ & H).
  destruct (H H2) as (He & Hv & _). split; [exact He|exact Hv].
Defined.

(** X2. For the integer sums ([GPUPREAGG_AGGCALC_PSUM_SHORT], [_INT] and
    [_LONG]) the accumulator left by two merges does not depend on their
    order: merging [b] and then [c] into [accum] gives the same
    accumulator, null flag and all eight bytes, as merging [c] and then
    [b], whatever the error codes, null flags and overflows on the way.
    The float and double sums are not covered. *)
Theorem psum_order_independent f e1 e2 e3 e4 accum b c :
  snd (GPUPREAGG_AGGCALC_PSUM_TEMPLATE f e2
         (snd (GPUPREAGG_AGGCALC_PSUM_TEMPLATE f e1 accum b)) c)
  = snd (GPUPREAGG_AGGCALC_PSUM_TEMPLATE f e4
           (snd (GPUPREAGG_AGGCALC_PSUM_TEMPLATE f e3 accum c)) b).
Proof.
  pose proof (pow2_field_pos f) as Hp.
  unfold GPUPREAGG_AGGCALC_PSUM_TEMPLATE.
  destruct (pd_isnull accum) eqn:Ha, (pd_isnull b) eqn:Hb, (pd_isnull c) eqn:Hc;
    simpl; rewrite ?Ha, ?Hb, ?Hc; simpl; try reflexivity.
  - (* accum is null, both values are not *)
    rewrite !set_val_set_val, !get_set_val. apply set_val_mod.
    rewrite !c_add_mod, <- !(Z.add_mod_idemp_l (wrap_signed _ _)) by lia.
    rewrite !wrap_signed_mod, !Z.add_mod_idemp_l by lia. f_equal. lia.
  - rewrite !set_val_set_val, !get_set_val. apply set_val_mod.
    rewrite !c_add_mod, <- !(Z.add_mod_idemp_l (wrap_signed _ _)) by lia.
    rewrite !wrap_signed_mod, !c_add_mod.
    apply add_mod_swap; lia.
Qed.

Lemma get_val_set_isnull f d b : get_val f (set_isnull d b) = get_val f d.
Proof. reflexivity. Qed.

Lemma set_val_set_isnull f d b v :
  set_val f (set_isnull d b) v = set_isnull (set_val f d v) b.
Proof. reflexivity. Qed.

Lemma set_isnull_twice d b b' : set_isnull (set_isnull d b) b' = set_isnull d b'.
Proof. reflexivity. Qed.

(** X3. Merging a non-null value with the max (min) template leaves a
    non-null accumulator that holds the value itself when the accumulator
    was null, and the larger (smaller) of the two values otherwise. *)
Theorem pmax_pmin_value f accum newval :
  pd_isnull newval = false ->
  let mx := GPUPREAGG_AGGCALC_PMAX_TEMPLATE f accum newval in
  let mn := GPUPREAGG_AGGCALC_PMIN_TEMPLATE f accum newval in
  pd_isnull mx = false /\ pd_isnull mn = false /\
  get_val f mx = (if pd_isnull accum then get_val f newval
                  else Z.max (get_val f accum) (get_val f newval)) /\
  get_val f mn = (if pd_isnull accum then get_val f newval
                  else Z.min (get_val f accum) (get_val f newval)).
Proof.
  intros Hn mx mn. subst mx mn.
  unfold GPUPREAGG_AGGCALC_PMAX_TEMPLATE, GPUPREAGG_AGGCALC_PMIN_TEMPLATE.
  rewrite Hn. simpl negb. cbv iota.
  pose proof (get_val_in_range f accum) as Ra.
  pose proof (get_val_in_range f newval) as Rn.
  split; [reflexivity|]. split; [reflexivity|].
  destruct (pd_isnull accum);
    rewrite !get_val_set_isnull, !get_set_val; split; apply wrap_signed_small; auto.
  - destruct (Z.max_spec (get_val f accum) (get_val f newval)) as [[_ ->]|[_ ->]]; auto.
  - destruct (Z.min_spec (get_val f accum) (get_val f newval)) as [[_ ->]|[_ ->]]; auto.
Qed.

Lemma pmax_pmin_value_witness :
  let accum := datum_of F_short (-7) in
  let newval := datum_of F_short 5 in
  pd_isnull newval = false /\
  get_val F_short (GPUPREAGG_AGGCALC_PMAX_TEMPLATE F_short accum newval) = 5 /\
  get_val F_short (GPUPREAGG_AGGCALC_PMIN_TEMPLATE F_short accum newval) = -7.
Proof.
  cbv zeta. split; [reflexivity|].
  destruct (pmax_pmin_value F_short (datum_of F_short (-7)) (datum_of F_short 5)
              eq_refl) as (_ & _ & Hmx & Hmn).
  split; [rewrite Hmx|rewrite Hmn]; reflexivity.
Defined.

(** X4. The integer max and min ([GPUPREAGG_AGGCALC_PMAX_SHORT], [_INT],
    [_LONG] and the same of [PMIN]) may be applied in any order and any
    number of times: merging [b] and then [c] gives the same accumulator as
    merging [c] and then [b], and merging a value a second time changes
    nothing.  The float and double instantiations are not covered. *)
Theorem pmax_pmin_order_independent f accum b c :
  let pmax := GPUPREAGG_AGGCALC_PMAX_TEMPLATE f in
  let pmin := GPUPREAGG_AGGCALC_PMIN_TEMPLATE f in
  pmax (pmax accum b) c = pmax (pmax accum c) b /\
  pmin (pmin accum b) c = pmin (pmin accum c) b /\
  pmax (pmax accum b) b = pmax accum b /\
  pmin (pmin accum b) b = pmin accum b.
Proof.
  cbv zeta.
  pose proof (get_val_in_range f accum) as Ra.
  pose proof (get_val_in_range f b) as Rb.
  pose proof (get_val_in_range f c) as Rc.
  assert (Hmax : forall x y, in_range f x -> in_range f y -> in_range f (Z.max x y)).
  { intros x y Hx Hy. destruct (Z.max_spec x y) as [[_ ->]|[_ ->]]; auto. }
  assert (Hmin : forall x y, in_range f x -> in_range f y -> in_range f (Z.min x y)).
  { intros x y Hx Hy. destruct (Z.min_spec x y) as [[_ ->]|[_ ->]]; auto. }
  unfold GPUPREAGG_AGGCALC_PMAX_TEMPLATE, GPUPREAGG_AGGCALC_PMIN_TEMPLATE.
  destruct (pd_isnull accum) eqn:Ha, (pd_isnull b) eqn:Hb, (pd_isnull c) eqn:Hc;
    simpl negb; cbv iota; rewrite ?Ha, ?Hb, ?Hc; simpl negb; cbv iota;
    simpl pd_isnull; cbv iota;
    rewrite ?get_val_set_isnull, ?set_val_set_isnull, ?set_isnull_twice,
            ?set_val_set_val, ?get_set_val;
    rewrite ?wrap_signed_small by auto;
    repeat split; try reflexivity;
    rewrite ?Z.max_id, ?Z.min_id; try reflexivity;
    try (f_equal; f_equal; lia).
Qed.

End MergeTemplates.

(** ** gpupreagg_data_load and gpupreagg_data_store *)

Section LoadStore.

Lemma pg_vstore_cells kds colidx rowidx isnull value :
  kds_wf kds -> 0 <= colidx < ncols kds ->
  0 <= rowidx -> (Z.to_nat rowidx < length (slots kds))%nat ->
  let kds' := pg_vstore kds colidx rowidx isnull value in
  cell (KERN_DATA_STORE_ISNULL kds' rowidx) colidx = (if isnull then 1 else 0) /\
  (isnull = false -> cell (KERN_DATA_STORE_VALUES kds' rowidx) colidx = value).
Proof.
  intros Hwf Hc Hr Hlen.
  destruct (kds_wf_row _ _ Hwf Hr Hlen) as [Hv Hn].
  unfold pg_vstore. destruct isnull; simpl.
  - split; [|discriminate]. apply set_datum_isnull; lia.
  - split; [|intros _]; [apply set_datum_isnull|apply set_datum_values]; lia.
Qed.

(** X5. A column that the load refuses is refused by the store as well:
    for a column index at or past [ncols], or a column whose [attlen] is
    not 2, 4 or 8, both set [StromError_DataStoreCorruption] (unless an
    error is pending already) and leave the accumulator and the batch as
    they were; for any other column neither touches the error code. *)
Theorem data_load_store_corruption pdatum pdatum' errcode kds colidx rowidx rowidx' :
  0 <= colidx ->
  let attlen := cell (colmeta_attlen kds) colidx in
  let l := gpupreagg_data_load pdatum errcode kds colidx rowidx in
  let s := gpupreagg_data_store pdatum' errcode kds colidx rowidx' in
  (colidx < ncols kds /\ (attlen = 2 \/ attlen = 4 \/ attlen = 8) ->
     fst l = errcode /\ fst s = errcode) /\
  (~ (colidx < ncols kds /\ (attlen = 2 \/ attlen = 4 \/ attlen = 8)) ->
     l = (STROM_SET_ERROR errcode StromError_DataStoreCorruption, pdatum) /\
     s = (STROM_SET_ERROR errcode StromError_DataStoreCorruption, kds)).
Proof.
  intros Hc attlen l s. subst l s.
  unfold gpupreagg_data_load, gpupreagg_data_store. fold attlen.
  destruct (Z.geb_spec colidx (ncols kds)) as [Hge|Hlt].
  - split; [intros [Hlt _]; lia|auto].
  - destruct (Z.eqb_spec attlen 2) as [H2|H2];
      [|destruct (Z.eqb_spec attlen 4) as [H4|H4];
        [|destruct (Z.eqb_spec attlen 8) as [H8|H8]]]; simpl.
    + split; [auto|]. intros Hn. exfalso. apply Hn. auto.
    + split; [auto|]. intros Hn. exfalso. apply Hn. auto.
    + split; [auto|]. intros Hn. exfalso. apply Hn. auto.
    + split; [|auto]. intros [_ [?|[?|?]]]; contradiction.
Qed.

Lemma data_load_store_corruption_witness :
  0 <= 2 /\
  gpupreagg_data_load (mk_pagg_datum 0 false 9) StromError_Success
    distinct_batch 2 0
  = (StromError_DataStoreCorruption, mk_pagg_datum 0 false 9) /\
  gpupreagg_data_store (mk_pagg_datum 0 false 9) StromError_Success
    distinct_batch 2 0
  = (StromError_DataStoreCorruption, distinct_batch).
Proof.
  assert (H0 : 0 <= 2) by lia. split; [exact H0|].
  destruct (data_load_store_corruption (mk_pagg_datum 0 false 9)
              (mk_pagg_datum 0 false 9) StromError_Success distinct_batch 2 0 0 H0)
    as [_ H].
  apply H. intros [Hlt _]. vm_compute in Hlt. discriminate Hlt.
Defined.

(** X6. Store and load are inverse on a column of 2, 4 or 8 bytes: loading
    the cell that an accumulator was stored to gives back its null flag
    and, for a non-null accumulator, its value in the field of the column;
    neither call touches its error code, and the [group_id] of the
    accumulator loaded into is kept. *)
Theorem data_store_load_round_trip f pdatum pdatum0 e e0 kds colidx rowidx :
  kds_wf kds -> 0 <= colidx < ncols kds ->
  0 <= rowidx -> (Z.to_nat rowidx < length (slots kds))%nat ->
  cell (colmeta_attlen kds) colidx = field_bits f / 8 ->
  let s := gpupreagg_data_store pdatum e kds colidx rowidx in
  let l := gpupreagg_data_load pdatum0 e0 (snd s) colidx rowidx in
  fst s = e /\ fst l = e0 /\
  pd_isnull (snd l) = pd_isnull pdatum /\
  (pd_isnull pdatum = false -> get_val f (snd l) = get_val f pdatum) /\
  pd_group_id (snd l) = pd_group_id pdatum0.
Proof.
  intros Hwf Hc Hr Hlen Hatt s l.
  assert (Hs : s = (e, pg_vstore kds colidx rowidx (pd_isnull pdatum)
                         (get_val f pdatum))).
  { subst s. unfold gpupreagg_data_store.
    replace (colidx >=? ncols kds) with false by (symmetry; lia).
    rewrite Hatt. destruct f; reflexivity. }
  destruct (pg_vstore_cells kds colidx rowidx (pd_isnull pdatum) (get_val f pdatum)
              Hwf Hc Hr Hlen) as [Hnull Hval].
  assert (Hl : l = (e0, load_field f pdatum0
                          (kern_get_datum (snd s) colidx rowidx))).
  { subst l. unfold gpupreagg_data_load.
    assert (Hn : ncols (snd s) = ncols kds)
      by (rewrite Hs; unfold pg_vstore; simpl; destruct (pd_isnull pdatum);
          reflexivity).
    assert (Ha : colmeta_attlen (snd s) = colmeta_attlen kds)
      by (rewrite Hs; unfold pg_vstore; simpl; destruct (pd_isnull pdatum);
          reflexivity).
    rewrite Hn, Ha.
    replace (colidx >=? ncols kds) with false by (symmetry; lia).
    rewrite Hatt. destruct f; reflexivity. }
  rewrite Hl, Hs. simpl fst. simpl snd.
  split; [reflexivity|]. split; [reflexivity|].
  unfold kern_get_datum. rewrite Hnull.
  destruct (pd_isnull pdatum) eqn:Hp.
  - cbv [negb Z.eqb].
    unfold load_field.
    repeat split; auto. discriminate.
  - cbv [negb Z.eqb].
    rewrite (Hval eq_refl).
    unfold load_field. repeat split; auto.
    intros _. rewrite set_val_set_isnull, get_val_set_isnull, get_set_val. apply wrap_signed_small, get_val_in_range.
Qed.

Lemma data_store_load_round_trip_witness :
  kds_wf distinct_batch /\ 0 <= 1 < ncols distinct_batch /\ 0 <= 2 /\
  (Z.to_nat 2 < length (slots distinct_batch))%nat /\
  cell (colmeta_attlen distinct_batch) 1 = field_bits F_int / 8 /\
  get_val F_int
    (snd (gpupreagg_data_load (mk_pagg_datum 0 true 0) StromError_Success
            (snd (gpupreagg_data_store (datum_of F_int (-5)) StromError_Success
                    distinct_batch 1 2)) 1 2)) = -5.
Proof.
  assert (H1 : kds_wf distinct_batch).
  { split; [vm_compute; discriminate|]. repeat constructor. }
  assert (H2 : 0 <= 1 < ncols distinct_batch) by (vm_compute; split; congruence).
  assert (H3 : 0 <= 2) by lia.
  assert (H4 : (Z.to_nat 2 < length (slots distinct_batch))%nat) by (vm_compute; lia).
  assert (H5 : cell (colmeta_attlen distinct_batch) 1 = field_bits F_int / 8)
    by reflexivity.
  repeat (split; [assumption|]).
  destruct (data_store_load_round_trip F_int (datum_of F_int (-5))
              (mk_pagg_datum 0 true 0) StromError_Success StromError_Success
              distinct_batch 1 2 H1 H2 H3 H4 H5) as (_ & _ & _ & Hv & _).
  rewrite (Hv eq_refl). reflexivity.
Defined.

(** X7. A moved cell loads like its source: after [gpupreagg_data_move] of
    a column that has the same [attlen] in both batches, loading the
    destination cell gives the accumulator and the error code that loading
    the source cell gives. *)
Theorem data_move_then_load pdatum e e' kds_src kds_dst colidx rowidx_src rowidx_dst :
  kds_wf kds_dst ->
  0 <= colidx < ncols kds_src -> colidx < ncols kds_dst ->
  0 <= rowidx_dst -> (Z.to_nat rowidx_dst < length (slots kds_dst))%nat ->
  cell (colmeta_attlen kds_dst) colidx = cell (colmeta_attlen kds_src) colidx ->
  let m := gpupreagg_data_move e' kds_src kds_dst colidx rowidx_src rowidx_dst in
  fst m = e' /\
  gpupreagg_data_load pdatum e (snd m) colidx rowidx_dst
  = gpupreagg_data_load pdatum e kds_src colidx rowidx_src.
Proof.
  intros Hwf Hs Hd Hr Hlen Hatt m.
  destruct (kds_wf_row _ _ Hwf Hr Hlen) as [Hv Hn].
  subst m. unfold gpupreagg_data_move.
  replace (colidx >=? ncols kds_src) with false by (symmetry; lia).
  replace (colidx >=? ncols kds_dst) with false by (symmetry; lia).
  simpl orb. cbv iota.
  set (src_null := cell (KERN_DATA_STORE_ISNULL kds_src rowidx_src) colidx).
  assert (Hload : forall n v,
            (n = 0 -> src_null = 0 /\
                      v = cell (KERN_DATA_STORE_VALUES kds_src rowidx_src) colidx) ->
            (n <> 0 -> src_null <> 0) ->
            gpupreagg_data_load pdatum e (set_datum kds_dst rowidx_dst colidx n v)
              colidx rowidx_dst
            = gpupreagg_data_load pdatum e kds_src colidx rowidx_src).
  { intros n v Hz Hnz. unfold gpupreagg_data_load, kern_get_datum.
    rewrite set_datum_isnull, set_datum_values by lia.
    simpl ncols. simpl colmeta_attlen. rewrite Hatt. fold src_null.
    replace (colidx >=? ncols kds_dst) with false by (symmetry; lia).
    replace (colidx >=? ncols kds_src) with false by (symmetry; lia).
    destruct (Z.eqb_spec n 0) as [Hn0|Hn0].
    - destruct (Hz Hn0) as [Hs0 ->]. rewrite Hs0. reflexivity.
    - specialize (Hnz Hn0).
      destruct (Z.eqb_spec src_null 0); [contradiction|reflexivity]. }
  destruct (Z.eqb_spec src_null 0) as [Hz|Hnz]; simpl negb; cbv iota; simpl fst;
    simpl snd; (split; [reflexivity|]); apply Hload; auto; try lia; congruence.
Qed.

Lemma data_move_then_load_witness :
  kds_wf distinct_batch /\
  0 <= 1 < ncols collision_batch /\ 1 < ncols distinct_batch /\
  0 <= 3 /\ (Z.to_nat 3 < length (slots distinct_batch))%nat /\
  cell (colmeta_attlen distinct_batch) 1 = cell (colmeta_attlen collision_batch) 1 /\
  get_val F_int
    (snd (gpupreagg_data_load (mk_pagg_datum 0 true 0) StromError_Success
            (snd (gpupreagg_data_move StromError_Success collision_batch
                    distinct_batch 1 2 3)) 1 3)) = 3.
Proof.
  assert (H1 : kds_wf distinct_batch).
  { split; [vm_compute; discriminate|]. repeat constructor. }
  assert (H2 : 0 <= 1 < ncols collision_batch) by (simpl; lia).
  assert (H3 : 1 < ncols distinct_batch) by (vm_compute; reflexivity).
  assert (H4 : 0 <= 3) by lia.
  assert (H5 : (Z.to_nat 3 < length (slots distinct_batch))%nat) by (vm_compute; lia).
  assert (H6 : cell (colmeta_attlen distinct_batch) 1
               = cell (colmeta_attlen collision_batch) 1) by reflexivity.
  repeat (split; [assumption|]).
  destruct (data_move_then_load (mk_pagg_datum 0 true 0) StromError_Success
              StromError_Success collision_batch distinct_batch 1 2 3
              H1 H2 H3 H4 H5 H6) as [_ Hload].
  rewrite Hload. reflexivity.
Defined.

End LoadStore.

(** ** gpupreagg_preparation: the valid rows are packed *)

Section Preparation.

Context `{F : GpuPreAggFunctions}.
Variable kds_in : kern_data_store.

Lemma sumZ_flags (l : list (StromError * Z)) :
  sumZ (map (fun p => if snd p <? nitems kds_in then 1 else 0) l)
  = Z.of_nat (length (List.filter (valid_row kds_in) l)).
Proof.
  induction l as [|p l IH]; [reflexivity|].
  unfold valid_row, sumZ in *. simpl.
  destruct (snd p <? nitems kds_in); simpl length; rewrite IH; lia.
Qed.

Lemma filter_take_le n (l : list (StromError * Z)) :
  (length (List.filter (valid_row kds_in) (take n l))
   <= length (List.filter (valid_row kds_in) l))%nat.
Proof.
  rewrite <- (take_drop n l) at 2. rewrite List.filter_app, length_app. lia.
Qed.

Lemma fold_left_cons_eq {A B} (f : A -> B -> A) (a : B) (l : list B) (i : A) :
  fold_left f (a :: l) i = fold_left f l (f i a).
Proof. reflexivity. Qed.

Lemma filter_cons_eq {A} (f : A -> bool) (x : A) (l : list A) :
  List.filter f (x :: l) = if f x then x :: List.filter f l else List.filter f l.
Proof. reflexivity. Qed.

(** The loop of the work-group from work-item [length done] on. *)
Lemma preparation_fold base pre : forall rest done errs kds,
  pre = done ++ rest ->
  0 <= base ->
  base + Z.of_nat (length (List.filter (valid_row kds_in) pre)) < 2 ^ 32 ->
  snd (fold_left
         (fun (acc : list StromError * kern_data_store)
              (lp : nat * (StromError * Z)) =>
            let '(errs, kds) := acc in
            let '(lid, (e, kds_index)) := lp in
            if kds_index <? nitems kds_in then
              let offset :=
                fst (arithmetic_stairlike_add
                       (map (fun p => if snd p <? nitems kds_in then 1 else 0) pre)
                       lid) in
              let '(e', kds') :=
                gpupreagg_projection e kds_in kds kds_index
                  (wrap_unsigned 32 (base + offset)) in
              (errs ++ [e'], kds')
            else (errs ++ [e], kds))
         (imap (fun i p => (length done + i, p)%nat) rest) (errs, kds))
  = fold_left
      (fun kds (ip : nat * (StromError * Z)) =>
         snd (gpupreagg_projection (fst (snd ip)) kds_in kds (snd (snd ip))
                (base + Z.of_nat (fst ip))))
      (imap (fun i p => (length (List.filter (valid_row kds_in) done) + i, p)%nat)
            (List.filter (valid_row kds_in) rest))
      kds.
Proof.
  induction rest as [|[e k] rest IH]; intros done errs kds Hpre Hb Hfit;
    [reflexivity|].
  assert (Hpre' : pre = (done ++ [(e, k)]) ++ rest) by now rewrite <- app_assoc.
  specialize (IH (done ++ [(e, k)])).
  rewrite imap_cons, fold_left_cons_eq.
  rewrite (imap_ext _ (fun i p => (length (done ++ [(e, k)]) + i, p)%nat) rest)
    by (intros i x _; simpl; rewrite length_app; simpl; f_equal; lia).
  rewrite filter_cons_eq. cbv beta iota zeta. unfold valid_row at 2. cbn [snd].
  assert (Hdone : forall i,
            (length (List.filter (valid_row kds_in) (done ++ [(e, k)])) + i
             = length (List.filter (valid_row kds_in) done)
               + (if (k <? nitems kds_in)%Z then S i else i))%nat).
  { intros i. rewrite List.filter_app, length_app. simpl. unfold valid_row at 2.
    simpl snd. destruct (k <? nitems kds_in); simpl; lia. }
  destruct (k <? nitems kds_in) eqn:Hk.
  - assert (Hoff : wrap_unsigned 32
             (base + fst (arithmetic_stairlike_add
                            (map (fun p => if snd p <? nitems kds_in then 1 else 0) pre)
                            (length done + 0)))
           = base + Z.of_nat (length (List.filter (valid_row kds_in) done) + 0)).
    { unfold arithmetic_stairlike_add. simpl fst.
      rewrite <- fmap_take, sumZ_flags, !Nat.add_0_r.
      assert (Htake : take (length done) pre = done)
        by (rewrite Hpre; apply take_app_length).
      rewrite Htake.
      pose proof (filter_take_le (length done) pre) as Hle. rewrite Htake in Hle.
      unfold wrap_unsigned. rewrite (Z.mod_small (Z.of_nat _)) by lia.
      rewrite Z.mod_small by lia. reflexivity. }
    rewrite Hoff.
    destruct (gpupreagg_projection e kds_in kds k _) as [e' kds'] eqn:Hproj.
    rewrite IH by assumption.
    rewrite imap_cons, fold_left_cons_eq. simpl fst. simpl snd. rewrite Hproj.
    simpl snd. f_equal. apply imap_ext. intros i x _. simpl.
    f_equal. rewrite Hdone. lia.
  - rewrite IH by assumption. f_equal. apply imap_ext. intros i x _. simpl.
    f_equal. apply Hdone.
Qed.

Lemma set_nitems_same (kds : kern_data_store) : set_nitems kds (nitems kds) = kds.
Proof. now destruct kds. Qed.

End Preparation.

Section PreparationRows.

Context `{F : GpuPreAggFunctions}.
Variables (kgpreagg : kern_gpupreagg) (kds_in : kern_data_store).
Hypothesis Hnitems : 0 <= nitems kds_in < 2 ^ 32.
Hypothesis Hentries :
  Forall (fun r => - 2 ^ 31 <= r < 2 ^ 31) (rindex (krowmap kgpreagg)).
Hypothesis Hnvalids :
  nvalids (krowmap kgpreagg) <= Z.of_nat (length (rindex (krowmap kgpreagg))).

Lemma preparation_kds_index_row (gid : nat) :
  let p := preparation_kds_index kgpreagg kds_in (Z.of_nat gid) in
  (if valid_row kds_in p then Some p else None)
  = match row_of_workitem kgpreagg kds_in gid with
    | Some r =>
        let '(e, ok) := gpupreagg_qual_eval StromError_Success kds_in r in
        if ok then Some (e, r) else None
    | None => None
    end.
Proof.
  cbv zeta. unfold preparation_kds_index, row_of_workitem, valid_row. cbv zeta.
  assert (Hq : forall r, (r <? nitems kds_in) = true ->
     (if snd (if r <? nitems kds_in
              then let '(e, ok) := gpupreagg_qual_eval StromError_Success kds_in r in
                   (e, if ok then r else nitems kds_in)
              else (StromError_Success, r)) <? nitems kds_in
      then Some (if r <? nitems kds_in
                 then let '(e, ok) := gpupreagg_qual_eval StromError_Success kds_in r in
                      (e, if ok then r else nitems kds_in)
                 else (StromError_Success, r))
      else None)
     = (let '(e, ok) := gpupreagg_qual_eval StromError_Success kds_in r in
        if ok then Some (e, r) else None)).
  { intros r Hr. rewrite Hr.
    destruct (gpupreagg_qual_eval StromError_Success kds_in r) as [e ok].
    destruct ok; cbn [snd]; [rewrite Hr; reflexivity|].
    rewrite Z.ltb_irrefl. reflexivity. }
  assert (Hno : forall r, (r <? nitems kds_in) = false ->
     (if snd (if r <? nitems kds_in
              then let '(e, ok) := gpupreagg_qual_eval StromError_Success kds_in r in
                   (e, if ok then r else nitems kds_in)
              else (StromError_Success, r)) <? nitems kds_in
      then Some (if r <? nitems kds_in
                 then let '(e, ok) := gpupreagg_qual_eval StromError_Success kds_in r in
                      (e, if ok then r else nitems kds_in)
                 else (StromError_Success, r))
      else None) = None).
  { intros r Hr. rewrite Hr. cbn [snd]. rewrite Hr. reflexivity. }
  assert (Hdec : forall b : bool, {b = true} + {b = false})
    by (intros []; auto).
  destruct (nvalids (krowmap kgpreagg) <? 0).
  - destruct (Hdec (Z.of_nat gid <? nitems kds_in)) as [Hg|Hg].
    + rewrite (Hq _ Hg), Hg. reflexivity.
    + rewrite (Hno _ Hg), Hg. reflexivity.
  - destruct (Z.ltb_spec (Z.of_nat gid) (nvalids (krowmap kgpreagg))) as [Hlt|Hge].
    + destruct (lookup_lt_is_Some_2 (rindex (krowmap kgpreagg)) gid ltac:(lia))
        as [r Hr].
      assert (Hcell : cell (rindex (krowmap kgpreagg)) (Z.of_nat gid) = r)
        by (unfold cell; rewrite Nat2Z.id, Hr; reflexivity).
      rewrite Hcell, Hr.
      pose proof (proj1 (Forall_lookup _ _) Hentries _ _ Hr) as Hrange.
      cbv beta in Hrange.
      destruct (Z.leb_spec 0 r) as [Hpos|Hneg]; simpl andb.
      * assert (Hw : wrap_unsigned 64 r = r)
          by (apply Z.mod_small; change (2 ^ 64) with (2 ^ 33 * 2 ^ 31); lia).
        rewrite Hw.
        destruct (Hdec (r <? nitems kds_in)) as [Hrn|Hrn].
        -- rewrite (Hq _ Hrn), Hrn. reflexivity.
        -- rewrite (Hno _ Hrn), Hrn. reflexivity.
      * apply Hno. apply Z.ltb_ge.
        assert (Hw : wrap_unsigned 64 r = r + 2 ^ 64).
        { unfold wrap_unsigned. rewrite <- (Z.mod_add r 1 (2 ^ 64)) by lia.
          rewrite Z.mul_1_l. apply Z.mod_small.
          change (2 ^ 64) with (2 ^ 33 * 2 ^ 31). lia. }
        rewrite Hw. change (2 ^ 64) with (2 ^ 32 * 2 ^ 32). nia.
    + apply Hno. apply Z.ltb_irrefl.
Qed.

Lemma omap_cons_eq {A B} (f : A -> option B) (x : A) (l : list A) :
  omap f (x :: l)
  = match f x with Some y => y :: omap f l | None => omap f l end.
Proof. reflexivity. Qed.

Lemma preparation_rows_accepted (L g : nat) :
  preparation_rows L g kgpreagg kds_in = accepted_rows L g kgpreagg kds_in.
Proof.
  unfold preparation_rows, accepted_rows.
  induction (group_members L g) as [|gid l IH]; [reflexivity|].
  rewrite omap_cons_eq, <- IH. cbn [map]. rewrite filter_cons_eq.
  pose proof (preparation_kds_index_row gid) as Hrow. cbv zeta in Hrow.
  rewrite <- Hrow.
  destruct (valid_row kds_in (preparation_kds_index kgpreagg kds_in (Z.of_nat gid)));
    reflexivity.
Qed.

(** X8. A work-group of the preparation kernel packs the rows it accepts.
    The row of a work-item is its own id when there is no row map, and
    below [nvalids] the entry of the row map, which counts when it is a row
    of the batch (an entry that is negative or not below [nitems] is no
    row); the row is accepted when the qualifier returns true.  When the
    accepted rows of the work-group fit into the destination batch,
    [nitems] grows by their number and they are projected, in the order of
    the work-items, to the consecutive rows from the former [nitems] on,
    whichever work-items hold them. *)
Theorem preparation_packs_valid_rows (L g : nat) (kds_src : kern_data_store) :
  let rows := accepted_rows L g kgpreagg kds_in in
  let n := Z.of_nat (length rows) in
  0 <= nitems kds_src -> nitems kds_src + n <= nrooms kds_src ->
  nrooms kds_src < 2 ^ 32 ->
  snd (gpupreagg_preparation_group L g kgpreagg kds_in kds_src)
  = project_rows kds_in (nitems kds_src) rows
      (set_nitems kds_src (nitems kds_src + n)).
Proof.
  cbv zeta. rewrite <- (preparation_rows_accepted L g).
  set (rows := preparation_rows L g kgpreagg kds_in).
  set (n := Z.of_nat (length rows)).
  intros Hn0 Hroom H32.
  unfold gpupreagg_preparation_group. unfold preparation_rows in rows.
  set (pre := map (fun gid => preparation_kds_index kgpreagg kds_in (Z.of_nat gid))
                  (group_members L g)) in *.
  assert (Hgrp : snd (arithmetic_stairlike_add
                        (map (fun p => if snd p <? nitems kds_in then 1 else 0) pre)
                        0) = n).
  { unfold arithmetic_stairlike_add. simpl snd. rewrite sumZ_flags.
    fold rows. fold n. unfold wrap_unsigned. apply Z.mod_small. lia. }
  rewrite Hgrp. unfold preparation_reserve.
  destruct (Z.ltb_spec 0 n) as [Hpos|Hzero]; cbv beta iota zeta.
  - assert (Hw : wrap_unsigned 32 (nitems kds_src + n) = nitems kds_src + n)
      by (apply Z.mod_small; lia).
    rewrite !Hw. cbn [nrooms set_nitems].
    replace (nrooms kds_src <? nitems kds_src + n) with false by (symmetry; lia).
    destruct (fold_left _ (imap pair pre) _) as [errs kds2] eqn:Hfold.
    cbn [snd]. change kds2 with (snd (errs, kds2)). rewrite <- Hfold.
    rewrite (preparation_fold kds_in (nitems kds_src) pre pre [] [] _ eq_refl Hn0)
      by (fold rows; fold n; lia).
    reflexivity.
  - assert (Hn : n = 0) by lia.
    replace (nrooms kds_src <? wrap_unsigned 32 (0 + n)) with false
      by (rewrite Hn; change (wrap_unsigned 32 (0 + 0)) with 0; symmetry; lia).
    destruct (fold_left _ (imap pair pre) _) as [errs kds2] eqn:Hfold.
    cbn [snd]. change kds2 with (snd (errs, kds2)). rewrite <- Hfold.
    rewrite (preparation_fold kds_in 0 pre pre [] [] _ eq_refl (Z.le_refl 0))
      by (fold rows; fold n; lia).
    rewrite Hn, Z.add_0_r, set_nitems_same. unfold project_rows.
    assert (Hrows : rows = []) by (apply nil_length_inv; lia).
    fold rows. rewrite Hrows. reflexivity.
Qed.

End PreparationRows.

(** A row map that hides row 1 and holds a negative entry: the rows 2 and
    0 are projected, in this order. *)
Lemma preparation_packs_valid_rows_witness :
  let kg := mk_kgpreagg StromError_Success 4
              [GPUPREAGG_FIELD_IS_GROUPKEY; GPUPREAGG_FIELD_IS_AGGFUNC]
              (mk_krowmap 3 [2; -1; 0; 3]) in
  let dst := batch_of 4 [] in
  0 <= nitems collision_batch < 2 ^ 32 /\
  Forall (fun r => - 2 ^ 31 <= r < 2 ^ 31) (rindex (krowmap kg)) /\
  nvalids (krowmap kg) <= Z.of_nat (length (rindex (krowmap kg))) /\
  0 <= nitems dst /\
  nitems dst + Z.of_nat (length (@accepted_rows sum_query 4 0 kg collision_batch))
  <= nrooms dst /\
  nrooms dst < 2 ^ 32 /\
  snd (@gpupreagg_preparation_group sum_query 4 0 kg collision_batch dst)
  = batch_of 4 [(1, 3); (1, 1)].
Proof.
  cbv zeta.
  set (kg := mk_kgpreagg StromError_Success 4
               [GPUPREAGG_FIELD_IS_GROUPKEY; GPUPREAGG_FIELD_IS_AGGFUNC]
               (mk_krowmap 3 [2; -1; 0; 3])).
  assert (H1 : 0 <= nitems collision_batch < 2 ^ 32)
    by (vm_compute; split; [discriminate|reflexivity]).
  assert (H2 : Forall (fun r => - 2 ^ 31 <= r < 2 ^ 31) (rindex (krowmap kg)))
    by (repeat constructor; vm_compute; discriminate).
  assert (H3 : nvalids (krowmap kg) <= Z.of_nat (length (rindex (krowmap kg))))
    by (vm_compute; discriminate).
  assert (H4 : 0 <= nitems (batch_of 4 [])) by (vm_compute; discriminate).
  assert (H5 : nitems (batch_of 4 [])
               + Z.of_nat (length (@accepted_rows sum_query 4 0 kg collision_batch))
               <= nrooms (batch_of 4 [])) by (vm_compute; discriminate).
  assert (H6 : nrooms (batch_of 4 []) < 2 ^ 32) by (vm_compute; reflexivity).
  repeat (split; [assumption|]).
  rewrite (@preparation_packs_valid_rows sum_query kg collision_batch H1 H2 H3
             4 0 (batch_of 4 []) H4 H5 H6).
  vm_compute. reflexivity.
Defined.

(** ** gpupreagg_global_preparation: the strided loops cover the table *)

Section GlobalPreparation.

Variables (hsize gsize : Z).
Hypothesis Hgsize : 0 < gsize < 2 ^ 32.
Hypothesis Hhsize : 0 <= hsize < 2 ^ 32.

(** The slots a work-item resets: those of its residue class from
    [curr_index] on. *)
Lemma hashslot_reset_loop_spec : forall fuel c tbl,
  0 <= c -> (Z.to_nat (hsize - c) < fuel)%nat ->
  exists tbl',
    hashslot_reset_loop fuel hsize gsize c tbl = Some tbl' /\
    length tbl' = length tbl /\
    forall i s, tbl !! i = Some s ->
      tbl' !! i = Some (if bool_decide (c <= Z.of_nat i < hsize /\
                                          Z.of_nat i mod gsize = c mod gsize)
                        then old_slot else s).
Proof.
  induction fuel as [|fuel IH]; intros c tbl Hc Hfuel; [lia|].
  simpl. destruct (Z.ltb_spec c hsize) as [Hlt|Hge].
  - assert (Hw : wrap_unsigned 64 (c + gsize) = c + gsize).
    { apply Z.mod_small. change (2 ^ 64) with (2 ^ 32 * 2 ^ 32). nia. }
    rewrite Hw.
    destruct (IH (c + gsize) (<[Z.to_nat c := mk_slot 0 ALL_ONES]> tbl)
                ltac:(lia) ltac:(lia)) as (tbl' & Hrun & Hlen & Hcells).
    exists tbl'. split; [exact Hrun|]. split; [now rewrite Hlen, length_insert|].
    intros i s Hi.
    assert (Hmod : (c + gsize) mod gsize = c mod gsize).
    { replace (c + gsize) with (c + 1 * gsize) by lia. apply Z.mod_add. lia. }
    destruct (decide (i = Z.to_nat c)) as [->|Hne].
    + rewrite (Hcells _ (mk_slot 0 ALL_ONES))
        by (apply list_lookup_insert_eq; eapply lookup_lt_Some; eassumption).
      rewrite Z2Nat.id by lia. f_equal.
      rewrite (bool_decide_eq_true_2 (c <= c < hsize /\ _)) by (split; [lia|reflexivity]).
      now destruct (bool_decide _).
    + rewrite (Hcells _ s) by (rewrite list_lookup_insert_ne; [exact Hi|congruence]).
      f_equal. rewrite Hmod.
      destruct (bool_decide_reflect (c + gsize <= Z.of_nat i < hsize /\
                                     Z.of_nat i mod gsize = c mod gsize)) as [H1|H1];
        destruct (bool_decide_reflect (c <= Z.of_nat i < hsize /\
                                       Z.of_nat i mod gsize = c mod gsize)) as [H2|H2];
        try reflexivity; exfalso.
      * apply H2. split; [lia|apply H1].
      * apply H1. split; [|apply H2]. split; [|lia].
        destruct H2 as [H2 H3].
        assert (Hd : (Z.of_nat i - c) mod gsize = 0).
        { rewrite Zminus_mod, H3, Z.sub_diag. apply Z.mod_0_l. lia. }
        apply Z.mod_divide in Hd; [|lia]. destruct Hd as [q Hq].
        assert (0 < q) by nia. nia.
  - exists tbl. split; [reflexivity|]. split; [reflexivity|].
    intros i s Hi. rewrite Hi. f_equal.
    rewrite bool_decide_eq_false_2 by lia. reflexivity.
Qed.

Lemma global_preparation_launch_spec : forall order kg tbl,
  hash_size kg = hsize ->
  (forall g, g ∈ order -> 0 <= g < gsize) ->
  exists tbl',
    global_preparation_launch gsize order kg tbl
    = Some (if bool_decide (0 ∈ order)
            then set_krowmap kg (mk_krowmap 0 (rindex (krowmap kg))) else kg,
            tbl') /\
    length tbl' = length tbl /\
    forall i s, tbl !! i = Some s ->
      tbl' !! i = Some (if bool_decide (Z.of_nat i < hsize /\
                                          Z.of_nat i mod gsize ∈ order)
                        then old_slot else s).
Proof.
  induction order as [|a order IH]; intros kg tbl Hh Hrange.
  - exists tbl. split; [reflexivity|]. split; [reflexivity|].
    intros i s Hi. rewrite Hi. f_equal.
    rewrite bool_decide_eq_false_2; [reflexivity|].
    intros [_ Hin]. inversion Hin.
  - assert (Ha : 0 <= a < gsize) by (apply Hrange; left).
    unfold global_preparation_launch. rewrite fold_left_cons_eq.
    cbn [mbind option_bind]. unfold global_preparation_workitem at 2.
    cbn [fst snd]. rewrite Hh.
    destruct (hashslot_reset_loop_spec (S (Z.to_nat hsize)) a tbl ltac:(lia)
                ltac:(lia)) as (tbl1 & Hrun & Hlen1 & Hcells1).
    rewrite Hrun. cbn [mbind option_bind].
    set (kg1 := if a =? 0
                then set_krowmap kg (mk_krowmap 0 (rindex (krowmap kg))) else kg).
    assert (Hh1 : hash_size kg1 = hsize)
      by (unfold kg1; destruct (a =? 0); exact Hh).
    destruct (IH kg1 tbl1 Hh1 ltac:(intros g Hg; apply Hrange; now right))
      as (tbl' & Hrun' & Hlen' & Hcells').
    unfold global_preparation_launch in Hrun'. rewrite Hrun'.
    exists tbl'. split; [|split; [congruence|]].
    + f_equal. f_equal. unfold kg1.
      destruct (Z.eqb_spec a 0) as [->|Hne].
      * rewrite (bool_decide_eq_true_2 (0 ∈ 0 :: order)) by left.
        now destruct (bool_decide (0 ∈ order)).
      * destruct (bool_decide_reflect (0 ∈ order)) as [Hin|Hin].
        -- rewrite bool_decide_eq_true_2 by now right. reflexivity.
        -- rewrite bool_decide_eq_false_2; [reflexivity|].
           intros H. apply elem_of_cons in H. destruct H; [lia|contradiction].
    + intros i s Hi. rewrite (Hcells' _ _ (Hcells1 _ _ Hi)). f_equal.
      rewrite (Z.mod_small a gsize) by lia.
      pose proof (Z.mod_pos_bound (Z.of_nat i) gsize ltac:(lia)) as Hb.
      destruct (bool_decide_reflect (Z.of_nat i < hsize /\
                                     Z.of_nat i mod gsize ∈ order)) as [H1|H1];
        destruct (bool_decide_reflect (a <= Z.of_nat i < hsize /\
                                       Z.of_nat i mod gsize = a)) as [H2|H2];
        destruct (bool_decide_reflect (Z.of_nat i < hsize /\
                                       Z.of_nat i mod gsize ∈ a :: order)) as [H3|H3];
        try reflexivity; exfalso.
      * apply H3. split; [apply H1|]. right. apply H1.
      * apply H3. split; [apply H1|]. right. apply H1.
      * apply H3. split; [lia|]. destruct H2 as [_ ->]. left.
      * destruct H3 as [H3 H4]. apply elem_of_cons in H4. destruct H4 as [H4|H4].
        -- apply H2. split; [|exact H4]. split; [|lia].
           rewrite <- H4. apply Z.mod_le; lia.
        -- apply H1. auto.
Qed.

End GlobalPreparation.

(** X9. Work-item by work-item, [gpupreagg_global_preparation] empties
    every slot below [hash_size] and zeroes [nvalids], whatever the number
    of work-items in the launch and the order they run in: each work-item
    walks its own residue class of slot numbers, and together the classes
    cover the table once. *)
Theorem global_preparation_strided (gsize : Z) (order : list Z)
    (kgpreagg : kern_gpupreagg) (g_hashslot : list pagg_hashslot) :
  0 < gsize < 2 ^ 32 -> 0 <= hash_size kgpreagg < 2 ^ 32 ->
  (Z.to_nat (hash_size kgpreagg) <= length g_hashslot)%nat ->
  order ≡ₚ seqZ 0 gsize ->
  global_preparation_launch gsize order kgpreagg g_hashslot
  = Some (gpupreagg_global_preparation kgpreagg g_hashslot).
Proof.
  intros Hg Hh Hlen Hperm.
  destruct (global_preparation_launch_spec (hash_size kgpreagg) gsize Hg Hh
              order kgpreagg g_hashslot eq_refl) as (tbl' & Hrun & Hl & Hcells).
  { intros g Hin. rewrite Hperm in Hin. apply elem_of_seqZ in Hin. lia. }
  rewrite Hrun. unfold gpupreagg_global_preparation. f_equal.
  rewrite bool_decide_eq_true_2
    by (rewrite Hperm; apply elem_of_seqZ; lia).
  f_equal. apply list_eq. intros i. rewrite list_lookup_imap.
  destruct (g_hashslot !! i) as [s|] eqn:Hi.
  - rewrite (Hcells _ _ Hi). simpl. f_equal.
    pose proof (Z.mod_pos_bound (Z.of_nat i) gsize ltac:(lia)) as Hb.
    destruct (Z.ltb_spec (Z.of_nat i) (hash_size kgpreagg)) as [Hlt|Hge].
    + rewrite bool_decide_eq_true_2; [reflexivity|].
      split; [exact Hlt|]. rewrite Hperm. apply elem_of_seqZ. lia.
    + rewrite bool_decide_eq_false_2; [reflexivity|]. lia.
  - simpl. apply lookup_ge_None. apply lookup_ge_None in Hi. lia.
Qed.

Lemma global_preparation_strided_witness :
  0 < 3 < 2 ^ 32 /\ 0 <= hash_size collision_control < 2 ^ 32 /\
  (Z.to_nat (hash_size collision_control) <= length stale_table)%nat /\
  [2; 0; 1] ≡ₚ seqZ 0 3 /\
  global_preparation_launch 3 [2; 0; 1] collision_control stale_table
  = Some (gpupreagg_global_preparation collision_control stale_table).
Proof.
  assert (H1 : 0 < 3 < 2 ^ 32) by (split; reflexivity).
  assert (H2 : 0 <= hash_size collision_control < 2 ^ 32)
    by (split; [discriminate|reflexivity]).
  assert (H3 : (Z.to_nat (hash_size collision_control) <= length stale_table)%nat)
    by (vm_compute; lia).
  assert (H4 : [2; 0; 1] ≡ₚ seqZ 0 3).
  { change (seqZ 0 3) with [0; 1; 2].
    etransitivity; [apply Permutation_swap|apply perm_skip, Permutation_swap]. }
  repeat (split; [assumption|]).
  exact (global_preparation_strided 3 [2; 0; 1] collision_control stale_table
           H1 H2 H3 H4).
Defined.

(** ** gpupreagg_global_stage counts the groups *)

Section SumLemmas.

Lemma sumZ_app (l1 l2 : list Z) : sumZ (l1 ++ l2) = sumZ l1 + sumZ l2.
Proof.
  unfold sumZ. induction l1 as [|x l1 IH]; simpl; [reflexivity|]. rewrite IH. lia.
Qed.

Lemma sumZ_map_add {A} (f f' d : A -> Z) (l : list A) :
  (forall x, In x l -> f' x = f x + d x) ->
  sumZ (map f' l) = sumZ (map f l) + sumZ (map d l).
Proof.
  unfold sumZ. induction l as [|x l IH]; intros H; simpl; [reflexivity|].
  rewrite IH by (intros; apply H; now right).
  rewrite (H x) by now left. lia.
Qed.

Lemma sumZ_map_zero {A} (f : A -> Z) (l : list A) :
  (forall x, In x l -> f x = 0) -> sumZ (map f l) = 0.
Proof.
  unfold sumZ. induction l as [|x l IH]; intros H; simpl; [reflexivity|].
  rewrite IH by (intros; apply H; now right).
  rewrite (H x) by now left. reflexivity.
Qed.

Lemma sumZ_map_ext {A} (f f' : A -> Z) (l : list A) :
  (forall x, In x l -> f' x = f x) -> sumZ (map f' l) = sumZ (map f l).
Proof.
  intros H. rewrite (sumZ_map_add f f' (fun _ => 0))
    by (intros; rewrite H by assumption; lia).
  rewrite (sumZ_map_zero (fun _ => 0)) by reflexivity. lia.
Qed.

Lemma sumZ_flags_count {A} (f : A -> Z) (l : list A) :
  (forall x, In x l -> f x = 0 \/ f x = 1) ->
  sumZ (map f l) = Z.of_nat (length (List.filter (fun x => f x =? 1) l)).
Proof.
  unfold sumZ. induction l as [|x l IH]; intros H; simpl; [reflexivity|].
  rewrite IH by (intros; apply H; now right).
  destruct (H x ltac:(now left)) as [-> | ->]; simpl; lia.
Qed.

Lemma wrap_signed_add_unsigned a b :
  wrap_signed 32 (wrap_signed 32 a + wrap_unsigned 32 b) = wrap_signed 32 (a + b).
Proof.
  unfold wrap_signed, wrap_unsigned. change (32 - 1) with 31.
  f_equal.
  replace ((a + 2 ^ 31) mod 2 ^ 32 - 2 ^ 31 + b mod 2 ^ 32 + 2 ^ 31)
    with ((a + 2 ^ 31) mod 2 ^ 32 + b mod 2 ^ 32) by lia.
  rewrite <- Z.add_mod by lia. f_equal. lia.
Qed.

End SumLemmas.

Section GroupCount.

Context `{F : GpuPreAggFunctions}.

Lemma global_reduce_column_nvalids kg n0 gid owner dest st attnum :
  nvalids (gs_krowmap (global_reduce_column kg n0 gid owner dest st attnum))
  = nvalids (gs_krowmap st).
Proof.
  unfold global_reduce_column. destruct (negb _); [reflexivity|].
  destruct (_ <? _); [|reflexivity]. destruct (_ =? _); reflexivity.
Qed.

Lemma global_group_member_nvalids kg n0 na L g mv base st gid :
  nvalids (gs_krowmap (global_group_member kg n0 na L g mv base st gid))
  = nvalids (gs_krowmap st).
Proof.
  unfold global_group_member. destruct (gs_items st !! gid); [|reflexivity].
  cbv zeta. cbn [gs_krowmap]. unfold global_reduce_item.
  apply (fold_left_preserves _ (fun s => nvalids (gs_krowmap s))).
  intros a b. apply global_reduce_column_nvalids.
Qed.

Lemma global_group_step_nvalids kg n0 na L g st :
  nvalids (gs_krowmap (global_group_step kg n0 na L g st))
  = wrap_signed 32
      (nvalids (gs_krowmap st)
       + wrap_unsigned 32
           (sumZ (map (global_owner_flag (gs_items st)) (group_members L g)))).
Proof.
  unfold global_group_step. cbv zeta. unfold arithmetic_stairlike_add.
  cbn [snd gs_krowmap gs_kds_dst nvalids].
  destruct (nrooms (gs_kds_dst st) <? _); [reflexivity|].
  rewrite (fold_left_preserves _ (fun s => nvalids (gs_krowmap s)));
    [reflexivity|].
  intros a b. apply global_group_member_nvalids.
Qed.

Lemma global_retry_krowmap kg gid w st :
  gs_krowmap (global_retry kg gid w st) = gs_krowmap st.
Proof.
  unfold global_retry. destruct (atom_cmpxchg _ _ _ _) as [[cur tbl]|]; [|auto].
  destruct (_ =? _); [|destruct (_ && _)]; reflexivity.
Qed.

Lemma distinct_keys_incl kds rows x :
  In x (distinct_keys kds rows) -> In x rows.
Proof.
  induction rows as [|r rows IH]; simpl; [auto|].
  destruct (existsb _ _); [auto|]. intros [->|H]; auto.
Qed.

Lemma distinct_keys_pairwise kds rows : forall i j x y,
  (i < j)%nat ->
  distinct_keys kds rows !! i = Some x -> distinct_keys kds rows !! j = Some y ->
  same_key kds x y = false.
Proof.
  induction rows as [|r rows IH]; intros i j x y Hij Hx Hy; [discriminate|].
  simpl in Hx, Hy. destruct (existsb (same_key kds r) rows) eqn:Hex; [eauto|].
  destruct j as [|j]; [lia|]. simpl in Hy. destruct i as [|i]; simpl in Hx.
  - injection Hx as <-.
    destruct (same_key kds r y) eqn:Hs; [|reflexivity].
    assert (Hin : In y rows).
    { apply distinct_keys_incl with kds. apply list_elem_of_In.
      eapply list_elem_of_lookup_2. eassumption. }
    assert (existsb (same_key kds r) rows = true)
      by (apply existsb_exists; eauto).
    congruence.
  - apply (IH i j); [lia|assumption|assumption].
Qed.

Variables (L NG : nat) (kgpreagg : kern_gpupreagg) (kds : kern_data_store)
          (tbl0 : list pagg_hashslot).
Hypothesis HL : (0 < L)%nat.
Hypothesis Hsize : 0 < hash_size kgpreagg.
Hypothesis Htbl : (Z.to_nat (hash_size kgpreagg) <= length tbl0)%nat.
Hypothesis HK : key_contract kds (gpagg_atts kgpreagg).
Hypothesis Hlaunch : nitems kds <= Z.of_nat (NG * L) < 2 ^ 31.

Lemma sumZ_group (f : nat -> Z) (g : nat) :
  (g < NG)%nat ->
  sumZ (map (fun x => if bool_decide ((x / L)%nat = g) then f x else 0)
            (seq 0 (NG * L)))
  = sumZ (map f (group_members L g)).
Proof.
  intros Hg.
  replace (NG * L)%nat with (g * L + (L + (NG * L - g * L - L)))%nat by nia.
  rewrite !seq_app, !map_app, !sumZ_app. simpl Nat.add.
  rewrite sumZ_map_zero, (sumZ_map_zero _ (seq (g * L + L) _)).
  - rewrite Z.add_0_l, Z.add_0_r. apply sumZ_map_ext. intros x Hx.
    apply (group_members_spec L HL) in Hx.
    rewrite bool_decide_eq_true_2 by assumption. reflexivity.
  - intros x Hx. apply in_seq in Hx.
    rewrite bool_decide_eq_false_2; [reflexivity|]. intros Hd.
    apply (group_members_spec L HL) in Hd. unfold group_members in Hd.
    apply in_seq in Hd. lia.
  - intros x Hx. apply in_seq in Hx.
    rewrite bool_decide_eq_false_2; [reflexivity|]. intros Hd.
    apply (group_members_spec L HL) in Hd. unfold group_members in Hd.
    apply in_seq in Hd. lia.
Qed.

(** Along every schedule, [nvalids] is the number of owners in the
    work-groups that are through. *)
Lemma global_stage_nvalids sched :
  let st := gpupreagg_global_stage L NG kgpreagg kds tbl0 sched in
  nvalids (gs_krowmap st)
  = wrap_signed 32 (sumZ (map (left_flag st) (seq 0 (NG * L)))).
Proof.
  induction sched as [|gid sched IH] using rev_ind; cbv zeta.
  - rewrite sumZ_map_zero; [reflexivity|].
    intros x Hx. unfold left_flag, gpupreagg_global_stage. simpl.
    destruct (_ !! x) as [w|] eqn:Hw; [|reflexivity].
    apply list_lookup_fmap_Some in Hw. destruct Hw as (n & -> & _).
    unfold global_workitem. destruct (_ <? _); reflexivity.
  - rewrite global_reduction_snoc. cbv zeta in IH.
    set (kg := fst (gpupreagg_global_preparation kgpreagg tbl0)).
    set (st := gpupreagg_global_stage L NG kgpreagg kds tbl0 sched) in *.
    assert (Hlen : length (gs_items st) = (NG * L)%nat)
      by (apply global_items_length; exact HL).
    unfold global_step.
    destruct (gs_items st !! gid) as [w|] eqn:Hw; [|exact IH].
    assert (Hgid : (gid < NG * L)%nat)
      by (rewrite <- Hlen; eapply lookup_lt_Some; eassumption).
    destruct (wi_pc w) eqn:Hpc; [| |exact IH].
    + rewrite global_retry_krowmap, IH. f_equal. apply sumZ_map_ext.
      intros x Hx.
      destruct (global_retry_items kg gid w st Hw Hpc) as (w1 & Hit & Hw1).
      unfold left_flag, global_owner_flag. rewrite Hit.
      destruct (decide (gid = x)) as [<-|Hne].
      * rewrite list_lookup_insert_eq by lia. rewrite Hw, Hpc.
        rewrite !bool_decide_eq_false_2 by congruence. reflexivity.
      * rewrite list_lookup_insert_ne by assumption. reflexivity.
    + destruct (all_at PC_barrier (gs_items st) (group_members L (gid / L)))
        eqn:Hall; [|exact IH].
      pose proof (all_at_spec _ _ _ Hall) as Hbar.
      destruct (global_group_step_items kg (nitems kds) (ncols kds) L
                  (gid / L)%nat st) as [Hothers Hmembers].
      destruct (global_group_step_frame kg (nitems kds) (ncols kds) L
                  (gid / L)%nat st) as [_ Hitems _ _].
      { intros m wm Hm Hwm. rewrite (Hbar _ _ Hm Hwm). discriminate. }
      rewrite global_group_step_nvalids, IH, wrap_signed_add_unsigned. f_equal.
      set (st' := global_group_step kg (nitems kds) (ncols kds) L (gid / L) st)
        in *.
      rewrite (sumZ_map_add (left_flag st) (left_flag st')
                 (fun x => if bool_decide ((x / L)%nat = (gid / L)%nat)
                           then global_owner_flag (gs_items st) x else 0)).
      * rewrite sumZ_group; [reflexivity|].
        apply Nat.Div0.div_lt_upper_bound. lia.
      * intros x Hx. apply in_seq in Hx.
        destruct (lookup_lt_is_Some_2 (gs_items st) x ltac:(lia)) as [wx Hwx].
        destruct (Forall2_lookup_l _ _ _ _ _ Hitems Hwx) as (wx' & Hwx' & Hfr).
        destruct (bool_decide_reflect ((x / L)%nat = (gid / L)%nat)) as [Hg|Hg].
        -- apply (group_members_spec L HL) in Hg.
           pose proof (Hbar _ _ Hg Hwx) as Hpx.
           pose proof (Hmembers _ _ Hg Hwx') as Hpx'.
           destruct Hfr as (_ & _ & Ho & _).
           unfold left_flag, global_owner_flag. rewrite Hwx, Hwx', Hpx, Hpx', Ho.
           rewrite bool_decide_eq_true_2 by reflexivity.
           rewrite bool_decide_eq_false_2 by discriminate. lia.
        -- assert (Hnin : ~ In x (group_members L (gid / L)))
             by (rewrite (group_members_spec L HL); exact Hg).
           unfold left_flag, global_owner_flag. rewrite (Hothers _ Hnin). lia.
Qed.

(** X10. When the kernel has run to its end, [nvalids] is the number of
    distinct group keys of the batch: every work-group has added the number
    of its owners, and there is exactly one owner for every key.  This
    holds whether or not the range check against [nrooms] fired. *)
Theorem global_stage_counts_groups (sched : list nat) :
  let st := gpupreagg_global_stage L NG kgpreagg kds tbl0 sched in
  gs_finished st = true ->
  nvalids (gs_krowmap st)
  = Z.of_nat (length (distinct_keys kds (seq 0 (Z.to_nat (nitems kds))))) /\
  length (group_owners st)
  = length (distinct_keys kds (seq 0 (Z.to_nat (nitems kds)))) /\
  forall o, In o (group_owners st) <-> is_owner kds st o.
Proof.
  intros st Hfin.
  assert (Hnitems : nitems kds <= ALL_ONES) by (unfold ALL_ONES; lia).
  pose proof (global_reduction_inv L NG kgpreagg kds tbl0 Hsize Htbl Hnitems HK
                sched) as Hinv.
  fold st in Hinv.
  set (kg := fst (gpupreagg_global_preparation kgpreagg tbl0)) in *.
  assert (Hsize' : 0 < hash_size kg) by exact Hsize.
  assert (HK' : key_contract kds (gpagg_atts kg)) by exact HK.
  assert (Hlen : length (gs_items st) = (NG * L)%nat)
    by (apply global_items_length; exact HL).
  assert (Hout : forall gid w, gs_items st !! gid = Some w -> wi_pc w = PC_out).
  { intros gid w Hw. unfold gs_finished in Hfin.
    rewrite forallb_forall in Hfin. eapply bool_decide_eq_true_1, Hfin.
    apply list_elem_of_In. eapply list_elem_of_lookup_2. eassumption. }
  set (D := distinct_keys kds (seq 0 (Z.to_nat (nitems kds)))).
  assert (Hown : forall o, In o (group_owners st) <-> is_owner kds st o).
  { intros o. unfold group_owners. rewrite filter_In, in_seq. split.
    - intros [Hlt Hflag]. unfold global_owner_flag in Hflag.
      destruct (gs_items st !! o) as [w|] eqn:Hw; [|discriminate].
      destruct (Z.eqb_spec (Z.of_nat o) (wi_owner_index w)) as [Ho|];
        [|discriminate].
      assert (Hin : Z.of_nat o < nitems kds).
      { destruct (Z.lt_ge_cases (Z.of_nat o) (nitems kds)) as [|Hge];
          [assumption|].
        destruct (gi_outside _ _ _ _ Hinv _ _ Hw Hge) as [_ Hall].
        unfold ALL_ONES in Hall. lia. }
      split; [exact Hin|]. exists w. split; [exact Hw|].
      split; [rewrite (Hout _ _ Hw); discriminate|congruence].
    - intros (Hin & w & Hw & _ & Ho). split.
      + apply lookup_lt_Some in Hw. lia.
      + unfold global_owner_flag. rewrite Hw, Ho, Z.eqb_refl. reflexivity. }
  assert (Hcount : length (group_owners st) = length D).
  { apply Nat.le_antisymm.
    - apply (distinct_bound kds _ HK).
      + intros x Hx. apply Hown in Hx. apply (distinct_keys_cover kds _ HK).
        apply in_seq. destruct Hx as [Hx _]. lia.
      + intros i j x y Hij Hx Hy.
        destruct (same_key kds x y) eqn:Hs; [exfalso|reflexivity].
        assert (Hox : is_owner kds st x).
        { apply Hown, list_elem_of_In. eapply list_elem_of_lookup_2. eassumption. }
        assert (Hoy : is_owner kds st y).
        { apply Hown, list_elem_of_In. eapply list_elem_of_lookup_2. eassumption. }
        pose proof (unique_owner kg kds Hsize' Hnitems HK' sched st Hinv x y Hox Hoy Hs)
          as Hxy. subst y.
        assert (Hnd : NoDup (group_owners st))
          by (apply NoDup_ListNoDup, List.NoDup_filter, List.seq_NoDup).
        pose proof (NoDup_lookup _ _ _ _ Hnd Hx Hy). lia.
    - apply (distinct_bound kds _ HK).
      + intros d Hd. apply distinct_keys_incl, in_seq in Hd.
        destruct (lookup_lt_is_Some_2 (gs_items st) d ltac:(lia)) as [w Hw].
        destruct (found_owner kg kds Hnitems sched st Hinv d w Hw ltac:(lia))
          as (o & _ & Ho & Hs).
        { rewrite (Hout _ _ Hw). discriminate. }
        exists o. split; [now apply Hown|exact Hs].
      + apply distinct_keys_pairwise. }
  split; [|split; [exact Hcount|exact Hown]].
  unfold st. rewrite global_stage_nvalids. fold st.
  rewrite (sumZ_map_ext (global_owner_flag (gs_items st))).
  - rewrite sumZ_flags_count.
    + rewrite <- Hlen. fold (group_owners st). rewrite Hcount.
      apply wrap_signed_fit.
      assert (length D <= length (group_owners st))%nat by lia.
      assert (length (group_owners st) <= NG * L)%nat.
      { unfold group_owners. etransitivity; [apply List.filter_length_le|].
        rewrite length_seq. lia. }
      lia.
    + intros x _. unfold global_owner_flag.
      destruct (gs_items st !! x) as [w|]; [|auto]. destruct (_ =? _); auto.
  - intros x Hx. unfold left_flag.
    destruct (gs_items st !! x) as [w|] eqn:Hw.
    + rewrite (Hout _ _ Hw), bool_decide_eq_true_2 by reflexivity. reflexivity.
    + unfold global_owner_flag. rewrite Hw. reflexivity.
Qed.

End GroupCount.

Lemma global_stage_counts_groups_witness :
  (0 < 2)%nat /\ 0 < hash_size collision_control /\
  (Z.to_nat (hash_size collision_control) <= length stale_table)%nat /\
  @key_contract sum_query collision_batch (gpagg_atts collision_control) /\
  nitems collision_batch <= Z.of_nat (2 * 2) < 2 ^ 31 /\
  gs_finished (@gpupreagg_global_stage sum_query 2 2 collision_control
                 collision_batch stale_table (round_robin 2 2 5)) = true /\
  nvalids (gs_krowmap (@gpupreagg_global_stage sum_query 2 2 collision_control
                         collision_batch stale_table (round_robin 2 2 5))) = 2.
Proof.
  assert (H0 : (0 < 2)%nat) by lia.
  assert (H1 : 0 < hash_size collision_control) by (vm_compute; reflexivity).
  assert (H2 : (Z.to_nat (hash_size collision_control) <= length stale_table)%nat)
    by (vm_compute; lia).
  pose proof (sum_query_contract collision_batch) as H3.
  assert (H4 : nitems collision_batch <= Z.of_nat (2 * 2) < 2 ^ 31)
    by (vm_compute; split; [discriminate|reflexivity]).
  assert (H5 : gs_finished (@gpupreagg_global_stage sum_query 2 2 collision_control
                              collision_batch stale_table (round_robin 2 2 5))
               = true) by (vm_compute; reflexivity).
  repeat (split; [assumption|]).
  destruct (@global_stage_counts_groups sum_query 2 2 collision_control
              collision_batch stale_table H0 H1 H2 H3 H4 (round_robin 2 2 5) H5)
    as [Hn _].
  rewrite Hn. vm_compute. reflexivity.
Defined.

(** ** The bitonic kernels one by one *)

Section BitonicKernels.

Context {A : Type}.
Variable pos : Z -> A.
Variable gt : A -> A -> bool.

(** The partitions after gpupreagg_bitonic_local. *)
Lemma bitonic_local_partitions (m : nat) (ngroups nrows : Z) (rindex : list A) :
  (forall x y, gt x y = true -> gt y x = false) ->
  (forall x y z, gt x y = false -> gt y z = false -> gt x z = false) ->
  (m < 29)%nat ->
  0 <= nrows <= Z.of_nat (length rindex) ->
  nrows <= ngroups * 2 ^ Z.of_nat (S m) ->
  ngroups * 2 ^ Z.of_nat (S m) < 2 ^ 31 ->
  let res := gpupreagg_bitonic_local pos gt (2 ^ Z.of_nat m) ngroups nrows
               rindex in
  forall i j x y,
    0 <= i <= j -> j < nrows ->
    i / 2 ^ Z.of_nat (S m) = j / 2 ^ Z.of_nat (S m) ->
    res !! Z.to_nat i = Some x -> res !! Z.to_nat j = Some y ->
    gt x y = false.
Proof.
  intros gt_asym gt_trans Hm Hrows Hcover Hfit res i j x y Hij Hj Hblock Hx Hy.
  destruct (gpupreagg_bitonic_local_sorted pos gt m ngroups nrows rindex
              Hm Hrows Hcover Hfit) as ([_ Hrep] & _ & _).
  fold res in Hrep.
  pose proof (pow2_pos (S m)) as Hpos.
  set (P := 2 ^ Z.of_nat (S m)) in *.
  set (a0 := initial_cells pos nrows) in *.
  pose proof (Z.div_mod i P ltac:(lia)) as Hdi.
  pose proof (Z.div_mod j P ltac:(lia)) as Hdj.
  pose proof (Z.mod_pos_bound i P Hpos) as Hbi.
  pose proof (Z.mod_pos_bound j P Hpos) as Hbj.
  set (c := P * (i / P)) in *.
  assert (Hc : 0 <= c) by (pose proof (Z.div_pos i P ltac:(lia) Hpos); nia).
  rewrite <- Hblock in Hdj. fold c in Hdj.
  assert (Hshift : forall o, 0 <= o < P ->
            sort_passes (omin gt) (omax gt) (S m) (fun o => a0 (c + o)) o
            = sort_passes (omin gt) (omax gt) (S m) a0 (c + o)).
  { apply (sort_passes_shift _ _ (S m) c P);
      [exists (i / P); unfold c; lia|exists 1; lia|reflexivity]. }
  apply (sort_passes_ordered gt gt_asym gt_trans (S m) (fun o => a0 (c + o))
           (i mod P) (j mod P)); [lia|lia| |].
  - rewrite Hshift by lia. rewrite <- Hdi, <- Hrep by lia.
    rewrite cells_inside by lia. exact Hx.
  - rewrite Hshift by lia. rewrite <- Hdj, <- Hrep by lia.
    rewrite cells_inside by lia. exact Hy.
Qed.

(** What one launch of gpupreagg_bitonic_step does to a pair of cells. *)
Lemma bitonic_step_pairs (nrows : Z) (reversing : bool) (k : nat)
    (rindex : list A) :
  0 <= nrows <= Z.of_nat (length rindex) ->
  nrows + 2 ^ Z.of_nat (S k) < 2 ^ 31 ->
  let h := 2 ^ Z.of_nat k in
  let res := gpupreagg_bitonic_step gt
               (step_global_size nrows (2 ^ Z.of_nat (S k)))
               (if reversing then - 2 ^ Z.of_nat (S k) else 2 ^ Z.of_nat (S k))
               nrows rindex in
  same_rows nrows res rindex /\
  forall i, 0 <= i < nrows -> i mod (2 * h) < h ->
    let j := i - i mod (2 * h) + unit_partner reversing h (i mod (2 * h)) in
    i < j /\
    (nrows <= j -> res !! Z.to_nat i = rindex !! Z.to_nat i) /\
    (j < nrows -> forall x y,
       rindex !! Z.to_nat i = Some x -> rindex !! Z.to_nat j = Some y ->
       res !! Z.to_nat i = Some (if gt x y then y else x) /\
       res !! Z.to_nat j = Some (if gt x y then x else y)).
Proof.
  intros Hrows Hfit h res.
  destruct (gpupreagg_bitonic_step_tracks gt nrows reversing k rindex rindex
              (cells nrows rindex) ltac:(lia) Hfit
              (tracks_start nrows rindex ltac:(lia))) as [[Hlen Hrep] Hsame].
  fold res in Hlen, Hrep, Hsame. fold h in Hrep.
  split; [exact Hsame|].
  intros i Hi Hlow j.
  pose proof (pow2_pos k) as Hh. fold h in Hh.
  pose proof (Z.div_mod i (2 * h) ltac:(lia)) as Hdi.
  pose proof (Z.mod_pos_bound i (2 * h) ltac:(lia)) as Hbi.
  set (q := i / (2 * h)) in *. set (r := i mod (2 * h)) in *.
  pose proof (unit_partner_range reversing h r ltac:(lia)) as Hp.
  assert (Hq : 0 <= q) by (apply Z.div_pos; lia).
  assert (Hi' : i = q * (2 * h) + r) by lia.
  assert (Hj' : j = q * (2 * h) + unit_partner reversing h r) by (unfold j; lia).
  split; [lia|].
  pose proof (Hrep i ltac:(lia)) as Hci.
  rewrite Hi' in Hci at 2. rewrite stage_fun_lower in Hci by lia.
  rewrite <- Hi', <- Hj' in Hci. rewrite !(cells_inside nrows _ i) in Hci by lia.
  split.
  - intros Hout. rewrite Hci, (cells_outside nrows rindex j) by lia.
    destruct (rindex !! Z.to_nat i); reflexivity.
  - intros Hin x y Hx Hy.
    pose proof (Hrep j ltac:(lia)) as Hcj.
    rewrite Hj' in Hcj at 2. rewrite stage_fun_upper in Hcj by lia.
    rewrite unit_source_partner, <- Hi', <- Hj' in Hcj.
    rewrite !(cells_inside nrows _ j), (cells_inside nrows _ i) in Hcj by lia.
    rewrite (cells_inside nrows _ j) in Hci by lia.
    rewrite Hci, Hcj, Hx, Hy. split; reflexivity.
Qed.

End BitonicKernels.

Section KeycompOrder.

Context `{F : GpuPreAggFunctions}.
Variable kds : kern_data_store.

Lemma keycomp_gt_asym :
  (forall x y,
     0 < gpupreagg_keycomp kds x y -> gpupreagg_keycomp kds y x <= 0) ->
  forall x y, keycomp_gt kds x y = true -> keycomp_gt kds y x = false.
Proof.
  intros Hasym x y Hxy. unfold keycomp_gt in *.
  apply Z.ltb_lt in Hxy. apply Z.ltb_ge. apply Hasym. exact Hxy.
Qed.

Lemma keycomp_gt_trans :
  (forall x y z,
     gpupreagg_keycomp kds x y <= 0 -> gpupreagg_keycomp kds y z <= 0 ->
     gpupreagg_keycomp kds x z <= 0) ->
  forall x y z, keycomp_gt kds x y = false -> keycomp_gt kds y z = false ->
                keycomp_gt kds x z = false.
Proof.
  intros Htrans x y z Hxy Hyz. unfold keycomp_gt in *.
  apply Z.ltb_ge in Hxy, Hyz. apply Z.ltb_ge. apply (Htrans x y z); assumption.
Qed.

End KeycompOrder.

Lemma sum_query_keycomp_order kds :
  (forall x y, 0 < @gpupreagg_keycomp sum_query kds x y ->
               @gpupreagg_keycomp sum_query kds y x <= 0) /\
  (forall x y z, @gpupreagg_keycomp sum_query kds x y <= 0 ->
                 @gpupreagg_keycomp sum_query kds y z <= 0 ->
                 @gpupreagg_keycomp sum_query kds x z <= 0).
Proof.
  split.
  - intros x y. simpl.
    destruct (Z.compare_spec (key_of kds x) (key_of kds y));
      destruct (Z.compare_spec (key_of kds y) (key_of kds x)); lia.
  - intros x y z. simpl.
    destruct (Z.compare_spec (key_of kds x) (key_of kds y));
      destruct (Z.compare_spec (key_of kds y) (key_of kds z));
      destruct (Z.compare_spec (key_of kds x) (key_of kds z)); lia.
Qed.

(** X11. gpupreagg_bitonic_local on its own: it fills the first [nitems]
    cells of [rindex] with the rows [0 .. nitems), whatever they held
    before, leaves the other cells alone, and sorts every partition of
    [2 * localSize] cells: two rows of one partition are in the order of
    gpupreagg_keycomp. *)
Theorem gpupreagg_bitonic_local_partitions `{F : GpuPreAggFunctions}
    (kds : kern_data_store) (m : nat) (ngroups : Z) (rindex : list Z) :
  (m < 29)%nat ->
  (forall x y,
     0 < gpupreagg_keycomp kds x y -> gpupreagg_keycomp kds y x <= 0) ->
  (forall x y z,
     gpupreagg_keycomp kds x y <= 0 -> gpupreagg_keycomp kds y z <= 0 ->
     gpupreagg_keycomp kds x z <= 0) ->
  0 <= nitems kds <= Z.of_nat (length rindex) ->
  nitems kds <= ngroups * 2 ^ Z.of_nat (S m) ->
  ngroups * 2 ^ Z.of_nat (S m) < 2 ^ 31 ->
  let nrows := nitems kds in
  let res := gpupreagg_bitonic_local id (keycomp_gt kds) (2 ^ Z.of_nat m)
               ngroups nrows rindex in
  take (Z.to_nat nrows) res ≡ₚ seqZ 0 nrows /\
  drop (Z.to_nat nrows) res = drop (Z.to_nat nrows) rindex /\
  forall i j pos0 pos1,
    0 <= i <= j -> j < nrows ->
    i / 2 ^ Z.of_nat (S m) = j / 2 ^ Z.of_nat (S m) ->
    res !! Z.to_nat i = Some pos0 -> res !! Z.to_nat j = Some pos1 ->
    gpupreagg_keycomp kds pos0 pos1 <= 0.
Proof.
  intros Hm Hasym Htrans Hrows Hcover Hfit nrows res.
  destruct (gpupreagg_bitonic_local_sorted id (keycomp_gt kds) m ngroups nrows
              rindex Hm Hrows Hcover Hfit) as (_ & Hperm & Hdrop).
  fold res in Hperm, Hdrop. rewrite map_id in Hperm.
  split; [exact Hperm|]. split; [exact Hdrop|].
  intros i j pos0 pos1 Hij Hj Hblock H0 H1. apply Z.ltb_ge.
  apply (bitonic_local_partitions id (keycomp_gt kds) m ngroups nrows rindex
           (keycomp_gt_asym kds Hasym) (keycomp_gt_trans kds Htrans)
           Hm Hrows Hcover Hfit i j pos0 pos1); assumption.
Qed.

Lemma gpupreagg_bitonic_local_partitions_witness :
  let kds := seven_rows_batch in
  let rindex := replicate 8 (-1) in
  (1 < 29)%nat /\ 0 <= nitems kds <= Z.of_nat (length rindex) /\
  nitems kds <= 2 * 2 ^ Z.of_nat 2 /\ 2 * 2 ^ Z.of_nat 2 < 2 ^ 31 /\
  @gpupreagg_bitonic_local Z id (@keycomp_gt sum_query kds) (2 ^ Z.of_nat 1) 2
    (nitems kds) rindex = [1; 3; 0; 2; 6; 4; 5; -1] /\
  forall i j pos0 pos1,
    0 <= i <= j -> j < nitems kds ->
    i / 2 ^ Z.of_nat 2 = j / 2 ^ Z.of_nat 2 ->
    @gpupreagg_bitonic_local Z id (@keycomp_gt sum_query kds) (2 ^ Z.of_nat 1) 2
      (nitems kds) rindex !! Z.to_nat i = Some pos0 ->
    @gpupreagg_bitonic_local Z id (@keycomp_gt sum_query kds) (2 ^ Z.of_nat 1) 2
      (nitems kds) rindex !! Z.to_nat j = Some pos1 ->
    @gpupreagg_keycomp sum_query kds pos0 pos1 <= 0.
Proof.
  cbv zeta.
  assert (Hm : (1 < 29)%nat) by lia.
  assert (Hrows : 0 <= nitems seven_rows_batch
                  <= Z.of_nat (length (replicate 8 (-1)))) by (simpl; lia).
  assert (Hcover : nitems seven_rows_batch <= 2 * 2 ^ Z.of_nat 2) by (simpl; lia).
  assert (Hfit : 2 * 2 ^ Z.of_nat 2 < 2 ^ 31) by reflexivity.
  repeat (split; [assumption|]).
  split; [vm_compute; reflexivity|].
  destruct (sum_query_keycomp_order seven_rows_batch) as [Hasym Htrans].
  apply (@gpupreagg_bitonic_local_partitions sum_query seven_rows_batch 1 2
           (replicate 8 (-1)) Hm Hasym Htrans Hrows Hcover Hfit).
Defined.

(** X12. One launch of gpupreagg_bitonic_step over units of [2 ^ (k + 1)]
    cells: [rindex] keeps its entries, and every lower cell [i] of a unit
    is compared with its partner [j], the cell half a unit further or,
    when reversing, the mirror image of [i] in the unit.  With [j] among
    the rows, [i] gets the entry that is not greater and [j] the other
    one; a cell whose partner lies beyond the rows keeps its entry. *)
Theorem gpupreagg_bitonic_step_pairs `{F : GpuPreAggFunctions}
    (kds : kern_data_store) (reversing : bool) (k : nat) (rindex : list Z) :
  0 <= nitems kds <= Z.of_nat (length rindex) ->
  nitems kds + 2 ^ Z.of_nat (S k) < 2 ^ 31 ->
  let nrows := nitems kds in
  let h := 2 ^ Z.of_nat k in
  let res := gpupreagg_bitonic_step (keycomp_gt kds)
               (step_global_size nrows (2 ^ Z.of_nat (S k)))
               (if reversing then - 2 ^ Z.of_nat (S k) else 2 ^ Z.of_nat (S k))
               nrows rindex in
  res ≡ₚ rindex /\
  drop (Z.to_nat nrows) res = drop (Z.to_nat nrows) rindex /\
  forall i, 0 <= i < nrows -> i mod (2 * h) < h ->
    let j := i - i mod (2 * h)
             + (if reversing then 2 * h - 1 - i mod (2 * h)
                else i mod (2 * h) + h) in
    (nrows <= j -> res !! Z.to_nat i = rindex !! Z.to_nat i) /\
    (j < nrows -> forall x y,
       rindex !! Z.to_nat i = Some x -> rindex !! Z.to_nat j = Some y ->
       res !! Z.to_nat i
       = Some (if 0 <? gpupreagg_keycomp kds x y then y else x) /\
       res !! Z.to_nat j
       = Some (if 0 <? gpupreagg_keycomp kds x y then x else y)).
Proof.
  intros Hrows Hfit nrows h res.
  destruct (bitonic_step_pairs (keycomp_gt kds) nrows reversing k rindex
              Hrows Hfit) as [[Hperm Hdrop] Hpairs].
  fold h in Hpairs. fold res in Hperm, Hdrop, Hpairs.
  split; [exact Hperm|]. split; [exact Hdrop|].
  intros i Hi Hlow j. destruct (Hpairs i Hi Hlow) as (_ & Hout & Hin).
  unfold unit_partner in Hout, Hin. fold j in Hout, Hin.
  split; [exact Hout|exact Hin].
Qed.

Lemma gpupreagg_bitonic_step_pairs_witness :
  let kds := seven_rows_batch in
  let rindex := [1; 3; 0; 2; 6; 4; 5; -1] in
  0 <= nitems kds <= Z.of_nat (length rindex) /\
  nitems kds + 2 ^ Z.of_nat 3 < 2 ^ 31 /\
  @gpupreagg_bitonic_step Z (@keycomp_gt sum_query kds)
    (step_global_size (nitems kds) (2 ^ Z.of_nat 3)) (- 2 ^ Z.of_nat 3)
    (nitems kds) rindex ≡ₚ rindex.
Proof.
  cbv zeta.
  assert (Hrows : 0 <= nitems seven_rows_batch
                  <= Z.of_nat (length [1; 3; 0; 2; 6; 4; 5; -1])) by (simpl; lia).
  assert (Hfit : nitems seven_rows_batch + 2 ^ Z.of_nat 3 < 2 ^ 31) by reflexivity.
  split; [exact Hrows|]. split; [exact Hfit|].
  apply (@gpupreagg_bitonic_step_pairs sum_query seven_rows_batch true 2
           [1; 3; 0; 2; 6; 4; 5; -1] Hrows Hfit).
Defined.

(** X13. gpupreagg_bitonic_merge never loses a row: whatever [rindex]
    holds, the kernel permutes the entries of its first [nitems] cells and
    leaves the other cells alone. *)
Theorem gpupreagg_bitonic_merge_rows `{F : GpuPreAggFunctions}
    (kds : kern_data_store) (m : nat) (ngroups : Z) (rindex : list Z) :
  (m < 29)%nat ->
  0 <= nitems kds <= Z.of_nat (length rindex) ->
  nitems kds <= ngroups * 2 ^ Z.of_nat (S m) ->
  ngroups * 2 ^ Z.of_nat (S m) < 2 ^ 31 ->
  let nrows := nitems kds in
  let res := gpupreagg_bitonic_merge (keycomp_gt kds) (2 ^ Z.of_nat m) ngroups
               nrows rindex in
  take (Z.to_nat nrows) res ≡ₚ take (Z.to_nat nrows) rindex /\
  drop (Z.to_nat nrows) res = drop (Z.to_nat nrows) rindex.
Proof.
  intros Hm Hrows Hcover Hfit nrows res.
  destruct (gpupreagg_bitonic_merge_tracks (keycomp_gt kds) m ngroups nrows
              rindex rindex (cells nrows rindex) Hm ltac:(lia) Hcover Hfit
              (tracks_start nrows rindex ltac:(lia))) as [_ [Hperm Hdrop]].
  fold res in Hperm, Hdrop. split; [|exact Hdrop].
  apply (Permutation_app_inv_r (drop (Z.to_nat nrows) res)).
  rewrite take_drop, Hdrop, take_drop. exact Hperm.
Qed.

Lemma gpupreagg_bitonic_merge_rows_witness :
  let kds := seven_rows_batch in
  let rindex := [5; 3; 0; 2; 6; 4; 1; -1] in
  (1 < 29)%nat /\ 0 <= nitems kds <= Z.of_nat (length rindex) /\
  nitems kds <= 2 * 2 ^ Z.of_nat 2 /\ 2 * 2 ^ Z.of_nat 2 < 2 ^ 31 /\
  drop 7 (@gpupreagg_bitonic_merge Z (@keycomp_gt sum_query kds)
            (2 ^ Z.of_nat 1) 2 (nitems kds) rindex) = [-1].
Proof.
  cbv zeta.
  assert (Hm : (1 < 29)%nat) by lia.
  assert (Hrows : 0 <= nitems seven_rows_batch
                  <= Z.of_nat (length [5; 3; 0; 2; 6; 4; 1; -1])) by (simpl; lia).
  assert (Hcover : nitems seven_rows_batch <= 2 * 2 ^ Z.of_nat 2) by (simpl; lia).
  assert (Hfit : 2 * 2 ^ Z.of_nat 2 < 2 ^ 31) by reflexivity.
  repeat (split; [assumption|]).
  destruct (@gpupreagg_bitonic_merge_rows sum_query seven_rows_batch 1 2
              [5; 3; 0; 2; 6; 4; 1; -1] Hm Hrows Hcover Hfit) as [_ Hdrop].
  exact Hdrop.
Defined.

Section FallbackInput.

Context {A : Type}.
Variable pos : Z -> A.
Variable gt : A -> A -> bool.

Lemma fallback_groups (m : nat) (nrows : Z) :
  (m < 29)%nat -> 0 <= nrows <= 2 ^ 29 ->
  let ngroups := (nrows + 2 ^ Z.of_nat (S m) - 1) / 2 ^ Z.of_nat (S m) in
  nrows <= ngroups * 2 ^ Z.of_nat (S m) /\
  ngroups * 2 ^ Z.of_nat (S m) < 2 ^ 31.
Proof.
  intros Hm Hrows ngroups.
  pose proof (pow2_pos (S m)) as Hpos.
  assert (HP : 2 ^ Z.of_nat (S m) <= 2 ^ 29) by (apply (pow2_mono_le (S m) 29); lia).
  pose proof (Z.div_mod (nrows + 2 ^ Z.of_nat (S m) - 1) (2 ^ Z.of_nat (S m))
                ltac:(lia)) as Hdm.
  pose proof (Z.mod_pos_bound (nrows + 2 ^ Z.of_nat (S m) - 1)
                (2 ^ Z.of_nat (S m)) Hpos) as Hb.
  fold ngroups in Hdm. change (2 ^ 31) with (4 * 2 ^ 29). lia.
Qed.

(** An array is determined by its first [n] cells and the others. *)
Lemma cells_drop_eq (n : Z) (l l' : list A) :
  0 <= n <= Z.of_nat (length l) -> length l' = length l ->
  (forall i, 0 <= i < n -> cells n l' i = cells n l i) ->
  drop (Z.to_nat n) l' = drop (Z.to_nat n) l ->
  l' = l.
Proof.
  intros Hn Hlen Hcells Hdrop. apply list_eq. intros i.
  destruct (Z.lt_ge_cases (Z.of_nat i) n) as [Hin|Hout].
  - specialize (Hcells (Z.of_nat i) ltac:(lia)).
    rewrite !cells_inside, !Nat2Z.id in Hcells by lia. exact Hcells.
  - replace i with (Z.to_nat n + (i - Z.to_nat n))%nat by lia.
    rewrite <- !lookup_drop, Hdrop. reflexivity.
Qed.

(** The local sort does not read [rindex]. *)
Lemma bitonic_local_input (m : nat) (ngroups nrows : Z) (rindex rindex' : list A) :
  (m < 29)%nat ->
  0 <= nrows <= Z.of_nat (length rindex) ->
  nrows <= ngroups * 2 ^ Z.of_nat (S m) ->
  ngroups * 2 ^ Z.of_nat (S m) < 2 ^ 31 ->
  length rindex' = length rindex ->
  drop (Z.to_nat nrows) rindex' = drop (Z.to_nat nrows) rindex ->
  gpupreagg_bitonic_local pos gt (2 ^ Z.of_nat m) ngroups nrows rindex'
  = gpupreagg_bitonic_local pos gt (2 ^ Z.of_nat m) ngroups nrows rindex.
Proof.
  intros Hm Hrows Hcover Hfit Hlen Hdrop.
  destruct (gpupreagg_bitonic_local_sorted pos gt m ngroups nrows rindex
              Hm Hrows Hcover Hfit) as ([Hl Hrep] & Hperm & Hd).
  destruct (gpupreagg_bitonic_local_sorted pos gt m ngroups nrows rindex'
              Hm ltac:(lia) Hcover Hfit) as ([Hl' Hrep'] & Hperm' & Hd').
  set (res := gpupreagg_bitonic_local pos gt (2 ^ Z.of_nat m) ngroups nrows
                rindex) in *.
  set (res' := gpupreagg_bitonic_local pos gt (2 ^ Z.of_nat m) ngroups nrows
                 rindex') in *.
  assert (Hlens : forall r r0 : list A,
            take (Z.to_nat nrows) r ≡ₚ map pos (seqZ 0 nrows) ->
            drop (Z.to_nat nrows) r = drop (Z.to_nat nrows) r0 ->
            nrows <= Z.of_nat (length r0) -> length r = length r0).
  { intros r r0 Hp Hdr Hr0.
    rewrite <- (take_drop (Z.to_nat nrows) r), length_app, Hdr.
    rewrite (Permutation_length Hp), length_map, length_seqZ, length_drop. lia. }
  apply (cells_drop_eq nrows).
  - rewrite (Hlens res rindex) by (assumption || lia). lia.
  - rewrite (Hlens res rindex), (Hlens res' rindex') by (assumption || lia).
    exact Hlen.
  - intros i Hi. rewrite Hrep, Hrep' by lia. reflexivity.
  - congruence.
Qed.

End FallbackInput.

(** X14. The fallback does not read what [rindex] holds in its first
    [nitems] cells: two row maps that agree from the cell [nitems] on are
    sorted to the same row map. *)
Theorem sort_fallback_ignores_rindex `{F : GpuPreAggFunctions}
    (kds : kern_data_store) (m : nat) (rindex rindex' : list Z) :
  (m < 29)%nat ->
  0 <= nitems kds <= 2 ^ 29 ->
  nitems kds <= Z.of_nat (length rindex) ->
  length rindex' = length rindex ->
  drop (Z.to_nat (nitems kds)) rindex' = drop (Z.to_nat (nitems kds)) rindex ->
  gpupreagg_sort_fallback kds (2 ^ Z.of_nat m) rindex'
  = gpupreagg_sort_fallback kds (2 ^ Z.of_nat m) rindex.
Proof.
  intros Hm Hsmall Hrows Hlen Hdrop.
  unfold gpupreagg_sort_fallback, sort_fallback. cbv zeta.
  replace (2 ^ Z.of_nat m * 2) with (2 ^ Z.of_nat (S m))
    by (rewrite pow2_succ; lia).
  destruct (fallback_groups m (nitems kds) Hm Hsmall) as [Hcover Hfit].
  rewrite (bitonic_local_input id (keycomp_gt kds) m _ (nitems kds)
             rindex rindex' Hm ltac:(lia) Hcover Hfit Hlen Hdrop).
  reflexivity.
Qed.

Lemma sort_fallback_ignores_rindex_witness :
  let kds := seven_rows_batch in
  (1 < 29)%nat /\ 0 <= nitems kds <= 2 ^ 29 /\
  nitems kds <= Z.of_nat (length (replicate 8 (-1))) /\
  @gpupreagg_sort_fallback sum_query kds (2 ^ Z.of_nat 1)
    [9; 9; 9; 9; 9; 9; 9; -1]
  = @gpupreagg_sort_fallback sum_query kds (2 ^ Z.of_nat 1) (replicate 8 (-1)).
Proof.
  cbv zeta.
  assert (Hm : (1 < 29)%nat) by lia.
  assert (Hsmall : 0 <= nitems seven_rows_batch <= 2 ^ 29) by (simpl; lia).
  assert (Hrows : nitems seven_rows_batch
                  <= Z.of_nat (length (replicate 8 (-1)))) by (simpl; lia).
  repeat (split; [assumption|]).
  apply (@sort_fallback_ignores_rindex sum_query seven_rows_batch 1
           (replicate 8 (-1)) [9; 9; 9; 9; 9; 9; 9; -1] Hm Hsmall Hrows);
    reflexivity.
Defined.

(** ** gpupreagg_set_rindex and the fallback without grouping keys *)

Section NoKeys.

Context {A : Type}.
Variable pos : Z -> A.
Variable gt : A -> A -> bool.
Hypothesis gt_never : forall x y, gt x y = false.

Lemma fold_left_id {B C : Type} (f : B -> C -> B) (xs : list C) :
  (forall b x, f b x = b) -> forall b, fold_left f xs b = b.
Proof.
  intros Hf. induction xs as [|x xs IH]; intros b; simpl; [reflexivity|].
  rewrite Hf. apply IH.
Qed.

Lemma compare_exchange_never (l : list A) (idx0 idx1 : Z) :
  compare_exchange gt l idx0 idx1 = l.
Proof.
  unfold compare_exchange.
  destruct (l !! Z.to_nat idx0); [|reflexivity].
  destruct (l !! Z.to_nat idx1); [|reflexivity].
  rewrite gt_never. reflexivity.
Qed.

Lemma bitonic_stage_never (T n : Z) (reversing : bool) (U : Z) (l : list A) :
  bitonic_stage gt T n reversing U l = l.
Proof.
  unfold bitonic_stage. apply fold_left_id. intros b x.
  unfold bitonic_thread. cbv zeta. rewrite compare_exchange_never.
  destruct (_ <? _); reflexivity.
Qed.

Lemma bitonic_local_sort_never (localSize localEntry : Z) (l : list A) :
  bitonic_local_sort gt localSize localEntry l = l.
Proof.
  unfold bitonic_local_sort. cbv zeta. apply fold_left_id. intros b x.
  apply fold_left_id. intros b' x'. apply bitonic_stage_never.
Qed.

Lemma bitonic_merge_sort_never (localSize localEntry : Z) (l : list A) :
  bitonic_merge_sort gt localSize localEntry l = l.
Proof.
  unfold bitonic_merge_sort. cbv zeta. apply fold_left_id. intros b x.
  apply bitonic_stage_never.
Qed.

Lemma gpupreagg_bitonic_step_never (T unitsz nrows : Z) (l : list A) :
  gpupreagg_bitonic_step gt T unitsz nrows l = l.
Proof.
  unfold gpupreagg_bitonic_step. apply fold_left_id. intros b x.
  unfold bitonic_step_thread. cbv zeta. rewrite compare_exchange_never.
  destruct (_ <=? _); reflexivity.
Qed.

(** Writing a slice of an array back to where it was read. *)
Lemma write_back_slice (p e : nat) (r : list A) :
  list_inserts p (take e (drop p r)) r = r.
Proof.
  apply list_eq. intros i.
  destruct (Nat.lt_ge_cases i (length r)) as [Hi|Hi].
  - destruct (Nat.lt_ge_cases i p) as [Hlow|Hge].
    + apply list_lookup_inserts_lt. exact Hlow.
    + destruct (Nat.lt_ge_cases i (p + length (take e (drop p r)))) as [Hin|Hout].
      * rewrite list_lookup_inserts by lia.
        rewrite length_take, length_drop in Hin.
        rewrite lookup_take_lt by lia. rewrite lookup_drop. f_equal. lia.
      * apply list_lookup_inserts_ge. exact Hout.
  - rewrite (proj2 (lookup_ge_None r i)) by exact Hi.
    apply lookup_ge_None. rewrite length_inserts. exact Hi.
Qed.

Lemma gpupreagg_bitonic_merge_never (localSize ngroups nrows : Z) (l : list A) :
  gpupreagg_bitonic_merge gt localSize ngroups nrows l = l.
Proof.
  unfold gpupreagg_bitonic_merge. apply fold_left_id. intros b x.
  unfold bitonic_merge_group. cbv zeta. rewrite bitonic_merge_sort_never.
  apply write_back_slice.
Qed.

Lemma sort_fallback_never (localSize nrows : Z) (rindex : list A) :
  sort_fallback pos gt localSize nrows rindex
  = gpupreagg_bitonic_local pos gt localSize
      ((nrows + localSize * 2 - 1) / (localSize * 2)) nrows rindex.
Proof.
  unfold sort_fallback. cbv zeta. apply fold_left_id. intros b x.
  unfold sort_level. cbv zeta.
  rewrite gpupreagg_bitonic_merge_never.
  rewrite fold_left_id; [apply gpupreagg_bitonic_step_never|].
  intros b' x'. rewrite gpupreagg_bitonic_step_never. destruct (_ <? _); reflexivity.
Qed.

(** Without swaps the local sort writes the rows in their order. *)
Lemma bitonic_local_never (m : nat) (ngroups nrows : Z) (rindex : list A) :
  (m < 29)%nat ->
  0 <= nrows <= Z.of_nat (length rindex) ->
  nrows <= ngroups * 2 ^ Z.of_nat (S m) ->
  ngroups * 2 ^ Z.of_nat (S m) < 2 ^ 31 ->
  gpupreagg_bitonic_local pos gt (2 ^ Z.of_nat m) ngroups nrows rindex
  = map pos (seqZ 0 nrows) ++ drop (Z.to_nat nrows) rindex.
Proof.
  intros Hm Hrows Hcover Hfit.
  destruct (gpupreagg_bitonic_local_sorted pos gt m ngroups nrows rindex
              Hm Hrows Hcover Hfit) as (_ & Hperm & Hdrop).
  set (res := gpupreagg_bitonic_local pos gt (2 ^ Z.of_nat m) ngroups nrows
                rindex) in *.
  assert (Hres : res = fold_left
            (fun r g =>
               write_back (g * 2 ^ Z.of_nat (S m))
                 (map (fun i => pos (g * 2 ^ Z.of_nat (S m) + i))
                    (seqZ 0 (Z.min (2 ^ Z.of_nat (S m))
                                   (nrows - g * 2 ^ Z.of_nat (S m))))) r)
            (seqZ 0 ngroups) rindex).
  { unfold res. rewrite gpupreagg_bitonic_local_pure by lia.
    apply fold_left_ext_in. intros g _ r.
    rewrite bitonic_local_sort_never. reflexivity. }
  pose proof (pow2_pos (S m)) as Hpos.
  set (P := 2 ^ Z.of_nat (S m)) in *.
  assert (Hng : 0 <= ngroups) by nia.
  destruct (group_fold_represents
              (fun _ g => map (fun i => pos (g * P + i))
                            (seqZ 0 (Z.min P (nrows - g * P))))
              (fun g => Z.min P (nrows - g * P)) P nrows rindex
              (initial_cells pos nrows) (Z.to_nat ngroups) Hpos ltac:(lia))
    as (Hlen & Hdone & _).
  { intros g r Hg _ _. split; [reflexivity|].
    split; [rewrite length_map, length_seqZ; lia|].
    intros o Ho. unfold initial_cells.
    set (E := Z.min P (nrows - g * P)).
    assert (HE : E <= nrows - g * P /\ (E < P -> E = nrows - g * P))
      by (unfold E; lia).
    destruct (Z.lt_ge_cases o E) as [Hin|Hout].
    - rewrite cells_inside by lia.
      rewrite list_lookup_fmap, lookup_seqZ_lt by lia. simpl.
      replace (0 <=? g * P + o) with true by (symmetry; apply Z.leb_le; nia).
      replace (g * P + o <? nrows) with true by (symmetry; apply Z.ltb_lt; lia).
      simpl. do 2 f_equal. lia.
    - rewrite cells_outside by lia.
      replace (g * P + o <? nrows) with false by (symmetry; apply Z.ltb_ge; lia).
      rewrite andb_false_r. reflexivity. }
  cbv zeta in Hlen, Hdone. rewrite Z2Nat.id in Hlen, Hdone by lia.
  rewrite <- Hres in Hlen, Hdone.
  apply (cells_drop_eq nrows).
  - rewrite length_app, length_map, length_seqZ, length_drop. lia.
  - rewrite Hlen, length_app, length_map, length_seqZ, length_drop. lia.
  - intros i Hi. rewrite Hdone by lia. rewrite cells_inside by lia.
    rewrite lookup_app_l by (rewrite length_map, length_seqZ; lia).
    rewrite list_lookup_fmap, lookup_seqZ_lt by lia. unfold initial_cells.
    replace (0 <=? i) with true by (symmetry; apply Z.leb_le; lia).
    replace (i <? nrows) with true by (symmetry; apply Z.ltb_lt; lia).
    simpl. do 2 f_equal. lia.
  - rewrite Hdrop. symmetry. apply drop_app_length'.
    rewrite length_map, length_seqZ. reflexivity.
Qed.

End NoKeys.

(** The work-items of gpupreagg_set_rindex write their own cells. *)
Lemma set_rindex_spec (nrows : Z) : forall (order : list Z) (rindex : list Z),
  (forall g, g ∈ order -> 0 <= g < 2 ^ 31) ->
  let res := fold_left (set_rindex_thread nrows) order rindex in
  length res = length rindex /\
  forall i s, rindex !! i = Some s ->
    res !! i = Some (if bool_decide (Z.of_nat i < nrows /\ Z.of_nat i ∈ order)
                     then Z.of_nat i else s).
Proof.
  induction order as [|g order IH]; intros rindex Hrange; cbv zeta.
  - split; [reflexivity|]. intros i s Hi. rewrite bool_decide_eq_false_2.
    + exact Hi.
    + intros [_ Hin]. inversion Hin.
  - rewrite fold_left_cons_eq.
    assert (Hg : 0 <= g < 2 ^ 31) by (apply Hrange; left).
    destruct (IH (set_rindex_thread nrows rindex g)) as [Hlen Hcells].
    { intros x Hx. apply Hrange. now right. }
    assert (Hthread : set_rindex_thread nrows rindex g
                      = if g <? nrows then <[Z.to_nat g := g]> rindex else rindex).
    { unfold set_rindex_thread. cbv zeta. rewrite wrap_signed_fit by lia.
      reflexivity. }
    cbv zeta in Hlen, Hcells. rewrite Hthread in *.
    split.
    { rewrite Hlen. destruct (g <? nrows); [apply length_insert|reflexivity]. }
    intros i s Hi.
    destruct (Z.ltb_spec g nrows) as [Hlt|Hge].
    + destruct (decide (i = Z.to_nat g)) as [->|Hne].
      * rewrite (Hcells _ g)
          by (apply list_lookup_insert_eq; eapply lookup_lt_Some; eassumption).
        rewrite Z2Nat.id by lia. f_equal.
        rewrite (bool_decide_eq_true_2 (g < nrows /\ g ∈ g :: order))
          by (split; [lia|left]).
        destruct (bool_decide _); reflexivity.
      * rewrite (Hcells _ s) by (rewrite list_lookup_insert_ne; [exact Hi|congruence]).
        f_equal.
        destruct (bool_decide_reflect (Z.of_nat i < nrows /\ Z.of_nat i ∈ order))
          as [H1|H1].
        -- rewrite bool_decide_eq_true_2; [reflexivity|].
           split; [apply H1|right; apply H1].
        -- rewrite bool_decide_eq_false_2; [reflexivity|].
           intros [H2 H3]. apply elem_of_cons in H3. destruct H3 as [H3|H3];
             [lia|tauto].
    + rewrite (Hcells _ s Hi). f_equal.
      destruct (bool_decide_reflect (Z.of_nat i < nrows /\ Z.of_nat i ∈ order))
        as [H1|H1].
      * rewrite bool_decide_eq_true_2; [reflexivity|].
        split; [apply H1|right; apply H1].
      * rewrite bool_decide_eq_false_2; [reflexivity|].
        intros [H2 H3]. apply elem_of_cons in H3. destruct H3 as [H3|H3];
          [lia|tauto].
Qed.

(** X15. gpupreagg_set_rindex writes the identity row map, [rindex[i] = i]
    for the rows of the batch, in whatever order its work-items run; and
    this is the row map that the sort-based fallback leaves when no row
    compares greater than another, as it is without grouping keys. *)
Theorem set_rindex_is_unkeyed_sort `{F : GpuPreAggFunctions}
    (kds : kern_data_store) (m : nat) (order : list Z) (rindex : list Z) :
  (m < 29)%nat ->
  0 <= nitems kds <= 2 ^ 29 ->
  nitems kds <= Z.of_nat (length rindex) ->
  (forall g, g ∈ order -> 0 <= g < 2 ^ 31) ->
  (forall i, 0 <= i < nitems kds -> i ∈ order) ->
  gpupreagg_set_rindex order kds rindex
  = seqZ 0 (nitems kds) ++ drop (Z.to_nat (nitems kds)) rindex /\
  ((forall x y, gpupreagg_keycomp kds x y <= 0) ->
   gpupreagg_sort_fallback kds (2 ^ Z.of_nat m) rindex
   = gpupreagg_set_rindex order kds rindex).
Proof.
  intros Hm Hsmall Hrows Hrange Hall.
  assert (Hset : gpupreagg_set_rindex order kds rindex
                 = seqZ 0 (nitems kds) ++ drop (Z.to_nat (nitems kds)) rindex).
  { unfold gpupreagg_set_rindex.
    rewrite wrap_signed_fit by (change (2 ^ 31) with (4 * 2 ^ 29); lia).
    destruct (set_rindex_spec (nitems kds) order rindex Hrange) as [Hlen Hcells].
    cbv zeta in Hlen, Hcells.
    apply list_eq. intros i.
    destruct (rindex !! i) as [s|] eqn:Hi.
    - rewrite (Hcells _ _ Hi).
      destruct (Z.lt_ge_cases (Z.of_nat i) (nitems kds)) as [Hin|Hout].
      + rewrite bool_decide_eq_true_2 by (split; [lia|apply Hall; lia]).
        rewrite lookup_app_l by (rewrite length_seqZ; lia).
        rewrite lookup_seqZ_lt by lia. reflexivity.
      + rewrite bool_decide_eq_false_2 by lia.
        rewrite lookup_app_r by (rewrite length_seqZ; lia).
        rewrite length_seqZ, lookup_drop, <- Hi. f_equal. lia.
    - transitivity (@None Z).
      + apply lookup_ge_None. rewrite Hlen. now apply lookup_ge_None.
      + symmetry. apply lookup_ge_None. apply lookup_ge_None in Hi.
        rewrite length_app, length_seqZ, length_drop. lia. }
  split; [exact Hset|].
  intros Hnever. rewrite Hset.
  unfold gpupreagg_sort_fallback.
  assert (Hgt : forall x y, keycomp_gt kds x y = false).
  { intros x y. unfold keycomp_gt. apply Z.ltb_ge. apply Hnever. }
  rewrite (sort_fallback_never id (keycomp_gt kds) Hgt).
  replace (2 ^ Z.of_nat m * 2) with (2 ^ Z.of_nat (S m))
    by (rewrite pow2_succ; lia).
  destruct (fallback_groups m (nitems kds) Hm Hsmall) as [Hcover Hfit].
  rewrite (bitonic_local_never id (keycomp_gt kds) Hgt m _ (nitems kds) rindex
             Hm ltac:(lia) Hcover Hfit).
  rewrite map_id. reflexivity.
Qed.

Lemma set_rindex_is_unkeyed_sort_witness :
  let kds := seven_rows_batch in
  let rindex := replicate 8 (-1) in
  let order := [7; 3; 5; 1; 0; 2; 6; 4] in
  (1 < 29)%nat /\ 0 <= nitems kds <= 2 ^ 29 /\
  nitems kds <= Z.of_nat (length rindex) /\
  gpupreagg_set_rindex order kds rindex = [0; 1; 2; 3; 4; 5; 6; -1].
Proof.
  cbv zeta.
  assert (Hm : (1 < 29)%nat) by lia.
  assert (Hsmall : 0 <= nitems seven_rows_batch <= 2 ^ 29) by (simpl; lia).
  assert (Hrows : nitems seven_rows_batch
                  <= Z.of_nat (length (replicate 8 (-1)))) by (simpl; lia).
  repeat (split; [assumption|]).
  destruct (@set_rindex_is_unkeyed_sort sum_query seven_rows_batch 1
              [7; 3; 5; 1; 0; 2; 6; 4] (replicate 8 (-1)) Hm Hsmall Hrows)
    as [Hset _].
  - intros g Hg. repeat (apply elem_of_cons in Hg; destruct Hg as [->|Hg]; [lia|]).
    inversion Hg.
  - intros i Hi. simpl in Hi.
    assert (Hcases : i = 0 \/ i = 1 \/ i = 2 \/ i = 3 \/ i = 4 \/ i = 5 \/ i = 6)
      by lia.
    destruct Hcases as [->|[->|[->|[->|[->|[->| ->]]]]]];
      repeat (first [left; fail | apply list_elem_of_here
                    | apply list_elem_of_further]).
  - rewrite Hset. reflexivity.
Defined.

(** ** gpupreagg_global_stage: a table with too few slots *)

Section TableTooSmall.

Context `{F : GpuPreAggFunctions}.
Variables (L NG : nat) (kgpreagg : kern_gpupreagg) (kds : kern_data_store)
          (tbl0 : list pagg_hashslot).
Hypothesis HL : (0 < L)%nat.
Hypothesis Hsize : 0 < hash_size kgpreagg.
Hypothesis Htbl : (Z.to_nat (hash_size kgpreagg) <= length tbl0)%nat.
Hypothesis HK : key_contract kds (gpagg_atts kgpreagg).
Hypothesis Hlaunch : nitems kds <= Z.of_nat (NG * L) <= ALL_ONES.

(** X16. The retry loop has no way out of a full table: when the batch
    has more distinct group keys than the table has slots, then under every
    schedule, however long, some work-item with a row is still in the retry
    loop, and the kernel has not run to its end. *)
Theorem global_stage_table_too_small (sched : list nat) :
  (Z.to_nat (hash_size kgpreagg)
   < length (distinct_keys kds (seq 0 (Z.to_nat (nitems kds)))))%nat ->
  let st := gpupreagg_global_stage L NG kgpreagg kds tbl0 sched in
  (exists gid w, Z.of_nat gid < nitems kds /\ gs_items st !! gid = Some w /\
                 wi_pc w = PC_retry) /\
  gs_finished st = false.
Proof.
  intros Hmany st.
  assert (Hnitems : nitems kds <= ALL_ONES) by lia.
  pose proof (global_reduction_inv L NG kgpreagg kds tbl0 Hsize Htbl Hnitems HK
                sched) as Hinv.
  fold st in Hinv.
  set (kg := fst (gpupreagg_global_preparation kgpreagg tbl0)) in *.
  assert (Hlen : length (gs_items st) = (NG * L)%nat)
    by (apply global_items_length; exact HL).
  set (D := distinct_keys kds (seq 0 (Z.to_nat (nitems kds)))) in *.
  set (Sn := Z.to_nat (hash_size kgpreagg)) in *.
  assert (Hex : exists gid w, Z.of_nat gid < nitems kds /\
                  gs_items st !! gid = Some w /\ wi_pc w = PC_retry).
  { set (P := fun gid => exists w, gs_items st !! gid = Some w /\
                                   wi_pc w = PC_retry).
    assert (Hdec : forall gid, {P gid} + {~ P gid}).
    { intros gid. unfold P. destruct (gs_items st !! gid) as [w|].
      - destruct (decide (wi_pc w = PC_retry)) as [Hr|Hr].
        + left. eauto.
        + right. intros (w' & Hw' & Hr'). congruence.
      - right. intros (w' & Hw' & _). discriminate. }
    destruct (List.Exists_dec P (seq 0 (Z.to_nat (nitems kds))) Hdec)
      as [Hsome|Hnone].
    - apply List.Exists_exists in Hsome. destruct Hsome as (gid & Hin & w & Hw & Hr).
      apply in_seq in Hin. exists gid, w. split; [lia|]. split; assumption.
    - exfalso.
      set (owners := (fun e => Z.to_nat (slot_index e))
                       <$> take Sn (gs_hashslot st)).
      assert (Hbound : (length D <= length owners)%nat).
      { apply (distinct_bound kds _ HK).
        - intros d Hd. apply distinct_keys_incl in Hd.
          assert (Hd' := Hd). apply in_seq in Hd'.
          destruct (lookup_lt_is_Some_2 (gs_items st) d ltac:(lia)) as [w Hw].
          destruct (gi_inside _ _ _ _ Hinv _ _ Hw ltac:(lia)) as (_ & _ & Hout).
          destruct Hout as (o & p & _ & _ & Hsame & Hp & Hslot).
          { intros Hr. apply Hnone. apply List.Exists_exists.
            exists d. split; [exact Hd|]. exists w. split; assumption. }
          exists o. split; [|exact Hsame].
          apply list_elem_of_In. unfold owners. apply list_elem_of_fmap.
          exists (slot_of kds o). split; [simpl; lia|].
          apply (list_elem_of_lookup_2 _ p).
          rewrite lookup_take_lt by exact Hp. exact Hslot.
        - apply distinct_keys_pairwise. }
      unfold owners in Hbound. rewrite length_fmap, length_take in Hbound.
      fold D in Hmany. lia. }
  split; [exact Hex|].
  destruct Hex as (gid & w & _ & Hw & Hr).
  unfold gs_finished. apply not_true_iff_false. intros Hall.
  rewrite forallb_forall in Hall.
  assert (Hin : In w (gs_items st))
    by (apply list_elem_of_In; eapply list_elem_of_lookup_2; eassumption).
  specialize (Hall w Hin). apply bool_decide_eq_true_1 in Hall. congruence.
Qed.

End TableTooSmall.

Lemma global_stage_table_too_small_witness :
  let kg := control_block 1 4 in
  (0 < 2)%nat /\ 0 < hash_size kg /\
  (Z.to_nat (hash_size kg) <= length stale_table)%nat /\
  @key_contract sum_query collision_batch (gpagg_atts kg) /\
  nitems collision_batch <= Z.of_nat (2 * 2) <= ALL_ONES /\
  (Z.to_nat (hash_size kg)
   < length (@distinct_keys sum_query collision_batch
               (seq 0 (Z.to_nat (nitems collision_batch)))))%nat /\
  gs_finished (@gpupreagg_global_stage sum_query 2 2 kg collision_batch
                 stale_table (round_robin 2 2 50)) = false.
Proof.
  cbv zeta.
  assert (H0 : (0 < 2)%nat) by lia.
  assert (H1 : 0 < hash_size (control_block 1 4)) by reflexivity.
  assert (H2 : (Z.to_nat (hash_size (control_block 1 4)) <= length stale_table)%nat)
    by (vm_compute; lia).
  pose proof (sum_query_contract collision_batch) as H3.
  assert (H4 : nitems collision_batch <= Z.of_nat (2 * 2) <= ALL_ONES)
    by (vm_compute; split; discriminate).
  assert (H5 : (Z.to_nat (hash_size (control_block 1 4))
                < length (@distinct_keys sum_query collision_batch
                            (seq 0 (Z.to_nat (nitems collision_batch)))))%nat)
    by (vm_compute; lia).
  repeat (split; [assumption|]).
  apply (@global_stage_table_too_small sum_query 2 2 (control_block 1 4)
           collision_batch stale_table H0 H1 H2 H3 H4 (round_robin 2 2 50) H5).
Defined.

(** ** gpupreagg_global_stage: the row map and the merges *)

Section ColumnLoop.

Context `{F : GpuPreAggFunctions}.
Variables (kg : kern_gpupreagg) (nitems0 : Z).
Hypothesis Hcalc_rooms : forall e attnum k a n,
  nrooms (snd (gpupreagg_global_calc e attnum k a n)) = nrooms k.

Lemma global_reduce_columns_effect gid owner dest : forall (cs : list Z) st,
  let st' := fold_left (global_reduce_column kg nitems0 gid owner dest) cs st in
  let cols := List.filter
                (fun attnum => cell (gpagg_atts kg) attnum
                               =? GPUPREAGG_FIELD_IS_AGGFUNC) cs in
  gs_hashslot st' = gs_hashslot st /\
  nrooms (gs_kds_dst st') = nrooms (gs_kds_dst st) /\
  rindex (gs_krowmap st')
  = (if (Z.of_nat gid <? nitems0) && (Z.of_nat gid =? owner)
        && (0 <? Z.of_nat (length cols))
     then <[Z.to_nat dest := Z.of_nat gid]> (rindex (gs_krowmap st))
     else rindex (gs_krowmap st)) /\
  gs_calls st'
  = gs_calls st
    ++ (if (Z.of_nat gid <? nitems0) && negb (Z.of_nat gid =? owner)
        then map (fun attnum => (attnum, owner, Z.of_nat gid)) cols else []).
Proof.
  induction cs as [|c cs IH]; intros st; cbv zeta.
  - simpl. destruct (_ <? _), (_ =? _); simpl; rewrite ?app_nil_r; auto.
  - rewrite fold_left_cons_eq, filter_cons_eq.
    destruct (IH (global_reduce_column kg nitems0 gid owner dest st c))
      as (Hh & Hn & Hr & Hc).
    cbv zeta in Hh, Hn, Hr, Hc. rewrite Hh, Hn, Hr, Hc. clear Hh Hn Hr Hc IH.
    unfold global_reduce_column.
    destruct (Z.eqb_spec (cell (gpagg_atts kg) c) GPUPREAGG_FIELD_IS_AGGFUNC)
      as [Hagg|Hagg]; simpl negb; cbv iota; [|auto].
    destruct (Z.ltb_spec (Z.of_nat gid) nitems0) as [Hlt|Hge]; simpl andb;
      cbv iota.
    + destruct (Z.eqb_spec (Z.of_nat gid) owner) as [Hown|Hown];
        simpl negb; simpl andb; cbv iota; simpl.
      * repeat split; auto.
        replace (0 <? Z.pos (Pos.of_succ_nat (length (List.filter
                   (fun attnum => cell (gpagg_atts kg) attnum
                                  =? GPUPREAGG_FIELD_IS_AGGFUNC) cs))))
          with true by (symmetry; apply Z.ltb_lt; lia).
        destruct (0 <? _); [apply list_insert_insert_eq|reflexivity].
      * rewrite Hcalc_rooms, <- app_assoc. simpl. auto.
    + rewrite app_nil_r. auto.
Qed.

End ColumnLoop.

Section GroupFold.

Context `{F : GpuPreAggFunctions}.
Variables (kg : kern_gpupreagg) (nitems0 nattrs : Z) (L g : nat) (st0 : gstate).
Variable base : Z.
Hypothesis Hcalc_rooms : forall e attnum k a n,
  nrooms (snd (gpupreagg_global_calc e attnum k a n)) = nrooms k.
Hypothesis Hbase : 0 <= base /\ base + Z.of_nat L < 2 ^ 32.
Hypothesis Hitems : forall gid,
  In gid (group_members L g) -> exists w, gs_items st0 !! gid = Some w.
Hypothesis Hown_in : forall gid w,
  In gid (group_members L g) -> gs_items st0 !! gid = Some w ->
  Z.of_nat gid = wi_owner_index w -> Z.of_nat gid < nitems0.

Lemma owner_flag_01 (items : list workitem) (gid : nat) :
  global_owner_flag items gid = 0 \/ global_owner_flag items gid = 1.
Proof.
  unfold global_owner_flag. destruct (items !! gid); [|auto].
  destruct (_ =? _); auto.
Qed.

Lemma group_fold_effect : forall (rest done : list nat) (st : gstate),
  group_members L g = done ++ rest ->
  (forall gid, In gid rest -> gs_items st !! gid = gs_items st0 !! gid) ->
  let owners := List.filter (fun gid => global_owner_flag (gs_items st0) gid =? 1) in
  let st' := fold_left
               (global_group_member kg nitems0 nattrs L g
                  (map (global_owner_flag (gs_items st0)) (group_members L g))
                  base) rest st in
  nrooms (gs_kds_dst st') = nrooms (gs_kds_dst st) /\
  rindex (gs_krowmap st')
  = (if 0 <? Z.of_nat (length (aggfunc_columns kg nattrs))
     then list_inserts (Z.to_nat base + length (owners done))
            (map Z.of_nat (owners rest)) (rindex (gs_krowmap st))
     else rindex (gs_krowmap st)) /\
  gs_calls st'
  = gs_calls st
    ++ flat_map (merge_calls kg nattrs (gs_items st0))
         (List.filter (merged_row nitems0 (gs_items st0)) rest).
Proof.
  induction rest as [|gid rest IH]; intros done st Hmem Hsame; cbv zeta.
  - simpl. rewrite app_nil_r. destruct (0 <? _); auto.
  - rewrite fold_left_cons_eq.
    assert (Hin : In gid (group_members L g))
      by (rewrite Hmem; apply in_or_app; right; left; reflexivity).
    destruct (Hitems gid Hin) as [w Hw0].
    assert (Hw : gs_items st !! gid = Some w)
      by (rewrite Hsame by (left; reflexivity); exact Hw0).
    assert (Hlid : (gid - g * L = length done)%nat).
    { unfold group_members in Hmem.
      assert (Hnth : seq (g * L) L !! length done = Some gid)
        by (rewrite Hmem; apply list_lookup_middle; reflexivity).
      apply lookup_seq in Hnth. lia. }
    assert (Hdone_len : (length done < L)%nat).
    { apply (f_equal (@length nat)) in Hmem.
      unfold group_members in Hmem. rewrite length_seq, length_app in Hmem.
      simpl in Hmem. lia. }
    set (flag0 := global_owner_flag (gs_items st0)) in *.
    set (owners := List.filter (fun gid => flag0 gid =? 1)).
    assert (Hidx : fst (arithmetic_stairlike_add (map flag0 (group_members L g))
                          (gid - g * L))
                   = Z.of_nat (length (owners done))).
    { unfold arithmetic_stairlike_add. simpl fst. rewrite Hlid, Hmem.
      rewrite map_app, take_app_length' by (rewrite length_map; reflexivity).
      rewrite sumZ_flags_count by (intros; apply owner_flag_01).
      fold owners. unfold wrap_unsigned. apply Z.mod_small.
      assert (length (owners done) <= length done)%nat
        by apply List.filter_length_le.
      lia. }
    assert (Hdest : wrap_unsigned 64 (base + Z.of_nat (length (owners done)))
                    = base + Z.of_nat (length (owners done))).
    { unfold wrap_unsigned. apply Z.mod_small.
      assert (length (owners done) <= length done)%nat
        by apply List.filter_length_le.
      change (2 ^ 64) with (2 ^ 32 * 2 ^ 32). nia. }
    set (st1 := global_group_member kg nitems0 nattrs L g
                  (map flag0 (group_members L g)) base st gid).
    destruct (global_reduce_columns_effect kg nitems0 Hcalc_rooms gid
                (wi_owner_index w)
                (base + Z.of_nat (length (owners done))) (seqZ 0 nattrs) st)
      as (_ & Hn1 & Hr1 & Hc1).
    cbv zeta in Hn1, Hr1, Hc1.
    fold (aggfunc_columns kg nattrs) in Hr1, Hc1.
    fold (global_reduce_item kg nitems0 nattrs gid (wi_owner_index w)
            (base + Z.of_nat (length (owners done))) st) in Hn1, Hr1, Hc1.
    assert (Hst1 : nrooms (gs_kds_dst st1) = nrooms (gs_kds_dst st) /\
                   rindex (gs_krowmap st1)
                   = rindex (gs_krowmap
                       (global_reduce_item kg nitems0 nattrs gid
                          (wi_owner_index w)
                          (base + Z.of_nat (length (owners done))) st)) /\
                   gs_calls st1
                   = gs_calls
                       (global_reduce_item kg nitems0 nattrs gid
                          (wi_owner_index w)
                          (base + Z.of_nat (length (owners done))) st)).
    { unfold st1, global_group_member. rewrite Hw. cbv zeta.
      rewrite Hidx, Hdest. cbn [gs_kds_dst gs_krowmap gs_calls].
      split; [exact Hn1|]. split; reflexivity. }
    destruct Hst1 as (Hn1' & Hr1' & Hc1').
    rewrite Hr1 in Hr1'. rewrite Hc1 in Hc1'. clear Hn1 Hr1 Hc1.
    destruct (IH (done ++ [gid]) st1) as (Hn & Hr & Hc).
    { rewrite <- app_assoc. exact Hmem. }
    { intros x Hx.
      destruct (global_group_member_items kg nitems0 nattrs L g
                  (map flag0 (group_members L g)) base st gid) as (f & Hf & _).
      fold st1 in Hf. rewrite Hf.
      assert (Hne : gid <> x).
      { intros ->.
        assert (Hnd : List.NoDup (done ++ x :: rest))
          by (rewrite <- Hmem; apply List.seq_NoDup).
        apply List.NoDup_remove_2 in Hnd. apply Hnd. apply in_or_app. now right. }
      rewrite list_lookup_alter_ne by exact Hne. apply Hsame. now right. }
    cbv zeta in Hn, Hr, Hc. fold flag0 in Hr. fold owners in Hr.
    rewrite Hn, Hr, Hc, Hn1', Hr1', Hc1'. clear Hn Hr Hc Hn1' Hr1' Hc1' IH.
    assert (Hflag : (flag0 gid =? 1) = (Z.of_nat gid =? wi_owner_index w)).
    { unfold flag0, global_owner_flag. rewrite Hw0.
      destruct (Z.of_nat gid =? wi_owner_index w); reflexivity. }
    assert (Hmerged : merged_row nitems0 (gs_items st0) gid
                      = (Z.of_nat gid <? nitems0)
                        && negb (Z.of_nat gid =? wi_owner_index w)).
    { unfold merged_row. rewrite Hw0. reflexivity. }
    split; [reflexivity|]. split.
    + assert (Ho1 : owners (done ++ [gid])
                    = owners done
                      ++ (if Z.of_nat gid =? wi_owner_index w then [gid] else [])).
      { unfold owners. rewrite List.filter_app, filter_cons_eq, Hflag.
        destruct (_ =? _); reflexivity. }
      assert (Ho2 : owners (gid :: rest)
                    = if Z.of_nat gid =? wi_owner_index w
                      then gid :: owners rest else owners rest).
      { unfold owners. rewrite filter_cons_eq, Hflag. reflexivity. }
      rewrite Ho1, Ho2, length_app.
      destruct (Z.eqb_spec (Z.of_nat gid) (wi_owner_index w)) as [Hown|Hown].
      * replace (Z.of_nat gid <? nitems0) with true
          by (symmetry; apply Z.ltb_lt; eapply Hown_in; eassumption).
        simpl andb. destruct (0 <? _); [|reflexivity].
        simpl length. simpl map. cbn [list_inserts].
        rewrite list_insert_inserts_lt by lia.
        f_equal; [lia|]. f_equal. lia.
      * rewrite andb_false_r. simpl andb. cbv iota. simpl length.
        rewrite Nat.add_0_r. reflexivity.
    + rewrite filter_cons_eq, Hmerged, <- app_assoc. f_equal.
      destruct ((Z.of_nat gid <? nitems0)
                && negb (Z.of_nat gid =? wi_owner_index w)).
      * simpl flat_map. unfold merge_calls at 2. rewrite Hw0. reflexivity.
      * reflexivity.
Qed.

End GroupFold.

Section FilterGroups.

Variables (L NG : nat).
Hypothesis HL : (0 < L)%nat.

Lemma filter_ext_in_eq {A} (p p' : A -> bool) (l : list A) :
  (forall x, In x l -> p' x = p x) -> List.filter p' l = List.filter p l.
Proof.
  induction l as [|x l IH]; intros H; simpl; [reflexivity|].
  rewrite (H x) by now left. rewrite IH by (intros; apply H; now right).
  reflexivity.
Qed.

Lemma filter_none {A} (p : A -> bool) (l : list A) :
  (forall x, In x l -> p x = false) -> List.filter p l = [].
Proof.
  induction l as [|x l IH]; intros H; simpl; [reflexivity|].
  rewrite (H x) by now left. apply IH. intros; apply H; now right.
Qed.

Lemma flat_map_ext_in {A B} (f f' : A -> list B) (l : list A) :
  (forall x, In x l -> f' x = f x) -> flat_map f' l = flat_map f l.
Proof.
  induction l as [|x l IH]; intros H; simpl; [reflexivity|].
  rewrite (H x) by now left. rewrite IH by (intros; apply H; now right).
  reflexivity.
Qed.

(** A predicate that changes on the work-items of one work-group only. *)
Lemma filter_group_split (p p' q : nat -> bool) (g : nat) :
  (g < NG)%nat ->
  (forall x, ~ In x (group_members L g) -> p' x = p x) ->
  (forall x, In x (group_members L g) -> p x = false /\ p' x = q x) ->
  List.filter p' (seq 0 (NG * L))
  ≡ₚ List.filter p (seq 0 (NG * L)) ++ List.filter q (group_members L g).
Proof.
  intros Hg Hout Hin.
  replace (NG * L)%nat with (g * L + (L + (NG * L - g * L - L)))%nat by nia.
  rewrite !seq_app, !List.filter_app. simpl Nat.add.
  fold (group_members L g).
  assert (Hbefore : forall x, In x (seq 0 (g * L)) -> ~ In x (group_members L g)).
  { intros x Hx Hm. apply in_seq in Hx. unfold group_members in Hm.
    apply in_seq in Hm. lia. }
  assert (Hafter : forall x, In x (seq (g * L + L) (NG * L - g * L - L)) ->
                             ~ In x (group_members L g)).
  { intros x Hx Hm. apply in_seq in Hx. unfold group_members in Hm.
    apply in_seq in Hm. lia. }
  rewrite (filter_ext_in_eq p p' (seq 0 (g * L)))
    by (intros x Hx; apply Hout, Hbefore, Hx).
  rewrite (filter_ext_in_eq p p' (seq (g * L + L) _))
    by (intros x Hx; apply Hout, Hafter, Hx).
  rewrite (filter_ext_in_eq q p' (group_members L g))
    by (intros x Hx; apply Hin, Hx).
  rewrite (filter_none p (group_members L g))
    by (intros x Hx; apply Hin, Hx).
  simpl app. rewrite <- !app_assoc.
  apply Permutation_app_head. apply Permutation_app_comm.
Qed.

End FilterGroups.

Section GroupResults.

Context `{F : GpuPreAggFunctions}.
Variables (L NG : nat) (kgpreagg : kern_gpupreagg) (kds : kern_data_store)
          (tbl0 : list pagg_hashslot).
Hypothesis HL : (0 < L)%nat.
Hypothesis Hsize : 0 < hash_size kgpreagg.
Hypothesis Htbl : (Z.to_nat (hash_size kgpreagg) <= length tbl0)%nat.
Hypothesis HK : key_contract kds (gpagg_atts kgpreagg).
Hypothesis Hlaunch : nitems kds <= Z.of_nat (NG * L) < 2 ^ 31.
Hypothesis Hcalc_rooms : forall e attnum k a n,
  nrooms (snd (gpupreagg_global_calc e attnum k a n)) = nrooms k.
Hypothesis Hrooms :
  Z.of_nat (length (distinct_keys kds (seq 0 (Z.to_nat (nitems kds)))))
  <= nrooms kds.
Hypothesis Hrindex :
  (length (distinct_keys kds (seq 0 (Z.to_nat (nitems kds))))
   <= length (rindex (krowmap kgpreagg)))%nat.

(** Work-items out of the retry loop that are their own owner are no more
    than the distinct keys. *)
Lemma owners_le_keys (sched : list nat) (l : list nat) :
  let st := gpupreagg_global_stage L NG kgpreagg kds tbl0 sched in
  NoDup l ->
  (forall x, In x l ->
     exists w, gs_items st !! x = Some w /\ wi_pc w <> PC_retry /\
               wi_owner_index w = Z.of_nat x) ->
  (length l <= length (distinct_keys kds (seq 0 (Z.to_nat (nitems kds)))))%nat.
Proof.
  intros st Hnd Hl.
  assert (Hnitems : nitems kds <= ALL_ONES) by (unfold ALL_ONES; lia).
  pose proof (global_reduction_inv L NG kgpreagg kds tbl0 Hsize Htbl Hnitems HK
                sched) as Hinv.
  fold st in Hinv.
  set (kg := fst (gpupreagg_global_preparation kgpreagg tbl0)) in *.
  assert (Hsize' : 0 < hash_size kg) by exact Hsize.
  assert (HK' : key_contract kds (gpagg_atts kg)) by exact HK.
  assert (Hlen : length (gs_items st) = (NG * L)%nat)
    by (apply global_items_length; exact HL).
  assert (Hown : forall x, In x l -> is_owner kds st x).
  { intros x Hx. destruct (Hl x Hx) as (w & Hw & Hpc & Ho).
    assert (Hin : Z.of_nat x < nitems kds).
    { destruct (Z.lt_ge_cases (Z.of_nat x) (nitems kds)) as [|Hge]; [assumption|].
      destruct (gi_outside _ _ _ _ Hinv _ _ Hw Hge) as [_ Hall].
      apply lookup_lt_Some in Hw. unfold ALL_ONES in Hall. lia. }
    split; [exact Hin|]. eauto. }
  apply (distinct_bound kds _ HK).
  - intros x Hx. apply (distinct_keys_cover kds _ HK). apply in_seq.
    destruct (Hown x Hx) as [Hin _]. lia.
  - intros i j x y Hij Hx Hy.
    destruct (same_key kds x y) eqn:Hs; [exfalso|reflexivity].
    assert (Hox : is_owner kds st x).
    { apply Hown, list_elem_of_In. eapply list_elem_of_lookup_2. eassumption. }
    assert (Hoy : is_owner kds st y).
    { apply Hown, list_elem_of_In. eapply list_elem_of_lookup_2. eassumption. }
    pose proof (unique_owner kg kds Hsize' Hnitems HK' sched st Hinv x y Hox Hoy Hs)
      as Hxy. subst y.
    pose proof (NoDup_lookup _ _ _ _ Hnd Hx Hy). lia.
Qed.

Lemma left_owners_spec (st : gstate) (x : nat) :
  In x (left_owners st) <->
  exists w, gs_items st !! x = Some w /\ wi_pc w = PC_out /\
            wi_owner_index w = Z.of_nat x.
Proof.
  unfold left_owners, has_left, global_owner_flag.
  rewrite filter_In, in_seq. split.
  - intros [_ Hp]. destruct (gs_items st !! x) as [w|]; [|discriminate].
    apply andb_true_iff in Hp. destruct Hp as [Hout Hflag].
    apply bool_decide_eq_true_1 in Hout.
    destruct (Z.eqb_spec (Z.of_nat x) (wi_owner_index w)); [|discriminate].
    eauto.
  - intros (w & Hw & Hout & Ho). split.
    + apply lookup_lt_Some in Hw. lia.
    + rewrite Hw, Ho, Z.eqb_refl, bool_decide_eq_true_2 by exact Hout.
      reflexivity.
Qed.

Lemma left_owners_NoDup (st : gstate) : NoDup (left_owners st).
Proof. apply NoDup_ListNoDup, List.NoDup_filter, List.seq_NoDup. Qed.

Lemma nvalids_left_owners (sched : list nat) :
  let st := gpupreagg_global_stage L NG kgpreagg kds tbl0 sched in
  nvalids (gs_krowmap st) = Z.of_nat (length (left_owners st)) /\
  (length (left_owners st)
   <= length (distinct_keys kds (seq 0 (Z.to_nat (nitems kds)))))%nat.
Proof.
  intros st.
  assert (Hlen : length (gs_items st) = (NG * L)%nat)
    by (apply global_items_length; exact HL).
  assert (Hle : (length (left_owners st)
                 <= length (distinct_keys kds (seq 0 (Z.to_nat (nitems kds)))))%nat).
  { apply (owners_le_keys sched); [apply left_owners_NoDup|].
    intros x Hx. apply left_owners_spec in Hx.
    destruct Hx as (w & Hw & Hout & Ho). exists w.
    split; [exact Hw|]. split; [congruence|exact Ho]. }
  split; [|exact Hle].
  unfold st. rewrite (global_stage_nvalids L NG kgpreagg kds tbl0 HL) by assumption.
  fold st.
  rewrite sumZ_flags_count.
  - rewrite <- Hlen.
    rewrite (filter_ext_in_eq
               (fun gid => has_left st gid
                           && (global_owner_flag (gs_items st) gid =? 1))
               (fun x => left_flag st x =? 1)).
    + fold (left_owners st). apply wrap_signed_fit.
      assert (length (left_owners st) <= length (gs_items st))%nat.
      { unfold left_owners. etransitivity; [apply List.filter_length_le|].
        rewrite length_seq. lia. }
      lia.
    + intros x _. unfold left_flag, has_left.
      destruct (gs_items st !! x) as [w|]; [|reflexivity].
      destruct (bool_decide (wi_pc w = PC_out)); reflexivity.
  - intros x _. unfold left_flag.
    destruct (gs_items st !! x) as [w|]; [|auto].
    destruct (bool_decide _); [apply owner_flag_01|auto].
Qed.

Lemma frame_lookups (items items' : list workitem) (x : nat) :
  Forall2 wi_frame items items' ->
  global_owner_flag items' x = global_owner_flag items x /\
  (forall n0, merged_row n0 items' x = merged_row n0 items x) /\
  (forall kg na, merge_calls kg na items' x = merge_calls kg na items x).
Proof.
  intros Hfr. unfold global_owner_flag, merged_row, merge_calls.
  destruct (items !! x) as [w|] eqn:Hw.
  - destruct (Forall2_lookup_l _ _ _ _ _ Hfr Hw) as (w' & Hw' & _ & _ & Ho & _).
    rewrite Hw', Ho. auto.
  - assert (Hn : items' !! x = None).
    { apply lookup_ge_None. rewrite <- (Forall2_length _ _ _ Hfr).
      now apply lookup_ge_None. }
    rewrite Hn. auto.
Qed.

(** Along every schedule: the batch keeps its [nrooms], the row map its
    length, the first cells of the row map hold the owners of the
    work-groups that are through, and the merges that were made are those
    of the other rows of these work-groups. *)
Lemma global_stage_results (sched : list nat) :
  let st := gpupreagg_global_stage L NG kgpreagg kds tbl0 sched in
  nrooms (gs_kds_dst st) = nrooms kds /\
  length (rindex (gs_krowmap st)) = length (rindex (krowmap kgpreagg)) /\
  ((0 < length (aggfunc_columns kgpreagg (ncols kds)))%nat ->
   take (length (left_owners st)) (rindex (gs_krowmap st))
   ≡ₚ map Z.of_nat (left_owners st)) /\
  gs_calls st
  ≡ₚ flat_map (merge_calls kgpreagg (ncols kds) (gs_items st))
       (left_merged (nitems kds) st).
Proof.
  induction sched as [|gid sched IH] using rev_ind; cbv zeta.
  - assert (Hnone : forall p, List.filter
              (fun x => has_left (gpupreagg_global_stage L NG kgpreagg kds tbl0 [])
                                 x && p x)
              (seq 0 (length (gs_items
                        (gpupreagg_global_stage L NG kgpreagg kds tbl0 []))))
              = []).
    { intros p. apply filter_none. intros x _.
      unfold has_left, gpupreagg_global_stage. simpl.
      destruct (_ !! x) as [w|] eqn:Hw; [|reflexivity].
      apply list_lookup_fmap_Some in Hw. destruct Hw as (n & -> & _).
      unfold global_workitem. destruct (_ <? _); reflexivity. }
    unfold left_owners, left_merged. rewrite !Hnone.
    repeat split; reflexivity.
  - rewrite global_reduction_snoc. cbv zeta in IH.
    destruct (nvalids_left_owners sched) as [Hnv Hle].
    assert (Hnitems : nitems kds <= ALL_ONES) by (unfold ALL_ONES; lia).
    pose proof (global_reduction_inv L NG kgpreagg kds tbl0 Hsize Htbl Hnitems HK
                  sched) as Hinv.
    set (kg := fst (gpupreagg_global_preparation kgpreagg tbl0)) in *.
    set (st := gpupreagg_global_stage L NG kgpreagg kds tbl0 sched) in *.
    destruct IH as (J1 & Jlen & J3 & J4).
    assert (Hlen : length (gs_items st) = (NG * L)%nat)
      by (apply global_items_length; exact HL).
    unfold global_step.
    destruct (gs_items st !! gid) as [w|] eqn:Hw; [|auto].
    assert (Hgid : (gid < NG * L)%nat)
      by (rewrite <- Hlen; eapply lookup_lt_Some; eassumption).
    destruct (wi_pc w) eqn:Hpc; [| |auto].
    + (* a pass through the retry loop *)
      destruct (global_retry_items kg gid w st Hw Hpc) as (w1 & Hit & Hw1).
      destruct (global_retry_data gid w st kg) as [Hkds Hcalls].
      pose proof (global_retry_krowmap kg gid w st) as Hmap.
      set (st' := global_retry kg gid w st) in *.
      assert (Hleft : forall x, has_left st' x = has_left st x).
      { intros x. unfold has_left. rewrite Hit.
        destruct (decide (gid = x)) as [<-|Hne].
        - rewrite list_lookup_insert_eq by lia. rewrite Hw, Hpc.
          rewrite !bool_decide_eq_false_2 by congruence. reflexivity.
        - rewrite list_lookup_insert_ne by assumption. reflexivity. }
      assert (Hother : forall x, has_left st x = true ->
                gs_items st' !! x = gs_items st !! x).
      { intros x Hx. rewrite Hit. apply list_lookup_insert_ne. intros <-.
        unfold has_left in Hx. rewrite Hw, Hpc in Hx.
        apply bool_decide_eq_true_1 in Hx. discriminate. }
      assert (Hlen' : length (gs_items st') = length (gs_items st))
        by (rewrite Hit; apply length_insert).
      assert (HO : left_owners st' = left_owners st).
      { unfold left_owners. rewrite Hlen'. apply filter_ext_in_eq. intros x _.
        rewrite Hleft. destruct (has_left st x) eqn:Hx; [|reflexivity].
        unfold global_owner_flag. rewrite (Hother x Hx). reflexivity. }
      assert (HM : left_merged (nitems kds) st' = left_merged (nitems kds) st).
      { unfold left_merged. rewrite Hlen'. apply filter_ext_in_eq. intros x _.
        rewrite Hleft. destruct (has_left st x) eqn:Hx; [|reflexivity].
        unfold merged_row. rewrite (Hother x Hx). reflexivity. }
      rewrite Hkds, Hcalls, Hmap, HO, HM.
      split; [exact J1|]. split; [exact Jlen|]. split; [exact J3|].
      rewrite J4. apply Permutation_refl'. symmetry. apply flat_map_ext_in.
      intros x Hx. unfold left_merged in Hx. apply filter_In in Hx.
      destruct Hx as [_ Hx]. apply andb_true_iff in Hx. destruct Hx as [Hx _].
      unfold merge_calls. rewrite (Hother x Hx). reflexivity.
    + (* the work-group goes through the reduction *)
      destruct (all_at PC_barrier (gs_items st) (group_members L (gid / L)))
        eqn:Hall; [|auto].
      pose proof (all_at_spec _ _ _ Hall) as Hbar.
      set (g := (gid / L)%nat) in *.
      assert (Hg : (g < NG)%nat) by (apply Nat.Div0.div_lt_upper_bound; lia).
      destruct (global_group_step_items kg (nitems kds) (ncols kds) L g st)
        as [Hothers Hmembers].
      destruct (global_group_step_frame kg (nitems kds) (ncols kds) L g st)
        as [_ Hframe _ _].
      { intros m wm Hm Hwm. rewrite (Hbar _ _ Hm Hwm). discriminate. }
      assert (Hmem_lt : forall x, In x (group_members L g) -> (x < NG * L)%nat).
      { intros x Hx. unfold group_members in Hx. apply in_seq in Hx. nia. }
      assert (Hmem_item : forall x, In x (group_members L g) ->
                exists wx, gs_items st !! x = Some wx).
      { intros x Hx. apply lookup_lt_is_Some_2. rewrite Hlen. now apply Hmem_lt. }
      set (flag := global_owner_flag (gs_items st)) in *.
      set (ow := List.filter (fun x => flag x =? 1) (group_members L g)).
      (* the owners of this work-group, with those that left before *)
      assert (How : forall x, In x ow ->
                exists wx, gs_items st !! x = Some wx /\ wi_pc wx = PC_barrier /\
                           wi_owner_index wx = Z.of_nat x).
      { intros x Hx. unfold ow in Hx. apply filter_In in Hx.
        destruct Hx as [Hx Hf]. destruct (Hmem_item x Hx) as [wx Hwx].
        exists wx. split; [exact Hwx|]. split; [eapply Hbar; eassumption|].
        unfold flag, global_owner_flag in Hf. rewrite Hwx in Hf.
        destruct (Z.eqb_spec (Z.of_nat x) (wi_owner_index wx)); [auto|discriminate]. }
      assert (Hbound : (length (left_owners st) + length ow
                        <= length (distinct_keys kds
                                     (seq 0 (Z.to_nat (nitems kds)))))%nat).
      { rewrite <- length_app. apply (owners_le_keys sched).
        - apply NoDup_app. split; [apply left_owners_NoDup|]. split.
          + intros x Hx Hx'. apply list_elem_of_In, left_owners_spec in Hx.
            apply list_elem_of_In, How in Hx'.
            destruct Hx as (w1 & Hw1 & Ho1 & _). destruct Hx' as (w2 & Hw2 & Ho2 & _).
            fold st in Hw1. congruence.
          + apply NoDup_ListNoDup, List.NoDup_filter, List.seq_NoDup.
        - intros x Hx. apply in_app_or in Hx. destruct Hx as [Hx|Hx].
          + apply left_owners_spec in Hx. destruct Hx as (wx & Hwx & Hox & Hix).
            exists wx. split; [exact Hwx|]. split; [congruence|exact Hix].
          + destruct (How x Hx) as (wx & Hwx & Hox & Hix).
            exists wx. split; [exact Hwx|]. split; [congruence|exact Hix]. }
      assert (Hs : sumZ (map flag (group_members L g)) = Z.of_nat (length ow)).
      { apply sumZ_flags_count. intros; apply owner_flag_01. }
      assert (How_len : (length ow <= L)%nat).
      { unfold ow. etransitivity; [apply List.filter_length_le|].
        unfold group_members. rewrite length_seq. lia. }
      assert (HLN : (L <= NG * L)%nat) by nia.
      assert (HO_len : (length (left_owners st) <= NG * L)%nat).
      { unfold left_owners. etransitivity; [apply List.filter_length_le|].
        rewrite length_seq. lia. }
      set (st' := global_group_step kg (nitems kds) (ncols kds) L g st) in *.
      assert (Hlen' : length (gs_items st') = length (gs_items st))
        by (symmetry; eapply Forall2_length; eassumption).
      assert (Hstep :
        nrooms (gs_kds_dst st') = nrooms (gs_kds_dst st) /\
        rindex (gs_krowmap st')
        = (if 0 <? Z.of_nat (length (aggfunc_columns kg (ncols kds)))
           then list_inserts (length (left_owners st)) (map Z.of_nat ow)
                  (rindex (gs_krowmap st))
           else rindex (gs_krowmap st)) /\
        gs_calls st'
        = gs_calls st
          ++ flat_map (merge_calls kg (ncols kds) (gs_items st))
               (List.filter (merged_row (nitems kds) (gs_items st))
                  (group_members L g))).
      { assert (Hng : snd (arithmetic_stairlike_add
                             (map flag (group_members L g)) 0)
                      = Z.of_nat (length ow)).
        { unfold arithmetic_stairlike_add. cbn [snd]. rewrite Hs.
          apply Z.mod_small. lia. }
        assert (Hw64 : wrap_unsigned 64 (Z.of_nat (length (left_owners st)))
                       = Z.of_nat (length (left_owners st))).
        { apply Z.mod_small. change (2 ^ 64) with (2 ^ 33 * 2 ^ 31). nia. }
        assert (Hw64' : wrap_unsigned 64 (Z.of_nat (length (left_owners st))
                                          + Z.of_nat (length ow))
                        = Z.of_nat (length (left_owners st)) + Z.of_nat (length ow)).
        { apply Z.mod_small. change (2 ^ 64) with (2 ^ 33 * 2 ^ 31). nia. }
        unfold st', global_group_step. cbv zeta.
        cbn [gs_kds_dst gs_krowmap gs_hashslot gs_items gs_calls nvalids rindex].
        fold flag. rewrite !Hng, Hnv, Hw64, Hw64'.
        replace (nrooms (gs_kds_dst st)
                 <? Z.of_nat (length (left_owners st)) + Z.of_nat (length ow))
          with false by (symmetry; apply Z.ltb_ge; lia).
        match goal with
        | |- context [fold_left _ _ ?s1] => set (st1 := s1)
        end.
        destruct (group_fold_effect kg (nitems kds) (ncols kds) L g st1
                    (Z.of_nat (length (left_owners st))) Hcalc_rooms)
          with (rest := group_members L g) (done := @nil nat) (st := st1)
          as (Hn & Hr & Hc).
        - lia.
        - exact Hmem_item.
        - intros x wx Hx Hwx Hox.
          destruct (Z.lt_ge_cases (Z.of_nat x) (nitems kds)) as [|Hge];
            [assumption|].
          destruct (gi_outside _ _ _ _ Hinv _ _ Hwx Hge) as [_ Hones].
          pose proof (Hmem_lt x Hx). unfold ALL_ONES in Hones. lia.
        - reflexivity.
        - reflexivity.
        - cbv zeta in Hn, Hr, Hc. unfold st1 in Hn, Hr, Hc.
          cbn [gs_items gs_kds_dst gs_krowmap gs_calls rindex] in Hn, Hr, Hc.
          fold st1 in Hn, Hr, Hc.
          fold flag in Hn, Hr, Hc. fold ow in Hr.
          simpl length in Hr. rewrite Nat.add_0_r, Nat2Z.id in Hr.
          split; [exact Hn|]. split; [exact Hr|exact Hc]. }
      destruct Hstep as (Hn' & Hr' & Hc').
      assert (Hflags : forall x,
                global_owner_flag (gs_items st') x = flag x /\
                merged_row (nitems kds) (gs_items st') x
                = merged_row (nitems kds) (gs_items st) x /\
                merge_calls kgpreagg (ncols kds) (gs_items st') x
                = merge_calls kgpreagg (ncols kds) (gs_items st) x).
      { intros x. destruct (frame_lookups _ _ x Hframe) as (H1 & H2 & H3). auto. }
      assert (Hleft_out : forall x, ~ In x (group_members L g) ->
                has_left st' x = has_left st x).
      { intros x Hx. unfold has_left. rewrite (Hothers x Hx). reflexivity. }
      assert (Hleft_in : forall x, In x (group_members L g) ->
                has_left st x = false /\ has_left st' x = true).
      { intros x Hx. destruct (Hmem_item x Hx) as [wx Hwx].
        destruct (Forall2_lookup_l _ _ _ _ _ Hframe Hwx) as (wx' & Hwx' & _).
        unfold has_left. rewrite Hwx, Hwx', (Hbar _ _ Hx Hwx), (Hmembers _ _ Hx Hwx').
        split; [apply bool_decide_eq_false_2; discriminate
               |apply bool_decide_eq_true_2; reflexivity]. }
      assert (HO : left_owners st' ≡ₚ left_owners st ++ ow).
      { unfold left_owners. rewrite Hlen', Hlen.
        apply (filter_group_split L NG HL _ _ _ g Hg).
        - intros x Hx. rewrite (Hleft_out x Hx).
          destruct (Hflags x) as [-> _]. reflexivity.
        - intros x Hx. destruct (Hleft_in x Hx) as [-> ->].
          destruct (Hflags x) as [-> _]. split; reflexivity. }
      assert (HM : left_merged (nitems kds) st'
                   ≡ₚ left_merged (nitems kds) st
                      ++ List.filter (merged_row (nitems kds) (gs_items st))
                           (group_members L g)).
      { unfold left_merged. rewrite Hlen', Hlen.
        apply (filter_group_split L NG HL _ _ _ g Hg).
        - intros x Hx. rewrite (Hleft_out x Hx).
          destruct (Hflags x) as (_ & -> & _). reflexivity.
        - intros x Hx. destruct (Hleft_in x Hx) as [-> ->].
          destruct (Hflags x) as (_ & -> & _). split; reflexivity. }
      split; [congruence|]. split; [|split].
      * rewrite Hr'. destruct (0 <? _); [rewrite length_inserts|]; exact Jlen.
      * intros Hagg. rewrite Hr'.
        replace (0 <? Z.of_nat (length (aggfunc_columns kg (ncols kds))))
          with true
          by (symmetry; apply Z.ltb_lt;
              change (aggfunc_columns kg (ncols kds))
                with (aggfunc_columns kgpreagg (ncols kds)); lia).
        rewrite (Permutation_length HO), length_app.
        rewrite list_inserts_middle by (rewrite length_map; lia).
        rewrite length_map, app_assoc.
        rewrite take_app_length'
          by (rewrite length_app, length_take, length_map; lia).
        rewrite (Permutation_map Z.of_nat HO), map_app.
        apply Permutation_app_tail. apply J3. exact Hagg.
      * rewrite Hc'.
        rewrite (flat_map_ext_in (merge_calls kgpreagg (ncols kds) (gs_items st))
                   (merge_calls kgpreagg (ncols kds) (gs_items st')))
          by (intros x _; apply (Hflags x)).
        rewrite (Permutation_flat_map _ HM), flat_map_app.
        apply Permutation_app_tail. exact J4.
Qed.

Lemma finished_all_left (st : gstate) :
  gs_finished st = true ->
  forall x, (x < length (gs_items st))%nat -> has_left st x = true.
Proof.
  intros Hfin x Hx. unfold has_left.
  destruct (lookup_lt_is_Some_2 (gs_items st) x Hx) as [w Hw]. rewrite Hw.
  unfold gs_finished in Hfin. rewrite forallb_forall in Hfin. apply Hfin.
  apply list_elem_of_In. eapply list_elem_of_lookup_2. eassumption.
Qed.

Lemma finished_left_owners (st : gstate) :
  gs_finished st = true -> left_owners st = group_owners st.
Proof.
  intros Hfin. unfold left_owners, group_owners. apply filter_ext_in_eq.
  intros x Hx. apply in_seq in Hx.
  rewrite (finished_all_left st Hfin x) by lia. reflexivity.
Qed.

(** X17. When the kernel has run to its end, the batch has an aggregate
    column and room for a row of every group, then the first [nvalids]
    cells of the row map hold the owners, each of them once: for every row
    of the batch there is a row of its group in the row map, and two cells
    of the row map never hold rows of the same group. *)
Theorem global_stage_row_map (sched : list nat) :
  let st := gpupreagg_global_stage L NG kgpreagg kds tbl0 sched in
  let rows := take (Z.to_nat (nvalids (gs_krowmap st))) (rindex (gs_krowmap st)) in
  gs_finished st = true ->
  (0 < length (aggfunc_columns kgpreagg (ncols kds)))%nat ->
  rows ≡ₚ map Z.of_nat (group_owners st) /\
  (forall x, Z.of_nat x < nitems kds ->
     exists o, In (Z.of_nat o) rows /\ same_key kds x o = true) /\
  (forall i j o1 o2,
     rows !! i = Some (Z.of_nat o1) -> rows !! j = Some (Z.of_nat o2) ->
     same_key kds o1 o2 = true -> i = j).
Proof.
  intros st rows Hfin Hagg.
  assert (Hnitems : nitems kds <= ALL_ONES) by (unfold ALL_ONES; lia).
  pose proof (global_reduction_inv L NG kgpreagg kds tbl0 Hsize Htbl Hnitems HK
                sched) as Hinv.
  fold st in Hinv.
  set (kg := fst (gpupreagg_global_preparation kgpreagg tbl0)) in *.
  assert (Hsize' : 0 < hash_size kg) by exact Hsize.
  assert (HK' : key_contract kds (gpagg_atts kg)) by exact HK.
  assert (Hlen : length (gs_items st) = (NG * L)%nat)
    by (apply global_items_length; exact HL).
  destruct (nvalids_left_owners sched) as [Hnv _].
  destruct (global_stage_results sched) as (_ & _ & Hrows & _).
  fold st in Hnv, Hrows. specialize (Hrows Hagg).
  rewrite <- (Nat2Z.id (length (left_owners st))), <- Hnv in Hrows.
  fold rows in Hrows. rewrite (finished_left_owners st Hfin) in Hrows.
  assert (Hout : forall gid w, gs_items st !! gid = Some w -> wi_pc w = PC_out).
  { intros gid w Hw. pose proof (finished_all_left st Hfin gid) as Hl.
    unfold has_left in Hl. rewrite Hw in Hl.
    eapply bool_decide_eq_true_1, Hl. eapply lookup_lt_Some. eassumption. }
  assert (Hspec : forall o, In o (group_owners st) <->
            exists w, gs_items st !! o = Some w /\ wi_owner_index w = Z.of_nat o).
  { intros o. rewrite <- (finished_left_owners st Hfin), left_owners_spec.
    split.
    - intros (w & Hw & _ & Ho). eauto.
    - intros (w & Hw & Ho). exists w. split; [exact Hw|]. split; [|exact Ho].
      eapply Hout. eassumption. }
  assert (Hisown : forall o, In o (group_owners st) -> is_owner kds st o).
  { intros o Ho. apply Hspec in Ho. destruct Ho as (w & Hw & Ho).
    assert (Hin : Z.of_nat o < nitems kds).
    { destruct (Z.lt_ge_cases (Z.of_nat o) (nitems kds)) as [|Hge]; [assumption|].
      destruct (gi_outside _ _ _ _ Hinv _ _ Hw Hge) as [_ Hall].
      apply lookup_lt_Some in Hw. unfold ALL_ONES in Hall. lia. }
    split; [exact Hin|]. exists w. split; [exact Hw|].
    split; [rewrite (Hout _ _ Hw); discriminate|exact Ho]. }
  split; [exact Hrows|]. split.
  - intros x Hx.
    destruct (lookup_lt_is_Some_2 (gs_items st) x ltac:(lia)) as [w Hw].
    destruct (found_owner kg kds Hnitems sched st Hinv x w Hw Hx)
      as (o & _ & (_ & wo & Hwo & _ & Hoo) & Hs).
    { rewrite (Hout _ _ Hw). discriminate. }
    exists o. split; [|exact Hs].
    apply list_elem_of_In. rewrite Hrows. apply list_elem_of_fmap.
    exists o. split; [reflexivity|]. apply list_elem_of_In, Hspec. eauto.
  - intros i j o1 o2 Hi Hj Hs.
    assert (Hnd : NoDup rows).
    { rewrite Hrows. apply NoDup_fmap; [intros a b Hab; lia|].
      apply NoDup_ListNoDup, List.NoDup_filter, List.seq_NoDup. }
    assert (Hin : forall k o, rows !! k = Some (Z.of_nat o) ->
              In o (group_owners st)).
    { intros k o Hk. apply list_elem_of_lookup_2 in Hk. rewrite Hrows in Hk.
      apply list_elem_of_fmap in Hk. destruct Hk as (o' & Heq & Ho').
      apply list_elem_of_In in Ho'. replace o with o' by lia. exact Ho'. }
    pose proof (unique_owner kg kds Hsize' Hnitems HK' sched st Hinv o1 o2
                  (Hisown _ (Hin _ _ Hi)) (Hisown _ (Hin _ _ Hj)) Hs) as Heq.
    subst o2. eapply NoDup_lookup; eassumption.
Qed.

Lemma merge_calls_NoDup (items : list workitem) (nattrs : Z) : forall l : list nat,
  NoDup l -> NoDup (flat_map (merge_calls kgpreagg nattrs items) l).
Proof.
  induction l as [|x l IH]; intros Hnd; simpl; [constructor|].
  apply NoDup_cons in Hnd. destruct Hnd as [Hx Hnd].
  apply NoDup_app. split; [|split; [|apply IH; exact Hnd]].
  - unfold merge_calls. destruct (items !! x) as [w|]; [|constructor].
    apply NoDup_fmap; [intros a b Hab; congruence|].
    apply NoDup_ListNoDup, List.NoDup_filter, NoDup_ListNoDup, NoDup_seqZ.
  - intros c Hc Hc'. apply list_elem_of_In, in_flat_map in Hc'.
    destruct Hc' as (y & Hy & Hcy).
    assert (Hthird : forall z c', In c' (merge_calls kgpreagg nattrs items z) ->
              snd c' = Z.of_nat z).
    { intros z c' Hin. unfold merge_calls in Hin.
      destruct (items !! z); [|destruct Hin].
      apply in_map_iff in Hin. destruct Hin as (a & <- & _). reflexivity. }
    apply list_elem_of_In in Hc.
    pose proof (Hthird _ _ Hc) as H1. pose proof (Hthird _ _ Hcy) as H2.
    apply Hx. apply list_elem_of_In. replace x with y by lia. exact Hy.
Qed.

(** X18. When the kernel has run to its end and the batch has room for a
    row of every group, every row that is not the owner of its group was
    merged into the owner exactly once for every aggregate column, and
    nothing else was merged: the calls of gpupreagg_global_calc are, in
    some order and without repetition, the triples (column, owner, row) of
    these rows and columns. *)
Theorem global_stage_merges (sched : list nat) :
  let st := gpupreagg_global_stage L NG kgpreagg kds tbl0 sched in
  gs_finished st = true ->
  gs_calls st
  ≡ₚ flat_map (merge_calls kgpreagg (ncols kds) (gs_items st))
       (List.filter (merged_row (nitems kds) (gs_items st)) (seq 0 (NG * L))) /\
  NoDup (gs_calls st).
Proof.
  intros st Hfin.
  assert (Hlen : length (gs_items st) = (NG * L)%nat)
    by (apply global_items_length; exact HL).
  destruct (global_stage_results sched) as (_ & _ & _ & Hcalls).
  fold st in Hcalls.
  assert (HM : left_merged (nitems kds) st
               = List.filter (merged_row (nitems kds) (gs_items st))
                   (seq 0 (NG * L))).
  { unfold left_merged. rewrite Hlen. apply filter_ext_in_eq.
    intros x Hx. apply in_seq in Hx.
    rewrite (finished_all_left st Hfin x) by lia. reflexivity. }
  rewrite HM in Hcalls. split; [exact Hcalls|].
  rewrite Hcalls. apply merge_calls_NoDup.
  apply NoDup_ListNoDup, List.NoDup_filter, List.seq_NoDup.
Qed.

End GroupResults.

Lemma sum_query_calc_rooms e attnum k a n :
  nrooms (snd (@gpupreagg_global_calc sum_query e attnum k a n)) = nrooms k.
Proof.
  simpl. destruct (GPUPREAGG_AGGCALC_PSUM_INT _ _ _) as [e' d]. reflexivity.
Qed.

Lemma global_stage_row_map_witness :
  let st := @gpupreagg_global_stage sum_query 2 2 collision_control
              collision_batch stale_table (round_robin 2 2 5) in
  (0 < 2)%nat /\ 0 < hash_size collision_control /\
  (Z.to_nat (hash_size collision_control) <= length stale_table)%nat /\
  @key_contract sum_query collision_batch (gpagg_atts collision_control) /\
  nitems collision_batch <= Z.of_nat (2 * 2) < 2 ^ 31 /\
  Z.of_nat (length (@distinct_keys sum_query collision_batch
                      (seq 0 (Z.to_nat (nitems collision_batch)))))
  <= nrooms collision_batch /\
  (length (@distinct_keys sum_query collision_batch
             (seq 0 (Z.to_nat (nitems collision_batch))))
   <= length (rindex (krowmap collision_control)))%nat /\
  gs_finished st = true /\
  (0 < length (aggfunc_columns collision_control (ncols collision_batch)))%nat /\
  take (Z.to_nat (nvalids (gs_krowmap st))) (rindex (gs_krowmap st))
  ≡ₚ map Z.of_nat (group_owners st).
Proof.
  cbv zeta.
  assert (H0 : (0 < 2)%nat) by lia.
  assert (H1 : 0 < hash_size collision_control) by (vm_compute; reflexivity).
  assert (H2 : (Z.to_nat (hash_size collision_control) <= length stale_table)%nat)
    by (vm_compute; lia).
  pose proof (sum_query_contract collision_batch) as H3.
  assert (H4 : nitems collision_batch <= Z.of_nat (2 * 2) < 2 ^ 31)
    by (vm_compute; split; [discriminate|reflexivity]).
  assert (H5 : Z.of_nat (length (@distinct_keys sum_query collision_batch
                                   (seq 0 (Z.to_nat (nitems collision_batch)))))
               <= nrooms collision_batch) by (vm_compute; discriminate).
  assert (H6 : (length (@distinct_keys sum_query collision_batch
                          (seq 0 (Z.to_nat (nitems collision_batch))))
                <= length (rindex (krowmap collision_control)))%nat)
    by (vm_compute; lia).
  assert (H7 : gs_finished (@gpupreagg_global_stage sum_query 2 2 collision_control
                              collision_batch stale_table (round_robin 2 2 5))
               = true) by (vm_compute; reflexivity).
  assert (H8 : (0 < length (aggfunc_columns collision_control
                              (ncols collision_batch)))%nat) by (vm_compute; lia).
  repeat (split; [assumption|]).
  apply (@global_stage_row_map sum_query 2 2 collision_control collision_batch
           stale_table H0 H1 H2 H3 H4 sum_query_calc_rooms H5 H6
           (round_robin 2 2 5) H7 H8).
Defined.

Lemma global_stage_merges_witness :
  let st := @gpupreagg_global_stage sum_query 2 2 collision_control
              collision_batch stale_table (round_robin 2 2 5) in
  (0 < 2)%nat /\ 0 < hash_size collision_control /\
  (Z.to_nat (hash_size collision_control) <= length stale_table)%nat /\
  @key_contract sum_query collision_batch (gpagg_atts collision_control) /\
  nitems collision_batch <= Z.of_nat (2 * 2) < 2 ^ 31 /\
  Z.of_nat (length (@distinct_keys sum_query collision_batch
                      (seq 0 (Z.to_nat (nitems collision_batch)))))
  <= nrooms collision_batch /\
  (length (@distinct_keys sum_query collision_batch
             (seq 0 (Z.to_nat (nitems collision_batch))))
   <= length (rindex (krowmap collision_control)))%nat /\
  gs_finished st = true /\
  gs_calls st ≡ₚ [(1, 0, 2); (1, 1, 3)].
Proof.
  cbv zeta.
  assert (H0 : (0 < 2)%nat) by lia.
  assert (H1 : 0 < hash_size collision_control) by (vm_compute; reflexivity).
  assert (H2 : (Z.to_nat (hash_size collision_control) <= length stale_table)%nat)
    by (vm_compute; lia).
  pose proof (sum_query_contract collision_batch) as H3.
  assert (H4 : nitems collision_batch <= Z.of_nat (2 * 2) < 2 ^ 31)
    by (vm_compute; split; [discriminate|reflexivity]).
  assert (H5 : Z.of_nat (length (@distinct_keys sum_query collision_batch
                                   (seq 0 (Z.to_nat (nitems collision_batch)))))
               <= nrooms collision_batch) by (vm_compute; discriminate).
  assert (H6 : (length (@distinct_keys sum_query collision_batch
                          (seq 0 (Z.to_nat (nitems collision_batch))))
                <= length (rindex (krowmap collision_control)))%nat)
    by (vm_compute; lia).
  assert (H7 : gs_finished (@gpupreagg_global_stage sum_query 2 2 collision_control
                              collision_batch stale_table (round_robin 2 2 5))
               = true) by (vm_compute; reflexivity).
  repeat (split; [assumption|]).
  destruct (@global_stage_merges sum_query 2 2 collision_control collision_batch
              stale_table H0 H1 H2 H3 H4 sum_query_calc_rooms H5 H6
              (round_robin 2 2 5) H7) as [Hperm _].
  rewrite Hperm. vm_compute. reflexivity.
Defined.

(** ** gpupreagg_global_stage: the values of the owners *)

Section MergeOrder.

Context {X : Type}.
Variable merge : X -> X -> X.
Hypothesis merge_comm : forall x y z, merge (merge x y) z = merge (merge x z) y.

Lemma fold_merge_perm (l l' : list X) :
  l ≡ₚ l' -> forall x, fold_left merge l x = fold_left merge l' x.
Proof.
  induction 1 as [|y l l' _ IH|y z l|l l' l'' _ IH1 _ IH2]; intros x; simpl.
  - reflexivity.
  - apply IH.
  - rewrite merge_comm. reflexivity.
  - rewrite IH1. apply IH2.
Qed.

End MergeOrder.

Section ColumnData.

Context `{F : GpuPreAggFunctions}.
Variables (kg : kern_gpupreagg) (kds : kern_data_store)
          (merge : Z * Z -> Z * Z -> Z * Z).
Hypothesis HC : calc_contract kds (gpagg_atts kg) merge.

(** The column loop of a work-item whose row is merged into [owner]. *)
Lemma global_reduce_columns_data (gid : nat) (owner dest : Z) :
  0 <= owner < nitems kds -> Z.of_nat gid < nitems kds ->
  owner <> Z.of_nat gid ->
  forall (cs : list Z) (st : gstate),
    NoDup cs -> (forall c, c ∈ cs -> 0 <= c < ncols kds) ->
    batch_shape kds (gs_kds_dst st) ->
    let st' := fold_left (global_reduce_column kg (nitems kds) gid owner dest)
                         cs st in
    batch_shape kds (gs_kds_dst st') /\
    forall r c, 0 <= r -> 0 <= c ->
      datum_cell (gs_kds_dst st') r c
      = if bool_decide (r = owner /\ c ∈ cs /\
                        cell (gpagg_atts kg) c = GPUPREAGG_FIELD_IS_AGGFUNC)
        then merge (datum_cell (gs_kds_dst st) r c)
                   (datum_cell (gs_kds_dst st) (Z.of_nat gid) c)
        else datum_cell (gs_kds_dst st) r c.
Proof.
  intros Ho Hg Hne. induction cs as [|a cs IH]; intros st Hnd Hcols Hshape;
    cbv zeta.
  - simpl. split; [exact Hshape|]. intros r c _ _.
    rewrite bool_decide_eq_false_2; [reflexivity|]. intros (_ & Hin & _). inversion Hin.
  - rewrite fold_left_cons_eq. apply NoDup_cons in Hnd. destruct Hnd as [Ha Hnd].
    assert (Hacol : 0 <= a < ncols kds) by (apply Hcols; left).
    set (st1 := global_reduce_column kg (nitems kds) gid owner dest st a).
    assert (Hst1 : batch_shape kds (gs_kds_dst st1) /\
              forall r c, 0 <= r -> 0 <= c ->
                datum_cell (gs_kds_dst st1) r c
                = if bool_decide (r = owner /\ c = a /\
                                  cell (gpagg_atts kg) c
                                  = GPUPREAGG_FIELD_IS_AGGFUNC)
                  then merge (datum_cell (gs_kds_dst st) r c)
                             (datum_cell (gs_kds_dst st) (Z.of_nat gid) c)
                  else datum_cell (gs_kds_dst st) r c).
    { unfold st1, global_reduce_column.
      destruct (Z.eqb_spec (cell (gpagg_atts kg) a) GPUPREAGG_FIELD_IS_AGGFUNC)
        as [Hagg|Hagg]; simpl negb; cbv iota.
      2:{ split; [exact Hshape|]. intros r c _ _.
          rewrite bool_decide_eq_false_2; [reflexivity|].
          intros (_ & -> & Hc). contradiction. }
      replace (Z.of_nat gid <? nitems kds) with true by (symmetry; lia).
      replace (Z.of_nat gid =? owner) with false by (symmetry; lia).
      cbv zeta. cbn [gs_kds_dst].
      match goal with
      | |- context [gpupreagg_global_calc ?e a (gs_kds_dst st) owner (Z.of_nat gid)] =>
          destruct (cc_merge _ _ _ HC e a (gs_kds_dst st) owner (Z.of_nat gid)
                      Hagg Hacol Ho ltac:(lia) Hne Hshape) as (Hs' & Hm & Hfr)
      end.
      split; [exact Hs'|]. intros r c Hr Hc.
      destruct (bool_decide_reflect (r = owner /\ c = a /\
                  cell (gpagg_atts kg) c = GPUPREAGG_FIELD_IS_AGGFUNC))
        as [(-> & -> & _)|Hno].
      - exact Hm.
      - apply Hfr; [exact Hr|exact Hc|].
        destruct (Z.eq_dec r owner) as [->|]; [|now left].
        destruct (Z.eq_dec c a) as [->|]; [|now right].
        exfalso. apply Hno. auto. }
    destruct Hst1 as [Hshape1 Hdata1].
    destruct (IH st1 Hnd ltac:(intros c Hc; apply Hcols; now right) Hshape1)
      as [Hshape' Hdata'].
    split; [exact Hshape'|]. intros r c Hr Hc.
    cbv zeta in Hdata'. rewrite (Hdata' r c Hr Hc).
    rewrite !Hdata1 by lia.
    assert (Hgid : bool_decide (Z.of_nat gid = owner /\ c = a /\
                     cell (gpagg_atts kg) c = GPUPREAGG_FIELD_IS_AGGFUNC) = false)
      by (apply bool_decide_eq_false_2; intros (H1 & _); lia).
    rewrite Hgid.
    destruct (bool_decide_reflect (r = owner /\ c ∈ cs /\
                cell (gpagg_atts kg) c = GPUPREAGG_FIELD_IS_AGGFUNC))
      as [(-> & Hin & Hagg)|Hno].
    + rewrite bool_decide_eq_false_2 by (intros (_ & -> & _); contradiction).
      rewrite bool_decide_eq_true_2 by (split; [reflexivity|split; [now right|exact Hagg]]).
      reflexivity.
    + destruct (bool_decide_reflect (r = owner /\ c = a /\
                  cell (gpagg_atts kg) c = GPUPREAGG_FIELD_IS_AGGFUNC))
        as [(-> & -> & Hagg)|Hno'].
      * rewrite bool_decide_eq_true_2
          by (split; [reflexivity|split; [left|exact Hagg]]).
        reflexivity.
      * rewrite bool_decide_eq_false_2; [reflexivity|].
        intros (-> & Hin & Hagg). apply elem_of_cons in Hin. destruct Hin as [->|Hin]; [apply Hno'|apply Hno]; auto.
Qed.

(** The column loop of an owner, or of a work-item without a row. *)
Lemma global_reduce_columns_quiet (gid : nat) (owner dest : Z) :
  (Z.of_nat gid <? nitems kds) && negb (Z.of_nat gid =? owner) = false ->
  forall (cs : list Z) (st : gstate),
    gs_kds_dst (fold_left (global_reduce_column kg (nitems kds) gid owner dest)
                          cs st)
    = gs_kds_dst st.
Proof.
  intros Hq. induction cs as [|a cs IH]; intros st; [reflexivity|].
  rewrite fold_left_cons_eq, IH. unfold global_reduce_column.
  destruct (negb (cell _ _ =? _)); [reflexivity|].
  destruct (Z.of_nat gid <? nitems kds); [|reflexivity].
  destruct (Z.of_nat gid =? owner); [reflexivity|discriminate].
Qed.

End ColumnData.

Lemma aggfunc_columns_spec (kg : kern_gpupreagg) (n c : Z) :
  In c (aggfunc_columns kg n) <->
  0 <= c < n /\ cell (gpagg_atts kg) c = GPUPREAGG_FIELD_IS_AGGFUNC.
Proof.
  unfold aggfunc_columns.
  rewrite filter_In, <- list_elem_of_In, elem_of_seqZ, Z.eqb_eq.
  split; intros [H1 H2]; (split; [lia|exact H2]).
Qed.

Section GroupData.

Context `{F : GpuPreAggFunctions}.
Variables (kg : kern_gpupreagg) (kds : kern_data_store)
          (merge : Z * Z -> Z * Z -> Z * Z)
          (L g : nat) (my_values : list Z) (base : Z)
          (items0 : list workitem).
Hypothesis HC : calc_contract kds (gpagg_atts kg) merge.
Hypothesis Hitems : forall gid,
  In gid (group_members L g) -> exists w, items0 !! gid = Some w.
Hypothesis Hrow : forall gid w,
  In gid (group_members L g) -> items0 !! gid = Some w ->
  Z.of_nat gid < nitems kds ->
  exists o, wi_owner_index w = Z.of_nat o /\ Z.of_nat o < nitems kds /\
            owner_is items0 o o = true.

(** A row that is merged is not the owner of any row. *)
Lemma merged_not_owner (m o : nat) :
  merged_row (nitems kds) items0 m = true -> owner_is items0 o o = true ->
  m <> o.
Proof.
  unfold merged_row, owner_is. intros Hm Ho ->.
  destruct (items0 !! o) as [w|]; [|discriminate].
  apply andb_true_iff in Hm. destruct Hm as [_ Hm].
  rewrite Z.eqb_sym, Ho in Hm. discriminate.
Qed.

Lemma group_fold_data : forall (rest : list nat) (st : gstate),
  NoDup rest -> (forall gid, In gid rest -> In gid (group_members L g)) ->
  (forall gid, In gid rest -> gs_items st !! gid = items0 !! gid) ->
  batch_shape kds (gs_kds_dst st) ->
  let st' := fold_left
               (global_group_member kg (nitems kds) (ncols kds) L g
                  my_values base) rest st in
  let into r := List.filter
                  (fun m => merged_row (nitems kds) items0 m
                            && owner_is items0 m r) rest in
  batch_shape kds (gs_kds_dst st') /\
  (forall (r : nat) c, In c (aggfunc_columns kg (ncols kds)) ->
     datum_cell (gs_kds_dst st') (Z.of_nat r) c
     = fold_left merge
         (map (fun m => datum_cell (gs_kds_dst st) (Z.of_nat m) c) (into r))
         (datum_cell (gs_kds_dst st) (Z.of_nat r) c)) /\
  (forall (r : nat) c, 0 <= c -> ~ In c (aggfunc_columns kg (ncols kds)) ->
     datum_cell (gs_kds_dst st') (Z.of_nat r) c
     = datum_cell (gs_kds_dst st) (Z.of_nat r) c).
Proof.
  induction rest as [|gid rest IH]; intros st Hnd Hsub Hsame Hshape; cbv zeta.
  - simpl. auto.
  - rewrite fold_left_cons_eq. apply NoDup_cons in Hnd. destruct Hnd as [Hgid Hnd].
    assert (Hin : In gid (group_members L g)) by (apply Hsub; now left).
    destruct (Hitems gid Hin) as [w Hw0].
    assert (Hw : gs_items st !! gid = Some w)
      by (rewrite Hsame by (now left); exact Hw0).
    set (st1 := global_group_member kg (nitems kds) (ncols kds) L g
                  my_values base st gid).
    assert (Hmerged : merged_row (nitems kds) items0 gid
                      = (Z.of_nat gid <? nitems kds)
                        && negb (Z.of_nat gid =? wi_owner_index w))
      by (unfold merged_row; rewrite Hw0; reflexivity).
    assert (Hois : forall r, owner_is items0 gid r
                             = (wi_owner_index w =? Z.of_nat r))
      by (intros r; unfold owner_is; rewrite Hw0; reflexivity).
    assert (Hst1 : batch_shape kds (gs_kds_dst st1) /\
              forall (r : nat) c, 0 <= c ->
                datum_cell (gs_kds_dst st1) (Z.of_nat r) c
                = if merged_row (nitems kds) items0 gid && owner_is items0 gid r
                     && bool_decide (c ∈ aggfunc_columns kg (ncols kds))
                  then merge (datum_cell (gs_kds_dst st) (Z.of_nat r) c)
                             (datum_cell (gs_kds_dst st) (Z.of_nat gid) c)
                  else datum_cell (gs_kds_dst st) (Z.of_nat r) c).
    { assert (Hk1 : gs_kds_dst st1
                    = gs_kds_dst
                        (fold_left
                           (global_reduce_column kg (nitems kds) gid
                              (wi_owner_index w)
                              (wrap_unsigned 64
                                 (base + fst (arithmetic_stairlike_add my_values
                                                (gid - g * L)))))
                           (seqZ 0 (ncols kds)) st)).
      { unfold st1, global_group_member. rewrite Hw. reflexivity. }
      rewrite Hk1, Hmerged. clear Hk1.
      destruct ((Z.of_nat gid <? nitems kds)
                && negb (Z.of_nat gid =? wi_owner_index w)) eqn:Hm.
      - apply andb_true_iff in Hm. destruct Hm as [Hlt Hne].
        apply Z.ltb_lt in Hlt. apply negb_true_iff, Z.eqb_neq in Hne.
        destruct (Hrow gid w Hin Hw0 Hlt) as (o & Ho & Holt & _).
        destruct (global_reduce_columns_data kg kds merge HC gid
                    (wi_owner_index w)
                    (wrap_unsigned 64
                       (base + fst (arithmetic_stairlike_add my_values
                                      (gid - g * L))))
                    ltac:(lia) Hlt ltac:(lia) (seqZ 0 (ncols kds)) st)
          as [Hs1 Hd1].
        + apply NoDup_seqZ.
        + intros c Hc. apply elem_of_seqZ in Hc. lia.
        + exact Hshape.
        + split; [exact Hs1|]. intros r c Hc. cbv zeta in Hd1.
          rewrite Hd1 by lia. rewrite Hois. simpl andb.
          destruct (Z.eqb_spec (wi_owner_index w) (Z.of_nat r)) as [Hr|Hr].
          * destruct (bool_decide_reflect (c ∈ aggfunc_columns kg (ncols kds)))
              as [Hagg|Hagg].
            -- apply list_elem_of_In, aggfunc_columns_spec in Hagg.
               rewrite bool_decide_eq_true_2; [reflexivity|].
               split; [auto|]. split; [apply elem_of_seqZ; lia|apply Hagg].
            -- rewrite bool_decide_eq_false_2; [reflexivity|].
               intros (_ & Hcin & Ha). apply Hagg, list_elem_of_In, aggfunc_columns_spec.
               apply elem_of_seqZ in Hcin. split; [lia|exact Ha].
          * rewrite bool_decide_eq_false_2; [reflexivity|].
            intros (Hr' & _). auto.
      - rewrite (global_reduce_columns_quiet kg kds gid (wi_owner_index w) _ Hm).
        split; [exact Hshape|]. reflexivity. }
    destruct Hst1 as [Hshape1 Hd1].
    destruct (IH st1 Hnd) as (Hs' & Ha' & Hb').
    { intros x Hx. apply Hsub. now right. }
    { intros x Hx.
      destruct (global_group_member_items kg (nitems kds) (ncols kds) L g
                  my_values base st gid) as (f & Hf & _).
      fold st1 in Hf. rewrite Hf.
      rewrite list_lookup_alter_ne
        by (intros ->; apply Hgid, list_elem_of_In, Hx).
      apply Hsame. now right. }
    { exact Hshape1. }
    cbv zeta in Hs', Ha', Hb'.
    split; [exact Hs'|]. split.
    + intros r c Hc. rewrite (Ha' r c Hc).
      assert (Hc0 : 0 <= c) by (apply aggfunc_columns_spec in Hc; lia).
      rewrite (Hd1 r c Hc0).
      rewrite bool_decide_eq_true_2 by (apply list_elem_of_In, Hc).
      rewrite andb_true_r.
      rewrite filter_cons_eq.
      assert (Hmap : map (fun m => datum_cell (gs_kds_dst st1) (Z.of_nat m) c)
                       (List.filter (fun m => merged_row (nitems kds) items0 m
                                              && owner_is items0 m r) rest)
                     = map (fun m => datum_cell (gs_kds_dst st) (Z.of_nat m) c)
                         (List.filter (fun m => merged_row (nitems kds) items0 m
                                                && owner_is items0 m r) rest)).
      { apply map_ext_in. intros m Hm. apply filter_In in Hm.
        destruct Hm as [Hmin Hm]. apply andb_true_iff in Hm.
        destruct Hm as [Hm _]. rewrite (Hd1 m c Hc0).
        destruct (merged_row (nitems kds) items0 gid && owner_is items0 gid m)
          eqn:Hboth; [|reflexivity].
        exfalso. apply andb_true_iff in Hboth. destruct Hboth as [Hmg Hom].
        rewrite Hmerged in Hmg. apply andb_true_iff in Hmg.
        destruct Hmg as [Hlt _]. apply Z.ltb_lt in Hlt.
        destruct (Hrow gid w Hin Hw0 Hlt) as (o & Ho & _ & Hoo).
        rewrite Hois in Hom. apply Z.eqb_eq in Hom.
        assert (o = m) by lia. subst o.
        exact (merged_not_owner m m Hm Hoo eq_refl). }
      rewrite Hmap.
      destruct (merged_row (nitems kds) items0 gid && owner_is items0 gid r);
        reflexivity.
    + intros r c Hc Hno. rewrite (Hb' r c Hc Hno), (Hd1 r c Hc).
      rewrite bool_decide_eq_false_2, andb_false_r
        by (intros Hc'; apply Hno, list_elem_of_In, Hc').
      reflexivity.
Qed.

End GroupData.

Section GroupValues.

Context `{F : GpuPreAggFunctions}.
Variables (L NG : nat) (kgpreagg : kern_gpupreagg) (kds : kern_data_store)
          (tbl0 : list pagg_hashslot) (merge : Z * Z -> Z * Z -> Z * Z).
Hypothesis HL : (0 < L)%nat.
Hypothesis Hsize : 0 < hash_size kgpreagg.
Hypothesis Htbl : (Z.to_nat (hash_size kgpreagg) <= length tbl0)%nat.
Hypothesis HK : key_contract kds (gpagg_atts kgpreagg).
Hypothesis Hlaunch : nitems kds <= Z.of_nat (NG * L) < 2 ^ 31.
Hypothesis Hrooms :
  Z.of_nat (length (distinct_keys kds (seq 0 (Z.to_nat (nitems kds)))))
  <= nrooms kds.
Hypothesis Hrindex :
  (length (distinct_keys kds (seq 0 (Z.to_nat (nitems kds))))
   <= length (rindex (krowmap kgpreagg)))%nat.
Hypothesis HC : calc_contract kds (gpagg_atts kgpreagg) merge.
Hypothesis Hshape : batch_shape kds kds.

Lemma merged_into_spec (st : gstate) (r x : nat) :
  In x (merged_into (nitems kds) st r) <->
  exists w, gs_items st !! x = Some w /\ wi_pc w = PC_out /\
            Z.of_nat x < nitems kds /\ wi_owner_index w <> Z.of_nat x /\
            wi_owner_index w = Z.of_nat r.
Proof.
  unfold merged_into, has_left, merged_row, owner_is.
  rewrite filter_In, in_seq. split.
  - intros [_ Hp]. destruct (gs_items st !! x) as [w|]; [|discriminate].
    apply andb_true_iff in Hp. destruct Hp as [Hp Hr].
    apply andb_true_iff in Hp. destruct Hp as [Hout Hm].
    apply andb_true_iff in Hm. destruct Hm as [Hlt Hne].
    apply bool_decide_eq_true_1 in Hout. apply Z.ltb_lt in Hlt.
    apply negb_true_iff, Z.eqb_neq in Hne. apply Z.eqb_eq in Hr.
    exists w. repeat split; auto.
  - intros (w & Hw & Hout & Hlt & Hne & Hr). split.
    + apply lookup_lt_Some in Hw. lia.
    + rewrite Hw, bool_decide_eq_true_2 by exact Hout.
      replace (Z.of_nat x <? nitems kds) with true by (symmetry; lia).
      replace (Z.of_nat x =? wi_owner_index w) with false by (symmetry; lia).
      replace (wi_owner_index w =? Z.of_nat r) with true by (symmetry; lia).
      reflexivity.
Qed.

Lemma frame_owner_is (items items' : list workitem) (x r : nat) :
  Forall2 wi_frame items items' -> owner_is items' x r = owner_is items x r.
Proof.
  intros Hfr. unfold owner_is.
  destruct (items !! x) as [w|] eqn:Hw.
  - destruct (Forall2_lookup_l _ _ _ _ _ Hfr Hw) as (w' & Hw' & _ & _ & Ho & _).
    rewrite Hw', Ho. reflexivity.
  - assert (Hn : items' !! x = None).
    { apply lookup_ge_None. rewrite <- (Forall2_length _ _ _ Hfr).
      now apply lookup_ge_None. }
    rewrite Hn. reflexivity.
Qed.

(** Along every schedule: the batch keeps its layout, a cell of an
    aggregate column holds the merge of its first value and the first
    values of the rows merged into its row so far, and the other cells
    hold their first value. *)
Lemma global_stage_values_inv (sched : list nat) :
  let st := gpupreagg_global_stage L NG kgpreagg kds tbl0 sched in
  batch_shape kds (gs_kds_dst st) /\
  (forall (r : nat) c, In c (aggfunc_columns kgpreagg (ncols kds)) ->
     datum_cell (gs_kds_dst st) (Z.of_nat r) c
     = fold_left merge
         (map (fun m => datum_cell kds (Z.of_nat m) c)
              (merged_into (nitems kds) st r))
         (datum_cell kds (Z.of_nat r) c)) /\
  (forall (r : nat) c, 0 <= c -> ~ In c (aggfunc_columns kgpreagg (ncols kds)) ->
     datum_cell (gs_kds_dst st) (Z.of_nat r) c = datum_cell kds (Z.of_nat r) c).
Proof.
  induction sched as [|gid sched IH] using rev_ind; cbv zeta.
  - assert (Hnone : forall r,
              merged_into (nitems kds)
                (gpupreagg_global_stage L NG kgpreagg kds tbl0 []) r = []).
    { intros r. apply filter_none. intros x _.
      unfold has_left, gpupreagg_global_stage. simpl.
      destruct (_ !! x) as [w|] eqn:Hw; [|reflexivity].
      apply list_lookup_fmap_Some in Hw. destruct Hw as (n & -> & _).
      unfold global_workitem. destruct (_ <? _); reflexivity. }
    split; [exact Hshape|]. split.
    + intros r c _. rewrite Hnone. reflexivity.
    + reflexivity.
  - rewrite global_reduction_snoc. cbv zeta in IH.
    destruct (nvalids_left_owners L NG kgpreagg kds tbl0 HL Hsize Htbl HK
                Hlaunch Hrindex sched) as [Hnv Hle].
    assert (Hnitems : nitems kds <= ALL_ONES) by (unfold ALL_ONES; lia).
    pose proof (global_reduction_inv L NG kgpreagg kds tbl0 Hsize Htbl Hnitems HK
                  sched) as Hinv.
    set (kg := fst (gpupreagg_global_preparation kgpreagg tbl0)) in *.
    set (st := gpupreagg_global_stage L NG kgpreagg kds tbl0 sched) in *.
    destruct IH as (J1 & J2 & J3).
    assert (Hlen : length (gs_items st) = (NG * L)%nat)
      by (apply global_items_length; exact HL).
    unfold global_step.
    destruct (gs_items st !! gid) as [w|] eqn:Hw; [|auto].
    assert (Hgid : (gid < NG * L)%nat)
      by (rewrite <- Hlen; eapply lookup_lt_Some; eassumption).
    destruct (wi_pc w) eqn:Hpc; [| |auto].
    + (* a pass through the retry loop *)
      destruct (global_retry_items kg gid w st Hw Hpc) as (w1 & Hit & Hw1).
      destruct (global_retry_data gid w st kg) as [Hkds _].
      set (st' := global_retry kg gid w st) in *.
      assert (Hleft : forall x, has_left st' x = has_left st x).
      { intros x. unfold has_left. rewrite Hit.
        destruct (decide (gid = x)) as [<-|Hne].
        - rewrite list_lookup_insert_eq by lia. rewrite Hw, Hpc.
          rewrite !bool_decide_eq_false_2 by congruence. reflexivity.
        - rewrite list_lookup_insert_ne by assumption. reflexivity. }
      assert (Hother : forall x, has_left st x = true ->
                gs_items st' !! x = gs_items st !! x).
      { intros x Hx. rewrite Hit. apply list_lookup_insert_ne. intros <-.
        unfold has_left in Hx. rewrite Hw, Hpc in Hx.
        apply bool_decide_eq_true_1 in Hx. discriminate. }
      assert (Hlen' : length (gs_items st') = length (gs_items st))
        by (rewrite Hit; apply length_insert).
      assert (HM : forall r, merged_into (nitems kds) st' r
                             = merged_into (nitems kds) st r).
      { intros r. unfold merged_into. rewrite Hlen'. apply filter_ext_in_eq.
        intros x _. rewrite Hleft. destruct (has_left st x) eqn:Hx; [|reflexivity].
        unfold merged_row, owner_is. rewrite (Hother x Hx). reflexivity. }
      rewrite Hkds. split; [exact J1|]. split; [|exact J3].
      intros r c Hc. rewrite HM. apply J2, Hc.
    + (* the work-group goes through the reduction *)
      destruct (all_at PC_barrier (gs_items st) (group_members L (gid / L)))
        eqn:Hall; [|auto].
      pose proof (all_at_spec _ _ _ Hall) as Hbar.
      set (g := (gid / L)%nat) in *.
      assert (Hg : (g < NG)%nat) by (apply Nat.Div0.div_lt_upper_bound; lia).
      destruct (global_group_step_items kg (nitems kds) (ncols kds) L g st)
        as [Hothers Hmembers].
      destruct (global_group_step_frame kg (nitems kds) (ncols kds) L g st)
        as [_ Hframe _ _].
      { intros m wm Hm Hwm. rewrite (Hbar _ _ Hm Hwm). discriminate. }
      assert (Hmem_lt : forall x, In x (group_members L g) -> (x < NG * L)%nat).
      { intros x Hx. unfold group_members in Hx. apply in_seq in Hx. nia. }
      assert (Hmem_item : forall x, In x (group_members L g) ->
                exists wx, gs_items st !! x = Some wx).
      { intros x Hx. apply lookup_lt_is_Some_2. rewrite Hlen. now apply Hmem_lt. }
      set (flag := global_owner_flag (gs_items st)) in *.
      set (ow := List.filter (fun x => flag x =? 1) (group_members L g)).
      assert (How : forall x, In x ow ->
                exists wx, gs_items st !! x = Some wx /\ wi_pc wx = PC_barrier /\
                           wi_owner_index wx = Z.of_nat x).
      { intros x Hx. unfold ow in Hx. apply filter_In in Hx.
        destruct Hx as [Hx Hf]. destruct (Hmem_item x Hx) as [wx Hwx].
        exists wx. split; [exact Hwx|]. split; [eapply Hbar; eassumption|].
        unfold flag, global_owner_flag in Hf. rewrite Hwx in Hf.
        destruct (Z.eqb_spec (Z.of_nat x) (wi_owner_index wx)); [auto|discriminate]. }
      assert (Hbound : (length (left_owners st) + length ow
                        <= length (distinct_keys kds
                                     (seq 0 (Z.to_nat (nitems kds)))))%nat).
      { rewrite <- length_app.
        apply (owners_le_keys L NG kgpreagg kds tbl0 HL Hsize Htbl HK Hlaunch
                 Hrindex sched).
        - apply NoDup_app. split; [apply left_owners_NoDup|]. split.
          + intros x Hx Hx'.
            apply list_elem_of_In,
              (left_owners_spec L NG kgpreagg kds tbl0 HL Htbl Hlaunch Hrindex)
              in Hx.
            apply list_elem_of_In, How in Hx'.
            destruct Hx as (w1 & Hw1 & Ho1 & _). destruct Hx' as (w2 & Hw2 & Ho2 & _).
            fold st in Hw1. congruence.
          + apply NoDup_ListNoDup, List.NoDup_filter, List.seq_NoDup.
        - intros x Hx. apply in_app_or in Hx. destruct Hx as [Hx|Hx].
          + apply (left_owners_spec L NG kgpreagg kds tbl0 HL Htbl Hlaunch Hrindex)
              in Hx.
            destruct Hx as (wx & Hwx & Hox & Hix).
            exists wx. split; [exact Hwx|]. split; [congruence|exact Hix].
          + destruct (How x Hx) as (wx & Hwx & Hox & Hix).
            exists wx. split; [exact Hwx|]. split; [congruence|exact Hix]. }
      assert (Hs : sumZ (map flag (group_members L g)) = Z.of_nat (length ow)).
      { apply sumZ_flags_count. intros; apply owner_flag_01. }
      assert (How_len : (length ow <= L)%nat).
      { unfold ow. etransitivity; [apply List.filter_length_le|].
        unfold group_members. rewrite length_seq. lia. }
      assert (HLN : (L <= NG * L)%nat) by nia.
      assert (HO_len : (length (left_owners st) <= NG * L)%nat).
      { unfold left_owners. etransitivity; [apply List.filter_length_le|].
        rewrite length_seq. lia. }
      assert (Hrooms_st : nrooms (gs_kds_dst st) = nrooms kds) by apply J1.
      set (st' := global_group_step kg (nitems kds) (ncols kds) L g st) in *.
      assert (Hlen' : length (gs_items st') = length (gs_items st))
        by (symmetry; eapply Forall2_length; eassumption).
      assert (Hrow : forall x wx,
                In x (group_members L g) -> gs_items st !! x = Some wx ->
                Z.of_nat x < nitems kds ->
                exists o, wi_owner_index wx = Z.of_nat o /\
                          Z.of_nat o < nitems kds /\
                          owner_is (gs_items st) o o = true).
      { intros x wx Hx Hwx Hlt.
        destruct (found_owner kg kds Hnitems sched st Hinv x wx Hwx Hlt)
          as (o & Ho & (Holt & wo & Hwo & _ & Hoo) & _).
        { rewrite (Hbar _ _ Hx Hwx). discriminate. }
        exists o. split; [exact Ho|]. split; [exact Holt|].
        unfold owner_is. rewrite Hwo. apply Z.eqb_eq, Hoo. }
      assert (Hstep :
        batch_shape kds (gs_kds_dst st') /\
        (forall (r : nat) c, In c (aggfunc_columns kg (ncols kds)) ->
           datum_cell (gs_kds_dst st') (Z.of_nat r) c
           = fold_left merge
               (map (fun m => datum_cell (gs_kds_dst st) (Z.of_nat m) c)
                    (List.filter
                       (fun m => merged_row (nitems kds) (gs_items st) m
                                 && owner_is (gs_items st) m r)
                       (group_members L g)))
               (datum_cell (gs_kds_dst st) (Z.of_nat r) c)) /\
        (forall (r : nat) c, 0 <= c ->
           ~ In c (aggfunc_columns kg (ncols kds)) ->
           datum_cell (gs_kds_dst st') (Z.of_nat r) c
           = datum_cell (gs_kds_dst st) (Z.of_nat r) c)).
      { assert (Hng : snd (arithmetic_stairlike_add
                             (map flag (group_members L g)) 0)
                      = Z.of_nat (length ow)).
        { unfold arithmetic_stairlike_add. cbn [snd]. rewrite Hs.
          apply Z.mod_small. lia. }
        assert (Hw64 : wrap_unsigned 64 (Z.of_nat (length (left_owners st)))
                       = Z.of_nat (length (left_owners st))).
        { apply Z.mod_small. change (2 ^ 64) with (2 ^ 33 * 2 ^ 31). nia. }
        assert (Hw64' : wrap_unsigned 64 (Z.of_nat (length (left_owners st))
                                          + Z.of_nat (length ow))
                        = Z.of_nat (length (left_owners st)) + Z.of_nat (length ow)).
        { apply Z.mod_small. change (2 ^ 64) with (2 ^ 33 * 2 ^ 31). nia. }
        unfold st', global_group_step. cbv zeta.
        cbn [gs_kds_dst gs_krowmap gs_hashslot gs_items gs_calls nvalids rindex].
        fold flag. rewrite !Hng, Hnv, Hw64, Hw64'.
        replace (nrooms (gs_kds_dst st)
                 <? Z.of_nat (length (left_owners st)) + Z.of_nat (length ow))
          with false by (symmetry; apply Z.ltb_ge; lia).
        match goal with
        | |- context [fold_left _ _ ?s1] => set (st1 := s1)
        end.
        destruct (group_fold_data kg kds merge L g
                    (map flag (group_members L g))
                    (Z.of_nat (length (left_owners st))) (gs_items st)
                    HC Hmem_item Hrow (group_members L g) st1)
          as (Hs' & Ha' & Hb').
        - apply NoDup_ListNoDup, List.seq_NoDup.
        - auto.
        - reflexivity.
        - exact J1.
        - cbv zeta in Hs', Ha', Hb'. auto. }
      destruct Hstep as (Hs' & Ha' & Hb').
      assert (Hleft_out : forall x, ~ In x (group_members L g) ->
                has_left st' x = has_left st x).
      { intros x Hx. unfold has_left. rewrite (Hothers x Hx). reflexivity. }
      assert (Hleft_in : forall x, In x (group_members L g) ->
                has_left st x = false /\ has_left st' x = true).
      { intros x Hx. destruct (Hmem_item x Hx) as [wx Hwx].
        destruct (Forall2_lookup_l _ _ _ _ _ Hframe Hwx) as (wx' & Hwx' & _).
        unfold has_left. rewrite Hwx, Hwx', (Hbar _ _ Hx Hwx), (Hmembers _ _ Hx Hwx').
        split; [apply bool_decide_eq_false_2; discriminate
               |apply bool_decide_eq_true_2; reflexivity]. }
      assert (HM : forall r,
                merged_into (nitems kds) st' r
                ≡ₚ merged_into (nitems kds) st r
                   ++ List.filter
                        (fun m => merged_row (nitems kds) (gs_items st) m
                                  && owner_is (gs_items st) m r)
                        (group_members L g)).
      { intros r. unfold merged_into. rewrite Hlen', Hlen.
        apply (filter_group_split L NG HL _ _ _ g Hg).
        - intros x Hx. rewrite (Hleft_out x Hx).
          destruct (frame_lookups _ _ x Hframe) as (_ & -> & _).
          rewrite (frame_owner_is _ _ x r Hframe). reflexivity.
        - intros x Hx. destruct (Hleft_in x Hx) as [-> ->].
          destruct (frame_lookups _ _ x Hframe) as (_ & -> & _).
          rewrite (frame_owner_is _ _ x r Hframe). split; reflexivity. }
      assert (Hfresh : forall m,
                merged_row (nitems kds) (gs_items st) m = true ->
                merged_into (nitems kds) st m = []).
      { intros m Hm. apply filter_none. intros x Hx.
        destruct (has_left st x && merged_row (nitems kds) (gs_items st) x
                  && owner_is (gs_items st) x m) eqn:Hp; [exfalso|reflexivity].
        assert (Hxin : In x (merged_into (nitems kds) st m))
          by (unfold merged_into; apply filter_In; split; assumption).
        apply merged_into_spec in Hxin.
        destruct Hxin as (wx & Hwx & Hout & Hlt & _ & Hox).
        destruct (found_owner kg kds Hnitems sched st Hinv x wx Hwx Hlt)
          as (o & Ho & (_ & wo & Hwo & _ & Hoo) & _); [congruence|].
        assert (o = m) by lia. subst o.
        unfold merged_row in Hm. rewrite Hwo, Hoo, Z.eqb_refl, andb_false_r in Hm.
        discriminate. }
      split; [exact Hs'|]. split.
      * intros r c Hc.
        change (aggfunc_columns kg (ncols kds))
          with (aggfunc_columns kgpreagg (ncols kds)) in Ha'.
        rewrite (Ha' r c Hc), (J2 r c Hc).
        rewrite (fold_merge_perm merge (cc_comm _ _ _ HC) _ _
                   (Permutation_map _ (HM r))).
        rewrite map_app, fold_left_app. f_equal.
        apply map_ext_in. intros m Hm. apply filter_In in Hm.
        destruct Hm as [_ Hm]. apply andb_true_iff in Hm. destruct Hm as [Hm _].
        rewrite (J2 m c Hc), (Hfresh m Hm). reflexivity.
      * intros r c Hc Hno.
        change (aggfunc_columns kg (ncols kds))
          with (aggfunc_columns kgpreagg (ncols kds)) in Hb'.
        rewrite (Hb' r c Hc Hno). apply J3; assumption.
Qed.
(** X19. When the kernel has run to its end and the batch has room for a
    row of every group, then for every aggregate column the cell of an
    owner holds the merge of its own first value with the first values of
    all the other rows of its group, whatever the order in which the
    work-groups went through; and every cell of a column that is not an
    aggregate, and every cell of a row that is not an owner, still holds
    its first value. *)
Theorem global_stage_values (sched : list nat) :
  let st := gpupreagg_global_stage L NG kgpreagg kds tbl0 sched in
  gs_finished st = true ->
  (forall (o : nat) c,
     In o (group_owners st) -> In c (aggfunc_columns kgpreagg (ncols kds)) ->
     datum_cell (gs_kds_dst st) (Z.of_nat o) c
     = fold_left merge
         (map (fun m => datum_cell kds (Z.of_nat m) c) (group_rows kds o))
         (datum_cell kds (Z.of_nat o) c)) /\
  (forall (r : nat) c,
     0 <= c ->
     ~ In r (group_owners st) \/ ~ In c (aggfunc_columns kgpreagg (ncols kds)) ->
     datum_cell (gs_kds_dst st) (Z.of_nat r) c = datum_cell kds (Z.of_nat r) c).
Proof.
  intros st Hfin.
  assert (Hnitems : nitems kds <= ALL_ONES) by (unfold ALL_ONES; lia).
  pose proof (global_reduction_inv L NG kgpreagg kds tbl0 Hsize Htbl Hnitems HK
                sched) as Hinv.
  fold st in Hinv.
  set (kg := fst (gpupreagg_global_preparation kgpreagg tbl0)) in *.
  assert (Hsize' : 0 < hash_size kg) by exact Hsize.
  assert (HK' : key_contract kds (gpagg_atts kg)) by exact HK.
  assert (Hlen : length (gs_items st) = (NG * L)%nat)
    by (apply global_items_length; exact HL).
  destruct (global_stage_values_inv sched) as (_ & J2 & J3).
  fold st in J2, J3.
  assert (Hout : forall gid w, gs_items st !! gid = Some w -> wi_pc w = PC_out).
  { intros gid w Hw. pose proof (finished_all_left st Hfin gid) as Hl.
    unfold has_left in Hl. rewrite Hw in Hl.
    eapply bool_decide_eq_true_1, Hl. eapply lookup_lt_Some. eassumption. }
  assert (Hspec : forall o, In o (group_owners st) <->
            exists w, gs_items st !! o = Some w /\ wi_owner_index w = Z.of_nat o).
  { intros o. rewrite <- (finished_left_owners L NG kgpreagg kds tbl0 HL Htbl Hlaunch
                  Hrindex st Hfin).
    rewrite (left_owners_spec L NG kgpreagg kds tbl0 HL Htbl Hlaunch Hrindex).
    split.
    - intros (w & Hw & _ & Ho). eauto.
    - intros (w & Hw & Ho). exists w. split; [exact Hw|]. split; [|exact Ho].
      eapply Hout. eassumption. }
  assert (Hisown : forall o w, gs_items st !! o = Some w ->
            wi_owner_index w = Z.of_nat o -> is_owner kds st o).
  { intros o w Hw Ho.
    assert (Hin : Z.of_nat o < nitems kds).
    { destruct (Z.lt_ge_cases (Z.of_nat o) (nitems kds)) as [|Hge]; [assumption|].
      destruct (gi_outside _ _ _ _ Hinv _ _ Hw Hge) as [_ Hall].
      apply lookup_lt_Some in Hw. unfold ALL_ONES in Hall. lia. }
    split; [exact Hin|]. exists w. split; [exact Hw|].
    split; [rewrite (Hout _ _ Hw); discriminate|exact Ho]. }
  split.
  - intros o c Ho Hc. rewrite (J2 o c Hc).
    apply (fold_merge_perm merge (cc_comm _ _ _ HC)), Permutation_map.
    apply Hspec in Ho. destruct Ho as (wo & Hwo & Hoo).
    pose proof (Hisown o wo Hwo Hoo) as Hown.
    apply NoDup_Permutation.
    + apply NoDup_ListNoDup, List.NoDup_filter, List.seq_NoDup.
    + apply NoDup_ListNoDup, List.NoDup_filter, List.seq_NoDup.
    + intros x. rewrite !list_elem_of_In, merged_into_spec.
      unfold group_rows. rewrite filter_In, in_seq, andb_true_iff,
        negb_true_iff, Nat.eqb_neq.
      split.
      * intros (w & Hw & _ & Hlt & Hne & Hr).
        destruct (found_owner kg kds Hnitems sched st Hinv x w Hw Hlt)
          as (o' & Ho' & _ & Hs).
        { rewrite (Hout _ _ Hw). discriminate. }
        assert (o' = o) by lia. subst o'.
        split; [lia|]. split; [|exact Hs]. intros ->. lia.
      * intros (Hx & Hne & Hs).
        destruct (lookup_lt_is_Some_2 (gs_items st) x ltac:(lia)) as [w Hw].
        destruct (found_owner kg kds Hnitems sched st Hinv x w Hw ltac:(lia))
          as (o' & Ho' & Hown' & Hs').
        { rewrite (Hout _ _ Hw). discriminate. }
        assert (o' = o).
        { apply (unique_owner kg kds Hsize' Hnitems HK' sched st Hinv o' o
                   Hown' Hown).
          eapply (kc_trans _ _ HK); [|exact Hs].
          apply (kc_sym _ _ HK), Hs'. }
        subst o'. exists w. split; [exact Hw|]. split; [eapply Hout, Hw|].
        split; [lia|]. split; [lia|exact Ho'].
  - intros r c Hc0 Hno.
    destruct (in_dec Z.eq_dec c (aggfunc_columns kgpreagg (ncols kds)))
      as [Hc|Hc]; [|apply J3; assumption].
    destruct Hno as [Hr|Hno]; [|contradiction].
    rewrite (J2 r c Hc).
    replace (merged_into (nitems kds) st r) with (@nil nat); [reflexivity|].
    symmetry. apply filter_none. intros x Hx.
    destruct (has_left st x && merged_row (nitems kds) (gs_items st) x
              && owner_is (gs_items st) x r) eqn:Hp; [exfalso|reflexivity].
    assert (Hxin : In x (merged_into (nitems kds) st r))
      by (unfold merged_into; apply filter_In; split; assumption).
    apply merged_into_spec in Hxin.
    destruct Hxin as (wx & Hwx & Hpc & Hlt & _ & Hox).
    destruct (found_owner kg kds Hnitems sched st Hinv x wx Hwx Hlt)
      as (o & Ho & (_ & wo & Hwo & _ & Hoo) & _); [congruence|].
    assert (o = r) by lia. subst o.
    apply Hr, Hspec. eauto.
Qed.

End GroupValues.

(** ** The contract holds for [sum_query] *)

Lemma set_datum_other k a col n v r c :
  0 <= a -> 0 <= col -> 0 <= r -> 0 <= c -> r <> a \/ c <> col ->
  datum_cell (set_datum k a col n v) r c = datum_cell k r c.
Proof.
  intros Ha Hcol Hr Hc Hne.
  unfold datum_cell, cell, KERN_DATA_STORE_ISNULL, KERN_DATA_STORE_VALUES,
    set_datum. simpl.
  destruct (decide (Z.to_nat a = Z.to_nat r)) as [Heq|Hrow].
  - rewrite Heq, list_lookup_alter_eq.
    destruct (slots k !! Z.to_nat r) as [t|]; simpl; [|reflexivity].
    rewrite !list_lookup_insert_ne by lia. reflexivity.
  - rewrite list_lookup_alter_ne by exact Hrow. reflexivity.
Qed.

Lemma set_datum_shape kds k a col n v :
  batch_shape kds k -> batch_shape kds (set_datum k a col n v).
Proof.
  intros ((Hn & Hwf) & Hcols & Hrooms & Hlen).
  split; [split; [exact Hn|]|]; [|split; [exact Hcols|split; [exact Hrooms|]]].
  - unfold set_datum. simpl. apply Forall_alter; [exact Hwf|].
    intros t _ [H1 H2]. simpl. rewrite !length_insert. auto.
  - unfold set_datum. simpl. rewrite length_alter. exact Hlen.
Qed.

Lemma psum_snd_errcode f e e' accum newval :
  snd (GPUPREAGG_AGGCALC_PSUM_TEMPLATE f e accum newval)
  = snd (GPUPREAGG_AGGCALC_PSUM_TEMPLATE f e' accum newval).
Proof.
  unfold GPUPREAGG_AGGCALC_PSUM_TEMPLATE.
  destruct (pd_isnull accum), (pd_isnull newval); reflexivity.
Qed.

Lemma wrap_signed_congr (a b : Z) :
  a mod 2 ^ 32 = b mod 2 ^ 32 -> wrap_signed 32 a = wrap_signed 32 b.
Proof.
  intros H. unfold wrap_signed.
  rewrite (Z.add_mod a), (Z.add_mod b), H by lia. reflexivity.
Qed.

(** What [sum_merge] computes: nulls are skipped, and two values are added
    in 32 bits. *)
Lemma sum_merge_eq (x y : Z * Z) :
  sum_merge x y
  = if fst x =? 0
    then if fst y =? 0 then (0, wrap_signed 32 (snd x + snd y))
         else (0, wrap_signed 32 (snd x))
    else if fst y =? 0 then (0, wrap_signed 32 (snd y))
         else (1, wrap_signed 32 (snd x)).
Proof.
  unfold sum_merge, GPUPREAGG_AGGCALC_PSUM_INT, GPUPREAGG_AGGCALC_PSUM_TEMPLATE.
  cbv zeta. cbn [pd_isnull].
  destruct (fst x =? 0), (fst y =? 0); cbv [negb]; cbv iota; cbn [snd].
  - rewrite get_set_val. cbn [pd_isnull]. f_equal.
    change (field_bits F_int) with 32. apply wrap_signed_congr.
    rewrite (c_add_mod F_int). change (field_bits F_int) with 32.
    unfold get_val. cbn [pd_bits]. change (field_bits F_int) with 32.
    rewrite Z.add_mod, !(wrap_signed_mod F_int) by lia.
    change (field_bits F_int) with 32. unfold wrap_unsigned.
    rewrite !Z.mod_mod, <- Z.add_mod by lia. reflexivity.
  - cbn [pd_isnull]. f_equal. unfold get_val. cbn [pd_bits].
    change (field_bits F_int) with 32. apply wrap_signed_congr.
    unfold wrap_unsigned. apply Z.mod_mod. lia.
  - rewrite get_set_val. cbn [pd_isnull set_isnull set_val]. f_equal.
    change (field_bits F_int) with 32. apply wrap_signed_congr.
    unfold get_val. cbn [pd_bits].
    rewrite (wrap_signed_mod F_int). change (field_bits F_int) with 32.
    unfold wrap_unsigned. apply Z.mod_mod. lia.
  - cbn [pd_isnull]. f_equal. unfold get_val. cbn [pd_bits].
    change (field_bits F_int) with 32. apply wrap_signed_congr.
    unfold wrap_unsigned. apply Z.mod_mod. lia.
Qed.

Lemma sum_merge_comm (x y z : Z * Z) :
  sum_merge (sum_merge x y) z = sum_merge (sum_merge x z) y.
Proof.
  rewrite !sum_merge_eq.
  destruct (fst x =? 0), (fst y =? 0) eqn:Hy, (fst z =? 0) eqn:Hz;
    cbn [fst snd]; rewrite ?Hy, ?Hz; cbn [Z.eqb]; cbv iota;
    f_equal; apply wrap_signed_congr;
    rewrite ?(Z.add_mod (wrap_signed 32 _)) by lia;
    rewrite ?(wrap_signed_mod F_int);
    change (field_bits F_int) with 32;
    rewrite <- ?Z.add_mod by lia; rewrite ?Z.mod_mod by lia;
    try reflexivity; f_equal; lia.
Qed.

Lemma sum_query_calc_contract (kds : kern_data_store) (atts : list Z) :
  @calc_contract sum_query kds atts sum_merge.
Proof.
  constructor; [exact sum_merge_comm|].
  intros e attnum k a n _ Hcol Ha Hn Hne Hk. cbv zeta.
  assert (Hcalc : snd (@gpupreagg_global_calc sum_query e attnum k a n)
                  = set_datum k a attnum
                      (fst (sum_merge (datum_cell k a attnum)
                                      (datum_cell k n attnum)))
                      (snd (sum_merge (datum_cell k a attnum)
                                      (datum_cell k n attnum)))).
  { simpl. unfold GPUPREAGG_AGGCALC_PSUM_INT.
    pose proof (psum_snd_errcode F_int e StromError_Success
                  (load_int k attnum a) (load_int k attnum n)) as Hs.
    destruct (GPUPREAGG_AGGCALC_PSUM_TEMPLATE F_int e _ _) as [e' d].
    simpl in Hs. subst d. reflexivity. }
  rewrite Hcalc. split; [apply set_datum_shape, Hk|]. split.
  - destruct Hk as (Hwf & Hcols & _ & Hlen).
    destruct (kds_wf_row k a Hwf ltac:(lia) ltac:(lia)) as [Hv Hi].
    unfold datum_cell at 1.
    rewrite set_datum_isnull, set_datum_values by lia.
    symmetry. apply surjective_pairing.
  - intros r c Hr Hc Hrc. apply set_datum_other; lia.
Qed.

Lemma global_stage_values_witness :
  let st := @gpupreagg_global_stage sum_query 2 2 collision_control
              collision_batch stale_table (round_robin 2 2 5) in
  (0 < 2)%nat /\ 0 < hash_size collision_control /\
  (Z.to_nat (hash_size collision_control) <= length stale_table)%nat /\
  @key_contract sum_query collision_batch (gpagg_atts collision_control) /\
  nitems collision_batch <= Z.of_nat (2 * 2) < 2 ^ 31 /\
  Z.of_nat (length (@distinct_keys sum_query collision_batch
                      (seq 0 (Z.to_nat (nitems collision_batch)))))
  <= nrooms collision_batch /\
  (length (@distinct_keys sum_query collision_batch
             (seq 0 (Z.to_nat (nitems collision_batch))))
   <= length (rindex (krowmap collision_control)))%nat /\
  @calc_contract sum_query collision_batch (gpagg_atts collision_control)
    sum_merge /\
  batch_shape collision_batch collision_batch /\
  gs_finished st = true /\
  In 1%nat (group_owners st) /\
  In 1 (aggfunc_columns collision_control (ncols collision_batch)) /\
  datum_cell (gs_kds_dst st) 1 1 = (0, 6).
Proof.
  cbv zeta.
  assert (H0 : (0 < 2)%nat) by lia.
  assert (H1 : 0 < hash_size collision_control) by (vm_compute; reflexivity).
  assert (H2 : (Z.to_nat (hash_size collision_control) <= length stale_table)%nat)
    by (vm_compute; lia).
  pose proof (sum_query_contract collision_batch) as H3.
  assert (H4 : nitems collision_batch <= Z.of_nat (2 * 2) < 2 ^ 31)
    by (vm_compute; split; [discriminate|reflexivity]).
  assert (H5 : Z.of_nat (length (@distinct_keys sum_query collision_batch
                                   (seq 0 (Z.to_nat (nitems collision_batch)))))
               <= nrooms collision_batch) by (vm_compute; discriminate).
  assert (H6 : (length (@distinct_keys sum_query collision_batch
                          (seq 0 (Z.to_nat (nitems collision_batch))))
                <= length (rindex (krowmap collision_control)))%nat)
    by (vm_compute; lia).
  pose proof (sum_query_calc_contract collision_batch
                (gpagg_atts collision_control)) as H7.
  assert (H8 : batch_shape collision_batch collision_batch).
  { split; [split; [vm_compute; discriminate|]|].
    - repeat constructor.
    - split; [reflexivity|]. split; [reflexivity|]. vm_compute. lia. }
  assert (H9 : gs_finished (@gpupreagg_global_stage sum_query 2 2 collision_control
                              collision_batch stale_table (round_robin 2 2 5))
               = true) by (vm_compute; reflexivity).
  assert (H10 : In 1%nat (group_owners
                            (@gpupreagg_global_stage sum_query 2 2
                               collision_control collision_batch stale_table
                               (round_robin 2 2 5))))
    by (vm_compute; right; left; reflexivity).
  assert (H11 : In 1 (aggfunc_columns collision_control (ncols collision_batch)))
    by (vm_compute; left; reflexivity).
  repeat (split; [assumption|]).
  destruct (@global_stage_values sum_query 2 2 collision_control collision_batch
              stale_table sum_merge H0 H1 H2 H3 H4 H5 H6 H7 H8
              (round_robin 2 2 5) H9) as [Hval _].
  pose proof (Hval 1%nat 1 H10 H11) as Hv.
  change (Z.of_nat 1) with 1 in Hv. rewrite Hv. vm_compute. reflexivity.
Defined.

(** ** A chain of merges by GPUPREAGG_AGGCALC_PSUM_TEMPLATE *)

Lemma psum_errcode_sticky f e accum newval :
  fst (GPUPREAGG_AGGCALC_PSUM_TEMPLATE f e accum newval) = StromError_Success ->
  e = StromError_Success.
Proof.
  unfold GPUPREAGG_AGGCALC_PSUM_TEMPLATE.
  destruct (pd_isnull accum), (pd_isnull newval); simpl; auto.
  destruct (CHECK_OVERFLOW_INT _ _ _); [|auto].
  destruct e; simpl; auto.
Qed.

Lemma psum_chain_snoc f e accum values d :
  psum_chain f e accum (values ++ [d])
  = GPUPREAGG_AGGCALC_PSUM_TEMPLATE f (fst (psum_chain f e accum values))
      (snd (psum_chain f e accum values)) d.
Proof. unfold psum_chain. rewrite fold_left_app. reflexivity. Qed.

Lemma exact_sum_snoc f values d :
  exact_sum f (values ++ [d])
  = exact_sum f values + (if pd_isnull d then 0 else get_val f d).
Proof.
  unfold exact_sum. rewrite List.filter_app, map_app, sumZ_app. simpl.
  destruct (pd_isnull d); simpl; lia.
Qed.

Lemma exact_sum_all_null f values :
  forallb pd_isnull values = true -> exact_sum f values = 0.
Proof.
  unfold exact_sum. induction values as [|d values IH]; simpl; [reflexivity|].
  intros H. apply andb_true_iff in H. destruct H as [-> H]. simpl. auto.
Qed.

(** X20. A chain of merges on [int_val] or [long_val] that starts without
    an error and ends without one has made no mistake: the accumulator is
    null exactly when every value was null, and otherwise it holds the
    sum, in the integers, of the values that were not null. *)
Theorem psum_chain_unflagged_exact f accum values :
  f <> F_short ->
  let r := psum_chain f StromError_Success accum values in
  fst r = StromError_Success ->
  pd_isnull (snd r) = forallb pd_isnull (accum :: values) /\
  (pd_isnull (snd r) = false ->
   get_val f (snd r) = exact_sum f (accum :: values)).
Proof.
  intros Hf. induction values as [|d values IH] using rev_ind; cbv zeta.
  - intros _. simpl. rewrite andb_true_r. split; [reflexivity|].
    intros Hn. unfold exact_sum. simpl. rewrite Hn. simpl. lia.
  - rewrite psum_chain_snoc. intros He.
    pose proof (psum_errcode_sticky _ _ _ _ He) as He0.
    cbv zeta in IH. destruct (IH He0) as [Hnull Hval]. clear IH.
    set (r := psum_chain f StromError_Success accum values) in *.
    rewrite app_comm_cons, exact_sum_snoc, forallb_app.
    replace (forallb pd_isnull [d]) with (pd_isnull d)
      by (simpl; now rewrite andb_true_r).
    rewrite <- Hnull.
    destruct (pd_isnull (snd r)) eqn:Ha, (pd_isnull d) eqn:Hd.
    + unfold GPUPREAGG_AGGCALC_PSUM_TEMPLATE. rewrite Ha, Hd. simpl.
      split; [exact Ha|]. congruence.
    + unfold GPUPREAGG_AGGCALC_PSUM_TEMPLATE. rewrite Ha, Hd. simpl.
      split; [reflexivity|]. intros _.
      rewrite get_set_val, wrap_signed_small by apply get_val_in_range.
      rewrite exact_sum_all_null by (symmetry; exact Hnull). lia.
    + unfold GPUPREAGG_AGGCALC_PSUM_TEMPLATE. rewrite Ha, Hd. simpl.
      split; [exact Ha|]. intros _. rewrite Hval by reflexivity. lia.
    + destruct (decide (in_range f (get_val f (snd r) + get_val f d)))
        as [Hr|Hr].
      * destruct (psum_exact f (fst r) (snd r) d Ha Hd Hr) as (_ & Hn' & Hv').
        cbv zeta in Hn', Hv'. rewrite Hn', Hv', Hval by reflexivity.
        split; [reflexivity|]. intros _. reflexivity.
      * exfalso.
        rewrite (psum_wide_overflow_flagged f (fst r) (snd r) d Hf Ha Hd Hr),
          He0 in He.
        discriminate.
Qed.

Lemma psum_chain_unflagged_exact_witness :
  let accum := datum_of F_int 2147483000 in
  let values := [mk_pagg_datum 0 true 7; datum_of F_int 600; datum_of F_int (-5)] in
  let r := psum_chain F_int StromError_Success accum values in
  F_int <> F_short /\ fst r = StromError_Success /\
  pd_isnull (snd r) = false /\ get_val F_int (snd r) = 2147483595.
Proof.
  cbv zeta.
  assert (H1 : F_int <> F_short) by discriminate.
  assert (H2 : fst (psum_chain F_int StromError_Success
                      (datum_of F_int 2147483000)
                      [mk_pagg_datum 0 true 7; datum_of F_int 600;
                       datum_of F_int (-5)]) = StromError_Success)
    by (vm_compute; reflexivity).
  split; [exact H1|]. split; [exact H2|].
  destruct (psum_chain_unflagged_exact F_int (datum_of F_int 2147483000)
              [mk_pagg_datum 0 true 7; datum_of F_int 600; datum_of F_int (-5)]
              H1 H2) as [Hn Hv].
  split; [rewrite Hn; reflexivity|].
  rewrite Hv by (rewrite Hn; reflexivity). vm_compute. reflexivity.
Defined.

(** ** The three reservations: add first, check afterwards *)

Section ReservationSites.

Context `{F : GpuPreAggFunctions}.

Lemma writeback_all_nospace {A} (st : StromError) (l : list A) :
  l <> [] ->
  kern_writeback_error_status st
    (map (fun _ => StromError_DataStoreNoSpace) l)
  = STROM_SET_ERROR st StromError_DataStoreNoSpace.
Proof.
  unfold kern_writeback_error_status.
  destruct l as [|a l]; [contradiction|]. intros _. simpl.
  assert (Hset : STROM_SET_ERROR st StromError_DataStoreNoSpace
                 <> StromError_Success) by (destruct st; discriminate).
  revert Hset.
  generalize (STROM_SET_ERROR st StromError_DataStoreNoSpace) as s.
  induction l as [|b l IH]; intros s Hs; simpl; [reflexivity|].
  replace (STROM_SET_ERROR s StromError_DataStoreNoSpace) with s
    by (destruct s; [contradiction|reflexivity..]).
  apply IH, Hs.
Qed.

Lemma fold_left_invariant {A B} (P : A -> Prop) (f : A -> B -> A) :
  (forall a b, P a -> P (f a b)) ->
  forall l a, P a -> P (fold_left f l a).
Proof.
  intros Hf. induction l as [|b l IH]; intros a Ha; simpl; [exact Ha|].
  apply IH, Hf, Ha.
Qed.

(** A chain of updates, one for every work-item of the list. *)
Lemma alter_chain_lookup (f : workitem -> workitem) :
  forall (members : list nat) (items : list workitem) (gid : nat),
    NoDup members ->
    fold_left (fun items gid => alter f gid items) members items !! gid
    = if bool_decide (gid ∈ members) then f <$> items !! gid
      else items !! gid.
Proof.
  induction members as [|m members IH]; intros items gid Hnd; simpl.
  - reflexivity.
  - apply NoDup_cons in Hnd. destruct Hnd as [Hm Hnd]. rewrite IH by exact Hnd.
    destruct (decide (gid = m)) as [->|Hne].
    + rewrite (bool_decide_eq_false_2 _ Hm),
        bool_decide_eq_true_2 by (left).
      apply list_lookup_alter_eq.
    + rewrite list_lookup_alter_ne by congruence.
      destruct (bool_decide_reflect (gid ∈ members)) as [Hin|Hin].
      * rewrite bool_decide_eq_true_2 by (right; exact Hin). reflexivity.
      * rewrite bool_decide_eq_false_2; [reflexivity|].
        intros Hc. apply elem_of_cons in Hc. destruct Hc; auto.
Qed.

Lemma local_owner_flag_01 (L : nat) (items : list workitem) (gid : nat) :
  local_owner_flag L items gid = 0 \/ local_owner_flag L items gid = 1.
Proof.
  unfold local_owner_flag. destruct (items !! gid); [|auto].
  destruct (_ =? _); auto.
Qed.

(** The column loop of the local stage writes cells of the destination
    batch, never its counters. *)
Lemma local_reduce_column_counters kg kds_src L members dest st attnum :
  nitems (ls_kds_dst (local_reduce_column kg kds_src L members dest st attnum))
  = nitems (ls_kds_dst st) /\
  nrooms (ls_kds_dst (local_reduce_column kg kds_src L members dest st attnum))
  = nrooms (ls_kds_dst st).
Proof.
  assert (Hpair : (fun s => (nitems (ls_kds_dst s), nrooms (ls_kds_dst s)))
                    (local_reduce_column kg kds_src L members dest st attnum)
                  = (nitems (ls_kds_dst st), nrooms (ls_kds_dst st))).
  { unfold local_reduce_column. destruct (negb _); cbv zeta;
      rewrite ?(fold_left_preserves _
                  (fun s => (nitems (ls_kds_dst s), nrooms (ls_kds_dst s))));
      try reflexivity; intros a b.
    - unfold local_move. destruct (ls_items a !! b); [|reflexivity].
      destruct (_ =? _); [|reflexivity]. simpl.
      unfold gpupreagg_data_move.
      destruct (_ || _); [reflexivity|]. cbv zeta.
      destruct (negb _); reflexivity.
    - unfold local_load. destruct (ls_items a !! b); [|reflexivity].
      destruct (_ <? _); reflexivity.
    - unfold local_calc. destruct (ls_items a !! b); [|reflexivity].
      destruct (_ && _); reflexivity.
    - unfold local_store. destruct (ls_items a !! b); [|reflexivity].
      destruct (_ =? _); [|reflexivity]. simpl.
      unfold gpupreagg_data_store.
      destruct (_ >=? _); [reflexivity|]. cbv zeta. unfold pg_vstore.
      destruct (_ =? 2); [destruct (pd_isnull _); reflexivity|].
      destruct (_ =? 4); [destruct (pd_isnull _); reflexivity|].
      destruct (_ =? 8); [destruct (pd_isnull _); reflexivity|].
      reflexivity. }
  cbv beta in Hpair. injection Hpair as H1 H2. auto.
Qed.

(** C2, as the code has it.  At each of the three sites the work-group
    adds its request to the counter first and compares afterwards; [n] is
    the request: the valid rows of the work-group in gpupreagg_preparation,
    its owners in the two reduction kernels.

    gpupreagg_preparation ([nitems] of [kds_src]): when the request is not
    empty and does not fit, every work-item takes
    [StromError_DataStoreNoSpace], which is written back to the status, no
    row is projected, and [nitems] is left at the old value plus the
    request, above [nrooms]; when it fits, [nitems] ends at the old value
    plus the request, within [nrooms].

    gpupreagg_local_reduction ([nitems] of [kds_dst]) and
    gpupreagg_global_reduction ([nvalids] of the row map): the same, with
    the error code in the private [errcode] of every work-item of the
    work-group, which leaves the kernel; no cell of the batch and no cell
    of the row map is written. *)
Theorem reservation_add_then_check :
  (forall (L g : nat) kgpreagg kds_in kds_src,
     let n := Z.of_nat (length (preparation_rows L g kgpreagg kds_in)) in
     let r := gpupreagg_preparation_group L g kgpreagg kds_in kds_src in
     (0 < L)%nat ->
     0 <= nitems kds_src -> nitems kds_src + n < 2 ^ 32 ->
     0 <= nrooms kds_src < 2 ^ 32 ->
     (forall e a b x y,
        nitems (snd (gpupreagg_projection e a b x y)) = nitems b /\
        nrooms (snd (gpupreagg_projection e a b x y)) = nrooms b) ->
     nitems (snd r) = nitems kds_src + n /\ nrooms (snd r) = nrooms kds_src /\
     (0 < n -> nrooms kds_src < nitems kds_src + n ->
        status (fst r)
        = STROM_SET_ERROR (status kgpreagg) StromError_DataStoreNoSpace /\
        snd r = set_nitems kds_src (nitems kds_src + n)) /\
     (nitems kds_src + n <= nrooms kds_src -> nitems (snd r) <= nrooms (snd r))) /\
  (forall kgpreagg kds_src (L g : nat) (st : lstate),
     let members := group_members L g in
     let n := Z.of_nat (length (List.filter
                 (fun gid => local_owner_flag L (ls_items st) gid =? 1) members)) in
     let st' := local_group_step kgpreagg kds_src L g st in
     0 <= nitems (ls_kds_dst st) -> nitems (ls_kds_dst st) + Z.of_nat L < 2 ^ 32 ->
     0 <= nrooms (ls_kds_dst st) ->
     nitems (ls_kds_dst st') = nitems (ls_kds_dst st) + n /\
     nrooms (ls_kds_dst st') = nrooms (ls_kds_dst st) /\
     (nrooms (ls_kds_dst st) < nitems (ls_kds_dst st) + n ->
        ls_kds_dst st'
        = set_nitems (ls_kds_dst st) (nitems (ls_kds_dst st) + n) /\
        forall gid w, In gid members -> ls_items st !! gid = Some w ->
          ls_items st' !! gid
          = Some (wi_leave w StromError_DataStoreNoSpace)) /\
     (nitems (ls_kds_dst st) + n <= nrooms (ls_kds_dst st) ->
        nitems (ls_kds_dst st') <= nrooms (ls_kds_dst st'))) /\
  (forall kgpreagg (nitems0 nattrs : Z) (L g : nat) (st : gstate),
     let members := group_members L g in
     let n := Z.of_nat (length (List.filter
                 (fun gid => global_owner_flag (gs_items st) gid =? 1) members)) in
     let st' := global_group_step kgpreagg nitems0 nattrs L g st in
     0 <= nvalids (gs_krowmap st) ->
     nvalids (gs_krowmap st) + Z.of_nat L < 2 ^ 31 ->
     0 <= nrooms (gs_kds_dst st) ->
     nvalids (gs_krowmap st') = nvalids (gs_krowmap st) + n /\
     (nrooms (gs_kds_dst st) < nvalids (gs_krowmap st) + n ->
        rindex (gs_krowmap st') = rindex (gs_krowmap st) /\
        gs_kds_dst st' = gs_kds_dst st /\ gs_calls st' = gs_calls st /\
        forall gid w, In gid members -> gs_items st !! gid = Some w ->
          gs_items st' !! gid
          = Some (wi_leave w StromError_DataStoreNoSpace)) /\
     (nvalids (gs_krowmap st) + n <= nrooms (gs_kds_dst st) ->
        nvalids (gs_krowmap st') <= nrooms (gs_kds_dst st))).
Proof.
  split; [|split].
  - (* gpupreagg_preparation *)
    intros L g kgpreagg kds_in kds_src n r HL Hi Hfit Hr Hproj.
    unfold r, gpupreagg_preparation_group.
    fold (preparation_rows L g kgpreagg kds_in) in n.
    set (pre := map (fun gid => preparation_kds_index kgpreagg kds_in (Z.of_nat gid))
                    (group_members L g)).
    assert (Hn : n = Z.of_nat (length (List.filter (valid_row kds_in) pre)))
      by reflexivity.
    assert (Hgrp : snd (arithmetic_stairlike_add
                          (map (fun p => if snd p <? nitems kds_in then 1 else 0)
                               pre) 0) = n).
    { unfold arithmetic_stairlike_add. simpl snd. rewrite sumZ_flags, <- Hn.
      apply Z.mod_small. lia. }
    rewrite Hgrp. unfold preparation_reserve.
    assert (Hpre : pre <> []).
    { unfold pre, group_members. destruct L; [lia|]. discriminate. }
    assert (Hfold : forall base N R acc,
              nitems (snd acc) = N /\ nrooms (snd acc) = R ->
              (fun acc' => nitems (snd acc') = N /\ nrooms (snd acc') = R)
              (fold_left
                 (fun (acc : list StromError * kern_data_store)
                      (lp : nat * (StromError * Z)) =>
                    let '(errs, kds) := acc in
                    let '(lid, (e, kds_index)) := lp in
                    if kds_index <? nitems kds_in then
                      let offset :=
                        fst (arithmetic_stairlike_add
                               (map (fun p => if snd p <? nitems kds_in
                                              then 1 else 0) pre) lid) in
                      let '(e', kds') :=
                        gpupreagg_projection e kds_in kds kds_index
                          (wrap_unsigned 32 (base + offset)) in
                      (errs ++ [e'], kds')
                    else (errs ++ [e], kds))
                 (imap pair pre) acc)).
    { intros base N R acc Hacc. apply fold_left_invariant; [|exact Hacc].
      intros [errs kds] [lid [e k]] [H1 H2]. cbv beta iota zeta.
      destruct (k <? nitems kds_in); [|auto].
      match goal with
      | |- context [gpupreagg_projection ?e ?a ?b ?x ?y] =>
          destruct (Hproj e a b x y) as [H3 H4];
          destruct (gpupreagg_projection e a b x y) as [e' kds']
      end.
      cbn [snd] in *. split; congruence. }
    destruct (Z.ltb_spec 0 n) as [Hpos|Hzero]; cbv beta iota zeta.
    + assert (Hw : wrap_unsigned 32 (nitems kds_src + n) = nitems kds_src + n)
        by (apply Z.mod_small; lia).
      rewrite !Hw. cbn [nrooms set_nitems].
      destruct (Z.ltb_spec (nrooms kds_src) (nitems kds_src + n)) as [Hex|Hok].
      * cbn [fst snd status set_status nitems nrooms].
        rewrite writeback_all_nospace by exact Hpre.
        repeat split; auto; lia.
      * pose proof (Hfold (nitems kds_src) (nitems kds_src + n) (nrooms kds_src)
                      ([], set_nitems kds_src (nitems kds_src + n))
                      (conj eq_refl eq_refl)) as HH.
        cbv beta iota zeta in HH.
        destruct (fold_left _ (imap pair pre) _) as [errs kds2].
        destruct HH as [H1 H2]. cbn [snd fst] in *.
        split; [exact H1|]. split; [exact H2|]. split; [intros; lia|].
        intros _. lia.
    + assert (Hn0 : n = 0) by lia.
      replace (nrooms kds_src <? wrap_unsigned 32 (0 + n)) with false
        by (rewrite Hn0; change (wrap_unsigned 32 (0 + 0)) with 0; symmetry; lia).
      pose proof (Hfold 0 (nitems kds_src) (nrooms kds_src) ([], kds_src)
                    (conj eq_refl eq_refl)) as HH.
      cbv beta iota zeta in HH.
      destruct (fold_left _ (imap pair pre) _) as [errs kds2].
      destruct HH as [H1 H2]. cbn [snd fst] in *.
      split; [rewrite Hn0, Z.add_0_r; exact H1|]. split; [exact H2|].
      split; [intros; lia|].
      intros Hle. rewrite H1, H2. lia.
  - (* gpupreagg_local_reduction *)
    intros kgpreagg kds_src L g st members n st' Hi Hfit Hr.
    assert (Hn : sumZ (map (local_owner_flag L (ls_items st)) members) = n)
      by (apply sumZ_flags_count; intros; apply local_owner_flag_01).
    assert (HnL : 0 <= n <= Z.of_nat L).
    { unfold n. split; [lia|].
      etransitivity; [apply inj_le, List.filter_length_le|].
      unfold members, group_members. rewrite length_seq. lia. }
    assert (Hng : snd (arithmetic_stairlike_add
                         (map (local_owner_flag L (ls_items st)) members) 0) = n).
    { unfold arithmetic_stairlike_add. cbn [snd]. rewrite Hn.
      apply Z.mod_small. lia. }
    unfold st', local_group_step. cbv zeta. fold members. rewrite Hng.
    unfold local_reserve. cbv zeta.
    assert (Hw : wrap_unsigned 32 (nitems (ls_kds_dst st) + n)
                 = nitems (ls_kds_dst st) + n) by (apply Z.mod_small; lia).
    assert (Hw' : wrap_unsigned 64 (nitems (ls_kds_dst st) + n)
                  = nitems (ls_kds_dst st) + n)
      by (apply Z.mod_small; change (2 ^ 64) with (2 ^ 32 * 2 ^ 32); nia).
    rewrite Hw, Hw'. cbn [nrooms set_nitems].
    destruct (Z.ltb_spec (nrooms (ls_kds_dst st)) (nitems (ls_kds_dst st) + n))
      as [Hex|Hok].
    + cbn [ls_kds_dst ls_items ls_set_kds_dst nitems nrooms set_nitems].
      split; [reflexivity|]. split; [reflexivity|]. split; [|lia].
      intros _. split; [reflexivity|].
      intros gid w Hgid Hw0.
      rewrite alter_chain_lookup
        by (apply NoDup_ListNoDup, List.seq_NoDup).
      rewrite bool_decide_eq_true_2 by (apply list_elem_of_In, Hgid).
      rewrite Hw0. reflexivity.
    + cbn [ls_kds_dst].
      match goal with
      | |- context [fold_left ?f (seqZ 0 (ncols kds_src)) ?s0] =>
          assert (Hcols : nitems (ls_kds_dst (fold_left f (seqZ 0 (ncols kds_src)) s0))
                          = nitems (ls_kds_dst s0) /\
                          nrooms (ls_kds_dst (fold_left f (seqZ 0 (ncols kds_src)) s0))
                          = nrooms (ls_kds_dst s0))
      end.
      { generalize (seqZ 0 (ncols kds_src)) as cols.
        intros cols.
        match goal with |- context [fold_left _ cols ?s0] => generalize s0 end.
        induction cols as [|c cols IH]; intros s0; [auto|].
        rewrite fold_left_cons_eq.
        match goal with
        | |- context [fold_left _ cols ?s1] => destruct (IH s1) as [H1 H2]
        end.
        rewrite H1, H2. apply local_reduce_column_counters. }
      destruct Hcols as [H1 H2]. rewrite H1, H2.
      cbn [ls_kds_dst ls_set_kds_dst nitems nrooms set_nitems].
      split; [reflexivity|]. split; [reflexivity|]. split; [lia|]. intros _. lia.
  - (* gpupreagg_global_reduction *)
    intros kgpreagg nitems0 nattrs L g st members n st' Hi Hfit Hr.
    assert (Hn : sumZ (map (global_owner_flag (gs_items st)) members) = n)
      by (apply sumZ_flags_count; intros; apply owner_flag_01).
    assert (HnL : 0 <= n <= Z.of_nat L).
    { unfold n. split; [lia|].
      etransitivity; [apply inj_le, List.filter_length_le|].
      unfold members, group_members. rewrite length_seq. lia. }
    assert (Hnv : nvalids (gs_krowmap st') = nvalids (gs_krowmap st) + n).
    { unfold st'. rewrite global_group_step_nvalids. fold members. rewrite Hn.
      unfold wrap_unsigned. rewrite Z.mod_small by lia.
      apply wrap_signed_fit. lia. }
    split; [exact Hnv|]. split; [|lia].
    intros Hex. unfold st', global_group_step. cbv zeta. fold members.
    assert (Hng : snd (arithmetic_stairlike_add
                         (map (global_owner_flag (gs_items st)) members) 0) = n).
    { unfold arithmetic_stairlike_add. cbn [snd]. rewrite Hn.
      apply Z.mod_small. lia. }
    rewrite !Hng. cbn [gs_kds_dst gs_krowmap nvalids].
    assert (Hw : wrap_unsigned 64 (nvalids (gs_krowmap st))
                 = nvalids (gs_krowmap st))
      by (apply Z.mod_small; change (2 ^ 64) with (2 ^ 33 * 2 ^ 31); lia).
    assert (Hw' : wrap_unsigned 64 (nvalids (gs_krowmap st) + n)
                  = nvalids (gs_krowmap st) + n)
      by (apply Z.mod_small; change (2 ^ 64) with (2 ^ 33 * 2 ^ 31); lia).
    rewrite Hw, Hw'.
    replace (nrooms (gs_kds_dst st) <? nvalids (gs_krowmap st) + n) with true
      by (symmetry; lia).
    cbn [gs_krowmap gs_kds_dst gs_calls gs_items rindex].
    repeat split.
    intros gid w Hgid Hw0.
    rewrite alter_chain_lookup by (apply NoDup_ListNoDup, List.seq_NoDup).
    rewrite bool_decide_eq_true_2 by (apply list_elem_of_In, Hgid).
    rewrite Hw0. reflexivity.
Qed.

End ReservationSites.

(** The three sites at work: a work-group of gpupreagg_preparation with
    three valid rows and two rooms, a work-group of
    gpupreagg_local_reduction with two owners and one room, and a
    work-group of gpupreagg_global_reduction with two owners and four
    rooms. *)
Lemma reservation_add_then_check_witness :
  (let kds_in := batch_of 4 [(1, 10); (2, 20); (3, 30)] in
   let r := @gpupreagg_preparation_group sum_query 4 0 (control_block 4 2)
              kds_in (batch_of 2 []) in
   (0 < 4)%nat /\
   Z.of_nat (length (@preparation_rows sum_query 4 0 (control_block 4 2) kds_in))
   = 3 /\
   nrooms (batch_of 2 []) = 2 /\
   status (fst r) = StromError_DataStoreNoSpace /\
   snd r = set_nitems (batch_of 2 []) 3) /\
  (let run := @gpupreagg_local_reduction sum_query 2 2 (control_block 4 1)
                four_keys_batch (batch_of 1 []) stale_table [0; 1; 2; 3]%nat in
   let st := snd run in
   let st' := @local_group_step sum_query (fst run) four_keys_batch 2 0 st in
   0 <= nitems (ls_kds_dst st) /\
   nitems (ls_kds_dst st) + Z.of_nat 2 < 2 ^ 32 /\
   0 <= nrooms (ls_kds_dst st) /\
   nrooms (ls_kds_dst st) = 1 /\ nitems (ls_kds_dst st') = 2 /\
   map wi_errcode (ls_items st')
   = [StromError_DataStoreNoSpace; StromError_DataStoreNoSpace;
      StromError_Success; StromError_Success] /\
   slots (ls_kds_dst st') = slots (ls_kds_dst st)) /\
  (let st := @gpupreagg_global_stage sum_query 2 2 collision_control
               collision_batch stale_table [0; 1; 1]%nat in
   let st' := @global_group_step sum_query collision_control 4 2 2 0 st in
   map wi_pc (gs_items st) = [PC_barrier; PC_barrier; PC_retry; PC_retry] /\
   0 <= nvalids (gs_krowmap st) /\
   nvalids (gs_krowmap st) + Z.of_nat 2 < 2 ^ 31 /\
   0 <= nrooms (gs_kds_dst st) /\
   nrooms (gs_kds_dst st) = 4 /\
   nvalids (gs_krowmap st') = 2).
Proof.
  cbv zeta. split; [|split].
  - assert (H0 : (0 < 4)%nat) by lia.
    assert (Hn : Z.of_nat (length (@preparation_rows sum_query 4 0
                   (control_block 4 2) (batch_of 4 [(1, 10); (2, 20); (3, 30)])))
                 = 3) by (vm_compute; reflexivity).
    assert (H1 : 0 <= nitems (batch_of 2 [])) by (vm_compute; discriminate).
    assert (H2 : nitems (batch_of 2 [])
                 + Z.of_nat (length (@preparation_rows sum_query 4 0
                     (control_block 4 2) (batch_of 4 [(1, 10); (2, 20); (3, 30)])))
                 < 2 ^ 32) by (vm_compute; reflexivity).
    assert (H3 : 0 <= nrooms (batch_of 2 []) < 2 ^ 32)
      by (vm_compute; split; [discriminate|reflexivity]).
    assert (H4 : forall e a b x y,
               nitems (snd (@gpupreagg_projection sum_query e a b x y)) = nitems b /\
               nrooms (snd (@gpupreagg_projection sum_query e a b x y)) = nrooms b)
      by (intros; split; reflexivity).
    split; [exact H0|]. split; [exact Hn|]. split; [reflexivity|].
    destruct (@reservation_add_then_check sum_query) as (Hprep & _ & _).
    destruct (Hprep 4%nat 0%nat (control_block 4 2)
                (batch_of 4 [(1, 10); (2, 20); (3, 30)]) (batch_of 2 [])
                H0 H1 H2 H3 H4) as (_ & _ & Hex & _).
    rewrite Hn in Hex.
    destruct Hex as [Hs Hk]; [lia|vm_compute; reflexivity|].
    split; [rewrite Hs; vm_compute; reflexivity|]. rewrite Hk. reflexivity.
  - set (run := @gpupreagg_local_reduction sum_query 2 2 (control_block 4 1)
                  four_keys_batch (batch_of 1 []) stale_table [0; 1; 2; 3]%nat).
    assert (H1 : 0 <= nitems (ls_kds_dst (snd run))) by (vm_compute; discriminate).
    assert (H2 : nitems (ls_kds_dst (snd run)) + Z.of_nat 2 < 2 ^ 32)
      by (vm_compute; reflexivity).
    assert (H3 : 0 <= nrooms (ls_kds_dst (snd run))) by (vm_compute; discriminate).
    split; [exact H1|]. split; [exact H2|]. split; [exact H3|].
    split; [vm_compute; reflexivity|].
    destruct (@reservation_add_then_check sum_query) as (_ & Hlocal & _).
    destruct (Hlocal (fst run) four_keys_batch 2%nat 0%nat (snd run) H1 H2 H3)
      as (Hn & _ & Hex & _).
    split; [rewrite Hn; vm_compute; reflexivity|].
    destruct Hex as [Hk _]; [vm_compute; reflexivity|].
    split; [vm_compute; reflexivity|]. rewrite Hk. reflexivity.
  - set (st := @gpupreagg_global_stage sum_query 2 2 collision_control
                 collision_batch stale_table [0; 1; 1]%nat).
    assert (H1 : 0 <= nvalids (gs_krowmap st)) by (vm_compute; discriminate).
    assert (H2 : nvalids (gs_krowmap st) + Z.of_nat 2 < 2 ^ 31)
      by (vm_compute; reflexivity).
    assert (H3 : 0 <= nrooms (gs_kds_dst st)) by (vm_compute; discriminate).
    split; [vm_compute; reflexivity|].
    split; [exact H1|]. split; [exact H2|]. split; [exact H3|].
    split; [vm_compute; reflexivity|].
    destruct (@reservation_add_then_check sum_query) as (_ & _ & Hglobal).
    destruct (Hglobal collision_control 4 2 2%nat 0%nat st H1 H2 H3) as (Hn & _).
    rewrite Hn. vm_compute. reflexivity.
Defined.

(** ** The retry loop of gpupreagg_local_reduction *)

(** C4, where the code departs from it.  The retry loop of
    gpupreagg_local_reduction on four rows in two work-groups of two, each
    work-item scheduled once: work-item 3 finds its slot empty and claims
    it, and is not an owner by the test of the kernel,
    [get_local_id(0) == owner_index]; work-item 2 finds the slot that row 0
    claimed, compares its key with the key of row
    [get_global_id(0) - get_local_id(0) + cur_slot.index], which is its own
    row, and adopts the index 0 though the keys of the rows 0 and 2 differ;
    this makes it an owner by the same test.  When both work-groups are
    through, row 3 is lost and the value of row 2 was added to itself. *)
Theorem local_reservation_adopts_stranger :
  let run sched :=
    snd (@gpupreagg_local_reduction sum_query 2 2 (control_block 4 4)
           strangers_batch (batch_of 4 []) stale_table sched) in
  let st := run [0; 1; 2; 3]%nat in
  map wi_pc (ls_items st) = [PC_barrier; PC_barrier; PC_barrier; PC_barrier] /\
  ls_g_hashslot st
  = [old_slot; mk_slot 1 0; mk_slot 2 1; mk_slot 3 3] /\
  map wi_owner_index (ls_items st) = [0; 1; 0; 3] /\
  @same_key sum_query strangers_batch 2 0 = false /\
  map (local_owner_flag 2 (ls_items st)) [0; 1; 2; 3]%nat = [1; 1; 1; 0] /\
  let st' := run [0; 1; 2; 3; 0; 2]%nat in
  ls_finished st' = true /\
  map wi_errcode (ls_items st')
  = [StromError_Success; StromError_Success; StromError_Success;
     StromError_Success] /\
  nitems (ls_kds_dst st') = 3 /\
  map (fun r => (cell (KERN_DATA_STORE_VALUES (ls_kds_dst st') r) 0,
                 cell (KERN_DATA_STORE_VALUES (ls_kds_dst st') r) 1))
      (seqZ 0 (nitems (ls_kds_dst st')))
  = [(1, 10); (2, 20); (5, 60)].
Proof. vm_compute. repeat split; reflexivity. Qed.

Section LocalSpin.

Lemma round_robin_succ (L NG k : nat) :
  round_robin L NG (S k) = seq 0 (NG * L) ++ round_robin L NG k.
Proof. reflexivity. Qed.

Lemma local_spin_cycle :
  five_rows_round
    (five_rows_round
       (five_rows_round
          (five_rows_round (five_rows_round (five_rows_round five_rows_start)))))
  = five_rows_round (five_rows_round five_rows_start).
Proof. vm_compute. reflexivity. Qed.

Lemma local_spin_states (st : lstate) :
  five_rows_reached st ->
  (wi_pc <$> ls_items st !! 3%nat) = Some PC_retry /\
  (wi_pc <$> ls_items st !! 2%nat) <> Some PC_out.
Proof.
  intros [->|[->|[->|[->|[->| ->]]]]]; vm_compute; split;
    (reflexivity || discriminate).
Qed.

Lemma local_spin_rounds (k : nat) : forall st,
  five_rows_reached st ->
  five_rows_reached (fold_left five_rows_step (round_robin 2 3 k) st).
Proof.
  induction k as [|k IH]; intros st Hst.
  - exact Hst.
  - rewrite round_robin_succ, fold_left_app. apply IH.
    change (fold_left five_rows_step (seq 0 (3 * 2)) st)
      with (five_rows_round st).
    unfold five_rows_reached.
    destruct Hst as [->|[->|[->|[->|[->| ->]]]]].
    + right. left. reflexivity.
    + do 2 right. left. reflexivity.
    + do 3 right. left. reflexivity.
    + do 4 right. left. reflexivity.
    + do 5 right. reflexivity.
    + do 2 right. left. apply local_spin_cycle.
Qed.

(** C5, where the code departs from it.  Five rows with four distinct
    keys in three work-groups of two, so that the keys fit the [2 * 2]
    slots of the local stage: under the round-robin scheduler work-item 3
    is in the retry loop after every number of rounds.  The slot of its
    key was claimed by row 0; it compares its key with the key of row
    [get_global_id(0) - get_local_id(0) + cur_slot.index], which is row 2
    and not row 0, and goes round the four occupied slots for ever, while
    work-item 2 waits for it at the barrier. *)
Theorem local_retry_spins (k : nat) :
  let st := snd (@gpupreagg_local_reduction sum_query 2 3 (control_block 4 5)
                   five_rows_batch (batch_of 5 []) stale_table
                   (round_robin 2 3 k)) in
  (length (@distinct_keys sum_query five_rows_batch
             (seq 0 (Z.to_nat (nitems five_rows_batch)))) <= 2 * 2)%nat /\
  (wi_pc <$> ls_items st !! 3%nat) = Some PC_retry /\
  (wi_pc <$> ls_items st !! 2%nat) <> Some PC_out /\
  ls_finished st = false.
Proof.
  cbv zeta. split; [vm_compute; lia|].
  assert (Hrun : snd (@gpupreagg_local_reduction sum_query 2 3 (control_block 4 5)
                        five_rows_batch (batch_of 5 []) stale_table
                        (round_robin 2 3 k))
                 = fold_left five_rows_step (round_robin 2 3 k) five_rows_start)
    by reflexivity.
  rewrite Hrun.
  pose proof (local_spin_rounds k five_rows_start (or_introl eq_refl)) as Hst.
  destruct (local_spin_states _ Hst) as [H3 H2].
  split; [exact H3|]. split; [exact H2|].
  apply not_true_is_false. intros Hfin.
  unfold ls_finished in Hfin. rewrite forallb_forall in Hfin.
  destruct (ls_items (fold_left five_rows_step (round_robin 2 3 k)
                        five_rows_start) !! 3%nat)
    as [w|] eqn:Hw; [|discriminate].
  simpl in H3. injection H3 as H3.
  assert (Hin : In w (ls_items (fold_left five_rows_step (round_robin 2 3 k)
                               five_rows_start)))
    by (apply list_elem_of_In; eapply list_elem_of_lookup_2; eassumption).
  specialize (Hfin w Hin). apply bool_decide_eq_true_1 in Hfin. congruence.
Qed.

End LocalSpin.

(** ** The sort-based fallback beyond [2 ^ 29] rows *)

Section GuardWraps.

Lemma bitonic_local_group_length {A} (pos : Z -> A) (gt : A -> A -> bool)
    (localSize nrows : Z) (rindex : list A) (prtID : Z) :
  length (bitonic_local_group pos gt localSize nrows rindex prtID)
  = length rindex.
Proof. unfold bitonic_local_group, write_back. apply length_inserts. Qed.

(** C7, as stated, fails.  With [2 ^ 31 - 1] rows and work-groups of two,
    the fallback launches [2 ^ 29] work-groups; the last partition of gpupreagg_bitonic_local starts at
    [prtPos = 2 ^ 31 - 4], and [prtPos + prtSize] wraps around to a negative
    [cl_int]: the guard [prtPos + prtSize < nrows] holds, [localEntry] is
    4 where three rows are left, and the kernel takes the index
    [2 ^ 31 - 1], which is not a row, among the rows and writes the cell
    [nrows] of [rindex], which is beyond them. *)
Theorem sort_fallback_guard_wraps :
  let nrows := 2 ^ 31 - 1 in
  let rindex := replicate (Z.to_nat (2 ^ 31)) (-1) in
  let never (pos0 pos1 : Z) := false in
  (nrows + 2 * 2 - 1) / (2 * 2) = 2 ^ 29 /\
  local_entry 2 (2 ^ 29 - 1) nrows = 4 /\
  partition_pos 2 (2 ^ 29 - 1) = nrows - 3 /\
  rindex !! Z.to_nat nrows = Some (-1) /\
  gpupreagg_bitonic_local id never 2 (2 ^ 29) nrows rindex !! Z.to_nat nrows
  = Some nrows.
Proof.
  cbv zeta.
  assert (Hentry : local_entry 2 (2 ^ 29 - 1) (2 ^ 31 - 1) = 4)
    by (vm_compute; reflexivity).
  assert (Hpos : partition_pos 2 (2 ^ 29 - 1) = 2 ^ 31 - 1 - 3)
    by (vm_compute; reflexivity).
  split; [reflexivity|].
  split; [exact Hentry|]. split; [exact Hpos|]. split.
  - apply lookup_replicate_2. lia.
  - unfold gpupreagg_bitonic_local.
    replace (2 ^ 29) with ((2 ^ 29 - 1) + 1) at 1 by lia.
    rewrite seqZ_app by lia. rewrite fold_left_app.
    change (seqZ (0 + (2 ^ 29 - 1)) 1) with [2 ^ 29 - 1].
    set (r := fold_left (bitonic_local_group id (fun _ _ : Z => false) 2
                           (2 ^ 31 - 1))
                        (seqZ 0 (2 ^ 29 - 1))
                        (replicate (Z.to_nat (2 ^ 31)) (-1))).
    assert (Hlen : length r = Z.to_nat (2 ^ 31)).
    { unfold r.
      apply (fold_left_invariant (fun l : list Z => length l = Z.to_nat (2 ^ 31))).
      - intros a b Ha. rewrite bitonic_local_group_length. exact Ha.
      - apply length_replicate. }
    cbn [fold_left]. unfold bitonic_local_group. rewrite Hentry, Hpos.
    assert (Hsort : bitonic_local_sort (fun _ _ : Z => false) 2 4
                      (map (fun i => id (wrap_signed 32 (2 ^ 31 - 1 - 3 + i)))
                           (seqZ 0 4))
                    = [2 ^ 31 - 4; 2 ^ 31 - 3; 2 ^ 31 - 2; 2 ^ 31 - 1])
      by (vm_compute; reflexivity).
    rewrite Hsort. unfold write_back.
    rewrite list_lookup_inserts.
    + replace (Z.to_nat (2 ^ 31 - 1) - Z.to_nat (2 ^ 31 - 1 - 3))%nat
        with 3%nat by lia.
      reflexivity.
    + change (length [2 ^ 31 - 4; 2 ^ 31 - 3; 2 ^ 31 - 2; 2 ^ 31 - 1]) with 4%nat.
      lia.
    + rewrite Hlen. lia.
Qed.

End GuardWraps.

(** ** gpupreagg_global_reduction: the protocol of a launch *)

Section GlobalLaunch.

Context `{F : GpuPreAggFunctions}.
Variables (L NG : nat) (kgpreagg : kern_gpupreagg) (kds : kern_data_store)
          (tbl0 : list pagg_hashslot).
Hypothesis HL : (0 < L)%nat.
Hypothesis Hsize : 0 < hash_size kgpreagg.
Hypothesis Htbl : (Z.to_nat (hash_size kgpreagg) <= length tbl0)%nat.
Hypothesis HK : key_contract kds (gpagg_atts kgpreagg).
Hypothesis Hlaunch : nitems kds <= Z.of_nat (NG * L) <= ALL_ONES.

Lemma global_stage_start (gid : nat) :
  Z.of_nat gid < nitems kds ->
  gs_items (gpupreagg_global_stage L NG kgpreagg kds tbl0 []) !! gid
  = Some (mk_wi (row_hash kds gid)
                (row_hash kds gid mod hash_size kgpreagg)
                0 StromError_Success PC_retry).
Proof.
  intros Hgid. unfold gpupreagg_global_stage. simpl.
  rewrite list_lookup_fmap, lookup_seq_lt by lia. simpl.
  unfold global_workitem.
  replace (Z.of_nat gid <? nitems kds) with true by (symmetry; lia).
  reflexivity.
Qed.

(** X21. The Hash Table Reservation Protocol in gpupreagg_global_reduction,
    launched with a work-item for every row after
    gpupreagg_global_preparation.  At the start every slot below
    [hash_size] is empty and the work-item of a row is in the retry loop at
    the slot [hash_value mod hash_size].  Along every schedule: the
    work-item of every row is there with the hash value of its row; a
    work-item in the retry loop is at the slot reached from its first slot
    by one step per failed pass, and its next pass claims an empty slot for
    itself, adopts the occupant of a slot with its hash and key, or moves
    to the next slot modulo [hash_size]; no two owners have the same group
    key; a work-item that left the loop holds the id of the owner of its
    group; and every merge that was started goes from a row to the owner
    of its group. *)
Theorem global_reservation_protocol (sched : list nat) :
  let st0 := gpupreagg_global_stage L NG kgpreagg kds tbl0 [] in
  let st := gpupreagg_global_stage L NG kgpreagg kds tbl0 sched in
  ((forall p, (p < Z.to_nat (hash_size kgpreagg))%nat ->
      gs_hashslot st0 !! p = Some old_slot) /\
   (forall gid, Z.of_nat gid < nitems kds ->
      gs_items st0 !! gid
      = Some (mk_wi (row_hash kds gid)
                    (row_hash kds gid mod hash_size kgpreagg)
                    0 StromError_Success PC_retry))) /\
  (length (gs_items st) = (NG * L)%nat /\
   forall gid, Z.of_nat gid < nitems kds ->
     exists w, gs_items st !! gid = Some w /\
               wi_hash_value w = row_hash kds gid) /\
  (forall gid w,
      gs_items st !! gid = Some w -> wi_pc w = PC_retry ->
      exists cur,
        wi_index w
        = (row_hash kds gid mod hash_size kgpreagg
           + Z.of_nat (count_occ Nat.eq_dec sched gid)) mod hash_size kgpreagg /\
        gs_hashslot st !! Z.to_nat (wi_index w) = Some cur /\
        let st' := gpupreagg_global_stage L NG kgpreagg kds tbl0
                     (sched ++ [gid]) in
        let same_group :=
          slot_hash cur = row_hash kds gid /\
          gpupreagg_keycomp kds (Z.of_nat gid) (slot_index cur) = 0 in
        (cur = old_slot ->
           gs_hashslot st'
           = <[Z.to_nat (wi_index w) := mk_slot (row_hash kds gid) (Z.of_nat gid)]>
               (gs_hashslot st) /\
           gs_items st' !! gid = Some (wi_found w (Z.of_nat gid))) /\
        (cur <> old_slot -> same_group ->
           gs_hashslot st' = gs_hashslot st /\
           gs_items st' !! gid = Some (wi_found w (slot_index cur))) /\
        (cur <> old_slot -> ~ same_group ->
           gs_hashslot st' = gs_hashslot st /\
           gs_items st' !! gid
           = Some (wi_advance w ((wi_index w + 1) mod hash_size kgpreagg)))) /\
  (forall o1 o2,
      is_owner kds st o1 -> is_owner kds st o2 ->
      same_key kds o1 o2 = true -> o1 = o2) /\
  (forall gid w,
      gs_items st !! gid = Some w -> Z.of_nat gid < nitems kds ->
      wi_pc w <> PC_retry ->
      exists o, wi_owner_index w = Z.of_nat o /\ is_owner kds st o /\
                same_key kds gid o = true) /\
  (forall attnum accum_index newval_index,
      In (attnum, accum_index, newval_index) (gs_calls st) ->
      exists o gid, accum_index = Z.of_nat o /\ newval_index = Z.of_nat gid /\
                    is_owner kds st o /\ same_key kds gid o = true /\ o <> gid).
Proof.
  intros st0 st.
  assert (Hnitems : nitems kds <= ALL_ONES) by lia.
  pose proof (global_reduction_inv L NG kgpreagg kds tbl0 Hsize Htbl Hnitems HK
                sched) as Hinv.
  fold st in Hinv.
  assert (Hlen : length (gs_items st) = (NG * L)%nat)
    by (apply global_items_length; exact HL).
  split; [split|split; [split|]].
  - intros p Hp. unfold st0, gpupreagg_global_stage.
    apply (global_preparation_empty kgpreagg tbl0 Hsize Htbl p Hp).
  - intros gid Hgid. apply global_stage_start, Hgid.
  - exact Hlen.
  - intros gid Hgid.
    destruct (lookup_lt_is_Some_2 (gs_items st) gid ltac:(lia)) as [w Hw].
    exists w. split; [exact Hw|].
    now destruct (gi_inside _ _ _ _ Hinv _ _ Hw Hgid).
  - exact (global_protocol_steps L NG kgpreagg kds tbl0 Hsize Htbl Hnitems HK
             sched).
Qed.

(** X22. The retry loop of gpupreagg_global_reduction ends when the batch
    has no more distinct group keys than the table has slots: under every
    schedule the work-item of a row is out of the loop once it has been
    scheduled [hash_size] times, whatever the other work-items do in
    between, and when every work-item has been scheduled [hash_size] times
    and once more, the kernel has run to its end. *)
Theorem global_retry_terminates (sched : list nat) :
  (length (distinct_keys kds (seq 0 (Z.to_nat (nitems kds))))
   <= Z.to_nat (hash_size kgpreagg))%nat ->
  (forall gid, Z.of_nat gid < nitems kds ->
     exists w,
       gs_items (gpupreagg_global_stage L NG kgpreagg kds tbl0 sched) !! gid
       = Some w /\
       ((Z.to_nat (hash_size kgpreagg) <= count_occ Nat.eq_dec sched gid)%nat ->
        wi_pc w <> PC_retry)) /\
  gs_finished
    (gpupreagg_global_stage L NG kgpreagg kds tbl0
       (sched ++ round_robin L NG (Z.to_nat (hash_size kgpreagg))
              ++ round_robin L NG 1)) = true.
Proof.
  intros Hkeys.
  assert (Hnitems : nitems kds <= ALL_ONES) by lia.
  split.
  - intros gid Hgid.
    pose proof (global_items_length L NG kgpreagg kds tbl0 HL sched) as Hlen.
    destruct (lookup_lt_is_Some_2
                (gs_items (gpupreagg_global_stage L NG kgpreagg kds tbl0 sched))
                gid ltac:(lia)) as [w Hw].
    exists w. split; [exact Hw|]. intros Hcount.
    exact (global_retry_bound L NG kgpreagg kds tbl0 Hsize Htbl Hnitems HK
             sched Hkeys gid w Hw Hcount).
  - apply global_reduction_finishes; assumption.
Qed.

End GlobalLaunch.

Lemma global_reservation_protocol_witness :
  (0 < 2)%nat /\ 0 < hash_size collision_control /\
  (Z.to_nat (hash_size collision_control) <= length stale_table)%nat /\
  @key_contract sum_query collision_batch (gpagg_atts collision_control) /\
  nitems collision_batch <= Z.of_nat (2 * 2) <= ALL_ONES /\
  let st := @gpupreagg_global_stage sum_query 2 2 collision_control
              collision_batch stale_table [0; 1; 2; 3]%nat in
  length (gs_items st) = 4%nat /\
  (forall o1 o2,
      is_owner collision_batch st o1 -> is_owner collision_batch st o2 ->
      @same_key sum_query collision_batch o1 o2 = true -> o1 = o2) /\
  (forall gid w,
      gs_items st !! gid = Some w -> Z.of_nat gid < nitems collision_batch ->
      wi_pc w <> PC_retry ->
      exists o, wi_owner_index w = Z.of_nat o /\ is_owner collision_batch st o /\
                @same_key sum_query collision_batch gid o = true).
Proof.
  assert (H0 : (0 < 2)%nat) by lia.
  assert (H1 : 0 < hash_size collision_control) by (vm_compute; reflexivity).
  assert (H2 : (Z.to_nat (hash_size collision_control) <= length stale_table)%nat)
    by (vm_compute; lia).
  pose proof (sum_query_contract collision_batch) as H3.
  assert (H4 : nitems collision_batch <= Z.of_nat (2 * 2) <= ALL_ONES)
    by (vm_compute; split; discriminate).
  repeat (split; [assumption|]).
  pose proof (@global_reservation_protocol sum_query 2 2 collision_control
                collision_batch stale_table H0 H1 H2 H3 H4 [0; 1; 2; 3]%nat) as H.
  cbv zeta in *.
  destruct H as (_ & (Hlen & _) & _ & Hone & Hfound & _).
  split; [exact Hlen|]. split; [exact Hone|exact Hfound].
Defined.

Lemma global_retry_terminates_witness :
  (0 < 2)%nat /\ 0 < hash_size collision_control /\
  (Z.to_nat (hash_size collision_control) <= length stale_table)%nat /\
  @key_contract sum_query collision_batch (gpagg_atts collision_control) /\
  nitems collision_batch <= Z.of_nat (2 * 2) <= ALL_ONES /\
  (length (@distinct_keys sum_query collision_batch
             (seq 0 (Z.to_nat (nitems collision_batch))))
   <= Z.to_nat (hash_size collision_control))%nat /\
  gs_finished
    (@gpupreagg_global_stage sum_query 2 2 collision_control collision_batch
       stale_table
       ([] ++ round_robin 2 2 (Z.to_nat (hash_size collision_control))
           ++ round_robin 2 2 1)) = true.
Proof.
  assert (H0 : (0 < 2)%nat) by lia.
  assert (H1 : 0 < hash_size collision_control) by (vm_compute; reflexivity).
  assert (H2 : (Z.to_nat (hash_size collision_control) <= length stale_table)%nat)
    by (vm_compute; lia).
  pose proof (sum_query_contract collision_batch) as H3.
  assert (H4 : nitems collision_batch <= Z.of_nat (2 * 2) <= ALL_ONES)
    by (vm_compute; split; discriminate).
  assert (H5 : (length (@distinct_keys sum_query collision_batch
                          (seq 0 (Z.to_nat (nitems collision_batch))))
                <= Z.to_nat (hash_size collision_control))%nat)
    by (vm_compute; lia).
  repeat (split; [assumption|]).
  exact (proj2 (@global_retry_terminates sum_query 2 2 collision_control
                  collision_batch stale_table H0 H1 H2 H3 H4 [] H5)).
Defined.
